(** * bfx-report: the incremental synchronisation engine (DataInserter)
      and the JSON-RPC responder

    A shallow embedding of
    [workers/loc.api/sync/data.inserter/index.js] (class [DataInserter])
    and of the responder module, with the theorems that settle the
    claims C1..C10 of the specification.

    Conventions of the embedding.
    - JavaScript objects are finite maps from property names to
      values; an absent key reads as [undefined].
    - JavaScript numbers that are computed with are IEEE 754 doubles:
      the progress arithmetic rounds after every operation.
    - [async] methods are functions in a state-and-exception monad [M]
      that also records, in order, every externally visible action
      (gateway request, timed delay, DAO write, published progress
      value, post-sync hook call).
    - [while (true)] loops take a [fuel] argument; running out of fuel
      is a separate outcome ([OutOfFuel]), never confused with a
      normal return, and the totality lemmas say how much fuel is
      enough.
    - Schema objects live in a heap and are passed by reference, as in
      the source, so that aliasing between the registry of the
      DataInserter and the per-pass maps is visible. *)

From Stdlib Require Import ZArith QArith Qround Qabs Qpower Lia Lqa Ascii.
From stdpp Require Import base gmap list strings sorting pretty.

Open Scope Z_scope.

(** ** JavaScript data *)

(** Property values.  The records handled by the engine hold integer
    timestamps and strings (symbols, currencies, names); a value can
    also be a record itself, given by its entries. *)
#[warnings="-register-all"] Inductive value :=
| VInt (z : Z)
| VStr (s : string)
| VRec (entries : list (string * value)).

Definition value_eq_dec_all : ∀ a b : value, {a = b} + {a ≠ b}.
Proof.
  fix IH 1. intros [z1|s1|l1] [z2|s2|l2];
    try (right; discriminate).
  - destruct (Z.eq_dec z1 z2) as [->|Hne]; [by left|].
    right. intros [= ?]. contradiction.
  - destruct (String.string_dec s1 s2) as [->|Hne]; [by left|].
    right. intros [= ?]. contradiction.
  - assert (Hl : {l1 = l2} + {l1 ≠ l2}).
    { revert l2. induction l1 as [|[k1 v1] l1 IHl]; intros [|[k2 v2] l2];
        try (right; discriminate); [by left|].
      destruct (String.string_dec k1 k2) as [->|Hk];
        [|right; intros [= ? ? ?]; contradiction].
      destruct (IH v1 v2) as [->|Hv];
        [|right; intros [= ? ?]; contradiction].
      destruct (IHl l2) as [->|Hl];
        [by left|right; intros [= ?]; contradiction]. }
    destruct Hl as [->|Hne]; [by left|].
    right. intros [= ?]. contradiction.
Defined.

#[global] Instance value_eq_dec : EqDecision value := value_eq_dec_all.

(** A JS object: property name ↦ value. *)
Abbreviation obj := (gmap string value).

(** [Number.isInteger(v) && v] on a property read: an integer other
    than [0] ([0] is falsy). *)
Definition truthyInteger (v : option value) : option Z :=
  match v with
  | Some (VInt z) => if decide (z = 0) then None else Some z
  | _ => None
  end.

(** [lodash.isEmpty] on an object. *)
Definition isEmptyObj (o : obj) : bool := bool_decide (o = ∅).

(** Credentials.  A field is [None] when it is absent or not a
    string. *)
Record Auth := {
  apiKey : option string;
  apiSecret : option string
}.

(** Per-symbol boundaries of a configurable public collection. *)
Record Dates := {
  baseStartFrom : option Z;
  baseStartTo : option Z;
  currStart : option Z
}.

(** The [start] property of a schema (and of [params]): [null], a
    number, or the array of [[symbol, dates]] pairs of a configurable
    public collection. *)
Inductive StartVal :=
| StartNull
| StartNum (z : Z)
| StartArr (l : list (string * Dates)).

(** [ToNumber] on such a value, [None] being [NaN]: [null] and the
    empty array convert to [0]; an array of pairs converts to [NaN]. *)
Definition startToNumber (s : StartVal) : option Z :=
  match s with
  | StartNull => Some 0
  | StartNum z => Some z
  | StartArr [] => Some 0
  | StartArr (_ :: _) => None
  end.

Record Params := {
  params_limit : option Z;       (* [None]: undefined *)
  params_end : option Z;         (* [None]: not an integer *)
  params_start : StartVal;
  params_symbol : option string;
  notThrowError : bool;
  notCheckNextPage : bool
}.

Record Args := {
  args_auth : Auth;
  args_params : Params
}.

Definition set_end (e : option Z) (a : Args) : Args :=
  {| args_auth := args_auth a;
     args_params :=
       {| params_limit := params_limit (args_params a);
          params_end := e;
          params_start := params_start (args_params a);
          params_symbol := params_symbol (args_params a);
          notThrowError := notThrowError (args_params a);
          notCheckNextPage := notCheckNextPage (args_params a) |} |}.

Definition set_symbol (s : option string) (a : Args) : Args :=
  {| args_auth := args_auth a;
     args_params :=
       {| params_limit := params_limit (args_params a);
          params_end := params_end (args_params a);
          params_start := params_start (args_params a);
          params_symbol := s;
          notThrowError := notThrowError (args_params a);
          notCheckNextPage := notCheckNextPage (args_params a) |} |}.

Definition set_notThrowError (a : Args) : Args :=
  {| args_auth := args_auth a;
     args_params :=
       {| params_limit := params_limit (args_params a);
          params_end := params_end (args_params a);
          params_start := params_start (args_params a);
          params_symbol := params_symbol (args_params a);
          notThrowError := true;
          notCheckNextPage := notCheckNextPage (args_params a) |} |}.

Definition set_notCheckNextPage (a : Args) : Args :=
  {| args_auth := args_auth a;
     args_params :=
       {| params_limit := params_limit (args_params a);
          params_end := params_end (args_params a);
          params_start := params_start (args_params a);
          params_symbol := params_symbol (args_params a);
          notThrowError := notThrowError (args_params a);
          notCheckNextPage := true |} |}.

(** What the gateway may hand back. *)
Inductive jsdata :=
| DNull                       (* null / undefined / a non-object *)
| DObj (o : obj)              (* one record *)
| DObjs (l : list obj)        (* an array of records *)
| DVals (l : list value).     (* an array of scalars *)

Inductive ApiValue :=
| APage (res : jsdata) (nextPage : option Z)   (* { res, nextPage } *)
| AData (d : jsdata).                          (* a bare value *)

Inductive ApiResult (error : Type) :=
| Resolve (v : ApiValue)
| Reject (e : error).
Arguments Resolve {error} v.
Arguments Reject {error} e.

(** ** Schemas *)

Inductive CollKind :=
| InsertableArrObj     (* 'insertable:array:objects' *)
| UpdatableArrObj      (* 'updatable:array:objects' *)
| UpdatableArr.        (* 'updatable:array' *)

#[global] Instance CollKind_eq_dec : EqDecision CollKind.
Proof. solve_decision. Defined.

Record Schema := {
  name : string;
  kind : CollKind;
  isPublicColl : bool;           (* type starts with 'public:' *)
  maxLimit : option Z;
  dateFieldName : string;
  symbolFieldName : string;
  confName : string;
  sort : list (string * Z);
  field : string;                (* identity field, updatable:array *)
  fields : list string;          (* identity fields, updatable:array:objects *)
  model : list string;
  hasNewData : bool;
  start : StartVal
}.

Definition set_hasNewData (b : bool) (s : Schema) : Schema :=
  {| name := name s; kind := kind s; isPublicColl := isPublicColl s;
     maxLimit := maxLimit s; dateFieldName := dateFieldName s;
     symbolFieldName := symbolFieldName s; confName := confName s;
     sort := sort s; field := field s; fields := fields s;
     model := model s; hasNewData := b; start := start s |}.

Definition set_start (v : StartVal) (s : Schema) : Schema :=
  {| name := name s; kind := kind s; isPublicColl := isPublicColl s;
     maxLimit := maxLimit s; dateFieldName := dateFieldName s;
     symbolFieldName := symbolFieldName s; confName := confName s;
     sort := sort s; field := field s; fields := fields s;
     model := model s; hasNewData := hasNewData s; start := v |}.

(** References to schema objects. *)
Abbreviation loc := positive.

(** ** Observable actions *)

Inductive progress :=
| PNum (n : Z)
| MESS_ERR_UNAUTH.             (* 'ERR_AUTH_UNAUTHORIZED' *)

Inductive event :=
| EvRequest (methodApi : string) (args : Args) (isCheckCall : bool)
| EvDelay (ms : Z)
| EvInsertElemsToDb (coll : string) (auth : option Auth) (rows : list obj)
| EvRemoveElemsFromDbIfNotInLists
    (coll : string) (lists : list (string * list (option value)))
| EvInsertElemsToDbIfNotExists (coll : string) (rows : list obj)
| EvProgress (p : progress)
| EvHook (i : nat).

(** The stored credential set, as [getAuthFromDb] returns it. *)
Inductive AuthItem :=
| ItemNull                     (* typeof null === 'object' *)
| ItemObj (a : Auth)
| ItemOther.                   (* not an object *)

Inductive AuthStore :=
| AuthMissing                  (* null / undefined *)
| AuthNotMap
| AuthMap (l : list (string * AuthItem)).

Record ConfEntry := {
  conf_symbol : string;
  conf_start : option Z
}.

(** ** The environment of a DataInserter

    Everything the class reaches through [require] or through its
    collaborators and that is not part of the file: the error
    classifiers, the gateway ([apiMiddleware]), the clock, the DAO
    and the code of the hooks. *)
Class Env := {
  error : Type;
  (* ../../helpers *)
  isRateLimitError : error → bool;
  isNonceSmallError : error → bool;
  (* apiMiddleware; the first argument of [request] is the number of
     requests issued before this one, so that the answers may change
     over time *)
  hasMethod : string → bool;
  request : nat → string → Args → bool → ApiResult error;
  (* Date.now(), read once *)
  Date_now : Z;
  (* the DAO, over its own notion of storage *)
  Db : Type;
  getAuthFromDb : Db → AuthStore;
  getLastElemFromDb : Db → string → Auth → list (string * Z) → option obj;
  getElemInCollBy : Db → string → obj → list (string * Z) → option obj;
  getElemsInCollBy : Db → string → string → list ConfEntry;
  insertElemsToDb : Db → string → option Auth → list obj → Db;
  removeElemsFromDbIfNotInLists :
    Db → string → list (string * list (option value)) → Db;
  insertElemsToDbIfNotExists : Db → string → list obj → Db;
  (* ./helpers normalizeApiData: the per-record model transform, and
     what it makes of an element that is not a record *)
  modelTransform : list string → obj → obj;
  modelTransformOfScalar : list string → value → obj;
  (* [item[name]] on a string or a number, which goes through the
     prototype of its wrapper *)
  primitiveProperty : value → string → option value;
  (* the post-sync hooks are foreign code: what the call of the hook
     registered at a position does to the storage and to the schema
     objects, which it reaches through the DataInserter it is given *)
  callHook : nat → Db → gmap loc Schema → Db * gmap loc Schema;
  (* ../allowed.colls: the names of the two configurable public
     collections *)
  PUBLIC_TRADES : string;
  TICKERS_HISTORY : string
}.

(** What the call of a hook does: it throws, or it returns a value,
    which is a promise that is rejected or anything else (a promise
    that is fulfilled, a value that is not a promise). *)
Inductive HookCall :=
| HookThrows
| HookRejects
| HookResolves.

#[global] Instance HookCall_eq_dec : EqDecision HookCall.
Proof. solve_decision. Defined.

(** A post-sync hook: a function, or a value that is not a function. *)
Inductive Hook :=
| HookFn (call : HookCall)
| HookNotFn.

#[global] Instance Hook_eq_dec : EqDecision Hook.
Proof. solve_decision. Defined.

(** An observer of the progress, the registered handler or a listener
    of the 'progress' event: whether it takes the value it is given.
    [true]: it returns, and for the handler, which is awaited, the
    promise it returns is fulfilled; [false]: it throws, or for the
    handler, the promise it returns is rejected.  The first argument
    is the number of values passed to [setProgress] before this one,
    so that an observer may change its mind over time. *)
Definition Observer : Type := nat → progress → bool.

(** The fields of a DataInserter that the methods read. *)
Record DataInserter := {
  _methodCollMap : list (string * loc);     (* a Map, in insertion order *)
  _afterAllInsertsHooks : list Hook;
  _asyncProgressHandler : option Observer;  (* [None]: null *)
  _progressListeners : list Observer        (* listeners('progress') *)
}.

(** ** The monad of [async] methods *)

Inductive exn `{Env} :=
| FindMethodError
| ApiError (e : error)
| TypeError
| HookError (i : nat)          (* what the hook at position [i] throws *)
| HandlerError                 (* what the progress handler throws *)
| ListenerError (i : nat).     (* what the listener at position [i] throws *)

Inductive result `{Env} (A : Type) :=
| Ok (a : A)
| Throw (e : exn)
| OutOfFuel.
Arguments Ok {_ A} a.
Arguments Throw {_ A} e.
Arguments OutOfFuel {_ A}.

Record state `{Env} := {
  st_db : Db;
  st_heap : gmap loc Schema;
  st_reqs : nat;                 (* gateway requests issued so far *)
  st_published : nat             (* values passed to [setProgress] so far *)
}.

Definition M `{Env} (A : Type) : Type :=
  state → result A * state * list event.

Section Monad.
Context `{Env}.

Definition ret {A} (a : A) : M A := λ s, (Ok a, s, []).

Definition bind {A B} (m : M A) (f : A → M B) : M B := λ s,
  match m s with
  | (Ok a, s1, l1) =>
      let '(r, s2, l2) := f a s1 in (r, s2, l1 ++ l2)
  | (Throw e, s1, l1) => (Throw e, s1, l1)
  | (OutOfFuel, s1, l1) => (OutOfFuel, s1, l1)
  end.

Definition throw {A} (e : exn) : M A := λ s, (Throw e, s, []).
Definition out_of_fuel {A} : M A := λ s, (OutOfFuel, s, []).
Definition emit (e : event) : M unit := λ s, (Ok tt, s, [e]).
Definition get : M state := λ s, (Ok s, s, []).
Definition put (s' : state) : M unit := λ _, (Ok tt, s', []).
End Monad.

Notation "'let*' x ':=' m 'in' k" := (bind m (λ x, k))
  (at level 10, x name, m at level 100, k at level 200).
Notation "'let*' ' p ':=' m 'in' k" :=
  (bind m (λ x, match x with p => k end))
  (at level 10, p pattern, m at level 100, k at level 200).
Notation "'run' m 'in' k" := (bind m (λ _, k))
  (at level 10, m at level 100, k at level 200).

Section DataInserter.
Context `{Env}.

(** [for (const x of xs) { await body(x) }] *)
Fixpoint forEach {A} (xs : list A) (body : A → M unit) : M unit :=
  match xs with
  | [] => ret tt
  | x :: xs' => run body x in forEach xs' body
  end.

(** *** Collaborators seen as actions *)

Definition delay (ms : Z) : M unit := emit (EvDelay ms).

Definition apiMiddleware_request
    (methodApi : string) (args : Args) (isCheckCall : bool)
  : M (ApiResult error) :=
  let* s := get in
  run emit (EvRequest methodApi args isCheckCall) in
  run put {| st_db := st_db s; st_heap := st_heap s;
             st_reqs := S (st_reqs s);
             st_published := st_published s |} in
  ret (request (st_reqs s) methodApi args isCheckCall).

(** *** [_getDataFromApi] *)

(** The [while (true)] loop of [_getDataFromApi]; the two counters
    only grow and each is bounded, so [retryFuel] iterations are
    always enough ([_getDataFromApi_total]). *)
Fixpoint _getDataFromApi_loop (fuel : nat)
    (methodApi : string) (args : Args) (isCheckCall : bool)
    (countRateLimitError countNonceSmallError : Z) : M ApiValue :=
  match fuel with
  | O => out_of_fuel
  | S fuel' =>
      let* r := apiMiddleware_request methodApi args isCheckCall in
      match r with
      | Resolve res => ret res
      | Reject err =>
          if isRateLimitError err then
            let countRateLimitError := countRateLimitError + 1 in
            if 2 <? countRateLimitError then throw (ApiError err)
            else
              run delay 80000 in
              _getDataFromApi_loop fuel' methodApi args isCheckCall
                countRateLimitError countNonceSmallError
          else if isNonceSmallError err then
            let countNonceSmallError := countNonceSmallError + 1 in
            if 20 <? countNonceSmallError then throw (ApiError err)
            else
              run delay 1000 in
              _getDataFromApi_loop fuel' methodApi args isCheckCall
                countRateLimitError countNonceSmallError
          else throw (ApiError err)
      end
  end.

(** Two rate-limit retries, twenty nonce retries and one last
    attempt. *)
Definition retryFuel : nat := 23.

Definition _getDataFromApi
    (methodApi : string) (args : Args) (isCheckCall : bool)
  : M ApiValue :=
  if negb (hasMethod methodApi) then throw FindMethodError
  else _getDataFromApi_loop retryFuel methodApi args isCheckCall 0 0.

(** *** Helpers of [./helpers] used by the fetcher *)

(** Modelled from the spec: [checkCollType] (./helpers) is not part
    of the file.  The spec gives a schema a kind in
    {insertable-array-of-objects, updatable-array-of-objects,
    updatable-array} and a visibility in {account-scoped, public};
    the check succeeds when both agree with what the caller asks. *)
Definition checkCollType (k : CollKind) (coll : Schema) (isPublic : bool)
  : bool :=
  bool_decide (kind coll = k) && Bool.eqb (isPublicColl coll) isPublic.

Definition _isInsertableArrObjTypeOfColl coll isPublic :=
  checkCollType InsertableArrObj coll isPublic.
Definition _isUpdatableArrObjTypeOfColl coll isPublic :=
  checkCollType UpdatableArrObj coll isPublic.
Definition _isUpdatableArrTypeOfColl coll isPublic :=
  checkCollType UpdatableArr coll isPublic.

(** Modelled from the spec: [normalizeApiData] (./helpers) is not part
    of the file; the spec calls it the normalization applied to each
    raw record before persistence. *)
Definition normalizeApiData (res : list obj) (model : list string)
  : list obj :=
  map (modelTransform model) res.

(** *** DAO writes: the storage changes and the call is recorded *)

Definition dao_insertElemsToDb
    (collName : string) (auth : option Auth) (rows : list obj) : M unit :=
  let* s := get in
  run emit (EvInsertElemsToDb collName auth rows) in
  put {| st_db := insertElemsToDb (st_db s) collName auth rows;
         st_heap := st_heap s; st_reqs := st_reqs s;
         st_published := st_published s |}.

Definition dao_removeElemsFromDbIfNotInLists
    (collName : string) (lists : list (string * list (option value)))
  : M unit :=
  let* s := get in
  run emit (EvRemoveElemsFromDbIfNotInLists collName lists) in
  put {| st_db := removeElemsFromDbIfNotInLists (st_db s) collName lists;
         st_heap := st_heap s; st_reqs := st_reqs s;
         st_published := st_published s |}.

Definition dao_insertElemsToDbIfNotExists
    (collName : string) (rows : list obj) : M unit :=
  let* s := get in
  run emit (EvInsertElemsToDbIfNotExists collName rows) in
  put {| st_db := insertElemsToDbIfNotExists (st_db s) collName rows;
         st_heap := st_heap s; st_reqs := st_reqs s;
         st_published := st_published s |}.

(** *** Reading and writing schema objects *)

Definition readSchema (l : loc) : M Schema :=
  let* s := get in
  match st_heap s !! l with
  | Some sc => ret sc
  | None => throw TypeError
  end.

Definition writeSchema (l : loc) (f : Schema → Schema) : M unit :=
  let* s := get in
  match st_heap s !! l with
  | Some sc =>
      put {| st_db := st_db s; st_heap := <[l := f sc]> (st_heap s);
             st_reqs := st_reqs s;
         st_published := st_published s |}
  | None => throw TypeError
  end.

(** *** [_insertApiDataArrObjTypeToDb] *)

(** [const { res, nextPage } = value]: destructuring [null] throws;
    an array or a plain record has neither property. *)
Definition destructurePage (v : ApiValue) : M (jsdata * option Z) :=
  match v with
  | APage res nextPage => ret (res, nextPage)
  | AData DNull => throw TypeError
  | AData _ => ret (DNull, None)
  end.

(** [res && Array.isArray(res) && res.length === 0] *)
Definition isEmptyArray (res : jsdata) : bool :=
  match res with
  | DObjs [] | DVals [] => true
  | _ => false
  end.

(** [nextPage && Number.isInteger(nextPage)] *)
Definition isCursor (nextPage : option Z) : bool :=
  match nextPage with
  | Some n => negb (n =? 0)
  | None => false
  end.

(** [start <= item[dateFieldName]] with a numeric [start]; a date
    that is absent compares as [NaN], and so does a string, which the
    data model does not put in a date field. *)
Definition startLeDate (start : StartVal) (dateFieldName : string)
    (item : obj) : bool :=
  match startToNumber start, item !! dateFieldName with
  | Some s, Some (VInt d) => s <=? d
  | _, _ => false
  end.

(** [start >= currTime] *)
Definition startGeTime (start : StartVal) (currTime : Z) : bool :=
  match startToNumber start with
  | Some s => currTime <=? s
  | None => false
  end.

(** [res.splice(n)]: keeps the elements before index [n]; a negative
    [n] counts from the end. *)
Definition splice_keep {A} (n : Z) (res : list A) : list A :=
  if n <? 0 then take (Z.to_nat (Z.max (Z.of_nat (length res) + n) 0)) res
  else take (Z.to_nat n) res.

(** [limit < x], [limit - count <= 0]; an undefined limit gives
    [NaN] and both tests fail. *)
Definition limitLt (limit : option Z) (x : Z) : bool :=
  match limit with Some l => l <? x | None => false end.
Definition needElemsLe0 (limit : option Z) (count : Z) : bool :=
  match limit with Some l => l - count <=? 0 | None => false end.

Definition len {A} (l : list A) : Z := Z.of_nat (length l).

(** The two adjustments of a page before it is persisted, with the
    resulting [isAllData] flag: the clip at the [start] boundary

      if (_args.params.start >= currTime) {
        res = res.filter((item) => _args.params.start <= item[dateFieldName])
        isAllData = true
      }

    and the truncation to the remaining budget

      if (_args.params.limit < (count + res.length)) {
        res.splice(_args.params.limit - count)
        isAllData = true
      } *)
Definition clipPage (dateFieldName : string) (_args : Args) (count : Z)
    (res : list obj) (currTime : Z) : list obj * bool :=
  let start := params_start (args_params _args) in
  let limit := params_limit (args_params _args) in
  let '(res, isAllData) :=
    if startGeTime start currTime
    then (List.filter (startLeDate start dateFieldName) res, true)
    else (res, false) in
  if limitLt limit (count + len res)
  then (match limit with
        | Some l => splice_keep (l - count) res
        | None => res
        end, true)
  else (res, isAllData).

(** The [while (true)] loop.  [_args] is the immutable copy of the
    arguments, [currIterationArgs] the window of the next request. *)
Fixpoint _insertApiDataArrObjTypeToDb_loop (fuel : nat)
    (methodApi collName dateFieldName : string) (model : list string)
    (isPublic : bool) (_args : Args)
    (currIterationArgs : Args) (count serialRequestsCount : Z)
  : M unit :=
  match fuel with
  | O => out_of_fuel
  | S fuel' =>
      let* v := _getDataFromApi methodApi currIterationArgs false in
      let* '(res, nextPage) := destructurePage v in
      let currIterationArgs := set_end nextPage currIterationArgs in
      if isEmptyArray res && isCursor nextPage
         && (serialRequestsCount <? 1)
      then
        _insertApiDataArrObjTypeToDb_loop fuel' methodApi collName
          dateFieldName model isPublic _args
          currIterationArgs count (serialRequestsCount + 1)
      else
        match res with
        | DObjs items =>
            match last items with
            | None => ret tt                    (* res.length === 0 *)
            | Some lastItem =>
                match truthyInteger (lastItem !! dateFieldName) with
                | None => ret tt
                | Some currTime =>
                    let limit := params_limit (args_params _args) in
                    let '(res, isAllData) :=
                      clipPage dateFieldName _args count items currTime in
                    run dao_insertElemsToDb collName
                          (if isPublic then None
                           else Some (args_auth _args))
                          (normalizeApiData res model) in
                    let count := count + len res in
                    if isAllData || needElemsLe0 limit count
                       || negb (isCursor nextPage)
                    then ret tt
                    else
                      let currIterationArgs :=
                        match params_end (args_params currIterationArgs) with
                        | Some _ => currIterationArgs
                        | None => set_end (Some (currTime - 1))
                                    currIterationArgs
                        end in
                      _insertApiDataArrObjTypeToDb_loop fuel' methodApi
                        collName dateFieldName model isPublic _args
                        currIterationArgs count 0
                end
            end
        | _ => ret tt     (* null, a single record, an array of scalars *)
        end
  end.

Definition _insertApiDataArrObjTypeToDb (fuel : nat)
    (args : Args) (methodApi : string) (schema : loc) (isPublic : bool)
  : M unit :=
  let* sc := readSchema schema in
  if negb (_isInsertableArrObjTypeOfColl sc isPublic) then ret tt
  else
    let _args := set_notThrowError args in
    _insertApiDataArrObjTypeToDb_loop fuel methodApi (name sc)
      (dateFieldName sc) (model sc) isPublic _args _args 0 0.

(** *** [_getMethodArgMap] and [_getMethodCollMap] *)

(** [map.get(method)] on a Map kept in insertion order. *)
Definition Map_get (m : list (string * loc)) (method : string)
  : option loc :=
  snd <$> List.find (λ e, bool_decide (fst e = method)) m.

(** [_getMethodArgMap (method, auth, limit, start = 0,
    end = Date.now())].  [auth = None] is a value that is not an
    object; [limit = None] is [null]; an omitted [start] or [end] is
    [None] and takes the default. *)
Definition methodArgMap (auth : option Auth) (limit : option Z)
    (start : option StartVal) (end_ : option (option Z)) : Args :=
  {| args_auth :=
       match auth with
       | Some a => a
       | None => {| apiKey := Some ""; apiSecret := Some "" |}
       end;
     args_params :=
       {| params_limit := limit;
          params_end := default (Some Date_now) end_;
          params_start := default (StartNum 0) start;
          params_symbol := None;
          notThrowError := false;
          notCheckNextPage := false |} |}.

Definition _getMethodArgMap (this : DataInserter)
    (method : string) (auth : option Auth) (limit : option Z)
    (start : option StartVal) (end_ : option (option Z)) : M Args :=
  let* limit :=
    match limit with
    | Some l => ret (Some l)
    | None =>
        (* this._methodCollMap.get(method).maxLimit *)
        match Map_get (_methodCollMap this) method with
        | Some l => let* sc := readSchema l in ret (maxLimit sc)
        | None => throw TypeError
        end
    end in
  ret (methodArgMap auth limit start end_).

(** [new Map(this._methodCollMap)]: a new Map holding the same
    schema objects. *)
Definition _getMethodCollMap (this : DataInserter)
  : list (string * loc) :=
  _methodCollMap this.

(** *** The cursor / delta detector *)

(** [lodash.isEmpty] on what the gateway and the DAO return. *)
Definition isEmptyData (d : jsdata) : bool :=
  match d with
  | DNull => true
  | DObj o => isEmptyObj o
  | DObjs l => bool_decide (l = [])
  | DVals l => bool_decide (l = [])
  end.

Definition isEmptyElem (o : option obj) : bool :=
  match o with
  | None => true
  | Some o => isEmptyObj o
  end.

(** The record a probe answer stands for: the record itself, or the
    first (newest) element of an array. *)
Definition newestRecord (d : jsdata) : option obj :=
  match d with
  | DObj o => Some o
  | DObjs (o :: _) => Some o
  | _ => None
  end.

(** Modelled from the spec: [compareElemsDbAndApi] (./helpers) is not
    part of the file.  The spec (4.4) has the detector compute the
    date of the newest stored record and test whether the date of the
    probe is strictly greater; the caller adds [1] to what the helper
    returns and tests it for truthiness, so the helper yields the
    stored date when the probe is strictly newer and [false]
    ([None]) otherwise. *)
Definition compareElemsDbAndApi (dateFieldName : string)
    (elDb : obj) (elApi : jsdata) : option Z :=
  match elDb !! dateFieldName,
        newestRecord elApi ≫= (λ o, o !! dateFieldName) with
  | Some (VInt db), Some (VInt api) =>
      if db <? api then Some db else None
  | _, _ => None
  end.

(** [if (x)] on such a result: a number other than [0]. *)
Definition truthy (x : option Z) : option Z :=
  match x with
  | Some z => if decide (z = 0) then None else Some z
  | None => None
  end.

(** Modelled from the spec: [invertSort] (./helpers) is not part of
    the file; the spec reads the first record with the inverted
    sort. *)
Definition invertSort (sort : list (string * Z)) : list (string * Z) :=
  map (λ e, (fst e, - snd e)) sort.

Definition emptyAuth : Auth := {| apiKey := None; apiSecret := None |}.

Definition _checkItemNewDataArrObjType (this : DataInserter)
    (method : string) (schema : loc) (auth : option Auth) : M unit :=
  run writeSchema schema (set_hasNewData false) in
  let* args := _getMethodArgMap this method auth (Some 1) None None in
  let args := set_notCheckNextPage (set_notThrowError args) in
  let* sc := readSchema schema in
  let* s := get in
  let lastElemFromDb :=
    getLastElemFromDb (st_db s) (name sc) (default emptyAuth auth)
      (sort sc) in
  let* v := _getDataFromApi method args true in
  let* '(lastElemFromApi, _) := destructurePage v in
  if isEmptyData lastElemFromApi then ret tt
  else
    match lastElemFromDb with
    | Some elDb =>
        if isEmptyObj elDb then
          run writeSchema schema (set_hasNewData true) in
          writeSchema schema (set_start (StartNum 0))
        else
          let lastDateInDb :=
            compareElemsDbAndApi (dateFieldName sc) elDb lastElemFromApi in
          match truthy lastDateInDb with
          | Some lastDateInDb =>
              run writeSchema schema (set_hasNewData true) in
              writeSchema schema (set_start (StartNum (lastDateInDb + 1)))
          | None => ret tt
          end
    | None =>
        run writeSchema schema (set_hasNewData true) in
        writeSchema schema (set_start (StartNum 0))
    end.

Definition _checkNewDataArrObjType (this : DataInserter)
    (auth : option Auth) (methodCollMap : list (string * loc)) : M unit :=
  forEach methodCollMap (λ '(method, item),
    let* sc := readSchema item in
    if negb (_isInsertableArrObjTypeOfColl sc false) then ret tt
    else _checkItemNewDataArrObjType this method item auth).

(** [schema.start.push(entry)]; [push] exists on arrays only. *)
Definition start_push (schema : loc) (entry : string * Dates) : M unit :=
  let* sc := readSchema schema in
  match start sc with
  | StartArr l => writeSchema schema (set_start (StartArr (l ++ [entry])))
  | _ => throw TypeError
  end.

(** The test that makes the detector skip a symbol: the probe is
    empty, or it is an array whose first record names another
    symbol. *)
Definition probeOfOtherSymbol (symbFieldName symbol : string)
    (lastElemFromApi : jsdata) : bool :=
  match lastElemFromApi with
  | DObjs (o :: _) =>
      match o !! symbFieldName with
      | Some (VStr s) =>
          negb (bool_decide (s = "")) && negb (bool_decide (s = symbol))
      | _ => false
      end
  | _ => false
  end.

Definition _checkNewConfigurablePublicData_symbol (this : DataInserter)
    (method : string) (schema : loc) (sc : Schema) (e : ConfEntry)
  : M unit :=
  let symbol := conf_symbol e in
  let start := conf_start e in
  let symbFieldName := symbolFieldName sc in
  let* args :=
    _getMethodArgMap this method (Some emptyAuth) (Some 1) None None in
  let args :=
    set_symbol (Some symbol)
      (set_notCheckNextPage (set_notThrowError args)) in
  let filter : obj := {[ symbFieldName := VStr symbol ]} in
  let* s := get in
  let lastElemFromDb :=
    getElemInCollBy (st_db s) (name sc) filter (sort sc) in
  let* v := _getDataFromApi method args true in
  let* '(lastElemFromApi, _) := destructurePage v in
  if isEmptyData lastElemFromApi
     || probeOfOtherSymbol symbFieldName symbol lastElemFromApi
  then ret tt
  else if isEmptyElem lastElemFromDb then
    run writeSchema schema (set_hasNewData true) in
    start_push schema
      (symbol, {| baseStartFrom := None; baseStartTo := None;
                  currStart := start |})
  else
    let elDb := default ∅ lastElemFromDb in
    let lastDateInDb :=
      truthy (compareElemsDbAndApi (dateFieldName sc) elDb
                lastElemFromApi) in
    run match lastDateInDb with
        | Some _ => writeSchema schema (set_hasNewData true)
        | None => ret tt
        end in
    let currStart := (λ d, d + 1) <$> lastDateInDb in
    let* s := get in
    let firstElemFromDb :=
      getElemInCollBy (st_db s) (name sc) filter (invertSort (sort sc)) in
    let isChangedBaseStart :=
      if isEmptyElem firstElemFromDb then None
      else
        truthy (compareElemsDbAndApi (dateFieldName sc)
                  (match start with
                   | Some z => {[ dateFieldName sc := VInt z ]}
                   | None => ∅
                   end)
                  (DObj (default ∅ firstElemFromDb))) in
    match isChangedBaseStart with
    | Some _ =>
        run writeSchema schema (set_hasNewData true) in
        start_push schema
          (symbol,
           {| baseStartFrom := start;
              baseStartTo :=
                match default ∅ firstElemFromDb !! dateFieldName sc with
                | Some (VInt d) => Some (d - 1)
                | _ => None
                end;
              currStart := currStart |})
    | None =>
        start_push schema
          (symbol, {| baseStartFrom := None; baseStartTo := None;
                      currStart := currStart |})
    end.

Definition _checkNewConfigurablePublicData (this : DataInserter)
    (method : string) (schema : loc) : M unit :=
  run writeSchema schema (set_hasNewData false) in
  let* sc := readSchema schema in
  let* s := get in
  (* the source spells the collection name with two Cyrillic letters *)
  let publicCollsConf :=
    getElemsInCollBy (st_db s) "publicCollsConf" (confName sc) in
  forEach publicCollsConf
    (_checkNewConfigurablePublicData_symbol this method schema sc).

Definition isConfigurable (sc : Schema) : bool :=
  bool_decide (name sc = PUBLIC_TRADES)
  || bool_decide (name sc = TICKERS_HISTORY).

Definition _checkNewDataPublicArrObjType (this : DataInserter)
    (methodCollMap : list (string * loc)) : M unit :=
  forEach methodCollMap (λ '(method, item),
    let* sc := readSchema item in
    if negb (_isInsertableArrObjTypeOfColl sc true) then ret tt
    else if isConfigurable sc then
      _checkNewConfigurablePublicData this method item
    else _checkItemNewDataArrObjType this method item None).

(** Modelled from the spec: [filterMethodCollMap] (./helpers) is not
    part of the file.  In the spec the [hasNewData] flag gates
    whether fetch work is attempted at all (3), and filtering keeps
    only the schemas whose visibility agrees with the caller's
    intent (4.1): account-scoped ones for an account pass, public
    ones for the public pass. *)
Definition filterMethodCollMap
    (methodCollMap : list (string * loc)) (isPublic : bool)
  : M (list (string * loc)) :=
  let* s := get in
  ret (List.filter
         (λ e, match st_heap s !! snd e with
               | Some sc =>
                   hasNewData sc && Bool.eqb (isPublicColl sc) isPublic
               | None => false
               end)
         methodCollMap).

Definition checkNewData (this : DataInserter) (auth : option Auth)
  : M (list (string * loc)) :=
  let methodCollMap := _getMethodCollMap this in
  run _checkNewDataArrObjType this auth methodCollMap in
  filterMethodCollMap methodCollMap false.

Definition checkNewPublicData (this : DataInserter)
  : M (list (string * loc)) :=
  let methodCollMap := _getMethodCollMap this in
  run _checkNewDataPublicArrObjType this methodCollMap in
  filterMethodCollMap methodCollMap true.

(** *** Public insertable collections *)

Definition _insertConfigurablePublicApiData (this : DataInserter)
    (fuel : nat) (methodApi : string) (schema : loc)
    (symbol : string) (dates : Dates) : M unit :=
  run match baseStartFrom dates, baseStartTo dates with
      | Some from, Some to =>
          let* args :=
            _getMethodArgMap this methodApi None (Some 10000000)
              (Some (StartNum from)) (Some (Some to)) in
          let args := set_symbol (Some symbol) args in
          _insertApiDataArrObjTypeToDb fuel args methodApi schema true
      | _, _ => ret tt
      end in
  match currStart dates with
  | Some curr =>
      let* args :=
        _getMethodArgMap this methodApi None (Some 10000000)
          (Some (StartNum curr)) None in
      let args := set_symbol (Some symbol) args in
      _insertApiDataArrObjTypeToDb fuel args methodApi schema true
  | None => ret tt
  end.

Definition _insertApiDataPublicArrObjTypeToDb (this : DataInserter)
    (fuel : nat) (methodApi : string) (schema : loc) : M unit :=
  let* sc := readSchema schema in
  if negb (_isInsertableArrObjTypeOfColl sc true) then ret tt
  else if isConfigurable sc then
    match start sc with
    | StartArr l =>
        forEach l (λ '(symbol, dates),
          _insertConfigurablePublicApiData this fuel methodApi schema
            symbol dates)
    | _ => throw TypeError     (* a number or null is not iterable *)
    end
  else ret tt.

(** *** Updatable collections *)

(** An element of an array that the gateway hands back. *)
Inductive item :=
| IRec (o : obj)
| IVal (v : value).

(** [Array.isArray(elemsFromApi)], with the elements. *)
Definition arrayOf (elemsFromApi : ApiValue) : option (list item) :=
  match elemsFromApi with
  | AData (DObjs l) => Some (IRec <$> l)
  | AData (DVals l) => Some (IVal <$> l)
  | _ => None
  end.

(** An element as a property value. *)
Definition itemValue (i : item) : value :=
  match i with
  | IRec o => VRec (map_to_list o)
  | IVal v => v
  end.

(** [item[curr]] *)
Definition itemGet (i : item) (curr : string) : option value :=
  match i with
  | IRec o => o !! curr
  | IVal (VRec entries) =>
      snd <$> List.find (λ e, bool_decide (fst e = curr)) entries
  | IVal v => primitiveProperty v curr
  end.

(** [normalizeApiData] on the elements of any array. *)
Definition normalizeApiItem (model : list string) (i : item) : obj :=
  match i with
  | IRec o => modelTransform model o
  | IVal v => modelTransformOfScalar model v
  end.

Definition normalizeApiItems (elems : list item) (model : list string)
  : list obj :=
  map (normalizeApiItem model) elems.

Definition _updateApiDataArrTypeToDb (this : DataInserter)
    (methodApi : string) (schema : loc) : M unit :=
  let* sc := readSchema schema in
  if negb (_isUpdatableArrTypeOfColl sc true) then ret tt
  else
    let* args :=
      _getMethodArgMap this methodApi (Some emptyAuth) None
        (Some StartNull) (Some None) in
    let* elemsFromApi := _getDataFromApi methodApi args false in
    match arrayOf elemsFromApi with
    | Some (x :: l) =>
        let elems := x :: l in
        run dao_removeElemsFromDbIfNotInLists (name sc)
              [(field sc, map (λ item, Some (itemValue item)) elems)] in
        dao_insertElemsToDbIfNotExists (name sc)
          (map (λ item, ({[ field sc := itemValue item ]} : obj)) elems)
    | _ => ret tt                     (* not an array, or an empty one *)
    end.

Definition _updateApiDataArrObjTypeToDb (this : DataInserter)
    (methodApi : string) (schema : loc) : M unit :=
  let* sc := readSchema schema in
  if negb (_isUpdatableArrObjTypeOfColl sc true) then ret tt
  else
    let* args :=
      _getMethodArgMap this methodApi (Some emptyAuth) None
        (Some StartNull) (Some None) in
    let* elemsFromApi := _getDataFromApi methodApi args false in
    match arrayOf elemsFromApi with
    | Some (x :: l) =>
        let elems := x :: l in
        let lists :=
          map (λ curr, (curr, map (λ item, itemGet item curr) elems))
            (fields sc) in
        run dao_removeElemsFromDbIfNotInLists (name sc) lists in
        dao_insertElemsToDbIfNotExists (name sc)
          (normalizeApiItems elems (model sc))
    | _ => ret tt                     (* not an array, or an empty one *)
    end.

(** *** Progress *)

(** [this.emit('progress', progress)]: the listeners are called in
    order, and what one of them throws goes to the caller. *)
Fixpoint emitProgress (i n : nat) (p : progress)
    (listeners : list Observer) : M unit :=
  match listeners with
  | [] => ret tt
  | listener :: listeners' =>
      if listener n p then emitProgress (S i) n p listeners'
      else throw (ListenerError i)
  end.

(** [setProgress]: the value goes to the registered handler, if any,
    which is awaited, and then to the listeners of the 'progress'
    event.  [EvProgress p] records that [p] was passed to
    [setProgress]. *)
Definition setProgress (this : DataInserter) (p : progress) : M unit :=
  let* s := get in
  let n := st_published s in
  run put {| st_db := st_db s; st_heap := st_heap s;
             st_reqs := st_reqs s; st_published := S n |} in
  run emit (EvProgress p) in
  run match _asyncProgressHandler this with
      | Some handler => if handler n p then ret tt else throw HandlerError
      | None => ret tt
      end in
  emitProgress 0 n p (_progressListeners this).

(** **** Numbers

    The progress values are computed in IEEE 754 binary64 arithmetic:
    every operation gives the double that is nearest to the exact
    result, ties going to the even significand.  A number is given
    here by its exact rational value, or is [None] when it is not a
    finite number ([undefined] converted to a number, [NaN], an
    infinity); every operation on such a value is taken to stay in
    this class. *)

Definition pow2 (e : Z) : Q := (2 ^ e)%Q.

(** The exponent [e] of a positive rational: [2^e <= q < 2^(e+1)]. *)
Definition ilog2 (q : Q) : Z :=
  let e := Z.log2 (Qnum q) - Z.log2 (Zpos (Qden q)) in
  if Qle_bool (pow2 e) q then e else e - 1.

Definition roundNearestEven (x : Q) : Z :=
  let n := Qfloor x in
  match (x - inject_Z n ?= 1 # 2)%Q with
  | Lt => n
  | Gt => n + 1
  | Eq => if Z.even n then n else n + 1
  end.

(** The exponent of the last place of the doubles next to [a]: 53
    significant bits, and 2^-1074 for the subnormal numbers. *)
Definition exponentOf (a : Q) : Z := Z.max (ilog2 a - 52) (-1074).

Definition nearest (a : Q) : Q :=
  let e := exponentOf a in
  (inject_Z (roundNearestEven (a / pow2 e)) * pow2 e)%Q.

(** The double that an exact result is rounded to; [None] when it
    lies beyond the largest double. *)
Definition toDouble (q : Q) : option Q :=
  let a := Qabs q in
  if Qle_bool a 0 then Some 0%Q
  else
    let r := nearest a in
    if Qle_bool (pow2 1024) r then None
    else Some (Qred (if Qle_bool 0 q then r else - r)).

Definition js_binop (op : Q → Q → Q) (x y : option Q) : option Q :=
  a ← x; b ← y; toDouble (op a b).

Definition js_add := js_binop Qplus.
Definition js_sub := js_binop Qminus.
Definition js_mul := js_binop Qmult.

(** [a / b] on two integer counts; a division by [0] does not give a
    finite number. *)
Definition js_div (a b : Z) : option Q :=
  if b =? 0 then None else toDouble (inject_Z a / inject_Z b).

(** [x / 100] *)
Definition js_div100 (x : option Q) : option Q :=
  a ← x; toDouble (a / inject_Z 100).

Definition js_num (z : Z) : option Q := toDouble (inject_Z z).

(** [Math.round] gives the nearest integer, halves going upwards. *)
Definition roundHalfUp (q : Q) : Z := Qfloor (q + (1 # 2))%Q.

Definition Math_round (x : option Q) : option Z := roundHalfUp <$> x.

Definition lt100 (p : option Z) : bool :=
  match p with
  | Some n => n <? 100
  | None => false
  end.

(** [if (progress < 100) { await this.setProgress(progress) }] *)
Definition publish (this : DataInserter) (p : option Z) : M unit :=
  match p with
  | Some n => if n <? 100 then setProgress this (PNum n) else ret tt
  | None => ret tt
  end.

(** [Math.round((count / size) * 100 * userProgress)] *)
Definition userProgressValue (count size : Z) (userProgress : option Q)
  : option Z :=
  Math_round
    (js_mul (js_mul (js_div count size) (js_num 100)) userProgress).

(** [Math.round(prevProgress + (count / size) * 100 *
    ((100 - prevProgress) / 100))] *)
Definition publicProgressValue (count size : Z) (prevProgress : option Z)
  : option Z :=
  let prev := prevProgress ≫= js_num in
  Math_round
    (js_add prev
       (js_mul (js_mul (js_div count size) (js_num 100))
          (js_div100 (js_sub (js_num 100) prev)))).

(** *** The orchestrator *)

(** The body of a [for ... of] loop that counts its iterations and
    keeps the last progress value. *)
Fixpoint forCount {A} (xs : list A) (count : Z) (progress : option Z)
    (body : A → Z → M (option Z)) : M (option Z) :=
  match xs with
  | [] => ret progress
  | x :: xs' =>
      let count := count + 1 in
      let* progress := body x count in
      forCount xs' count progress body
  end.

Definition insertNewDataToDb (this : DataInserter) (fuel : nat)
    (auth : option Auth) (userProgress : option Q) : M (option Z) :=
  match auth with
  | None => throw TypeError                        (* null.apiKey *)
  | Some a =>
      match apiKey a, apiSecret a with
      | Some _, Some _ =>
          let* methodCollMap := checkNewData this auth in
          let size := len (_methodCollMap this) in
          forCount methodCollMap 0 (Some 0) (λ '(method, item) count,
            let* sc := readSchema item in
            let* args :=
              _getMethodArgMap this method auth (Some 10000000)
                (Some (start sc)) None in
            run _insertApiDataArrObjTypeToDb fuel args method item false in
            let progress := userProgressValue count size userProgress in
            run publish this progress in
            ret progress)
      | _, _ =>
          run setProgress this MESS_ERR_UNAUTH in
          ret None
      end
  end.

Definition insertNewPublicDataToDb (this : DataInserter) (fuel : nat)
    (prevProgress : option Z) : M unit :=
  let* methodCollMap := checkNewPublicData this in
  let size := len methodCollMap in
  let* _ :=
    forCount methodCollMap 0 (Some 0) (λ '(method, item) count,
      run _updateApiDataArrObjTypeToDb this method item in
      run _updateApiDataArrTypeToDb this method item in
      run _insertApiDataPublicArrObjTypeToDb this fuel method item in
      let progress := publicProgressValue count size prevProgress in
      run publish this progress in
      ret progress) in
  ret tt.

(** The call [hook(this)] of the hook at position [i]: the hook does
    what it does to the storage and to the schema objects.
    [EvHook i] records the call. *)
Definition hookCalled (i : nat) : M unit :=
  let* s := get in
  run emit (EvHook i) in
  let '(db, heap) := callHook i (st_db s) (st_heap s) in
  put {| st_db := db; st_heap := heap;
         st_reqs := st_reqs s; st_published := st_published s |}.

(** [hooks.map(hook => hook(this))]: the hooks are called in order;
    when one of them throws, the later ones are not called. *)
Fixpoint startHooks (i : nat) (hooks : list Hook) : M unit :=
  match hooks with
  | [] => ret tt
  | hook :: hooks' =>
      run hookCalled i in
      match hook with
      | HookFn HookThrows => throw (HookError i)
      | _ => startHooks (S i) hooks'
      end
  end.

(** [Promise.all(promiseArr)] rejects with the reason of the first
    promise that is rejected. *)
Definition firstRejected (hooks : list Hook) : option nat :=
  fst <$> List.find (λ e, match snd e with
                          | HookFn HookRejects => true
                          | _ => false
                          end)
            (imap (λ i h, (i, h)) hooks).

Definition _afterAllInserts (this : DataInserter) : M unit :=
  let hooks := _afterAllInsertsHooks this in
  if bool_decide (hooks = [])
     || existsb (λ h, match h with HookNotFn => true | _ => false end)
          hooks
  then ret tt
  else
    run startHooks 0 hooks in
    match firstRejected hooks with
    | Some i => throw (HookError i)
    | None => ret tt
    end.

(** The [for (const authItem of this._auth)] loop of
    [insertNewDataToDbMultiUser]. *)
Fixpoint insertNewDataToDbMultiUser_loop (this : DataInserter)
    (fuel : nat) (size : Z) (items : list (string * AuthItem))
    (count : Z) (progress : option Z) : M (option Z) :=
  match items with
  | [] => ret progress
  | authItem :: items' =>
      match snd authItem with
      | ItemOther =>                  (* typeof authItem[1] !== 'object' *)
          insertNewDataToDbMultiUser_loop this fuel size items'
            count progress
      | ItemNull | ItemObj _ =>
          let count := count + 1 in
          let userProgress := js_div count size in
          let* progress :=
            insertNewDataToDb this fuel
              (match snd authItem with
               | ItemObj a => Some a
               | _ => None
               end)
              userProgress in
          insertNewDataToDbMultiUser_loop this fuel size items'
            count progress
      end
  end.

Definition insertNewDataToDbMultiUser (this : DataInserter) (fuel : nat)
  : M unit :=
  let* s := get in
  match getAuthFromDb (st_db s) with
  | AuthMissing | AuthNotMap | AuthMap [] =>
      setProgress this MESS_ERR_UNAUTH
  | AuthMap _auth =>
      let* progress :=
        insertNewDataToDbMultiUser_loop this fuel (len _auth) _auth
          0 (Some 0) in
      run insertNewPublicDataToDb this fuel progress in
      run _afterAllInserts this in
      setProgress this (PNum 100)
  end.

(** ** Reading a run *)

Definition isRequest (e : event) : bool :=
  match e with EvRequest _ _ _ => true | _ => false end.

(** The gateway requests of a run, in order. *)
Definition requestsOf (evs : list event) : list event :=
  List.filter isRequest evs.

(** The timed delays of a run, in order. *)
Definition delaysOf (evs : list event) : list Z :=
  omap (λ e, match e with EvDelay ms => Some ms | _ => None end) evs.

(** The pages handed to [dao.insertElemsToDb], in order. *)
Definition insertedPages (evs : list event) : list (list obj) :=
  omap (λ e, match e with
             | EvInsertElemsToDb _ _ rows => Some rows
             | _ => None
             end) evs.

(** The records persisted through [dao.insertElemsToDb]. *)
Definition persisted (evs : list event) : list obj :=
  concat (insertedPages evs).

Definition isDaoWrite (e : event) : bool :=
  match e with
  | EvInsertElemsToDb _ _ _
  | EvRemoveElemsFromDbIfNotInLists _ _
  | EvInsertElemsToDbIfNotExists _ _ => true
  | _ => false
  end.

(** The date a record holds in a field, when it is an integer. *)
Definition dateIn (dateFieldName : string) (o : option obj) : option Z :=
  o ≫= λ o, match o !! dateFieldName with
            | Some (VInt d) => Some d
            | _ => None
            end.

Definition setHeap (h : gmap loc Schema) (s : state) : state :=
  {| st_db := st_db s; st_heap := h; st_reqs := st_reqs s;
         st_published := st_published s |}.

(** The arguments of a probe: one record, errors and next-page checks
    suppressed. *)
Definition probeArgs (auth : option Auth) : Args :=
  set_notCheckNextPage
    (set_notThrowError (methodArgMap auth (Some 1) None None)).

(** An action that is not a published progress value. *)
Definition silent (e : event) : Prop :=
  match e with
  | EvProgress _ => False
  | _ => True
  end.

(** An action that is not a numeric progress value of 100 or more. *)
Definition belowHundred (e : event) : Prop :=
  match e with
  | EvProgress (PNum n) => n < 100
  | _ => True
  end.

(** Every action of [m], however it ends, satisfies [P]. *)
Definition emitsOnly {A} (P : event → Prop) (m : M A) : Prop :=
  ∀ s, Forall P (snd (m s)).

(** What [m] returns, when it returns, satisfies [R]. *)
Definition returns {A} (m : M A) (R : A → Prop) : Prop :=
  ∀ s a, fst (fst (m s)) = Ok a → R a.

(** With the fuel it is given, [m] returns or throws. *)
Definition terminates {A} (m : M A) : Prop :=
  ∀ s, fst (fst (m s)) ≠ OutOfFuel.

(** The fuel that is enough for every pagination loop of a run: the
    passes are started with [limit = 10000000]. *)
Definition enoughFuel (fuel : nat) : Prop :=
  2 * 10000000 + 2 ≤ Z.of_nat fuel.

(** The arguments of the single fetch of an updatable collection. *)
Definition listingArgs (maxLimit : option Z) : Args :=
  methodArgMap (Some emptyAuth) maxLimit (Some StartNull) (Some None).

(** The state after the reconciliation of an updatable collection. *)
Definition reconciled (collName : string)
    (lists : list (string * list (option value))) (rows : list obj)
    (s : state) : state :=
  {| st_db :=
       insertElemsToDbIfNotExists
         (removeElemsFromDbIfNotInLists (st_db s) collName lists)
         collName rows;
     st_heap := st_heap s;
     st_reqs := S (st_reqs s);
             st_published := st_published s |}.

(** The values passed to [setProgress], in order. *)
Definition progressOf (evs : list event) : list progress :=
  omap (λ e, match e with EvProgress p => Some p | _ => None end) evs.

Definition numericProgressOf (evs : list event) : list Z :=
  omap (λ e, match e with EvProgress (PNum n) => Some n | _ => None end)
    evs.

(** The numeric values a counting loop may publish: [g c] is the value
    computed at the iteration that brings the counter to [c]. *)
Definition monotone (g : Z → option Z) : Prop :=
  ∀ c c' v v', c ≤ c' → g c = Some v → g c' = Some v' → v ≤ v'.

(** What [publish] passes to [setProgress] for the value [v]: the
    value itself when it is a number below 100, nothing otherwise. *)
Definition below100 (v : option Z) : list Z :=
  match v with
  | Some n => if n <? 100 then [n] else []
  | None => []
  end.

(** What a counting loop passes to [setProgress] in [K] iterations,
    [g k] being the value computed at the iteration that brings the
    counter to [k]. *)
Definition published (g : Z → option Z) (K : nat) : list Z :=
  flat_map (λ k, below100 (g (Z.of_nat k))) (seq 1 K).

(** What such a loop returns: the value of its last iteration, and
    [0] when there was none. *)
Definition lastValue (g : Z → option Z) (K : nat) : option Z :=
  match K with
  | O => Some 0
  | S _ => g (Z.of_nat K)
  end.

(** When [m] returns [a], having passed the values [l] to
    [setProgress], [R a l] holds. *)
Definition passes {A} (m : M A) (R : A → list progress → Prop) : Prop :=
  ∀ s a s' evs, m s = (Ok a, s', evs) → R a (progressOf evs).

(** The values of the pass of the account at position [j] (from 0)
    among [n] stored accounts, [K] collections having new data for
    it: [Math.round((k / m) * 100 * ((j + 1) / n))] for [k] from 1
    to [K], [m] being the number of collections of the registry, the
    values of 100 or more left out. *)
Definition accountValues (this : DataInserter) (n : Z) (j K : nat)
  : list Z :=
  published
    (λ k, userProgressValue k (len (_methodCollMap this))
            (js_div (Z.of_nat j + 1) n))
    K.

(** What the pass of the last of [n] accounts returns after [K]
    collections. *)
Definition handedOver (this : DataInserter) (n : Z) (K : nat) : option Z :=
  lastValue
    (λ k, userProgressValue k (len (_methodCollMap this)) (js_div n n)) K.

(** The values of the public pass over [P] collections that is
    started with [prevProgress]: [Math.round(prevProgress + (k / P) *
    100 * ((100 - prevProgress) / 100))] for [k] from 1 to [P], the
    values of 100 or more left out. *)
Definition publicValues (prevProgress : option Z) (P : nat) : list Z :=
  published (λ k, publicProgressValue k (Z.of_nat P) prevProgress) P.

(** A stored account that is an object with a string for key and a
    string for secret. *)
Definition wellFormed (item : AuthItem) : Prop :=
  ∃ a key secret,
    item = ItemObj a ∧ apiKey a = Some key ∧ apiSecret a = Some secret.

Definition bump (s : state) : state :=
  {| st_db := st_db s; st_heap := st_heap s; st_reqs := S (st_reqs s);
     st_published := st_published s |}.

(** The state after a call of [setProgress]. *)
Definition progressed (s : state) : state :=
  {| st_db := st_db s; st_heap := st_heap s; st_reqs := st_reqs s;
     st_published := S (st_published s) |}.

(** The progress handler, when one is installed, and every listener
    take the value [p] at the [n]-th call of [setProgress] without
    throwing. *)
Definition accepts (this : DataInserter) (n : nat) (p : progress) : bool :=
  match _asyncProgressHandler this with
  | Some handler => handler n p
  | None => true
  end
  && forallb (λ listener : Observer, listener n p) (_progressListeners this).

(** What an observer of progress throws. *)
Definition isObserverError {A} (r : result A) : Prop :=
  r = Throw HandlerError ∨ ∃ i, r = Throw (ListenerError i).

(** The state after [dao.insertElemsToDb]. *)
Definition inserted (collName : string) (auth : option Auth)
    (rows : list obj) (s : state) : state :=
  {| st_db := insertElemsToDb (st_db s) collName auth rows;
     st_heap := st_heap s; st_reqs := st_reqs s;
         st_published := st_published s |}.

(** A run that comes after the actions [l]. *)
Definition after {A} (l : list event) (x : result A * state * list event)
  : result A * state * list event :=
  let '(r, s, l') := x in (r, s, l ++ l').

(** Actions of the retry policy: requests and delays only. *)
Definition isFetchEvent (e : event) : Prop :=
  match e with
  | EvRequest _ _ _ | EvDelay _ => True
  | _ => False
  end.

End DataInserter.

(** ** A gateway that serves a remote collection faithfully *)

Section FaithfulGateway.
Context `{Env}.
Variables (methodApi : string) (_args : Args) (dateFieldName : string).

(** The date of a record ([0] when it has none). *)
Definition dateOf (o : obj) : Z :=
  match o !! dateFieldName with
  | Some (VInt d) => d
  | _ => 0
  end.

(** A record with a proper timestamp. *)
Definition wellDated (o : obj) : Prop :=
  ∃ d, o !! dateFieldName = Some (VInt d) ∧ d ≠ 0.

(** Newest first. *)
Definition newestFirst (recs : list obj) : Prop :=
  StronglySorted (λ x y, dateOf y ≤ dateOf x) recs.

(** Modelled from the spec: the gateway ([apiMiddleware]) is not part
    of the file.  The spec has it return a page of records plus an
    optional next-page cursor, pages being ordered from newest to
    oldest within a window whose [end] moves backward to the cursor.
    [Serves e recs] says that the gateway, asked for the window of
    [_args] that ends at [e], hands out the records [recs] page after
    page: every page but the last is non-empty and comes with a
    non-zero cursor [c] that separates it from what remains (the
    records of the page are newer than [c], the remaining ones are
    not), and the window that ends at [c] serves what remains. *)
Inductive Serves : Z → list obj → Prop :=
| Serves_last e page nextPage :
    (∀ n, request n methodApi (set_end (Some e) _args) false
          = Resolve (APage (DObjs page) nextPage)) →
    Serves e page
| Serves_more e page rest c :
    (∀ n, request n methodApi (set_end (Some e) _args) false
          = Resolve (APage (DObjs page) (Some c))) →
    page ≠ [] → rest ≠ [] → c ≠ 0 →
    Forall (λ o, c < dateOf o) page →
    Forall (λ o, dateOf o ≤ c) rest →
    Serves c rest →
    Serves e (page ++ rest).

(** The records dated at or after [st]. *)
Definition newRecords (st : Z) (recs : list obj) : list obj :=
  List.filter (startLeDate (StartNum st) dateFieldName) recs.

End FaithfulGateway.

(** ** A reference DAO and reference environments *)

#[global] Instance Auth_eq_dec : EqDecision Auth.
Proof. solve_decision. Defined.

(** Storage: the credential set, the configuration table of the
    configurable public collections, the identity fields of each
    collection, and the rows of each collection with their owner
    ([None] for public data). *)
Record SpecDb := {
  db_auth : AuthStore;
  db_conf : gmap string (list ConfEntry);
  db_identity : gmap string (list string);
  db_colls : gmap string (list (option Auth * obj))
}.

Definition rowsOf (db : SpecDb) (collName : string)
  : list (option Auth * obj) :=
  default [] (db_colls db !! collName).

Definition setRows (db : SpecDb) (collName : string)
    (rows : list (option Auth * obj)) : SpecDb :=
  {| db_auth := db_auth db; db_conf := db_conf db;
     db_identity := db_identity db;
     db_colls := <[collName := rows]> (db_colls db) |}.

Definition cmpValue (a b : option value) : comparison :=
  match a, b with
  | Some (VInt x), Some (VInt y) => x ?= y
  | _, _ => Eq
  end.

(** Order of two records under a sort specification
    [[field, direction]; ...], a negative direction being
    descending. *)
Fixpoint cmpBySort (sort : list (string * Z)) (a b : obj) : comparison :=
  match sort with
  | [] => Eq
  | (f, dir) :: sort' =>
      match cmpValue (a !! f) (b !! f) with
      | Eq => cmpBySort sort' a b
      | c => if dir <? 0 then CompOpp c else c
      end
  end.

Definition firstBySort (sort : list (string * Z)) (rows : list obj)
  : option obj :=
  fold_left
    (λ best o,
       match best with
       | None => Some o
       | Some b =>
           match cmpBySort sort o b with
           | Lt => Some o
           | _ => Some b
           end
       end)
    rows None.

(** Modelled from the spec: the DAO is not part of the file.  The spec
    (6) lists [getLastRecord(collection, accountFilter, sortSpec) ->
    record|null]. *)
Definition spec_getLastElemFromDb (db : SpecDb) (collName : string)
    (auth : Auth) (sort : list (string * Z)) : option obj :=
  firstBySort sort
    (snd <$> List.filter (λ r, bool_decide (fst r = Some auth))
               (rowsOf db collName)).

Definition matchesFilter (filter o : obj) : bool :=
  forallb (λ kv, bool_decide (o !! fst kv = Some (snd kv)))
    (map_to_list filter).

(** Modelled from the spec: the same read for public data, by field
    values instead of by account. *)
Definition spec_getElemInCollBy (db : SpecDb) (collName : string)
    (filter : obj) (sort : list (string * Z)) : option obj :=
  firstBySort sort
    (List.filter (matchesFilter filter) (snd <$> rowsOf db collName)).

(** Modelled from the spec: [getRecordsBy(collection, {filter,
    minField, groupField}) -> list], used to read the per-symbol
    public configuration; the table is kept grouped by symbol. *)
Definition spec_getElemsInCollBy (db : SpecDb) (collName confName : string)
  : list ConfEntry :=
  default [] (db_conf db !! confName).

(** Modelled from the spec: [insertRecords(collection,
    accountFilterOrNull, records) -> void]. *)
Definition spec_insertElemsToDb (db : SpecDb) (collName : string)
    (auth : option Auth) (rows : list obj) : SpecDb :=
  setRows db collName (rowsOf db collName ++ map (λ o, (auth, o)) rows).

(** A row stays when, for every listed field, its value is among the
    allowed ones. *)
Definition inLists (lists : list (string * list (option value))) (o : obj)
  : bool :=
  forallb (λ fl, bool_decide (o !! fst fl ∈ snd fl)) lists.

(** Modelled from the spec: [removeRecordsNotInLists(collection,
    {field: allowedValues, ...}) -> void], which removes the persisted
    rows whose identity-field values are absent from the listing. *)
Definition spec_removeElemsFromDbIfNotInLists (db : SpecDb)
    (collName : string) (lists : list (string * list (option value)))
  : SpecDb :=
  setRows db collName
    (List.filter (λ r, inLists lists (snd r)) (rowsOf db collName)).

(** Two records with the same identity in a collection: equal on
    every identity field of the collection (equal, when the collection
    declares none). *)
Definition sameIdentity (ids : option (list string)) (a b : obj) : bool :=
  match ids with
  | Some fs => forallb (λ f, bool_decide (a !! f = b !! f)) fs
  | None => bool_decide (a = b)
  end.

Definition insertIfAbsent (ids : option (list string))
    (rows : list (option Auth * obj)) (o : obj)
  : list (option Auth * obj) :=
  if existsb (λ r, sameIdentity ids (snd r) o) rows then rows
  else rows ++ [(None, o)].

(** Modelled from the spec: [insertRecordsIfAbsent(collection,
    accountFilterOrNull, records) -> void], an identity-based,
    insert-only upsert. *)
Definition spec_insertElemsToDbIfNotExists (db : SpecDb)
    (collName : string) (rows : list obj) : SpecDb :=
  setRows db collName
    (fold_left (insertIfAbsent (db_identity db !! collName)) rows
       (rowsOf db collName)).

(** The three kinds of gateway error. *)
Inductive GatewayError :=
| RateLimited
| NonceTooOld
| Fatal.

(** An environment over the reference DAO, for a given gateway. *)
Definition specEnv
    (hasMethod_ : string → bool)
    (request_ : nat → string → Args → bool → ApiResult GatewayError)
    (modelTransform_ : list string → obj → obj) : Env :=
  {| error := GatewayError;
     isRateLimitError :=
       λ e, match e with RateLimited => true | _ => false end;
     isNonceSmallError :=
       λ e, match e with NonceTooOld => true | _ => false end;
     hasMethod := hasMethod_;
     request := request_;
     Date_now := 1000;
     Db := SpecDb;
     getAuthFromDb := db_auth;
     getLastElemFromDb := spec_getLastElemFromDb;
     getElemInCollBy := spec_getElemInCollBy;
     getElemsInCollBy := spec_getElemsInCollBy;
     insertElemsToDb := spec_insertElemsToDb;
     removeElemsFromDbIfNotInLists := spec_removeElemsFromDbIfNotInLists;
     insertElemsToDbIfNotExists := spec_insertElemsToDbIfNotExists;
     modelTransform := modelTransform_;
     modelTransformOfScalar := λ _ _, ∅;
     primitiveProperty := λ _ _, None;
     callHook := λ _ db heap, (db, heap);
     PUBLIC_TRADES := "publicTrades";
     TICKERS_HISTORY := "tickersHistory" |}.

(** ** Scenarios *)

Module Scenario.

(** A record that only has a timestamp. *)
Definition rec (d : Z) : obj := {[ "mts" := VInt d ]}.

Definition trades : Schema :=
  {| name := "trades"; kind := InsertableArrObj; isPublicColl := false;
     maxLimit := Some 1500; dateFieldName := "mts";
     symbolFieldName := "symbol"; confName := ""; sort := [("mts", -1)];
     field := ""; fields := []; model := ["mts"];
     hasNewData := false; start := StartNum 0 |}.

Definition emptyDb : SpecDb :=
  {| db_auth := AuthMissing; db_conf := ∅; db_identity := ∅;
     db_colls := ∅ |}.

Definition keepRecord (model : list string) (o : obj) : obj := o.

Abbreviation Gateway := (nat → string → Args → bool → ApiResult GatewayError).

Definition envOf (gw : Gateway) : Env := specEnv (λ _, true) gw keepRecord.

Definition stateOf (gw : Gateway) (db : SpecDb) (heap : gmap loc Schema)
  : @state (envOf gw) :=
  @Build_state (envOf gw) db heap 0%nat 0%nat.

Definition user1 : Auth := {| apiKey := Some "key1"; apiSecret := Some "secret1" |}.
Definition user2 : Auth := {| apiKey := Some "key2"; apiSecret := Some "secret2" |}.

Definition window (limit start end_ : Z) : Args :=
  {| args_auth := user1;
     args_params :=
       {| params_limit := Some limit; params_end := Some end_;
          params_start := StartNum start; params_symbol := None;
          notThrowError := false; notCheckNextPage := false |} |}.

(** Gateways. *)
Definition alwaysRejects (e : GatewayError) : Gateway :=
  λ _ _ _ _, Reject e.

Definition alwaysEmptyWithCursor (cursor : Z) : Gateway :=
  λ _ _ _ _, Resolve (APage (DObjs []) (Some cursor)).

Definition alwaysPage (page : list obj) (nextPage : option Z) : Gateway :=
  λ _ _ _ _, Resolve (APage (DObjs page) nextPage).

(** A gateway over a remote collection of distinct timestamps, newest
    first: it answers the window that ends at [end] with the first
    [pageSize] records dated at or before [end], and with the date of
    the next record as cursor when there is one. *)
Definition paging (remote : list Z) (pageSize : nat) : Gateway :=
  λ _ _ args _,
    match params_end (args_params args) with
    | Some e =>
        let avail := List.filter (λ d, d <=? e) remote in
        Resolve (APage (DObjs (rec <$> take pageSize avail))
                   (head (drop pageSize avail)))
    | None => Resolve (APage DNull None)
    end.

(** One account-scoped collection, nothing stored. *)
Definition start0 (gw : Gateway) : @state (envOf gw) :=
  stateOf gw emptyDb {[ 1%positive := trades ]}.

(** One user owns one stored trade, dated [d]. *)
Definition dbWithTrade (d : Z) : SpecDb :=
  {| db_auth := AuthMap [("u1", ItemObj user1)]; db_conf := ∅;
     db_identity := ∅;
     db_colls := {[ "trades" := [(Some user1, rec d)] ]} |}.

Definition inserter : DataInserter :=
  {| _methodCollMap := [("getTrades", 1%positive)];
     _afterAllInsertsHooks := [];
     _asyncProgressHandler := None; _progressListeners := [] |}.

(** The same, with a progress handler that throws at every call. *)
Definition watchedInserter : DataInserter :=
  {| _methodCollMap := [("getTrades", 1%positive)];
     _afterAllInsertsHooks := [];
     _asyncProgressHandler := Some (λ _ _, false);
     _progressListeners := [] |}.

(** An updatable collection of scalars: the list of pairs. *)
Definition symbols : Schema :=
  {| name := "symbols"; kind := UpdatableArr; isPublicColl := true;
     maxLimit := Some 5000; dateFieldName := ""; symbolFieldName := "";
     confName := ""; sort := []; field := "pairs"; fields := [];
     model := ["pairs"]; hasNewData := true; start := StartNum 0 |}.

Definition pair (p : string) : obj := {[ "pairs" := VStr p ]}.

Definition symbolsDb : SpecDb :=
  {| db_auth := AuthMissing; db_conf := ∅;
     db_identity := {[ "symbols" := ["pairs"] ]};
     db_colls :=
       {[ "symbols" := [(None, pair "tBTCUSD"); (None, pair "tOLDUSD")] ]} |}.

Definition listing (l : list value) : Gateway :=
  λ _ _ _ _, Resolve (AData (DVals l)).

Definition symbolsInserter : DataInserter :=
  {| _methodCollMap := [("getSymbols", 1%positive)];
     _afterAllInsertsHooks := [];
     _asyncProgressHandler := None; _progressListeners := [] |}.

Definition symbolsState (gw : Gateway) : @state (envOf gw) :=
  stateOf gw symbolsDb {[ 1%positive := symbols ]}.

(** A configurable public collection with one configured symbol, and a
    remote that holds one trade of that symbol, dated [500]. *)
Definition trade (d : Z) : obj :=
  {[ "mts" := VInt d; "symbol" := VStr "tBTCUSD" ]}.

Definition publicTrades : Schema :=
  {| name := "publicTrades"; kind := InsertableArrObj; isPublicColl := true;
     maxLimit := Some 5000; dateFieldName := "mts";
     symbolFieldName := "symbol"; confName := "publicTradesConf";
     sort := [("mts", -1)]; field := ""; fields := [];
     model := ["mts"; "symbol"]; hasNewData := false; start := StartArr [] |}.

Definition confDb : SpecDb :=
  {| db_auth := AuthMissing;
     db_conf :=
       {[ "publicTradesConf" :=
            [ {| conf_symbol := "tBTCUSD"; conf_start := Some 100 |} ] ]};
     db_identity := ∅; db_colls := ∅ |}.

Definition publicGateway : Gateway :=
  λ _ _ args isCheckCall,
    if isCheckCall then Resolve (APage (DObjs [trade 500]) None)
    else
      match params_end (args_params args) with
      | Some e =>
          Resolve (APage (DObjs (List.filter
                                   (λ o, bool_decide (dateOf "mts" o ≤ e))
                                   [trade 500])) None)
      | None => Resolve (APage DNull None)
      end.

Definition publicInserter : DataInserter :=
  {| _methodCollMap := [("getPublicTrades", 1%positive)];
     _afterAllInsertsHooks := [];
     _asyncProgressHandler := None; _progressListeners := [] |}.

(** The schema objects as the registry has them before any run. *)
Definition publicRegistry : gmap loc Schema := {[ 1%positive := publicTrades ]}.

Definition publicRun (s : @state (envOf publicGateway)) :=
  @insertNewPublicDataToDb (envOf publicGateway) publicInserter 5 (Some 0) s.

(** Two public passes in a row on the same DataInserter ... *)
Definition afterFirstRun : @state (envOf publicGateway) :=
  snd (fst (publicRun (stateOf publicGateway confDb publicRegistry))).
Definition afterSecondRun : @state (envOf publicGateway) :=
  snd (fst (publicRun afterFirstRun)).
(** ... and the second pass as it would go on fresh copies of the
    schema objects, the storage being the same. *)
Definition afterSecondRunOnFreshSchemas : @state (envOf publicGateway) :=
  snd (fst (publicRun (setHeap publicRegistry afterFirstRun))).

(** Two accounts, three account-scoped collections that all have new
    data (the probe finds a record, the storage is empty), and pages
    that come back empty. *)
Definition coll (n : string) : Schema :=
  {| name := n; kind := InsertableArrObj; isPublicColl := false;
     maxLimit := Some 1500; dateFieldName := "mts";
     symbolFieldName := "symbol"; confName := ""; sort := [("mts", -1)];
     field := ""; fields := []; model := ["mts"];
     hasNewData := false; start := StartNum 0 |}.

Definition threeColls : gmap loc Schema :=
  {[ 1%positive := coll "ledgers"; 2%positive := coll "trades";
     3%positive := coll "orders" ]}.

Definition threeInserter : DataInserter :=
  {| _methodCollMap :=
       [("getLedgers", 1%positive); ("getTrades", 2%positive);
        ("getOrders", 3%positive)];
     _afterAllInsertsHooks := [];
     _asyncProgressHandler := None; _progressListeners := [] |}.

Definition twoUsersDb : SpecDb :=
  {| db_auth := AuthMap [("u1", ItemObj user1); ("u2", ItemObj user2)];
     db_conf := ∅; db_identity := ∅; db_colls := ∅ |}.

Definition probeOnly : Gateway :=
  λ _ _ _ isCheckCall,
    if isCheckCall then Resolve (APage (DObjs [rec 500]) None)
    else Resolve (APage (DObjs []) None).

Definition twoUsersRun :=
  @insertNewDataToDbMultiUser (envOf probeOnly) threeInserter 5
    (stateOf probeOnly twoUsersDb threeColls).

(** Six remote records, served two at a time. *)
Definition sixRecords : list Z := [9; 8; 7; 6; 5; 4].

End Scenario.

(** ** The JSON-RPC responder *)

Module Responder.

(** *** The two regular expressions

    [_htmlRegExp] is the text [<html], any characters, [>];
    [_htmlTitleRegExp] is [<title], any characters, [>], the group
    [body] of any characters, [</title], any characters, [>].  Both
    ignore letter case and are searched anywhere in the string, here a
    string of ASCII characters.  "Any characters" is a greedy star on
    the dot, which matches every character but a line terminator. *)

Definition lower (c : ascii) : ascii :=
  let n := nat_of_ascii c in
  if (65 <=? n)%nat && (n <=? 90)%nat then ascii_of_nat (n + 32) else c.

Definition isLineTerminator (c : ascii) : bool :=
  let n := nat_of_ascii c in (n =? 10)%nat || (n =? 13)%nat.

(** [literal p s]: what follows [p] when [s] starts with [p], letter
    case ignored ([p] is given in lower case). *)
Fixpoint literal (p s : string) : option string :=
  match p, s with
  | EmptyString, _ => Some s
  | String a p', String b s' =>
      if Ascii.eqb a (lower b) then literal p' s' else None
  | String _ _, EmptyString => None
  end.

(** [.*] followed by [k], longest first; the result carries what [.*]
    has matched. *)
Fixpoint dotStar {A} (k : string → option A) (s : string)
  : option (string * A) :=
  match s with
  | EmptyString => (λ a, (EmptyString, a)) <$> k s
  | String c s' =>
      if isLineTerminator c then (λ a, (EmptyString, a)) <$> k s
      else
        match dotStar k s' with
        | Some (m, a) => Some (String c m, a)
        | None => (λ a, (EmptyString, a)) <$> k s
        end
  end.

(** The leftmost position at which [k] succeeds. *)
Fixpoint anywhere {A} (k : string → option A) (s : string) : option A :=
  match k s with
  | Some a => Some a
  | None =>
      match s with
      | EmptyString => None
      | String _ s' => anywhere k s'
      end
  end.

(** [_htmlRegExp.test(res)] *)
Definition _isHtml (res : string) : bool :=
  bool_decide
    (is_Some
       (anywhere
          (λ s, rest ← literal "<html" s;
                dotStar (literal ">") rest)
          res)).

(** [res.match(_htmlTitleRegExp)]: [None] is [null], otherwise the
    named group [body]. *)
Definition matchHtmlTitle (res : string) : option string :=
  anywhere
    (λ s, rest ← literal "<title" s;
          '(_, r) ← dotStar
                      (λ s1, s2 ← literal ">" s1;
                             dotStar
                               (λ s3, s4 ← literal "</title" s3;
                                      dotStar (literal ">") s4)
                               s2)
                      rest;
          Some (fst r))
    res.

(** *** JavaScript values *)

Record BfxApiErrorMetadata := {
  bfxApiStatus : Z;
  bfxApiStatusText : string;
  bfxApiRawBodyCode : string;
  isBfxApiRawBodyResponseHtml : string;
  bfxApiRawBodyResponse : string
}.

(** The [data] property of an error. *)
Inductive Data :=
| DataNull
| DataOpaque (tag : string)
| DataSymbols (symbol : string)                      (* [{ symbol }] *)
| DataExtended (bfxApiErrorMessage : BfxApiErrorMetadata) (rest : Data).

(** An object, with the classes it is an instance of and the
    properties the responder reads; [None] is [undefined]. *)
Record Obj := {
  instanceofError : bool;
  instanceofBaseError : bool;
  instanceofAuthError : bool;
  message : option string;
  statusCode : option Z;
  statusMessage : option string;
  data : option Data;
  status : option Z;
  statustext : option string;
  code : option string;
  response : option string
}.

Inductive Value :=
| VUndefined
| VNull
| VStr (s : string)
| VNum (z : Z)
| VObj (o : Obj).

(** The [TypeError] raised by a property read on [null] or
    [undefined]. *)
Definition typeError : Value :=
  VObj {| instanceofError := true; instanceofBaseError := false;
          instanceofAuthError := false;
          message := Some "Cannot read properties of null";
          statusCode := None; statusMessage := None; data := None;
          status := None; statustext := None; code := None;
          response := None |}.

(** A computation that may throw. *)
Inductive attempt (A : Type) :=
| Success (a : A)
| Failure (thrown : Value).
Arguments Success {A} a.
Arguments Failure {A} thrown.

Inductive SymbolParam :=
| OneSymbol (s : string)
| Symbols (l : list string).

(** The [args] of a request, as far as the responder reads them. *)
Record RpcArgs := {
  id : option Value;
  symbol : option SymbolParam;                  (* args.params.symbol *)
  authToken : option string;                    (* args.auth.authToken *)
  shouldNotBeLoggedToStdErrorStream : bool
}.

(** The classifiers of [../helpers], which are not part of the file. *)
Record Helpers := {
  isAuthError : Obj → bool;
  isRateLimitError : Obj → bool;
  isNonceSmallError : Obj → bool;
  isUserIsNotMerchantError : Obj → bool;
  isSymbolInvalidError : Obj → bool
}.

Inductive Envelope :=
| ResultEnvelope (jsonrpc : string) (result : Value) (id : Value)
| ErrorEnvelope (jsonrpc : string) (code : Z) (message : string)
    (data : Data) (id : Value).

Inductive LogEvent :=
| LogDebug (name : string) (error : Obj)
| LogError (name : string) (error : Obj)
| AuthRequired.             (* emitBfxUnamePwdAuthRequiredToOne *)

Definition JSON_RPC_VERSION : string := "2.0".

(** *** The functions of the module *)

(** [res?.match(_htmlTitleRegExp).groups?.body ?? 'HTML title not
    found'] on a string: when there is no match, [match] returns
    [null] and reading [groups] throws. *)
Definition _findHtmlTitle (res : string) : attempt string :=
  match matchHtmlTitle res with
  | Some body => Success body
  | None => Failure typeError
  end.

Definition truthyNumber (n : option Z) : option Z :=
  match n with
  | Some z => if decide (z = 0) then None else Some z
  | None => None
  end.

Definition statusOf (err : Value) : option Z :=
  match err with
  | VObj o => truthyNumber (status o)
  | _ => None
  end.

Definition _getBfxApiErrorMetadata (err : Value)
  : attempt (option BfxApiErrorMetadata) :=
  match err with
  | VObj o =>
      match truthyNumber (status o) with
      | None => Success None
      | Some st =>
          let isHtml :=
            match response o with
            | Some r => _isHtml r
            | None => false
            end in
          let meta body :=
            {| bfxApiStatus := st;
               bfxApiStatusText :=
                 default "Status text is not abailable" (statustext o);
               bfxApiRawBodyCode :=
                 default "Code is not abailable" (code o);
               isBfxApiRawBodyResponseHtml := if isHtml then "Yes" else "No";
               bfxApiRawBodyResponse := body |} in
          if isHtml then
            match _findHtmlTitle (default "" (response o)) with
            | Success body => Success (Some (meta body))
            | Failure t => Failure t
            end
          else
            Success
              (Some (meta (default "Response is not abailable"
                             (response o))))
      end
  | _ => Success None
  end.

Definition newBaseError (message : option string) : Obj :=
  {| instanceofError := true; instanceofBaseError := true;
     instanceofAuthError := false; message := message;
     statusCode := None; statusMessage := None; data := None;
     status := None; statustext := None; code := None; response := None |}.

Definition withStatus (code_ : Z) (message_ : string) (o : Obj) : Obj :=
  {| instanceofError := instanceofError o;
     instanceofBaseError := instanceofBaseError o;
     instanceofAuthError := instanceofAuthError o;
     message := message o;
     statusCode := Some code_; statusMessage := Some message_;
     data := data o; status := status o; statustext := statustext o;
     code := code o; response := response o |}.

Definition withData (d : Data) (o : Obj) : Obj :=
  {| instanceofError := instanceofError o;
     instanceofBaseError := instanceofBaseError o;
     instanceofAuthError := instanceofAuthError o;
     message := message o;
     statusCode := statusCode o; statusMessage := statusMessage o;
     data := Some d; status := status o; statustext := statustext o;
     code := code o; response := response o |}.

Definition withMessage (m : string) (o : Obj) : Obj :=
  {| instanceofError := instanceofError o;
     instanceofBaseError := instanceofBaseError o;
     instanceofAuthError := instanceofAuthError o;
     message := Some m;
     statusCode := statusCode o; statusMessage := statusMessage o;
     data := data o; status := status o; statustext := statustext o;
     code := code o; response := response o |}.

(** [str.replace(']', by)]: the first occurrence only. *)
Fixpoint replaceBracket (by_ : string) (str : string) : string :=
  match str with
  | EmptyString => EmptyString
  | String c rest =>
      if Ascii.eqb c "]"%char then by_ ++ rest
      else String c (replaceBracket by_ rest)
  end.

Fixpoint joinComma (l : list string) : string :=
  match l with
  | [] => EmptyString
  | [x] => x
  | x :: l' => x ++ "," ++ joinComma l'
  end.

(** [args?.params?.symbol ?? 'selected currency'], an array being
    turned into a string. *)
Definition symbolOf (args : option RpcArgs) : string :=
  match args ≫= symbol with
  | Some (OneSymbol s) => s
  | Some (Symbols l) => joinComma l
  | None => "selected currency"
  end.

Definition quote : string := String (ascii_of_nat 34) EmptyString.

Definition _getErrorWithMetadataForNonBaseError (h : Helpers)
    (args : option RpcArgs) (err : Value) : attempt Obj :=
  match err with
  | VObj o =>
      if instanceofBaseError o then Success o
      else if isAuthError h o then Success (withStatus 401 "Unauthorized" o)
      else if isRateLimitError h o then
        Success (withStatus 409 "Rate limit error" o)
      else if isNonceSmallError h o then
        Success
          (withStatus 409
             "Nonces error, key are updated, please get new keys to operate"
             o)
      else if isUserIsNotMerchantError h o then
        Success
          (withStatus 409
             "Pay invoice list error, the user is not a merchant" o)
      else if isSymbolInvalidError h o then
        let symbol := symbolOf args in
        match message o with
        | None => Failure typeError            (* undefined.replace *)
        | Some m =>
            Success
              (withData (DataSymbols symbol)
                 (withStatus 500
                    ("Invalid symbol error, '" ++ symbol
                     ++ "' is not supported")
                    (withMessage
                       (replaceBracket
                          ("," ++ quote ++ symbol ++ quote ++ "]") m)
                       o)))
        end
      else Success o
  | VStr s => Success (newBaseError (Some s))
  | _ => Success (newBaseError None)
  end.

Record ErrorMetadata := {
  meta_code : Z;
  meta_message : string;
  meta_data : Data;
  meta_error : Obj
}.

Definition _getErrorMetadata (h : Helpers) (args : option RpcArgs)
    (err : Value) : attempt ErrorMetadata :=
  match _getErrorWithMetadataForNonBaseError h args err with
  | Failure t => Failure t
  | Success errWithMetadata =>
      let code_ := default 500 (statusCode errWithMetadata) in
      let message_ :=
        default "Internal Server Error" (statusMessage errWithMetadata) in
      let data_ := default DataNull (data errWithMetadata) in
      match _getBfxApiErrorMetadata err with
      | Failure t => Failure t
      | Success bfxApiErrorMessage =>
          let extendedData :=
            match bfxApiErrorMessage with
            | Some m => DataExtended m data_
            | None => data_
            end in
          Success
            {| meta_code := code_; meta_message := message_;
               meta_data := data_;
               meta_error :=
                 withData extendedData
                   (withStatus code_ message_ errWithMetadata) |}
      end
  end.

(** [Object.assign] in [_getErrorMetadata] writes into the error it
    was given when that error is an object; a value that is not an
    object is left alone (a new [BaseError] stands for it). *)
Definition afterMetadata (err : Value) (m : ErrorMetadata) : Value :=
  match err with
  | VObj _ => VObj (meta_error m)
  | _ => err
  end.

(** [_logError]: the log written, and the error as the call leaves
    it. *)
Definition _logError (h : Helpers) (wsIsEmitter : bool)
    (args : option RpcArgs) (name : string) (isInternalRequest : bool)
    (err : Value) : attempt (Value * list LogEvent) :=
  let shouldNotBeLogged :=
    isInternalRequest
    && default false (shouldNotBeLoggedToStdErrorStream <$> args) in
  match _getErrorMetadata h args err with
  | Failure t => Failure t
  | Success m =>
      let error := meta_error m in
      let relogin :=
        if wsIsEmitter
           && match args ≫= authToken with
              | Some t => negb (bool_decide (t = ""))
              | None => false
              end
           && (instanceofAuthError error || isAuthError h error)
        then [AuthRequired] else [] in
      Success
        (afterMetadata err m,
         relogin
         ++ [if negb (meta_code m =? 500) || shouldNotBeLogged
             then LogDebug name error
             else LogError name error])
  end.

Definition instanceofErrorValue (v : Value) : bool :=
  match v with
  | VObj o => instanceofError o
  | _ => false
  end.

Definition _makeJsonRpcResponse (h : Helpers) (args : option RpcArgs)
    (result : Value) : attempt Envelope :=
  let id_ := default VNull (args ≫= id) in
  if instanceofErrorValue result then
    match _getErrorMetadata h args result with
    | Failure t => Failure t
    | Success m =>
        Success
          (ErrorEnvelope JSON_RPC_VERSION (meta_code m) (meta_message m)
             (meta_data m) id_)
    end
  else Success (ResultEnvelope JSON_RPC_VERSION result id_).

(** What calling the handler does. *)
Inductive HandlerOutcome :=
| Returns (v : Value)          (* a value that is not a Promise *)
| Throws (err : Value)
| Resolves (v : Value)         (* a Promise that is fulfilled with [v] *)
| Rejects (err : Value).       (* a Promise that is rejected with [err] *)

Inductive Returned :=
| ReturnsUndefined
| ReturnsValue (v : Value)
| ReturnsFulfilled (v : Value)
| ReturnsRejected (err : Value).

(** What one invocation of the responder does: what it returns or
    throws to its caller, the calls of the callback (error argument
    and response) in order, what is logged, and the rejection that is
    left without a handler, if any. *)
Record Outcome := {
  returned : Returned;
  thrown : option Value;
  calls : list (Value * Envelope);
  logged : list LogEvent;
  unhandledRejection : option Value
}.

(** The error path shared by the [catch] block and the [.catch]
    handler of the callback mode: log, then answer through the
    callback.  [raise] says where an exception of this path goes. *)
Definition answerError (h : Helpers) (wsIsEmitter : bool)
    (args : option RpcArgs) (name : string) (err : Value)
    (raise : Value → list LogEvent → Outcome) : Outcome :=
  match _logError h wsIsEmitter args name false err with
  | Failure t => raise t []
  | Success (err', logs) =>
      match _makeJsonRpcResponse h args err' with
      | Failure t => raise t logs
      | Success response_ =>
          {| returned := ReturnsUndefined; thrown := None;
             calls := [(VNull, response_)]; logged := logs;
             unhandledRejection := None |}
      end
  end.

Definition throwsOut (t : Value) (logs : list LogEvent) : Outcome :=
  {| returned := ReturnsUndefined; thrown := Some t; calls := [];
     logged := logs; unhandledRejection := None |}.

Definition leftUnhandled (t : Value) (logs : list LogEvent) : Outcome :=
  {| returned := ReturnsUndefined; thrown := None; calls := [];
     logged := logs; unhandledRejection := Some t |}.

(** The responder, for a callback that returns normally.  [cb] says
    whether a callback was passed. *)
Definition responder (h : Helpers) (wsIsEmitter : bool)
    (handler : HandlerOutcome) (name : string) (args : option RpcArgs)
    (cb : bool) : Outcome :=
  let isInternalRequest := negb cb in
  match handler with
  | Resolves res =>
      if isInternalRequest then
        {| returned := ReturnsFulfilled res; thrown := None; calls := [];
           logged := []; unhandledRejection := None |}
      else
        match _makeJsonRpcResponse h args res with
        | Success response_ =>
            {| returned := ReturnsUndefined; thrown := None;
               calls := [(VNull, response_)]; logged := [];
               unhandledRejection := None |}
        | Failure err =>
            answerError h wsIsEmitter args name err leftUnhandled
        end
  | Rejects err =>
      if isInternalRequest then
        match _logError h wsIsEmitter args name true err with
        | Success (err', logs) =>
            {| returned := ReturnsRejected err'; thrown := None;
               calls := []; logged := logs; unhandledRejection := None |}
        | Failure t =>
            {| returned := ReturnsRejected t; thrown := None; calls := [];
               logged := []; unhandledRejection := None |}
        end
      else answerError h wsIsEmitter args name err leftUnhandled
  | Returns resFn =>
      if isInternalRequest then
        {| returned := ReturnsValue resFn; thrown := None; calls := [];
           logged := []; unhandledRejection := None |}
      else
        match _makeJsonRpcResponse h args resFn with
        | Success response_ =>
            {| returned := ReturnsUndefined; thrown := None;
               calls := [(VNull, response_)]; logged := [];
               unhandledRejection := None |}
        | Failure err => answerError h wsIsEmitter args name err throwsOut
        end
  | Throws err =>
      if isInternalRequest then
        match _logError h wsIsEmitter args name true err with
        | Success (err', logs) => throwsOut err' logs
        | Failure t => throwsOut t []
        end
      else answerError h wsIsEmitter args name err throwsOut
  end.

(** *** A scenario: the upstream answers 502 with an HTML page that
    has no title *)

Definition noHelpers : Helpers :=
  {| isAuthError := λ _, false; isRateLimitError := λ _, false;
     isNonceSmallError := λ _, false;
     isUserIsNotMerchantError := λ _, false;
     isSymbolInvalidError := λ _, false |}.

Definition upstreamError (body : string) : Value :=
  VObj {| instanceofError := true; instanceofBaseError := false;
          instanceofAuthError := false;
          message := Some "HTTP code 502 Bad Gateway";
          statusCode := None; statusMessage := None; data := None;
          status := Some 502; statustext := Some "Bad Gateway";
          code := None; response := Some body |}.

Definition pageWithoutTitle : string :=
  "<html><body><h1>502 Bad Gateway</h1></body></html>".

Definition pageWithTitle : string :=
  "<html><head><title>502 Bad Gateway</title></head></html>".

Definition request1 : option RpcArgs :=
  Some {| id := Some (VNum 1); symbol := None; authToken := None;
          shouldNotBeLoggedToStdErrorStream := false |}.

End Responder.

(** ** More ways of reading a run of the DataInserter *)

(** The time a run spends waiting, in milliseconds. *)
Definition waited (evs : list event) : Z := foldr Z.add 0 (delaysOf evs).

(** The credentials a request goes out with when the caller passes
    none: [{ apiKey: '', apiSecret: '' }]. *)
Definition blankAuth : Auth := {| apiKey := Some ""; apiSecret := Some "" |}.

(** The credentials that [_getMethodArgMap] puts in the arguments. *)
Definition authOf (auth : option Auth) : Auth := default blankAuth auth.

(** An action of a pass that works for [owner]: its requests carry
    credentials that [allowed] accepts, the rows it inserts are stored
    for [owner], it reconciles an updatable collection only when
    [reconciles] holds, and it starts no hook. *)
Definition scoped (allowed : Auth → Prop) (owner : option Auth)
    (reconciles : Prop) (e : event) : Prop :=
  match e with
  | EvRequest _ args _ => allowed (args_auth args)
  | EvInsertElemsToDb _ auth _ => auth = owner
  | EvRemoveElemsFromDbIfNotInLists _ _
  | EvInsertElemsToDbIfNotExists _ _ => reconciles
  | EvHook _ => False
  | _ => True
  end.

(** An action of the pass of the account [a]. *)
Definition forAccount (a : Auth) : event → Prop :=
  scoped (λ x, x = a) (Some a) False.

(** An action that involves no account. *)
Definition anonymous : event → Prop :=
  scoped (λ x, x = emptyAuth ∨ x = blankAuth) None True.

(** [addAfterAllInsertsHooks (hook)]; [None] stands for the
    [AfterAllInsertsHookIsNotFnError] thrown for a value that is not a
    function. *)
Definition addAfterAllInsertsHooks (this : DataInserter) (hook : Hook)
  : option DataInserter :=
  match hook with
  | HookNotFn => None
  | HookFn _ =>
      Some {| _methodCollMap := _methodCollMap this;
              _afterAllInsertsHooks := _afterAllInsertsHooks this ++ [hook];
              _asyncProgressHandler := _asyncProgressHandler this;
              _progressListeners := _progressListeners this |}
  end.

(** Successive registrations, stopped by the first one that throws. *)
Definition addAll (this : DataInserter) (hooks : list Hook)
  : option DataInserter :=
  foldl (λ acc hook, acc ≫= λ this, addAfterAllInsertsHooks this hook)
    (Some this) hooks.

(** [typeof hook === 'function'] *)
Definition isFn (h : Hook) : bool :=
  match h with HookFn _ => true | HookNotFn => false end.

(** The position of the first hook that throws when it is called. *)
Fixpoint firstThrown (hooks : list Hook) : option nat :=
  match hooks with
  | [] => None
  | HookFn HookThrows :: _ => Some 0%nat
  | _ :: hooks' => S <$> firstThrown hooks'
  end.

(** An action other than the start of a hook. *)
Definition notHook (e : event) : Prop :=
  match e with
  | EvHook _ => False
  | _ => True
  end.

(** [typeof auth.apiKey !== 'string' || typeof auth.apiSecret !==
    'string'] *)
Definition keyless (a : Auth) : Prop :=
  apiKey a = None ∨ apiSecret a = None.

Section Readers.
Context `{Env}.

(** A step that does nothing observable. *)
Definition quiet {A} (m : M A) : Prop := ∀ s, snd (m s) = [].

(** The state after the calls of the hooks at the positions [l], one
    after the other. *)
Definition afterHooks (l : list nat) (s : state) : state :=
  foldl (λ s i,
           let '(db, heap) := callHook i (st_db s) (st_heap s) in
           {| st_db := db; st_heap := heap;
              st_reqs := st_reqs s; st_published := st_published s |})
    s l.

(** Every action of a run of [m] that does not return satisfies [P]. *)
Definition unlessOk {A} (P : event → Prop) (m : M A) : Prop :=
  ∀ s, (∀ a, fst (fst (m s)) ≠ Ok a) → Forall P (snd (m s)).

(** A request that pages through the window of [base]: the method,
    the credentials and the parameters are those of [base], the end
    of the window apart. *)
Definition pagesThrough (methodApi : string) (base : Args) (e : event)
  : Prop :=
  ∃ end_, e = EvRequest methodApi (set_end end_ base) false.

(** The window of a fetch of a configurable public collection: the
    records of [symbol] from [start] on, ten million at most, errors
    suppressed. *)
Definition symbolWindow (symbol : string) (start : Z) : Args :=
  set_notThrowError
    (set_symbol (Some symbol)
       (methodArgMap None (Some 10000000) (Some (StartNum start)) None)).

End Readers.

(** More scenarios. *)
Module MoreScenarios.
Import Scenario.

(** Three collections and two hooks, the second of which rejects. *)
Definition hookedInserter : DataInserter :=
  {| _methodCollMap := _methodCollMap threeInserter;
     _afterAllInsertsHooks := [HookFn HookResolves; HookFn HookRejects];
     _asyncProgressHandler := None; _progressListeners := [] |}.

Definition hookedRun :=
  @insertNewDataToDbMultiUser (envOf probeOnly) hookedInserter 5
    (stateOf probeOnly twoUsersDb threeColls).

(** Two stored accounts, one without a secret and one without a key. *)
Definition keylessDb : SpecDb :=
  {| db_auth :=
       AuthMap
         [("u1", ItemObj {| apiKey := Some "key1"; apiSecret := None |});
          ("u2", ItemObj {| apiKey := None; apiSecret := Some "secret2" |})];
     db_conf := ∅; db_identity := ∅; db_colls := ∅ |}.

End MoreScenarios.

(** ** More errors for the responder *)

Module MoreResponder.
Import Responder.

(** An error of the service itself. *)
Definition notFound : Obj :=
  {| instanceofError := true; instanceofBaseError := true;
     instanceofAuthError := false; message := Some "Not found";
     statusCode := Some 404; statusMessage := Some "Not Found";
     data := None; status := None; statustext := None; code := None;
     response := None |}.

(** An error of the service that carries an upstream answer whose
    body is plain text. *)
Definition badGateway : Obj :=
  {| instanceofError := true; instanceofBaseError := true;
     instanceofAuthError := false; message := Some "Bad gateway";
     statusCode := None; statusMessage := None; data := None;
     status := Some 502; statustext := Some "Bad Gateway"; code := None;
     response := Some "upstream is down" |}.

(** A string without a line terminator. *)
Fixpoint oneLine (s : string) : bool :=
  match s with
  | EmptyString => true
  | String c s' => negb (isLineTerminator c) && oneLine s'
  end.

(** [u] is the text [p], letter case ignored ([p] is given in lower
    case). *)
Definition spells (p u : string) : Prop := literal p u = Some EmptyString.

(** The status messages and the codes that the responder assigns
    itself. *)
Definition assignedMessages (args : option RpcArgs) : list string :=
  ["Unauthorized"; "Rate limit error";
   "Nonces error, key are updated, please get new keys to operate";
   "Pay invoice list error, the user is not a merchant";
   ("Invalid symbol error, '" ++ symbolOf args ++ "' is not supported")%string;
   "Internal Server Error"].

Definition assignedCodes : list Z := [401; 409; 500].

(** The log of one error with the metadata [m]: a request for a new
    login first, only over a WebSocket, then one entry for the error,
    which is at the debug level unless the code is 500. *)
Definition logsOnce (wsIsEmitter : bool) (name : string)
    (m : ErrorMetadata) (logs : list LogEvent) : Prop :=
  ∃ relogin entry,
    logs = relogin ++ [entry]
    ∧ (relogin = [] ∨ relogin = [AuthRequired] ∧ wsIsEmitter = true)
    ∧ (entry = LogDebug name (meta_error m)
       ∨ entry = LogError name (meta_error m) ∧ meta_code m = 500).

End MoreResponder.

(** ** The record filter *)

Module Filter.

(** *** JavaScript values

    The data and the filter are values as JSON gives them, plus
    [undefined]; a record is the list of its own properties, in the
    order of [Object.keys], and carries the reference that [===]
    compares; a function is what reading an inherited property may
    give.  Numbers are integers and strings are made of ASCII
    characters. *)
#[warnings="-register-all"] Inductive jsval :=
| JUndefined
| JNull
| JBool (b : bool)
| JNum (n : Z)
| JStr (s : string)
| JArr (items : list jsval)
| JObj (ref : positive) (entries : list (string * jsval))
| JFun (ref : positive).

Inductive exception :=
| TypeError
| SyntaxError.

(** A computation that may throw. *)
Inductive attempt (A : Type) :=
| Success (a : A)
| Failure (e : exception).
Arguments Success {A} a.
Arguments Failure {A} e.

(** What the module takes from outside: the table of
    [./filter.conditions] and the parts of the language that the
    model leaves to the runtime. *)
Class Runtime := {
  (* FILTER_CONDITIONS *)
  GT : string;
  GTE : string;
  LT : string;
  LTE : string;
  NOT : string;
  LIKE : string;
  EQ : string;
  NE : string;
  IN : string;
  NIN : string;
  IS_NULL : string;
  IS_NOT_NULL : string;
  OR : string;
  (* the value of a property that is not an own property: the
     prototype chain *)
  inherited : jsval → string → jsval;
  (* the property key that a value which is not a string stands for *)
  toPropertyKey : jsval → string;
  (* [x < y] for operands that are not two numbers or two strings:
     [None] is the undefined outcome of the comparison *)
  lessThan : jsval → jsval → option bool;
  (* [new RegExp(source)] throws a SyntaxError when the source is not
     a pattern; [regexp.test(str)] *)
  isPattern : string → bool;
  regExpTest : string → string → bool
}.

Section Filter.
Context `{Runtime}.

(** **** The language *)

Definition truthy (v : jsval) : bool :=
  match v with
  | JUndefined | JNull => false
  | JBool b => b
  | JNum n => negb (n =? 0)
  | JStr s => negb (String.eqb s EmptyString)
  | JArr _ | JObj _ _ | JFun _ => true
  end.

(** [typeof v === 'object'] *)
Definition typeofObject (v : jsval) : bool :=
  match v with
  | JNull | JArr _ | JObj _ _ => true
  | _ => false
  end.

Definition isArray (v : jsval) : bool :=
  match v with JArr _ => true | _ => false end.

(** [a === b]; two arrays are compared only after
    [_toLowerCaseStr] has copied one of them, so that they are never
    the same array. *)
Definition strictEq (a b : jsval) : bool :=
  match a, b with
  | JUndefined, JUndefined | JNull, JNull => true
  | JBool x, JBool y => Bool.eqb x y
  | JNum x, JNum y => x =? y
  | JStr x, JStr y => String.eqb x y
  | JObj x _, JObj y _ => Pos.eqb x y
  | JFun x, JFun y => Pos.eqb x y
  | _, _ => false
  end.

(** The abstract relational comparison [x < y]. *)
Definition isLessThan (x y : jsval) : option bool :=
  match x, y with
  | JNum a, JNum b => Some (a <? b)
  | JStr a, JStr b => Some (String.ltb a b)
  | _, _ => lessThan x y
  end.

Definition gt (x y : jsval) : bool :=
  match isLessThan y x with Some true => true | _ => false end.
Definition lt (x y : jsval) : bool :=
  match isLessThan x y with Some true => true | _ => false end.
Definition gte (x y : jsval) : bool :=
  match isLessThan x y with Some false => true | _ => false end.
Definition lte (x y : jsval) : bool :=
  match isLessThan y x with Some false => true | _ => false end.

(** The key of the element [i] of an array. *)
Definition indexKey (i : nat) : string := toPropertyKey (JNum (Z.of_nat i)).

(** The own enumerable properties, in the order of [Object.keys]:
    what [{ ...v }] copies. *)
Definition spread (v : jsval) : list (string * jsval) :=
  match v with
  | JObj _ entries => entries
  | JArr items => imap (λ i x, (indexKey i, x)) items
  | _ => []
  end.

Definition lookup (key : string) (entries : list (string * jsval))
  : option jsval :=
  snd <$> List.find (λ e, String.eqb (fst e) key) entries.

(** [v[key]] for a key that is a string. *)
Definition getProp (v : jsval) (key : string) : jsval :=
  match lookup key (spread v) with
  | Some x => x
  | None =>
      match v with
      | JArr items =>
          if String.eqb key "length" then JNum (Z.of_nat (length items))
          else inherited v key
      | _ => inherited v key
      end
  end.

(** [v[key]] for any key. *)
Definition getPropBy (v key : jsval) : jsval :=
  getProp v (match key with JStr s => s | _ => toPropertyKey key end).

Definition lowerChar (c : ascii) : ascii :=
  let n := nat_of_ascii c in
  if (65 <=? n)%nat && (n <=? 90)%nat then ascii_of_nat (n + 32) else c.

Fixpoint toLowerCase (s : string) : string :=
  match s with
  | EmptyString => EmptyString
  | String c rest => String (lowerChar c) (toLowerCase rest)
  end.

(** [l.every(f)], [l.some(f)] and [l.filter(f)], for an [f] that may
    throw. *)
Fixpoint every {A} (f : A → attempt bool) (l : list A) : attempt bool :=
  match l with
  | [] => Success true
  | x :: l' =>
      match f x with
      | Success true => every f l'
      | r => r
      end
  end.

Fixpoint some {A} (f : A → attempt bool) (l : list A) : attempt bool :=
  match l with
  | [] => Success false
  | x :: l' =>
      match f x with
      | Success false => some f l'
      | r => r
      end
  end.

Fixpoint filterBy {A} (f : A → attempt bool) (l : list A)
  : attempt (list A) :=
  match l with
  | [] => Success []
  | x :: l' =>
      match f x with
      | Success b =>
          match filterBy f l' with
          | Success kept => Success (if b then x :: kept else kept)
          | Failure e => Failure e
          end
      | Failure e => Failure e
      end
  end.

(** **** The functions of the module *)

Definition SPECIAL_CHARS : list ascii :=
  ["-"; "["; "]"; "/"; "{"; "}"; "("; ")"; "*"; "+"; "?"; "."; "^"; "$";
   "|"]%char.

Definition isLineTerminator (c : ascii) : bool :=
  let n := nat_of_ascii c in (n =? 10)%nat || (n =? 13)%nat.

(** [replaceStr (str, from, to)] for a [from] that is one character
    without a meaning of its own in a pattern, as in the two calls of
    the module: the pattern [(.?)(from)] is searched from left to
    right, after the end of the previous match; a match is replaced
    by its first group followed by [to], unless that group is a
    backslash. *)
Fixpoint replaceStr (str : string) (from : ascii) (to : string) : string :=
  match str with
  | EmptyString => EmptyString
  | String c rest =>
      match rest with
      | String d rest' =>
          if negb (isLineTerminator c) && Ascii.eqb d from then
            (if Ascii.eqb c "\"%char then String c (String d EmptyString)
             else String c to)
            ++ replaceStr rest' from to
          else if Ascii.eqb c from then to ++ replaceStr rest from to
          else String c (replaceStr rest from to)
      | EmptyString => if Ascii.eqb c from then to else str
      end
  end.

Definition _isNull (val : jsval) : bool :=
  match val with
  | JNull | JUndefined => true
  | _ => false
  end.

(** The function mapped over the values by [_toLowerCaseStr]. *)
Definition lowerItem (isNotIgnoreCase : bool) (item : jsval) : jsval :=
  match item with
  | JStr s =>
      if isNotIgnoreCase || negb (truthy item) then item
      else JStr (toLowerCase s)
  | _ => item
  end.

Definition _toLowerCaseStr (value : jsval) (isNotIgnoreCase : bool) : jsval :=
  match value with
  | JArr items => JArr (map (lowerItem isNotIgnoreCase) items)
  | _ => lowerItem isNotIgnoreCase value
  end.

(** [value.replace(escapeRegExp, '\\$&')]: a backslash goes before
    each special character. *)
Fixpoint escape (value : string) : string :=
  match value with
  | EmptyString => EmptyString
  | String c rest =>
      if bool_decide (c ∈ SPECIAL_CHARS)
      then String "\"%char (String c (escape rest))
      else String c (escape rest)
  end.

(** The source of the pattern that [likeFn] builds. *)
Definition likeSource (value : string) : string :=
  "^" ++ replaceStr (replaceStr (escape value) "%" ".*") "_" "." ++ "$".

Definition _getComparator (fieldName : string) (inputValue : jsval)
    (isNotIgnoreCase : bool) : jsval → attempt bool :=
  let value := _toLowerCaseStr inputValue isNotIgnoreCase in
  let lower item := _toLowerCaseStr item isNotIgnoreCase in
  let eqFn item :=
    Success (negb (_isNull item) && strictEq (lower item) value) in
  let neFn item :=
    Success (negb (_isNull item) && negb (strictEq (lower item) value)) in
  let elements := match value with JArr l => l | _ => [] end in
  let inFn item :=
    some (λ subItem,
            Success (negb (_isNull item) && strictEq (lower item) subItem))
      elements in
  let ninFn item :=
    every (λ subItem,
             Success (negb (_isNull item)
                      && negb (strictEq (lower item) subItem)))
      elements in
  let likeFn item :=
    match value with
    | JStr v =>
        if isPattern (likeSource v) then
          Success
            (match item with
             | JStr _ =>
                 match lower item with
                 | JStr s => regExpTest (likeSource v) s
                 | _ => false
                 end
             | _ => false
             end)
        else Failure SyntaxError
    | _ => Failure TypeError          (* value.replace is not a function *)
    end in
  if String.eqb fieldName GT then
    λ item, Success (negb (_isNull item) && gt item value)
  else if String.eqb fieldName GTE then
    λ item, Success (negb (_isNull item) && gte item value)
  else if String.eqb fieldName LT then
    λ item, Success (negb (_isNull item) && lt item value)
  else if String.eqb fieldName LTE then
    λ item, Success (negb (_isNull item) && lte item value)
  else if String.eqb fieldName LIKE then likeFn
  else if String.eqb fieldName NE then neFn
  else if String.eqb fieldName EQ then eqFn
  else if isArray value then
    if String.eqb fieldName IN then inFn
    else if String.eqb fieldName NIN then ninFn
    else if String.eqb fieldName NOT then ninFn
    else inFn
  else if String.eqb fieldName NOT then neFn
  else eqFn.

Definition _isOrOp (filter : jsval) : bool :=
  truthy filter && typeofObject filter
  && truthy (getProp filter OR) && typeofObject (getProp filter OR).

Definition _isCondition (conditions : list string) (fieldName : string)
  : bool :=
  existsb (λ condition, String.eqb condition fieldName) conditions.

(** [_getIsNullComparator]; [None] is the [false] it returns when
    there is no such comparator. *)
Definition _getIsNullComparator (fieldName : string) (value : jsval)
  : option (jsval → bool) :=
  if (negb (String.eqb fieldName IS_NULL)
      && negb (String.eqb fieldName IS_NOT_NULL))
     || match value with JArr [] => true | _ => false end
  then None
  else
    let valueArr := match value with JArr l => l | _ => [value] end in
    Some (λ item,
            forallb (λ val,
                       if String.eqb fieldName IS_NULL
                       then _isNull (getPropBy item val)
                       else negb (_isNull (getPropBy item val)))
              valueArr).

Definition conditions : list string :=
  [GT; GTE; LT; LTE; NOT; LIKE; EQ; NE; IN; NIN].

(** The comparators that one key of the filter adds for [item], each
    one the outcome of calling it. *)
Definition comparatorsOf (isNotIgnoreCase : bool) (item : jsval)
    (entry : string * jsval) : list (attempt bool) :=
  let '(fieldName, value) := entry in
  match _getIsNullComparator fieldName value with
  | Some isNullComparator => [Success (isNullComparator item)]
  | None =>
      if _isCondition conditions fieldName then
        let condFilter :=
          if truthy value && typeofObject value then spread value else [] in
        map (λ '(curr, v),
               _getComparator fieldName v isNotIgnoreCase (getProp item curr))
          condFilter
      else
        [_getComparator fieldName value isNotIgnoreCase
           (getProp item fieldName)]
  end.

(** The callback of [data.filter]: the comparators are called in
    order, up to the one that decides. *)
Definition keeps (isOrOp : bool) (_filter : list (string * jsval))
    (isNotIgnoreCase : bool) (item : jsval) : attempt bool :=
  let comparators :=
    concat (map (comparatorsOf isNotIgnoreCase item) _filter) in
  if isOrOp then some id comparators else every id comparators.

(** The function that the module exports.  An argument that is
    [undefined] takes its default. *)
Definition filterData (data filter isNotIgnoreCase : jsval)
  : attempt jsval :=
  let data := match data with JUndefined => JArr [] | _ => data end in
  let filter := match filter with JUndefined => JObj 1 [] | _ => filter end in
  if negb (truthy filter) || negb (typeofObject filter)
     || bool_decide (spread filter = [])
  then Success data
  else
    match data with
    | JArr (x :: l) =>
        let items := x :: l in
        if existsb (λ item, negb (truthy item) || negb (typeofObject item))
             items
        then Success (JArr [])
        else
          let isOrOp := _isOrOp filter in
          let _filter :=
            if isOrOp then spread (getProp filter OR) else spread filter in
          match filterBy (keeps isOrOp _filter (truthy isNotIgnoreCase)) items
          with
          | Success res => Success (JArr res)
          | Failure e => Failure e
          end
    | _ => Success (JArr [])
    end.

(** **** Reading a filter *)

(** The elements of an array. *)
Definition itemsOf (v : jsval) : list jsval :=
  match v with
  | JArr items => items
  | _ => []
  end.

(** What the module accepts as a row: [item && typeof item ===
    'object']. *)
Definition isRecord (item : jsval) : bool :=
  truthy item && typeofObject item.

(** A filter that is applied: [filter && typeof filter === 'object'
    && Object.keys(filter).length !== 0]. *)
Definition isFilter (filter : jsval) : bool :=
  truthy filter && typeofObject filter && negb (bool_decide (spread filter = [])).

(** A key that stands for a field of the rows, and not for an
    operator. *)
Definition isFieldName (fieldName : string) : bool :=
  negb (existsb (String.eqb fieldName)
          [GT; GTE; LT; LTE; NOT; LIKE; EQ; NE; IN; NIN; IS_NULL;
           IS_NOT_NULL]).

(** The names of the table differ from one another. *)
Definition distinctConditions : Prop :=
  NoDup [GT; GTE; LT; LTE; NOT; LIKE; EQ; NE; IN; NIN; IS_NULL;
         IS_NOT_NULL; OR].

(** The way strings are compared: as they are, or in lower case. *)
Definition folded (isNotIgnoreCase : jsval) (s : string) : string :=
  if truthy isNotIgnoreCase then s else toLowerCase s.

(** [m >>= f] *)
Definition andThen {A B} (m : attempt A) (f : A → attempt B) : attempt B :=
  match m with
  | Success a => f a
  | Failure e => Failure e
  end.

End Filter.

(** A runtime for the scenarios: the usual names of the operators,
    nothing inherited, no coercion, and a pattern engine that accepts
    every source and matches nothing. *)
Definition plainRuntime : Runtime :=
  {| GT := "$gt"; GTE := "$gte"; LT := "$lt"; LTE := "$lte"; NOT := "$not";
     LIKE := "$like"; EQ := "$eq"; NE := "$ne"; IN := "$in"; NIN := "$nin";
     IS_NULL := "$isNull"; IS_NOT_NULL := "$isNotNull"; OR := "$or";
     inherited := λ _ _, JUndefined;
     toPropertyKey :=
       λ v, match v with
            | JNum n => pretty n
            | JBool true => "true"
            | JBool false => "false"
            | JNull => "null"
            | JUndefined => "undefined"
            | _ => "[object Object]"
            end;
     lessThan := λ _ _, None;
     isPattern := λ _, true;
     regExpTest := λ _ _, false |}.

(** Three rows of a ledger. *)
Definition row (ref : positive) (currency : jsval) (amount : jsval) : jsval :=
  JObj ref [("currency", currency); ("amount", amount)].

Definition ledger : list jsval :=
  [row 1 (JStr "BTC") (JNum 5); row 2 (JStr "usd") (JNum 70);
   row 3 JNull (JNum 9)].

End Filter.

(* ================================================================= *)
(** * Theorems *)

(** ** Rounding to the nearest double *)

Section DoubleFacts.
Open Scope Q_scope.

Lemma pow2_pos e : 0 < pow2 e.
Proof. by apply Qpower_0_lt. Qed.

Lemma pow2_add a b : pow2 (a + b) == pow2 a * pow2 b.
Proof. by apply Qpower_plus. Qed.

Lemma pow2_le a b : (a <= b)%Z -> pow2 a <= pow2 b.
Proof. intros H. by apply Qpower_le_compat_l. Qed.

Lemma pow2_lt a b : (a < b)%Z -> pow2 a < pow2 b.
Proof. intros H. by apply Qpower_lt_compat_l. Qed.

Lemma pow2_Z n : (0 <= n)%Z -> pow2 n == inject_Z (2 ^ n).
Proof. intros H. unfold pow2. by rewrite Zpower_Qpower. Qed.

Lemma div_lt_div n d A B :
  0 < d -> 0 < B -> 0 <= A -> n < A -> B <= d -> n / d < A / B.
Proof.
  intros Hd HB HA Hn HBd. apply Qlt_shift_div_r; [exact Hd|].
  eapply Qlt_le_trans; [exact Hn|].
  assert (HE : A / B * d == A * d / B) by (unfold Qdiv; ring).
  rewrite HE. apply Qle_shift_div_l; [exact HB|].
  rewrite (Qmult_comm A B), (Qmult_comm A d).
  by apply Qmult_le_compat_r.
Qed.

Lemma div_le_div n d A B :
  0 < d -> 0 < B -> 0 <= A -> A <= n -> d <= B -> A / B <= n / d.
Proof.
  intros Hd HB HA Hn HBd. apply Qle_shift_div_l; [exact Hd|].
  assert (HE : A / B * d == A * d / B) by (unfold Qdiv; ring).
  rewrite HE. apply Qle_shift_div_r; [exact HB|].
  apply Qle_trans with (A * B).
  - rewrite (Qmult_comm A B), (Qmult_comm A d).
    by apply Qmult_le_compat_r.
  - apply Qmult_le_compat_r; [exact Hn|]. by apply Qlt_le_weak.
Qed.

Lemma inject_Z_pos z : (0 < z)%Z -> 0 < inject_Z z.
Proof.
  intros H. replace 0 with (inject_Z 0) by reflexivity. by rewrite <- Zlt_Qlt.
Qed.

Lemma pow2_sub a b : pow2 (a - b) == pow2 a / pow2 b.
Proof. by apply Qpower_minus. Qed.

Lemma ilog2_spec q :
  0 < q -> pow2 (ilog2 q) <= q /\ q < pow2 (ilog2 q + 1).
Proof.
  intros Hq. unfold ilog2.
  destruct q as [n d]. cbn [Qnum Qden].
  assert (Hn : (0 < n)%Z).
  { unfold Qlt in Hq. cbn in Hq. lia. }
  pose proof (Z.log2_spec n Hn) as [Hn1 Hn2].
  pose proof (Z.log2_spec (Z.pos d) ltac:(lia)) as [Hd1 Hd2].
  pose proof (Z.log2_nonneg n) as Hln.
  pose proof (Z.log2_nonneg (Z.pos d)) as Hld.
  set (ln := Z.log2 n) in *. set (ld := Z.log2 (Z.pos d)) in *.
  assert (Hq' : n # d == inject_Z n / inject_Z (Z.pos d)) by apply Qmake_Qdiv.
  assert (Hp : forall k, (0 <= k)%Z -> (0 < 2 ^ k)%Z).
  { intros k Hk. by apply Z.pow_pos_nonneg. }
  assert (Hup : n # d < pow2 (ln - ld + 1)).
  { rewrite Hq'. replace (ln - ld + 1)%Z with ((ln + 1) - ld)%Z by lia.
    rewrite pow2_sub, (pow2_Z (ln + 1)), (pow2_Z ld) by lia.
    apply div_lt_div.
    - by apply inject_Z_pos.
    - apply inject_Z_pos, Hp. lia.
    - apply Qlt_le_weak, inject_Z_pos, Hp. lia.
    - rewrite <- Zlt_Qlt. exact Hn2.
    - rewrite <- Zle_Qle. exact Hd1. }
  assert (Hlow : pow2 (ln - ld - 1) <= n # d).
  { rewrite Hq'. replace (ln - ld - 1)%Z with (ln - (ld + 1))%Z by lia.
    rewrite pow2_sub, (pow2_Z ln), (pow2_Z (ld + 1)) by lia.
    apply div_le_div.
    - by apply inject_Z_pos.
    - apply inject_Z_pos, Hp. lia.
    - apply Qlt_le_weak, inject_Z_pos, Hp. lia.
    - rewrite <- Zle_Qle. exact Hn1.
    - rewrite <- Zle_Qle. apply Z.lt_le_incl. exact Hd2. }
  destruct (Qle_bool (pow2 (ln - ld)) (n # d)) eqn:Hb.
  - apply Qle_bool_iff in Hb. split; [exact Hb|exact Hup].
  - split; [exact Hlow|].
    replace (ln - ld - 1 + 1)%Z with (ln - ld)%Z by lia.
    apply Qnot_le_lt. intros Hle. apply Qle_bool_iff in Hle. congruence.
Qed.

Lemma ilog2_le x y : 0 < x -> x <= y -> (ilog2 x <= ilog2 y)%Z.
Proof.
  intros Hx Hxy.
  destruct (ilog2_spec x Hx) as [Hx1 _].
  destruct (ilog2_spec y) as [_ Hy2]; [by eapply Qlt_le_trans|].
  destruct (Z_le_gt_dec (ilog2 x) (ilog2 y)) as [|Hgt]; [done|].
  exfalso. apply (Qlt_irrefl y).
  eapply Qlt_le_trans; [exact Hy2|].
  eapply Qle_trans; [|exact Hxy].
  eapply Qle_trans; [|exact Hx1]. apply pow2_le. lia.
Qed.

Lemma rne_bounds x :
  (Qfloor x <= roundNearestEven x <= Qfloor x + 1)%Z.
Proof.
  unfold roundNearestEven.
  destruct (_ ?= _); [destruct (Z.even _)|..]; lia.
Qed.

Lemma rne_Z n : roundNearestEven (inject_Z n) = n.
Proof.
  unfold roundNearestEven. rewrite Qfloor_Z.
  assert (H : (inject_Z n - inject_Z n ?= 1 # 2) = Lt).
  { apply Qlt_alt. ring_simplify (inject_Z n - inject_Z n). reflexivity. }
  by rewrite H.
Qed.

Lemma rne_le x y : x <= y -> (roundNearestEven x <= roundNearestEven y)%Z.
Proof.
  intros Hxy. pose proof (Qfloor_resp_le _ _ Hxy) as Hf.
  pose proof (rne_bounds x). pose proof (rne_bounds y).
  destruct (Z.eq_dec (Qfloor x) (Qfloor y)) as [Heq|Hne]; [|lia].
  unfold roundNearestEven. rewrite <- Heq.
  assert (Hd : x - inject_Z (Qfloor x) <= y - inject_Z (Qfloor x)).
  { by apply Qplus_le_l. }
  destruct (Qcompare_spec (x - inject_Z (Qfloor x)) (1 # 2)) as [Hx|Hx|Hx];
    destruct (Qcompare_spec (y - inject_Z (Qfloor x)) (1 # 2)) as [Hy|Hy|Hy];
    try (destruct (Z.even (Qfloor x))); try lia; exfalso; lra.
Qed.

Lemma nearest_nonneg a : 0 < a -> 0 <= nearest a.
Proof.
  intros Ha. unfold nearest. apply Qmult_le_0_compat.
  - replace 0 with (inject_Z 0) by reflexivity. rewrite <- Zle_Qle.
    rewrite <- (rne_Z 0). apply rne_le.
    apply Qle_shift_div_l; [apply pow2_pos|].
    change (inject_Z 0) with 0. rewrite Qmult_0_l. by apply Qlt_le_weak.
  - apply Qlt_le_weak, pow2_pos.
Qed.

Lemma div_pow2 a b : pow2 a / pow2 b == pow2 (a - b).
Proof. by rewrite pow2_sub. Qed.

Lemma nearest_le a b : 0 < a -> a <= b -> nearest a <= nearest b.
Proof.
  intros Ha Hab. assert (Hb : 0 < b) by lra.
  pose proof (ilog2_le a b Ha Hab) as Hlog.
  destruct (ilog2_spec a Ha) as [Ha1 Ha2].
  destruct (ilog2_spec b Hb) as [Hb1 Hb2].
  unfold nearest, exponentOf.
  set (ea := Z.max (ilog2 a - 52) (-1074)).
  set (eb := Z.max (ilog2 b - 52) (-1074)).
  destruct (Z.eq_dec ea eb) as [Heq|Hne].
  - rewrite <- Heq. apply Qmult_le_compat_r; [|apply Qlt_le_weak, pow2_pos].
    rewrite <- Zle_Qle. apply rne_le.
    apply Qmult_le_compat_r; [exact Hab|].
    apply Qlt_le_weak, Qinv_lt_0_compat, pow2_pos.
  - assert (Hlt : (ea < eb)%Z) by lia.
    assert (Heb : eb = (ilog2 b - 52)%Z) by lia.
    assert (Hlog' : (ilog2 a + 1 <= ilog2 b)%Z) by lia.
    set (E := ilog2 b) in *.
    apply Qle_trans with (pow2 E).
    + (* nearest a <= 2^E *)
      assert (HE : pow2 E == inject_Z (2 ^ (E - ea)) * pow2 ea).
      { rewrite <- pow2_Z by lia. rewrite <- pow2_add.
        by replace (E - ea + ea)%Z with E by lia. }
      rewrite HE. apply Qmult_le_compat_r; [|apply Qlt_le_weak, pow2_pos].
      rewrite <- Zle_Qle. rewrite <- (rne_Z (2 ^ (E - ea))). apply rne_le.
      apply Qle_shift_div_r; [apply pow2_pos|].
      rewrite <- HE. apply Qlt_le_weak.
      eapply Qlt_le_trans; [exact Ha2|]. by apply pow2_le.
    + (* 2^E <= nearest b *)
      assert (HE : pow2 E == inject_Z (2 ^ 52) * pow2 eb).
      { rewrite <- pow2_Z by lia. rewrite <- pow2_add.
        by replace (52 + eb)%Z with E by lia. }
      rewrite HE at 1.
      apply Qmult_le_compat_r; [|apply Qlt_le_weak, pow2_pos].
      rewrite <- Zle_Qle. rewrite <- (rne_Z (2 ^ 52)). apply rne_le.
      apply Qle_shift_div_l; [apply pow2_pos|].
      rewrite <- HE. exact Hb1.
Qed.

Lemma Qabs_positive q : ~ Qabs q <= 0 -> 0 < Qabs q.
Proof. intros H. by apply Qnot_le_lt. Qed.

(** Rounding to a double preserves the sign and the order. *)
Lemma toDouble_sign x x' :
  toDouble x = Some x' -> (0 <= x -> 0 <= x') /\ (x <= 0 -> x' <= 0).
Proof.
  unfold toDouble.
  destruct (Qle_bool (Qabs x) 0) eqn:Hz.
  { intros [= <-]. split; intros _; apply Qle_refl. }
  assert (Hpos : 0 < Qabs x).
  { apply Qnot_le_lt. intros H. apply Qle_bool_iff in H. congruence. }
  destruct (Qle_bool (pow2 1024) _); [done|].
  pose proof (nearest_nonneg _ Hpos) as Hn.
  destruct (Qle_bool 0 x) eqn:Hs; intros [= <-]; rewrite Qred_correct.
  - apply Qle_bool_iff in Hs. split; [done|]. intros Hx.
    assert (Hx0 : x == 0) by lra. rewrite Hx0 in Hpos. by vm_compute in Hpos.
  - split; [|intros _; lra]. intros Hx. apply Qle_bool_iff in Hx. congruence.
Qed.

Lemma toDouble_le x y x' y' :
  x <= y -> toDouble x = Some x' -> toDouble y = Some y' -> x' <= y'.
Proof.
  intros Hxy Hx Hy.
  destruct (toDouble_sign _ _ Hx) as [Hx1 Hx2].
  destruct (toDouble_sign _ _ Hy) as [Hy1 Hy2].
  destruct (Qlt_le_dec 0 x) as [Hxpos|Hxneg];
    [|destruct (Qlt_le_dec y 0) as [Hyneg|Hypos]].
  - (* 0 < x <= y *)
    unfold toDouble in Hx, Hy.
    assert (Hax : Qabs x == x) by (apply Qabs_pos; lra).
    assert (Hay : Qabs y == y) by (apply Qabs_pos; lra).
    destruct (Qle_bool (Qabs x) 0) eqn:Hzx.
    { apply Qle_bool_iff in Hzx. lra. }
    destruct (Qle_bool (Qabs y) 0) eqn:Hzy.
    { apply Qle_bool_iff in Hzy. lra. }
    destruct (Qle_bool (pow2 1024) (nearest (Qabs x))); [done|].
    destruct (Qle_bool (pow2 1024) (nearest (Qabs y))); [done|].
    assert (Hsx : Qle_bool 0 x = true) by (apply Qle_bool_iff; lra).
    assert (Hsy : Qle_bool 0 y = true) by (apply Qle_bool_iff; lra).
    rewrite Hsx in Hx. rewrite Hsy in Hy.
    injection Hx as <-. injection Hy as <-. rewrite !Qred_correct.
    apply nearest_le; lra.
  - (* x <= y < 0 *)
    unfold toDouble in Hx, Hy.
    assert (Hax : Qabs x == - x) by (apply Qabs_neg; lra).
    assert (Hay : Qabs y == - y) by (apply Qabs_neg; lra).
    destruct (Qle_bool (Qabs x) 0) eqn:Hzx.
    { apply Qle_bool_iff in Hzx. lra. }
    destruct (Qle_bool (Qabs y) 0) eqn:Hzy.
    { apply Qle_bool_iff in Hzy. lra. }
    destruct (Qle_bool (pow2 1024) (nearest (Qabs x))); [done|].
    destruct (Qle_bool (pow2 1024) (nearest (Qabs y))); [done|].
    assert (Hsx : Qle_bool 0 x = false).
    { destruct (Qle_bool 0 x) eqn:E; [|done]. apply Qle_bool_iff in E. lra. }
    assert (Hsy : Qle_bool 0 y = false).
    { destruct (Qle_bool 0 y) eqn:E; [|done]. apply Qle_bool_iff in E. lra. }
    rewrite Hsx in Hx. rewrite Hsy in Hy.
    injection Hx as <-. injection Hy as <-. rewrite !Qred_correct.
    assert (Hn : nearest (Qabs y) <= nearest (Qabs x)) by (apply nearest_le; lra).
    lra.
  - (* x <= 0 <= y *)
    specialize (Hx2 Hxneg). specialize (Hy1 Hypos). lra.
Qed.

End DoubleFacts.

Section Facts.
Context `{Env}.

(** ** The retry policy (C2) *)

Lemma apiMiddleware_request_run methodApi args isCheckCall s :
  apiMiddleware_request methodApi args isCheckCall s
  = (Ok (request (st_reqs s) methodApi args isCheckCall), bump s,
     [EvRequest methodApi args isCheckCall]).
Proof. reflexivity. Qed.

Lemma _getDataFromApi_loop_resolve fuel methodApi args isCheckCall cr cn s v :
  request (st_reqs s) methodApi args isCheckCall = Resolve v →
  _getDataFromApi_loop (S fuel) methodApi args isCheckCall cr cn s
  = (Ok v, bump s, [EvRequest methodApi args isCheckCall]).
Proof.
  intros Hr. cbn [_getDataFromApi_loop]. unfold bind at 1.
  rewrite apiMiddleware_request_run, Hr. reflexivity.
Qed.

Lemma _getDataFromApi_loop_rateLimit
      fuel methodApi args isCheckCall cr cn s e :
  request (st_reqs s) methodApi args isCheckCall = Reject e →
  isRateLimitError e = true →
  _getDataFromApi_loop (S fuel) methodApi args isCheckCall cr cn s
  = if 2 <? cr + 1
    then (Throw (ApiError e), bump s,
          [EvRequest methodApi args isCheckCall])
    else
      let '(r, s', l) :=
        _getDataFromApi_loop fuel methodApi args isCheckCall
          (cr + 1) cn (bump s) in
      (r, s', EvRequest methodApi args isCheckCall :: EvDelay 80000 :: l).
Proof.
  intros Hr He. cbn [_getDataFromApi_loop]. unfold bind at 1.
  rewrite apiMiddleware_request_run, Hr, He.
  destruct (2 <? cr + 1); [reflexivity|].
  unfold bind, delay, emit. cbn.
  destruct (_getDataFromApi_loop _ _ _ _ _ _ _) as [[[a|x|] s'] l];
    reflexivity.
Qed.

Lemma _getDataFromApi_loop_nonceSmall
      fuel methodApi args isCheckCall cr cn s e :
  request (st_reqs s) methodApi args isCheckCall = Reject e →
  isRateLimitError e = false →
  isNonceSmallError e = true →
  _getDataFromApi_loop (S fuel) methodApi args isCheckCall cr cn s
  = if 20 <? cn + 1
    then (Throw (ApiError e), bump s,
          [EvRequest methodApi args isCheckCall])
    else
      let '(r, s', l) :=
        _getDataFromApi_loop fuel methodApi args isCheckCall
          cr (cn + 1) (bump s) in
      (r, s', EvRequest methodApi args isCheckCall :: EvDelay 1000 :: l).
Proof.
  intros Hr He Hn. cbn [_getDataFromApi_loop]. unfold bind at 1.
  rewrite apiMiddleware_request_run, Hr, He, Hn.
  destruct (20 <? cn + 1); [reflexivity|].
  unfold bind, delay, emit. cbn.
  destruct (_getDataFromApi_loop _ _ _ _ _ _ _) as [[[a|x|] s'] l];
    reflexivity.
Qed.

Lemma _getDataFromApi_loop_other
      fuel methodApi args isCheckCall cr cn s e :
  request (st_reqs s) methodApi args isCheckCall = Reject e →
  isRateLimitError e = false →
  isNonceSmallError e = false →
  _getDataFromApi_loop (S fuel) methodApi args isCheckCall cr cn s
  = (Throw (ApiError e), bump s, [EvRequest methodApi args isCheckCall]).
Proof.
  intros Hr He Hn. cbn [_getDataFromApi_loop]. unfold bind at 1.
  rewrite apiMiddleware_request_run, Hr, He, Hn. reflexivity.
Qed.

Lemma bump_reqs s : st_reqs (bump s) = S (st_reqs s).
Proof. reflexivity. Qed.

(** A gateway that keeps raising rate-limit errors: with [k] retries
    left the loop issues [k + 1] requests, waits [k] times and throws
    the error of the last attempt. *)
Lemma rateLimit_always_run methodApi args isCheckCall (k : nat) :
  ∀ fuel cr cn s,
    (∀ n, ∃ e, request n methodApi args isCheckCall = Reject e
               ∧ isRateLimitError e = true) →
    cr = 2 - Z.of_nat k → (k ≤ 2)%nat → (k < fuel)%nat →
    ∃ e s' evs,
      _getDataFromApi_loop fuel methodApi args isCheckCall cr cn s
      = (Throw (ApiError e), s', evs)
      ∧ request (st_reqs s + k)%nat methodApi args isCheckCall = Reject e
      ∧ isRateLimitError e = true
      ∧ length (requestsOf evs) = S k
      ∧ delaysOf evs = repeat 80000 k.
Proof.
  induction k as [|k IH]; intros fuel cr cn s Hall Hcr Hk Hfuel.
  - destruct fuel as [|fuel]; [lia|].
    destruct (Hall (st_reqs s)) as (e & Hr & He).
    rewrite (_getDataFromApi_loop_rateLimit _ _ _ _ _ _ _ e Hr He).
    replace (2 <? cr + 1) with true by (symmetry; apply Z.ltb_lt; lia).
    exists e, (bump s), [EvRequest methodApi args isCheckCall].
    rewrite Nat.add_0_r. auto.
  - destruct fuel as [|fuel]; [lia|].
    destruct (Hall (st_reqs s)) as (e & Hr & He).
    rewrite (_getDataFromApi_loop_rateLimit _ _ _ _ _ _ _ e Hr He).
    replace (2 <? cr + 1) with false by (symmetry; apply Z.ltb_ge; lia).
    destruct (IH fuel (cr + 1) cn (bump s) Hall) as (e' & s' & evs & Hrun & Hlast & He' & Hn & Hd);
      [lia | lia | lia |].
    rewrite Hrun. exists e', s', (EvRequest methodApi args isCheckCall :: EvDelay 80000 :: evs).
    repeat split; auto.
    + rewrite <- Hlast, bump_reqs. f_equal. lia.
    + cbn. rewrite <- Hn. reflexivity.
    + cbn. rewrite <- Hd. reflexivity.
Qed.

(** The same for nonce-too-old errors, with the bound [20]. *)
Lemma nonceSmall_always_run methodApi args isCheckCall (k : nat) :
  ∀ fuel cr cn s,
    (∀ n, ∃ e, request n methodApi args isCheckCall = Reject e
               ∧ isRateLimitError e = false
               ∧ isNonceSmallError e = true) →
    cn = 20 - Z.of_nat k → (k ≤ 20)%nat → (k < fuel)%nat →
    ∃ e s' evs,
      _getDataFromApi_loop fuel methodApi args isCheckCall cr cn s
      = (Throw (ApiError e), s', evs)
      ∧ request (st_reqs s + k)%nat methodApi args isCheckCall = Reject e
      ∧ isNonceSmallError e = true
      ∧ length (requestsOf evs) = S k
      ∧ delaysOf evs = repeat 1000 k.
Proof.
  induction k as [|k IH]; intros fuel cr cn s Hall Hcn Hk Hfuel.
  - destruct fuel as [|fuel]; [lia|].
    destruct (Hall (st_reqs s)) as (e & Hr & He & Hn).
    rewrite (_getDataFromApi_loop_nonceSmall _ _ _ _ _ _ _ e Hr He Hn).
    replace (20 <? cn + 1) with true by (symmetry; apply Z.ltb_lt; lia).
    exists e, (bump s), [EvRequest methodApi args isCheckCall].
    rewrite Nat.add_0_r. auto.
  - destruct fuel as [|fuel]; [lia|].
    destruct (Hall (st_reqs s)) as (e & Hr & He & Hn).
    rewrite (_getDataFromApi_loop_nonceSmall _ _ _ _ _ _ _ e Hr He Hn).
    replace (20 <? cn + 1) with false by (symmetry; apply Z.ltb_ge; lia).
    destruct (IH fuel cr (cn + 1) (bump s) Hall) as (e' & s' & evs & Hrun & Hlast & He' & Hc & Hd);
      [lia | lia | lia |].
    rewrite Hrun. exists e', s', (EvRequest methodApi args isCheckCall :: EvDelay 1000 :: evs).
    repeat split; auto.
    + rewrite <- Hlast, bump_reqs. f_equal. lia.
    + cbn. rewrite <- Hc. reflexivity.
    + cbn. rewrite <- Hd. reflexivity.
Qed.

(** The loop of [_getDataFromApi] never needs more than [retryFuel]
    iterations: with [cr] rate-limit and [cn] nonce failures counted
    so far, [(3 - cr) + (21 - cn)] iterations are enough. *)
Lemma _getDataFromApi_loop_total methodApi args isCheckCall :
  ∀ fuel cr cn s,
    0 ≤ cr ≤ 2 → 0 ≤ cn ≤ 20 →
    (3 - cr) + (20 - cn) ≤ Z.of_nat fuel →
    fst (fst (_getDataFromApi_loop fuel methodApi args isCheckCall cr cn s))
    ≠ OutOfFuel.
Proof.
  induction fuel as [|fuel IH]; intros cr cn s Hcr Hcn Hfuel; [lia|].
  destruct (request (st_reqs s) methodApi args isCheckCall) as [v|e] eqn:Hr.
  - rewrite (_getDataFromApi_loop_resolve _ _ _ _ _ _ _ v Hr). discriminate.
  - destruct (isRateLimitError e) eqn:He.
    + rewrite (_getDataFromApi_loop_rateLimit _ _ _ _ _ _ _ e Hr He).
      destruct (2 <? cr + 1) eqn:Hlt; [discriminate|].
      apply Z.ltb_ge in Hlt.
      specialize (IH (cr + 1) cn (bump s)).
      destruct (_getDataFromApi_loop fuel _ _ _ _ _ _) as [[r s'] l].
      apply IH; lia.
    + destruct (isNonceSmallError e) eqn:Hn.
      * rewrite (_getDataFromApi_loop_nonceSmall _ _ _ _ _ _ _ e Hr He Hn).
        destruct (20 <? cn + 1) eqn:Hlt; [discriminate|].
        apply Z.ltb_ge in Hlt.
        specialize (IH cr (cn + 1) (bump s)).
        destruct (_getDataFromApi_loop fuel _ _ _ _ _ _) as [[r s'] l].
        apply IH; lia.
      * rewrite (_getDataFromApi_loop_other _ _ _ _ _ _ _ e Hr He Hn).
        discriminate.
Qed.

Lemma _getDataFromApi_total methodApi args isCheckCall s :
  fst (fst (_getDataFromApi methodApi args isCheckCall s)) ≠ OutOfFuel.
Proof.
  unfold _getDataFromApi. destruct (negb (hasMethod methodApi)).
  - discriminate.
  - apply _getDataFromApi_loop_total; unfold retryFuel; lia.
Qed.

(** C2.  For every call of [_getDataFromApi] on a method the gateway
    knows: a gateway that raises a rate-limit error on every attempt
    receives exactly 3 requests, separated by two delays, and the error
    of the third attempt is thrown to the caller; one that raises a
    nonce-too-old error on every attempt receives exactly 21 requests
    before the error of the last one is thrown; an error that is of
    neither kind is thrown at once, after a single request and without
    any delay. *)
Theorem C2_retry_bound methodApi args isCheckCall s :
  hasMethod methodApi = true →
  ((∀ n, ∃ e, request n methodApi args isCheckCall = Reject e
              ∧ isRateLimitError e = true) →
   ∃ e s' evs,
     _getDataFromApi methodApi args isCheckCall s
     = (Throw (ApiError e), s', evs)
     ∧ request (st_reqs s + 2)%nat methodApi args isCheckCall = Reject e
     ∧ isRateLimitError e = true
     ∧ length (requestsOf evs) = 3%nat
     ∧ delaysOf evs = [80000; 80000])
  ∧ ((∀ n, ∃ e, request n methodApi args isCheckCall = Reject e
                ∧ isRateLimitError e = false
                ∧ isNonceSmallError e = true) →
     ∃ e s' evs,
       _getDataFromApi methodApi args isCheckCall s
       = (Throw (ApiError e), s', evs)
       ∧ request (st_reqs s + 20)%nat methodApi args isCheckCall = Reject e
       ∧ isNonceSmallError e = true
       ∧ length (requestsOf evs) = 21%nat
       ∧ delaysOf evs = repeat 1000 20)
  ∧ (∀ e, request (st_reqs s) methodApi args isCheckCall = Reject e →
          isRateLimitError e = false →
          isNonceSmallError e = false →
          _getDataFromApi methodApi args isCheckCall s
          = (Throw (ApiError e), bump s,
             [EvRequest methodApi args isCheckCall])).
Proof.
  intros Hm. unfold _getDataFromApi, retryFuel. rewrite Hm. cbn [negb].
  split; [|split].
  - intros Hall.
    apply (rateLimit_always_run methodApi args isCheckCall 2); auto; lia.
  - intros Hall.
    apply (nonceSmall_always_run methodApi args isCheckCall 20); auto; lia.
  - intros e Hr He Hn. apply _getDataFromApi_loop_other; auto.
Qed.

(** ** The paginated fetcher *)

Lemma bind_run {A B} (m : M A) (f : A → M B) s :
  bind m f s
  = match m s with
    | (Ok a, s1, l1) => after l1 (f a s1)
    | (Throw e, s1, l1) => (Throw e, s1, l1)
    | (OutOfFuel, s1, l1) => (OutOfFuel, s1, l1)
    end.
Proof. reflexivity. Qed.

Lemma after_nil {A} (x : result A * state * list event) : after [] x = x.
Proof. destruct x as [[r s] l]. reflexivity. Qed.

Lemma after_after {A} l1 l2 (x : result A * state * list event) :
  after l1 (after l2 x) = after (l1 ++ l2) x.
Proof. destruct x as [[r s] l]. cbn. by rewrite app_assoc. Qed.

Lemma snd_after {A} l (x : result A * state * list event) :
  snd (after l x) = l ++ snd x.
Proof. destruct x as [[r s] l']. reflexivity. Qed.

Lemma fst_after {A} l (x : result A * state * list event) :
  fst (fst (after l x)) = fst (fst x).
Proof. destruct x as [[r s] l']. reflexivity. Qed.

(** [_getDataFromApi] only talks to the gateway and waits: it changes
    neither the storage nor the schemas. *)
Lemma _getDataFromApi_loop_events methodApi args isCheckCall :
  ∀ fuel cr cn s r s' evs,
    _getDataFromApi_loop fuel methodApi args isCheckCall cr cn s
    = (r, s', evs) →
    Forall isFetchEvent evs
    ∧ st_db s' = st_db s ∧ st_heap s' = st_heap s.
Proof.
  induction fuel as [|fuel IH]; intros cr cn s r s' evs Hrun.
  - inversion Hrun; subst. auto.
  - destruct (request (st_reqs s) methodApi args isCheckCall) as [v|e] eqn:Hr.
    + rewrite (_getDataFromApi_loop_resolve _ _ _ _ _ _ _ v Hr) in Hrun.
      inversion Hrun; subst. repeat split; auto. repeat constructor.
    + destruct (isRateLimitError e) eqn:He;
        [|destruct (isNonceSmallError e) eqn:Hn].
      * rewrite (_getDataFromApi_loop_rateLimit _ _ _ _ _ _ _ e Hr He) in Hrun.
        destruct (2 <? cr + 1).
        { inversion Hrun; subst. repeat split; auto. repeat constructor. }
        destruct (_getDataFromApi_loop fuel _ _ _ _ _ _) as [[r1 s1] l1] eqn:Hk.
        inversion Hrun; subst.
        destruct (IH _ _ _ _ _ _ Hk) as (Hf & Hdb & Hheap).
        repeat split; auto. repeat constructor; auto.
      * rewrite (_getDataFromApi_loop_nonceSmall _ _ _ _ _ _ _ e Hr He Hn) in Hrun.
        destruct (20 <? cn + 1).
        { inversion Hrun; subst. repeat split; auto. repeat constructor. }
        destruct (_getDataFromApi_loop fuel _ _ _ _ _ _) as [[r1 s1] l1] eqn:Hk.
        inversion Hrun; subst.
        destruct (IH _ _ _ _ _ _ Hk) as (Hf & Hdb & Hheap).
        repeat split; auto. repeat constructor; auto.
      * rewrite (_getDataFromApi_loop_other _ _ _ _ _ _ _ e Hr He Hn) in Hrun.
        inversion Hrun; subst. repeat split; auto. repeat constructor.
Qed.

Lemma _getDataFromApi_events methodApi args isCheckCall s r s' evs :
  _getDataFromApi methodApi args isCheckCall s = (r, s', evs) →
  Forall isFetchEvent evs ∧ st_db s' = st_db s ∧ st_heap s' = st_heap s.
Proof.
  unfold _getDataFromApi. destruct (negb (hasMethod methodApi)).
  - intros Hrun. inversion Hrun; subst. auto.
  - apply _getDataFromApi_loop_events.
Qed.

Lemma fetchEvents_no_insert evs :
  Forall isFetchEvent evs → insertedPages evs = [].
Proof.
  induction 1 as [|e evs He _ IH]; [reflexivity|].
  destruct e; cbn in *; try contradiction; exact IH.
Qed.

Lemma fetchEvents_no_progress evs :
  Forall isFetchEvent evs → progressOf evs = [].
Proof.
  induction 1 as [|e evs He _ IH]; [reflexivity|].
  destruct e; cbn in *; try contradiction; exact IH.
Qed.

Lemma insertedPages_app l1 l2 :
  insertedPages (l1 ++ l2) = insertedPages l1 ++ insertedPages l2.
Proof. unfold insertedPages. apply omap_app. Qed.

Lemma persisted_app l1 l2 :
  persisted (l1 ++ l2) = persisted l1 ++ persisted l2.
Proof. unfold persisted. by rewrite insertedPages_app, concat_app. Qed.

Lemma requestsOf_app l1 l2 :
  requestsOf (l1 ++ l2) = requestsOf l1 ++ requestsOf l2.
Proof. unfold requestsOf. apply List.filter_app. Qed.

(** One iteration of the pagination loop, case by case. *)
Lemma _insertApiDataArrObjTypeToDb_loop_unfold
      fuel methodApi collName dateFieldName model isPublic _args
      curr count serial s :
  _insertApiDataArrObjTypeToDb_loop (S fuel) methodApi collName
    dateFieldName model isPublic _args curr count serial s
  = match _getDataFromApi methodApi curr false s with
    | (Ok (APage res nextPage), s1, l1) =>
        if isEmptyArray res && isCursor nextPage && (serial <? 1)
        then
          after l1
            (_insertApiDataArrObjTypeToDb_loop fuel methodApi collName
               dateFieldName model isPublic _args
               (set_end nextPage curr) count (serial + 1) s1)
        else
          match res with
          | DObjs items =>
              match last items with
              | None => (Ok tt, s1, l1)
              | Some lastItem =>
                  match truthyInteger (lastItem !! dateFieldName) with
                  | None => (Ok tt, s1, l1)
                  | Some currTime =>
                      let auth :=
                        if isPublic then None else Some (args_auth _args) in
                      let page :=
                        clipPage dateFieldName _args count items currTime in
                      let rows := normalizeApiData (fst page) model in
                      let ev := EvInsertElemsToDb collName auth rows in
                      let s2 := inserted collName auth rows s1 in
                      let count' := count + len (fst page) in
                      if snd page
                         || needElemsLe0 (params_limit (args_params _args))
                              count'
                         || negb (isCursor nextPage)
                      then (Ok tt, s2, l1 ++ [ev])
                      else
                        after (l1 ++ [ev])
                          (_insertApiDataArrObjTypeToDb_loop fuel methodApi
                             collName dateFieldName model isPublic _args
                             (set_end nextPage curr) count' 0 s2)
                  end
              end
          | _ => (Ok tt, s1, l1)
          end
    | (Ok (AData DNull), s1, l1) => (Throw TypeError, s1, l1)
    | (Ok (AData _), s1, l1) => (Ok tt, s1, l1)
    | (Throw e, s1, l1) => (Throw e, s1, l1)
    | (OutOfFuel, s1, l1) => (OutOfFuel, s1, l1)
    end.
Proof.
  cbn [_insertApiDataArrObjTypeToDb_loop]. rewrite bind_run.
  destruct (_getDataFromApi methodApi curr false s) as [[[v|e|] s1] l1];
    [|reflexivity|reflexivity].
  rewrite bind_run.
  destruct v as [res nextPage|d].
  2:{ destruct d; cbn; by rewrite ?app_nil_r. }
  cbn [destructurePage ret after].
  destruct (isEmptyArray res && isCursor nextPage && (serial <? 1)) eqn:Hretry.
  { rewrite after_nil. reflexivity. }
  rewrite after_nil.
  destruct res as [|o|items|vals]; try (cbn; by rewrite ?app_nil_r).
  destruct (last items) as [lastItem|]; [|cbn; by rewrite ?app_nil_r].
  destruct (truthyInteger (lastItem !! dateFieldName)) as [currTime|];
    [|cbn; by rewrite ?app_nil_r].
  cbn zeta.
  destruct (clipPage dateFieldName _args count items currTime)
    as [res isAllData] eqn:Hclip.
  cbn [fst snd]. rewrite bind_run. cbn [dao_insertElemsToDb].
  unfold dao_insertElemsToDb. rewrite bind_run. cbn [get after].
  rewrite bind_run. cbn [emit after put]. cbn [app].
  fold (inserted collName (if isPublic then None else Some (args_auth _args))
          (normalizeApiData res model) s1).
  destruct (isAllData || needElemsLe0 _ _ || negb (isCursor nextPage)) eqn:Hstop.
  { cbn. reflexivity. }
  rewrite after_after.
  destruct nextPage as [n|]; [|by rewrite !orb_true_r in Hstop].
  reflexivity.
Qed.

Lemma len_nonneg {A} (l : list A) : 0 ≤ len l.
Proof. unfold len. lia. Qed.

Lemma len_app {A} (l1 l2 : list A) : len (l1 ++ l2) = len l1 + len l2.
Proof. unfold len. rewrite length_app. lia. Qed.

Lemma len_normalizeApiData res model :
  len (normalizeApiData res model) = len res.
Proof. unfold len, normalizeApiData. by rewrite length_map. Qed.

Lemma splice_keep_nonneg {A} n (res : list A) :
  0 ≤ n → splice_keep n res = take (Z.to_nat n) res.
Proof.
  intros Hn. unfold splice_keep.
  destruct (n <? 0) eqn:Hlt; [apply Z.ltb_lt in Hlt; lia | reflexivity].
Qed.

Lemma splice_keep_sublist {A} n (res : list A) :
  splice_keep n res `sublist_of` res.
Proof. unfold splice_keep. destruct (n <? 0); apply sublist_take. Qed.

Lemma filter_sublist {A} (f : A → bool) (l : list A) :
  List.filter f l `sublist_of` l.
Proof.
  induction l as [|x l IH]; cbn; [constructor|].
  destruct (f x); by constructor.
Qed.

Lemma Forall_filter_bool {A} (f : A → bool) (l : list A) :
  Forall (λ x, f x = true) (List.filter f l).
Proof.
  induction l as [|x l IH]; cbn; [constructor|].
  destruct (f x) eqn:Hx; [constructor|]; auto.
Qed.

Lemma Forall_sublist_of {A} (P : A → Prop) (l1 l2 : list A) :
  l1 `sublist_of` l2 → Forall P l2 → Forall P l1.
Proof.
  intros Hsub Hall. apply Forall_forall. intros x Hx.
  rewrite Forall_forall in Hall. apply Hall.
  eapply elem_of_sublist; eauto.
Qed.

(** What [clipPage] keeps comes from the page, in order. *)
Lemma clipPage_sublist dateFieldName _args count res currTime :
  fst (clipPage dateFieldName _args count res currTime) `sublist_of` res.
Proof.
  unfold clipPage.
  destruct (startGeTime _ _); destruct (limitLt _ _);
    cbn; try destruct (params_limit _);
    try reflexivity;
    try apply filter_sublist; try apply splice_keep_sublist.
  etrans; [apply splice_keep_sublist | apply filter_sublist].
Qed.

(** Within the budget. *)
Lemma clipPage_budget dateFieldName _args count res currTime L :
  params_limit (args_params _args) = Some L →
  count ≤ L →
  count + len (fst (clipPage dateFieldName _args count res currTime)) ≤ L.
Proof.
  intros HL Hc. unfold clipPage. rewrite HL.
  destruct (startGeTime _ _);
    (destruct (limitLt _ _) eqn:Hlim; cbn [fst];
     [ rewrite splice_keep_nonneg by lia; unfold len;
       rewrite length_take; lia
     | cbn in Hlim; apply Z.ltb_ge in Hlim; lia ]).
Qed.

(** At the [start] boundary only records dated at or after [start]
    are kept, and the page is the last one. *)
Lemma clipPage_boundary dateFieldName _args count res currTime :
  startGeTime (params_start (args_params _args)) currTime = true →
  Forall (λ o, startLeDate (params_start (args_params _args))
                 dateFieldName o = true)
    (fst (clipPage dateFieldName _args count res currTime))
  ∧ snd (clipPage dateFieldName _args count res currTime) = true.
Proof.
  intros Hge. unfold clipPage. rewrite Hge.
  destruct (limitLt _ _); cbn [fst snd]; split; auto.
  - eapply Forall_sublist_of; [|apply Forall_filter_bool].
    destruct (params_limit _); [apply splice_keep_sublist | reflexivity].
  - apply Forall_filter_bool.
Qed.

(** The records persisted by the loop never exceed the remaining
    budget, whatever the gateway answers. *)
Lemma _insertApiDataArrObjTypeToDb_loop_cap
      methodApi collName dateFieldName model isPublic _args L :
  params_limit (args_params _args) = Some L →
  ∀ fuel curr count serial s,
    count ≤ L →
    count
    + len (persisted
             (snd (_insertApiDataArrObjTypeToDb_loop fuel methodApi collName
                     dateFieldName model isPublic _args curr count serial s)))
    ≤ L.
Proof.
  intros HL. induction fuel as [|fuel IH]; intros curr count serial s Hc.
  - cbn. unfold len. cbn. lia.
  - rewrite _insertApiDataArrObjTypeToDb_loop_unfold.
    destruct (_getDataFromApi methodApi curr false s) as [[r s1] l1] eqn:Hg.
    destruct (_getDataFromApi_events _ _ _ _ _ _ _ Hg) as (Hf & _ & _).
    assert (Hp1 : persisted l1 = []).
    { unfold persisted. by rewrite (fetchEvents_no_insert _ Hf). }
    assert (Hstop : count + len (persisted l1) ≤ L).
    { rewrite Hp1. unfold len. cbn. lia. }
    destruct r as [v|e|]; cbn [snd]; try exact Hstop.
    destruct v as [res nextPage|d].
    2:{ destruct d; cbn [snd]; exact Hstop. }
    destruct (isEmptyArray res && isCursor nextPage && (serial <? 1)).
    { rewrite snd_after, persisted_app, Hp1. cbn [app]. apply IH. lia. }
    destruct res as [|o|items|vals]; cbn [snd]; try exact Hstop.
    destruct (last items) as [lastItem|]; cbn [snd]; try exact Hstop.
    destruct (truthyInteger _) as [currTime|]; cbn [snd]; try exact Hstop.
    pose proof (clipPage_budget dateFieldName _args count items currTime L HL Hc)
      as Hb.
    cbn zeta.
    destruct (snd (clipPage _ _ _ _ _) || _ || _).
    + cbn [snd]. rewrite persisted_app, Hp1. cbn.
      rewrite app_nil_r, len_normalizeApiData. lia.
    + rewrite snd_after, !persisted_app, Hp1. cbn [app].
      rewrite len_app. cbn. rewrite app_nil_r, len_normalizeApiData.
      rewrite Z.add_assoc. apply IH. exact Hb.
Qed.

(** The pagination loop terminates whenever a numeric limit is set:
    a retry is never followed by another one, and every page that does
    not end the pass adds at least one record to [count]. *)
Lemma _insertApiDataArrObjTypeToDb_loop_total
      methodApi collName dateFieldName model isPublic _args L :
  params_limit (args_params _args) = Some L →
  ∀ fuel curr count serial s,
    count ≤ L → 0 ≤ serial →
    2 * (L - count) + (if serial <? 1 then 1 else 0) + 1 ≤ Z.of_nat fuel →
    fst (fst (_insertApiDataArrObjTypeToDb_loop fuel methodApi collName
                dateFieldName model isPublic _args curr count serial s))
    ≠ OutOfFuel.
Proof.
  intros HL. induction fuel as [|fuel IH];
    intros curr count serial s Hc Hs Hfuel.
  - destruct (serial <? 1); lia.
  - rewrite _insertApiDataArrObjTypeToDb_loop_unfold.
    pose proof (_getDataFromApi_total methodApi curr false s) as Htot.
    destruct (_getDataFromApi methodApi curr false s) as [[r s1] l1] eqn:Hg.
    destruct r as [v|e|]; cbn [fst] in *; try discriminate; try done.
    destruct v as [res nextPage|d]; [|destruct d; discriminate].
    destruct (isEmptyArray res && isCursor nextPage && (serial <? 1)) eqn:Hretry.
    { rewrite fst_after. apply IH; try lia.
      apply andb_true_iff in Hretry as [_ Hlt]. rewrite Hlt in Hfuel.
      apply Z.ltb_lt in Hlt.
      replace (serial + 1 <? 1) with false by (symmetry; apply Z.ltb_ge; lia).
      lia. }
    destruct res as [|o|items|vals]; try discriminate.
    destruct (last items) as [lastItem|] eqn:Hlast; [|discriminate].
    destruct (truthyInteger _) as [currTime|]; [|discriminate].
    cbn zeta.
    destruct (snd (clipPage dateFieldName _args count items currTime))
      eqn:Hall; [discriminate|].
    destruct (needElemsLe0 _ _) eqn:Hneed; [discriminate|].
    destruct (negb (isCursor nextPage)); [discriminate|].
    cbn [orb]. rewrite fst_after.
    unfold needElemsLe0 in Hneed. rewrite HL in Hneed.
    apply Z.leb_gt in Hneed.
    (* the page was neither clipped nor truncated, so it is whole *)
    assert (Hwhole : fst (clipPage dateFieldName _args count items currTime)
                     = items).
    { revert Hall. unfold clipPage.
      destruct (startGeTime _ _); destruct (limitLt _ _); cbn; congruence. }
    rewrite Hwhole in *.
    assert (1 ≤ len items).
    { unfold len. destruct items; [discriminate | cbn; lia]. }
    apply IH; try lia. cbn. destruct (serial <? 1); lia.
Qed.

(** [_insertApiDataArrObjTypeToDb] as a whole: the loop, when the
    schema is an insertable collection of the right visibility. *)
Lemma _insertApiDataArrObjTypeToDb_run fuel args methodApi schema isPublic s :
  _insertApiDataArrObjTypeToDb fuel args methodApi schema isPublic s
  = match st_heap s !! schema with
    | None => (Throw TypeError, s, [])
    | Some sc =>
        if negb (_isInsertableArrObjTypeOfColl sc isPublic)
        then (Ok tt, s, [])
        else
          _insertApiDataArrObjTypeToDb_loop fuel methodApi (name sc)
            (dateFieldName sc) (model sc) isPublic
            (set_notThrowError args) (set_notThrowError args) 0 0 s
    end.
Proof.
  unfold _insertApiDataArrObjTypeToDb. rewrite bind_run.
  unfold readSchema. rewrite bind_run. cbn [get after].
  destruct (st_heap s !! schema) as [sc|]; [|reflexivity].
  cbn [ret after]. rewrite !after_nil.
  destruct (negb _); reflexivity.
Qed.

Lemma _insertApiDataArrObjTypeToDb_cap
      fuel args methodApi schema isPublic s L :
  params_limit (args_params args) = Some L →
  0 ≤ L →
  len (persisted
         (snd (_insertApiDataArrObjTypeToDb fuel args methodApi schema
                 isPublic s)))
  ≤ L.
Proof.
  intros HL HL0. rewrite _insertApiDataArrObjTypeToDb_run.
  destruct (st_heap s !! schema) as [sc|]; [|unfold len; cbn; lia].
  destruct (negb _); [unfold len; cbn; lia|].
  pose proof (_insertApiDataArrObjTypeToDb_loop_cap methodApi (name sc)
                (dateFieldName sc) (model sc) isPublic
                (set_notThrowError args) L HL fuel
                (set_notThrowError args) 0 0 s HL0).
  lia.
Qed.

Lemma _insertApiDataArrObjTypeToDb_total
      fuel args methodApi schema isPublic s L :
  params_limit (args_params args) = Some L →
  0 ≤ L →
  2 * L + 2 ≤ Z.of_nat fuel →
  fst (fst (_insertApiDataArrObjTypeToDb fuel args methodApi schema
              isPublic s))
  ≠ OutOfFuel.
Proof.
  intros HL HL0 Hfuel. rewrite _insertApiDataArrObjTypeToDb_run.
  destruct (st_heap s !! schema) as [sc|]; [|discriminate].
  destruct (negb _); [discriminate|].
  eapply _insertApiDataArrObjTypeToDb_loop_total; eauto; cbn; lia.
Qed.

Lemma splice_keep_all {A} n (res : list A) :
  len res ≤ n → splice_keep n res = res.
Proof.
  intros Hn. unfold len in Hn.
  rewrite splice_keep_nonneg by lia. apply take_ge. lia.
Qed.

(** The page handed to [dao.insertElemsToDb] at the [start] boundary:
    the filter keeps the records dated at or after [start], in the
    order of the page, and [splice] cuts them at [limit - count]. *)
Lemma clipPage_at_boundary dateFieldName _args count res currTime st :
  params_start (args_params _args) = StartNum st →
  currTime ≤ st →
  clipPage dateFieldName _args count res currTime
  = (match params_limit (args_params _args) with
     | Some L => splice_keep (L - count) (newRecords dateFieldName st res)
     | None => newRecords dateFieldName st res
     end, true).
Proof.
  intros Hst Hle. unfold clipPage, newRecords. rewrite Hst.
  replace (startGeTime (StartNum st) currTime) with true
    by (symmetry; cbn; apply Z.leb_le; exact Hle).
  destruct (params_limit (args_params _args)) as [L|]; cbn [limitLt];
    [|reflexivity].
  destruct (L <? _) eqn:HL; [reflexivity|].
  apply Z.ltb_ge in HL. by rewrite splice_keep_all by lia.
Qed.


(** C4, as the code has it.  At an iteration that is not itself a
    retry, an empty page that comes with a non-zero integer cursor
    makes the loop issue one more fetch, with the same [start] and
    [limit] and with [end] moved to the cursor, before anything else;
    at the retry, a second empty page with such a cursor ends the pass
    normally, and nothing is persisted for either page. *)
Theorem C4_empty_page_retry
      fuel methodApi collName dateFieldName model isPublic _args
      curr count s s1 l1 res n :
  isEmptyArray res = true → n ≠ 0 →
  _getDataFromApi methodApi curr false s = (Ok (APage res (Some n)), s1, l1) →
  _insertApiDataArrObjTypeToDb_loop (S fuel) methodApi collName
    dateFieldName model isPublic _args curr count 0 s
  = after l1
      (_insertApiDataArrObjTypeToDb_loop fuel methodApi collName
         dateFieldName model isPublic _args
         (set_end (Some n) curr) count 1 s1)
  ∧ insertedPages l1 = []
  ∧ ∀ fuel' s2 l2 res' n',
      isEmptyArray res' = true → n' ≠ 0 →
      _getDataFromApi methodApi (set_end (Some n) curr) false s1
      = (Ok (APage res' (Some n')), s2, l2) →
      _insertApiDataArrObjTypeToDb_loop (S (S fuel')) methodApi collName
        dateFieldName model isPublic _args curr count 0 s
      = (Ok tt, s2, l1 ++ l2)
      ∧ insertedPages (l1 ++ l2) = [].
Proof.
  intros Hres Hn Hg.
  assert (Hfirst : ∀ f,
    _insertApiDataArrObjTypeToDb_loop (S f) methodApi collName
      dateFieldName model isPublic _args curr count 0 s
    = after l1
        (_insertApiDataArrObjTypeToDb_loop f methodApi collName
           dateFieldName model isPublic _args
           (set_end (Some n) curr) count 1 s1)).
  { intros f. rewrite _insertApiDataArrObjTypeToDb_loop_unfold, Hg, Hres.
    cbn [isCursor]. replace (n =? 0) with false
      by (symmetry; apply Z.eqb_neq; exact Hn).
    reflexivity. }
  destruct (_getDataFromApi_events _ _ _ _ _ _ _ Hg) as (Hf1 & _ & _).
  split; [apply Hfirst|]. split; [by apply fetchEvents_no_insert|].
  intros fuel' s2 l2 res' n' Hres' Hn' Hg'.
  destruct (_getDataFromApi_events _ _ _ _ _ _ _ Hg') as (Hf2 & _ & _).
  rewrite Hfirst, _insertApiDataArrObjTypeToDb_loop_unfold, Hg', Hres'.
  cbn [isCursor]. replace (n' =? 0) with false
    by (symmetry; apply Z.eqb_neq; exact Hn').
  cbn [negb andb Z.ltb Z.compare].
  split.
  - destruct res' as [| |[|]|[|]]; try discriminate; reflexivity.
  - rewrite insertedPages_app, !fetchEvents_no_insert by assumption.
    reflexivity.
Qed.

(** ** Cap exactness against a faithful gateway *)

Lemma _getDataFromApi_resolve methodApi args isCheckCall s v :
  hasMethod methodApi = true →
  request (st_reqs s) methodApi args isCheckCall = Resolve v →
  _getDataFromApi methodApi args isCheckCall s
  = (Ok v, bump s, [EvRequest methodApi args isCheckCall]).
Proof.
  intros Hm Hr. unfold _getDataFromApi, retryFuel. rewrite Hm. cbn [negb].
  by apply _getDataFromApi_loop_resolve.
Qed.

Lemma filter_all_true {A} (f : A → bool) (l : list A) :
  Forall (λ x, f x = true) l → List.filter f l = l.
Proof.
  induction 1 as [|x l Hx _ IH]; cbn; [reflexivity|].
  by rewrite Hx, IH.
Qed.

Lemma filter_all_false {A} (f : A → bool) (l : list A) :
  Forall (λ x, f x = false) l → List.filter f l = [].
Proof.
  induction 1 as [|x l Hx _ IH]; cbn; [reflexivity|].
  by rewrite Hx, IH.
Qed.

Lemma startLeDate_wellDated dateFieldName st o :
  wellDated dateFieldName o →
  startLeDate (StartNum st) dateFieldName o = (st <=? dateOf dateFieldName o).
Proof.
  intros (d & Hd & _). unfold startLeDate, dateOf. rewrite Hd. reflexivity.
Qed.

Lemma truthyInteger_wellDated dateFieldName o :
  wellDated dateFieldName o →
  truthyInteger (o !! dateFieldName) = Some (dateOf dateFieldName o).
Proof.
  intros (d & Hd & Hd0). unfold dateOf. rewrite Hd. cbn.
  destruct (decide (d = 0)); [contradiction | reflexivity].
Qed.

(** In a page that is newest first, no record is older than the last
    one. *)
Lemma newestFirst_last dateFieldName page x :
  newestFirst dateFieldName page → last page = Some x →
  Forall (λ o, dateOf dateFieldName x ≤ dateOf dateFieldName o) page.
Proof.
  intros Hs Hlast. apply last_Some in Hlast as [l' ->].
  apply Forall_app. split.
  - apply Forall_forall. intros o Ho.
    apply (StronglySorted_app_1_elem_of _ _ _ o x Hs Ho).
    by apply list_elem_of_singleton.
  - constructor; [lia | constructor].
Qed.

(** The two ways a page of a faithful gateway leaves [clipPage]. *)
Lemma clipPage_truncates dateFieldName _args count page x L st :
  params_limit (args_params _args) = Some L →
  params_start (args_params _args) = StartNum st →
  0 ≤ count ≤ L →
  Forall (wellDated dateFieldName) page →
  newestFirst dateFieldName page →
  last page = Some x →
  L - count < len (newRecords dateFieldName st page) →
  clipPage dateFieldName _args count page (dateOf dateFieldName x)
  = (take (Z.to_nat (L - count)) (newRecords dateFieldName st page), true).
Proof.
  intros HL Hst Hc Hwd Hs Hlast Hmore. unfold clipPage. rewrite HL, Hst.
  fold (newRecords dateFieldName st page).
  destruct (startGeTime (StartNum st) (dateOf dateFieldName x)) eqn:Hge.
  - cbn [limitLt].
    replace (L <? count + len (newRecords dateFieldName st page)) with true
      by (symmetry; apply Z.ltb_lt; lia).
    by rewrite splice_keep_nonneg by lia.
  - cbn in Hge. apply Z.leb_gt in Hge.
    assert (Hall : newRecords dateFieldName st page = page).
    { apply filter_all_true.
      pose proof (newestFirst_last _ _ _ Hs Hlast) as Hmin.
      rewrite Forall_forall in *. intros o Ho.
      rewrite startLeDate_wellDated by auto.
      apply Z.leb_le. specialize (Hmin o Ho). lia. }
    rewrite Hall in *. cbn [limitLt].
    replace (L <? count + len page) with true
      by (symmetry; apply Z.ltb_lt; lia).
    by rewrite splice_keep_nonneg by lia.
Qed.

Lemma clipPage_whole dateFieldName _args count page x L st :
  params_limit (args_params _args) = Some L →
  params_start (args_params _args) = StartNum st →
  st < dateOf dateFieldName x →
  count + len page ≤ L →
  clipPage dateFieldName _args count page (dateOf dateFieldName x)
  = (page, false).
Proof.
  intros HL Hst Hlt Hroom. unfold clipPage. rewrite HL, Hst. cbn.
  replace (dateOf dateFieldName x <=? st) with false
    by (symmetry; apply Z.leb_gt; lia).
  replace (L <? count + len page) with false
    by (symmetry; apply Z.ltb_ge; lia).
  reflexivity.
Qed.

Lemma newRecords_app dateFieldName st l1 l2 :
  newRecords dateFieldName st (l1 ++ l2)
  = newRecords dateFieldName st l1 ++ newRecords dateFieldName st l2.
Proof. apply List.filter_app. Qed.

Lemma normalizeApiData_app l1 l2 model :
  normalizeApiData (l1 ++ l2) model
  = normalizeApiData l1 model ++ normalizeApiData l2 model.
Proof. apply map_app. Qed.

Lemma persisted_insert l collName auth rows :
  Forall isFetchEvent l →
  persisted (l ++ [EvInsertElemsToDb collName auth rows]) = rows.
Proof.
  intros Hf. rewrite persisted_app. unfold persisted at 1.
  rewrite (fetchEvents_no_insert _ Hf). cbn. apply app_nil_r.
Qed.

(** Against a faithful gateway that still has more than the
    remaining budget of new records, the loop ends normally and has
    persisted exactly the next [L - count] of them. *)
Lemma faithful_loop_exact
      methodApi _args dateFieldName collName model isPublic L st :
  hasMethod methodApi = true →
  params_limit (args_params _args) = Some L →
  params_start (args_params _args) = StartNum st →
  ∀ e recs,
    Serves methodApi _args dateFieldName e recs →
    Forall (wellDated dateFieldName) recs →
    newestFirst dateFieldName recs →
    ∀ fuel count serial s,
      0 ≤ count ≤ L →
      L - count < len (newRecords dateFieldName st recs) →
      L - count + 1 ≤ Z.of_nat fuel →
      ∃ s' evs,
        _insertApiDataArrObjTypeToDb_loop fuel methodApi collName
          dateFieldName model isPublic _args
          (set_end (Some e) _args) count serial s
        = (Ok tt, s', evs)
        ∧ persisted evs
          = normalizeApiData
              (take (Z.to_nat (L - count))
                 (newRecords dateFieldName st recs)) model.
Proof.
  intros Hm HL Hst e recs Hserves.
  induction Hserves as [e page nextPage Hreq
                       |e page rest c Hreq Hpne Hrne Hc0 Hnewer Holder _ IH];
    intros Hwd Hs fuel count serial s Hc Hmore Hfuel.
  - destruct fuel as [|fuel]; [lia|].
    rewrite _insertApiDataArrObjTypeToDb_loop_unfold.
    rewrite (_getDataFromApi_resolve _ _ _ _ _ Hm (Hreq _)).
    assert (Hne : page ≠ []).
    { intros ->. cbn in Hmore. unfold len in Hmore. cbn in Hmore. lia. }
    destruct (last page) as [x|] eqn:Hlast;
      [|by apply last_None in Hlast].
    replace (isEmptyArray (DObjs page)) with false
      by (destruct page; [done | reflexivity]).
    cbn [andb].
    assert (Hx : wellDated dateFieldName x).
    { rewrite Forall_forall in Hwd. apply Hwd.
      by apply last_Some_elem_of. }
    rewrite (truthyInteger_wellDated _ _ Hx).
    cbn zeta.
    rewrite (clipPage_truncates _ _ _ _ _ L st HL Hst Hc Hwd Hs Hlast Hmore).
    cbn [fst snd orb].
    eexists _, _. split; [reflexivity|].
    apply persisted_insert. repeat constructor.
  - destruct fuel as [|fuel]; [lia|].
    rewrite _insertApiDataArrObjTypeToDb_loop_unfold.
    rewrite (_getDataFromApi_resolve _ _ _ _ _ Hm (Hreq _)).
    destruct (last page) as [x|] eqn:Hlast;
      [|by apply last_None in Hlast].
    replace (isEmptyArray (DObjs page)) with false
      by (destruct page; [done | reflexivity]).
    cbn [andb].
    apply Forall_app in Hwd as [Hwdp Hwdr].
    pose proof (StronglySorted_app_1_l _ _ _ Hs) as Hsp.
    pose proof (StronglySorted_app_1_r _ _ _ Hs) as Hsr.
    assert (Hx : wellDated dateFieldName x).
    { rewrite Forall_forall in Hwdp. apply Hwdp.
      by apply last_Some_elem_of. }
    rewrite (truthyInteger_wellDated _ _ Hx).
    cbn zeta.
    rewrite newRecords_app in Hmore |- *.
    destruct (decide (L - count < len (newRecords dateFieldName st page)))
      as [Hcut|Hroom].
    + (* the budget ends inside this page *)
      rewrite (clipPage_truncates _ _ _ _ _ L st HL Hst Hc Hwdp Hsp Hlast Hcut).
      cbn [fst snd orb].
      eexists _, _. split; [reflexivity|].
      rewrite persisted_insert by repeat constructor.
      f_equal. rewrite take_app_le; [reflexivity|].
      unfold len in Hcut. lia.
    + (* the whole page fits: it lies above the boundary *)
      assert (Hxc : c < dateOf dateFieldName x).
      { rewrite Forall_forall in Hnewer. apply Hnewer.
        by apply last_Some_elem_of. }
      assert (Hlt : st < dateOf dateFieldName x).
      { destruct (decide (st < dateOf dateFieldName x)) as [|Hge]; [done|].
        exfalso.
        assert (Hnone : newRecords dateFieldName st rest = []).
        { apply filter_all_false. rewrite Forall_forall in *.
          intros o Ho. rewrite startLeDate_wellDated by auto.
          apply Z.leb_gt. specialize (Holder o Ho). lia. }
        rewrite Hnone, app_nil_r in Hmore. lia. }
      assert (Hall : newRecords dateFieldName st page = page).
      { apply filter_all_true.
        pose proof (newestFirst_last _ _ _ Hsp Hlast) as Hmin.
        rewrite Forall_forall in *. intros o Ho.
        rewrite startLeDate_wellDated by auto.
        apply Z.leb_le. specialize (Hmin o Ho). lia. }
      rewrite Hall in *.
      assert (Hfit : count + len page ≤ L) by lia.
      rewrite (clipPage_whole _ _ _ _ _ L st HL Hst Hlt Hfit).
      cbn [fst snd orb isCursor].
      replace (c =? 0) with false by (symmetry; by apply Z.eqb_neq).
      cbn [negb orb]. unfold needElemsLe0. rewrite HL.
      assert (Hlen : 1 ≤ len page).
      { unfold len. destruct page; [done | cbn; lia]. }
      rewrite len_app in Hmore.
      destruct (L - (count + len page) <=? 0) eqn:Hneed.
      * apply Z.leb_le in Hneed. cbn [orb].
        eexists _, _. split; [reflexivity|].
        rewrite persisted_insert by repeat constructor.
        f_equal. rewrite take_app_length'; [reflexivity|].
        unfold len in *. lia.
      * apply Z.leb_gt in Hneed. cbn [orb].
        destruct (IH Hwdr Hsr fuel (count + len page) 0
                    (inserted collName
                       (if isPublic then None else Some (args_auth _args))
                       (normalizeApiData page model) (bump s)))
          as (s' & evs & Hrun & Hpers); [lia | lia | lia |].
        change (set_end (Some c) (set_end (Some e) _args))
          with (set_end (Some c) _args).
        rewrite Hrun. cbn [after].
        eexists _, _. split; [reflexivity|].
        rewrite persisted_app, persisted_insert by repeat constructor.
        rewrite Hpers, <- normalizeApiData_app. f_equal.
        rewrite take_app_ge by (unfold len in *; lia).
        do 2 f_equal. unfold len in *. lia.
Qed.

Lemma set_end_same args e :
  params_end (args_params args) = Some e → set_end (Some e) args = args.
Proof.
  destruct args as [a [l e' st sy nt nc]]. cbn. intros ->. reflexivity.
Qed.


Lemma emitProgress_run listeners : ∀ i n p s,
  ∃ r, emitProgress i n p listeners s = (r, s, [])
       ∧ (forallb (λ listener : Observer, listener n p) listeners = true →
          r = Ok tt)
       ∧ (forallb (λ listener : Observer, listener n p) listeners = false →
          ∃ j, r = Throw (ListenerError j)).
Proof.
  induction listeners as [|listener listeners IH]; intros i n p s.
  - exists (Ok tt). by repeat split.
  - cbn [emitProgress forallb]. destruct (listener n p); cbn [andb].
    + apply IH.
    + exists (Throw (ListenerError i)). repeat split; [done|]. by exists i.
Qed.

(** [setProgress]: the value is passed on, and the call returns when
    the handler and the listeners take it; it throws what the first
    of them that fails throws. *)
Lemma setProgress_run this p s :
  ∃ r, setProgress this p s = (r, progressed s, [EvProgress p])
       ∧ (accepts this (st_published s) p = true → r = Ok tt)
       ∧ (accepts this (st_published s) p = false → isObserverError r).
Proof.
  unfold setProgress, accepts, isObserverError.
  destruct (emitProgress_run (_progressListeners this) 0 (st_published s) p
              (progressed s)) as (r & Hr & Hok & Hthrow).
  destruct (_asyncProgressHandler this) as [handler|].
  - destruct (handler (st_published s) p) eqn:Hh.
    + exists r. unfold bind, get, put, emit, ret. cbn. rewrite Hh.
      unfold progressed in Hr. rewrite Hr. cbn [andb]. repeat split; auto.
    + exists (Throw HandlerError). unfold bind, get, put, emit, throw. cbn.
      rewrite Hh. repeat split; [done | by left].
  - exists r. unfold bind, get, put, emit, ret. cbn.
    unfold progressed in Hr. rewrite Hr. cbn [andb]. repeat split; auto.
Qed.

(** C8, as the code has it.  With a credential set that is missing,
    not a Map, or empty, [insertNewDataToDbMultiUser] passes the value
    'ERR_AUTH_UNAUTHORIZED' to [setProgress] and does nothing else: no
    gateway request, no DAO write, no hook; the storage, the schema
    objects and the count of requests are left as they were.  The run
    returns normally when the progress handler and the listeners take
    the value; when one of them throws, the run throws that error. *)
Theorem C8_unauthorized this fuel s :
  getAuthFromDb (st_db s) = AuthMissing
  ∨ getAuthFromDb (st_db s) = AuthNotMap
  ∨ getAuthFromDb (st_db s) = AuthMap [] →
  snd (insertNewDataToDbMultiUser this fuel s)
  = [EvProgress MESS_ERR_UNAUTH]
  ∧ snd (fst (insertNewDataToDbMultiUser this fuel s)) = progressed s
  ∧ (accepts this (st_published s) MESS_ERR_UNAUTH = true →
     fst (fst (insertNewDataToDbMultiUser this fuel s)) = Ok tt)
  ∧ (accepts this (st_published s) MESS_ERR_UNAUTH = false →
     isObserverError (fst (fst (insertNewDataToDbMultiUser this fuel s)))).
Proof.
  intros Hauth.
  assert (Hrun : insertNewDataToDbMultiUser this fuel s
                 = setProgress this MESS_ERR_UNAUTH s).
  { unfold insertNewDataToDbMultiUser. rewrite bind_run. cbn [get after].
    destruct Hauth as [-> | [-> | ->]];
      by destruct (setProgress _ _ _) as [[? ?] ?]. }
  rewrite Hrun.
  destruct (setProgress_run this MESS_ERR_UNAUTH s) as (r & -> & Hok & Hthrow).
  auto.
Qed.

(** ** The cursor / delta detector *)

Lemma writeSchema_run l f s sc :
  st_heap s !! l = Some sc →
  writeSchema l f s = (Ok tt, setHeap (<[l := f sc]> (st_heap s)) s, []).
Proof.
  intros Hl. unfold writeSchema. rewrite bind_run. cbn [get after].
  rewrite Hl. reflexivity.
Qed.

Lemma readSchema_run l s sc :
  st_heap s !! l = Some sc → readSchema l s = (Ok sc, s, []).
Proof.
  intros Hl. unfold readSchema. rewrite bind_run. cbn [get after].
  rewrite Hl. reflexivity.
Qed.

Lemma _getMethodArgMap_limit this method auth l start end_ s :
  _getMethodArgMap this method auth (Some l) start end_ s
  = (Ok (methodArgMap auth (Some l) start end_), s, []).
Proof. reflexivity. Qed.

Lemma compareElemsDbAndApi_Some dateFieldName elDb elApi d :
  compareElemsDbAndApi dateFieldName elDb elApi = Some d
  ↔ dateIn dateFieldName (Some elDb) = Some d
    ∧ ∃ dApi, dateIn dateFieldName (newestRecord elApi) = Some dApi
              ∧ d < dApi.
Proof.
  unfold compareElemsDbAndApi, dateIn. cbn.
  destruct (elDb !! dateFieldName) as [[db| |]|];
    try (split; [discriminate | intros [? _]; discriminate]).
  destruct (newestRecord elApi) as [o|]; cbn;
    [|split; [discriminate | intros (_ & ? & ? & _); discriminate]].
  destruct (o !! dateFieldName) as [[api| |]|];
    try (split; [discriminate | intros (_ & ? & ? & _); discriminate]).
  destruct (db <? api) eqn:Hlt.
  - apply Z.ltb_lt in Hlt. split.
    + intros [= <-]. eauto.
    + intros ([= <-] & _). reflexivity.
  - apply Z.ltb_ge in Hlt. split; [discriminate|].
    intros ([= <-] & dApi & [= <-] & ?). lia.
Qed.

Lemma setHeap_setHeap h1 h2 s : setHeap h2 (setHeap h1 s) = setHeap h2 s.
Proof. reflexivity. Qed.

(** A schema without new data does not survive the filter of an
    account pass. *)
Lemma filterMethodCollMap_drops methodCollMap isPublic s schema sc :
  st_heap s !! schema = Some sc → hasNewData sc = false →
  ∃ kept,
    filterMethodCollMap methodCollMap isPublic s = (Ok kept, s, [])
    ∧ Forall (λ e, snd e ≠ schema) kept.
Proof.
  intros Hsc Hno. eexists. split; [reflexivity|].
  apply Forall_forall. intros e He Heq.
  apply list_elem_of_In, List.filter_In in He as [_ He].
  rewrite Heq, Hsc, Hno in He. discriminate.
Qed.

(** What the detector leaves in the schema, given the newest stored
    record and the answer of the probe. *)
Lemma _checkItemNewDataArrObjType_run
      this method schema auth s sc probe nextPage :
  st_heap s !! schema = Some sc →
  hasMethod method = true →
  request (st_reqs s) method (probeArgs auth) true
  = Resolve (APage probe nextPage) →
  _checkItemNewDataArrObjType this method schema auth s
  = (Ok tt,
     setHeap
       (<[schema :=
            let lastElemFromDb :=
              getLastElemFromDb (st_db s) (name sc)
                (default emptyAuth auth) (sort sc) in
            if isEmptyData probe then set_hasNewData false sc
            else if isEmptyElem lastElemFromDb
            then set_start (StartNum 0) (set_hasNewData true sc)
            else
              match truthy (compareElemsDbAndApi (dateFieldName sc)
                              (default ∅ lastElemFromDb) probe) with
              | Some d => set_start (StartNum (d + 1)) (set_hasNewData true sc)
              | None => set_hasNewData false sc
              end]> (st_heap s))
       (bump s),
     [EvRequest method (probeArgs auth) true]).
Proof.
  intros Hsc Hm Hreq. unfold _checkItemNewDataArrObjType.
  rewrite bind_run, (writeSchema_run _ _ _ _ Hsc). cbn [after].
  rewrite bind_run, _getMethodArgMap_limit. cbn [after].
  set (h1 := <[schema := set_hasNewData false sc]> (st_heap s)).
  assert (H1 : st_heap (setHeap h1 s) !! schema
               = Some (set_hasNewData false sc)).
  { cbn. unfold h1. apply lookup_insert_eq. }
  rewrite !after_nil.
  rewrite bind_run, (readSchema_run _ _ _ H1). cbn [after].
  rewrite !after_nil, bind_run. cbn [get after]. rewrite !after_nil.
  rewrite bind_run.
  fold (probeArgs auth).
  rewrite (_getDataFromApi_resolve _ _ _ (setHeap h1 s) _ Hm Hreq).
  cbn [after]. rewrite bind_run. cbn [destructurePage ret after app].
  cbn [set_hasNewData name sort dateFieldName st_db setHeap].
  destruct (isEmptyData probe).
  { cbn. unfold setHeap, bump. cbn. reflexivity. }
  assert (H2 : st_heap (bump (setHeap h1 s)) !! schema
               = Some (set_hasNewData false sc)) by exact H1.
  assert (Hfresh : ∀ v,
    (let* _ := writeSchema schema (set_hasNewData true) in
     writeSchema schema (set_start v)) (bump (setHeap h1 s))
    = (Ok tt,
       setHeap (<[schema := set_start v (set_hasNewData true sc)]>
                  (st_heap s)) (bump s), [])).
  { intros v. rewrite bind_run, (writeSchema_run _ _ _ _ H2). cbn [after].
    rewrite after_nil.
    erewrite writeSchema_run by (cbn; apply lookup_insert_eq).
    cbn. unfold setHeap, bump, h1. cbn.
    by rewrite !insert_insert_eq. }
  destruct (getLastElemFromDb (st_db s) (name sc) (default emptyAuth auth)
              (sort sc)) as [elDb|]; cbn [isEmptyElem default].
  2:{ rewrite Hfresh. reflexivity. }
  destruct (isEmptyObj elDb).
  { rewrite Hfresh. reflexivity. }
  destruct (truthy _) as [d|].
  { rewrite Hfresh. reflexivity. }
  reflexivity.
Qed.

(** C5, as the code has it.  For a schema the detector is run on,
    [_checkItemNewDataArrObjType] issues one probe (limit 1, errors and
    next-page checks suppressed) and writes the cursor of the schema:
    with an empty storage and a probe that returned data,
    [hasNewData = true] and [start = 0]; with a non-empty storage whose
    newest date is a non-zero integer strictly smaller than the newest
    date of the probe, [hasNewData = true] and
    [start = lastStoredDate + 1]; in every other case
    [hasNewData = false], [start] is untouched, and the filter of the
    pass drops the schema, so that nothing is fetched for it. *)
Theorem C5_delta_detector this method schema auth s sc probe nextPage :
  st_heap s !! schema = Some sc →
  hasMethod method = true →
  request (st_reqs s) method (probeArgs auth) true
  = Resolve (APage probe nextPage) →
  let lastElemFromDb :=
    getLastElemFromDb (st_db s) (name sc) (default emptyAuth auth)
      (sort sc) in
  let storedDate := dateIn (dateFieldName sc) lastElemFromDb in
  let probeDate := dateIn (dateFieldName sc) (newestRecord probe) in
  ∃ sc' s',
    _checkItemNewDataArrObjType this method schema auth s
    = (Ok tt, s', [EvRequest method (probeArgs auth) true])
    ∧ s' = setHeap (<[schema := sc']> (st_heap s)) (bump s)
    ∧ params_limit (args_params (probeArgs auth)) = Some 1
    ∧ (isEmptyData probe = false → isEmptyElem lastElemFromDb = true →
       hasNewData sc' = true ∧ start sc' = StartNum 0)
    ∧ (∀ dDb dApi,
         isEmptyData probe = false → isEmptyElem lastElemFromDb = false →
         storedDate = Some dDb → probeDate = Some dApi →
         dDb < dApi → dDb ≠ 0 →
         hasNewData sc' = true ∧ start sc' = StartNum (dDb + 1))
    ∧ (isEmptyData probe = true
       ∨ (isEmptyElem lastElemFromDb = false
          ∧ ¬ ∃ dDb dApi, storedDate = Some dDb ∧ probeDate = Some dApi
                          ∧ dDb < dApi ∧ dDb ≠ 0) →
       hasNewData sc' = false ∧ start sc' = start sc
       ∧ ∀ methodCollMap, ∃ kept,
           filterMethodCollMap methodCollMap false s' = (Ok kept, s', [])
           ∧ Forall (λ e, snd e ≠ schema) kept).
Proof.
  intros Hsc Hm Hreq lastElemFromDb storedDate probeDate.
  rewrite (_checkItemNewDataArrObjType_run _ _ _ _ _ _ _ _ Hsc Hm Hreq).
  fold lastElemFromDb. cbn zeta.
  eexists _, _. split; [reflexivity|]. split; [reflexivity|].
  split; [reflexivity|].
  split; [|split].
  - intros -> ->. split; reflexivity.
  - intros dDb dApi -> Hne HdDb HdApi Hlt Hnz. rewrite Hne.
    destruct lastElemFromDb as [elDb|]; [|discriminate]. cbn [default from_option id].
    assert (Hcmp : compareElemsDbAndApi (dateFieldName sc) elDb probe
                   = Some dDb).
    { apply compareElemsDbAndApi_Some. eauto. }
    rewrite Hcmp. cbn. destruct (decide (dDb = 0)); [contradiction|].
    split; reflexivity.
  - intros Hother.
    match goal with
    | |- hasNewData ?x = false ∧ _ =>
        assert (Hsc' : x = set_hasNewData false sc)
    end.
    { destruct Hother as [-> | [Hne Hnot]]; [reflexivity|].
      destruct (isEmptyData probe); [reflexivity|]. rewrite Hne.
      destruct lastElemFromDb as [elDb|]; [|discriminate]. cbn [default from_option id].
      destruct (compareElemsDbAndApi (dateFieldName sc) elDb probe)
        as [d|] eqn:Hcmp; [|reflexivity].
      cbn. destruct (decide (d = 0)); [reflexivity|]. exfalso.
      apply compareElemsDbAndApi_Some in Hcmp as (Hd & dApi & HdApi & Hlt).
      apply Hnot. exists d, dApi. auto. }
    rewrite Hsc'. split; [reflexivity|]. split; [reflexivity|].
    intros methodCollMap.
    eapply filterMethodCollMap_drops; [cbn; apply lookup_insert_eq|].
    reflexivity.
Qed.

(** ** Updatable collections *)

Lemma _getMethodArgMap_maxLimit this method auth start end_ s l sc :
  Map_get (_methodCollMap this) method = Some l →
  st_heap s !! l = Some sc →
  _getMethodArgMap this method auth None start end_ s
  = (Ok (methodArgMap auth (maxLimit sc) start end_), s, []).
Proof.
  intros Hget Hl. unfold _getMethodArgMap. rewrite bind_run, Hget.
  rewrite bind_run, (readSchema_run _ _ _ Hl). reflexivity.
Qed.

Lemma _updateApiDataArrTypeToDb_run this methodApi schema s sc l0 sc0 v :
  st_heap s !! schema = Some sc →
  _isUpdatableArrTypeOfColl sc true = true →
  Map_get (_methodCollMap this) methodApi = Some l0 →
  st_heap s !! l0 = Some sc0 →
  hasMethod methodApi = true →
  request (st_reqs s) methodApi (listingArgs (maxLimit sc0)) false
  = Resolve v →
  _updateApiDataArrTypeToDb this methodApi schema s
  = match arrayOf v with
    | Some (x :: l) =>
        let lists :=
          [(field sc, map (λ item, Some (itemValue item)) (x :: l))] in
        let rows :=
          map (λ item, ({[ field sc := itemValue item ]} : obj)) (x :: l) in
        (Ok tt, reconciled (name sc) lists rows s,
         [EvRequest methodApi (listingArgs (maxLimit sc0)) false;
          EvRemoveElemsFromDbIfNotInLists (name sc) lists;
          EvInsertElemsToDbIfNotExists (name sc) rows])
    | _ => (Ok tt, bump s,
            [EvRequest methodApi (listingArgs (maxLimit sc0)) false])
    end.
Proof.
  intros Hsc Hkind Hget Hl0 Hm Hreq. unfold _updateApiDataArrTypeToDb.
  rewrite bind_run, (readSchema_run _ _ _ Hsc). cbn [after].
  rewrite Hkind. cbn [negb]. rewrite after_nil.
  rewrite bind_run, (_getMethodArgMap_maxLimit _ _ _ _ _ _ _ _ Hget Hl0).
  cbn [after]. rewrite after_nil. fold (listingArgs (maxLimit sc0)).
  rewrite bind_run, (_getDataFromApi_resolve _ _ _ _ _ Hm Hreq).
  cbn [after].
  destruct (arrayOf v) as [[|x l]|]; reflexivity.
Qed.

Lemma _updateApiDataArrObjTypeToDb_run this methodApi schema s sc l0 sc0 v :
  st_heap s !! schema = Some sc →
  _isUpdatableArrObjTypeOfColl sc true = true →
  Map_get (_methodCollMap this) methodApi = Some l0 →
  st_heap s !! l0 = Some sc0 →
  hasMethod methodApi = true →
  request (st_reqs s) methodApi (listingArgs (maxLimit sc0)) false
  = Resolve v →
  _updateApiDataArrObjTypeToDb this methodApi schema s
  = match arrayOf v with
    | Some (x :: l) =>
        let lists :=
          map (λ curr, (curr, map (λ item, itemGet item curr) (x :: l)))
            (fields sc) in
        let rows := normalizeApiItems (x :: l) (model sc) in
        (Ok tt, reconciled (name sc) lists rows s,
         [EvRequest methodApi (listingArgs (maxLimit sc0)) false;
          EvRemoveElemsFromDbIfNotInLists (name sc) lists;
          EvInsertElemsToDbIfNotExists (name sc) rows])
    | _ => (Ok tt, bump s,
            [EvRequest methodApi (listingArgs (maxLimit sc0)) false])
    end.
Proof.
  intros Hsc Hkind Hget Hl0 Hm Hreq. unfold _updateApiDataArrObjTypeToDb.
  rewrite bind_run, (readSchema_run _ _ _ Hsc). cbn [after].
  rewrite Hkind. cbn [negb]. rewrite after_nil.
  rewrite bind_run, (_getMethodArgMap_maxLimit _ _ _ _ _ _ _ _ Hget Hl0).
  cbn [after]. rewrite after_nil. fold (listingArgs (maxLimit sc0)).
  rewrite bind_run, (_getDataFromApi_resolve _ _ _ _ _ Hm Hreq).
  cbn [after].
  destruct (arrayOf v) as [[|x l]|]; reflexivity.
Qed.

(** ** Progress *)

Lemma emitsOnly_ret {A} P (a : A) : emitsOnly P (ret a).
Proof. intros s. constructor. Qed.

Lemma emitsOnly_throw {A} P e : emitsOnly P (@throw _ A e).
Proof. intros s. constructor. Qed.

Lemma emitsOnly_out_of_fuel {A} P : emitsOnly P (@out_of_fuel _ A).
Proof. intros s. constructor. Qed.

Lemma emitsOnly_get P : emitsOnly P get.
Proof. intros s. constructor. Qed.

Lemma emitsOnly_put P s' : emitsOnly P (put s').
Proof. intros s. constructor. Qed.

Lemma emitsOnly_emit (P : event → Prop) e : P e → emitsOnly P (emit e).
Proof. intros He s. repeat constructor. exact He. Qed.

Lemma emitsOnly_bind {A B} P (m : M A) (f : A → M B) :
  emitsOnly P m → (∀ a, emitsOnly P (f a)) → emitsOnly P (bind m f).
Proof.
  intros Hm Hf s. rewrite bind_run. specialize (Hm s).
  destruct (m s) as [[[a|e|] s1] l1]; cbn [snd] in *; try exact Hm.
  rewrite snd_after. apply Forall_app. split; [exact Hm | apply Hf].
Qed.

Lemma emitsOnly_impl {A} (P Q : event → Prop) (m : M A) :
  (∀ e, P e → Q e) → emitsOnly P m → emitsOnly Q m.
Proof. intros HPQ Hm s. eapply Forall_impl; [apply Hm | exact HPQ]. Qed.

Lemma emitsOnly_forEach {A} P (xs : list A) (body : A → M unit) :
  (∀ x, emitsOnly P (body x)) → emitsOnly P (forEach xs body).
Proof.
  intros Hbody. induction xs as [|x xs IH]; cbn [forEach].
  - apply emitsOnly_ret.
  - apply emitsOnly_bind; [apply Hbody | intros _; exact IH].
Qed.

Lemma emitsOnly_forCount {A} P (xs : list A) body :
  (∀ x count, emitsOnly P (body x count)) →
  ∀ count progress, emitsOnly P (forCount xs count progress body).
Proof.
  intros Hbody. induction xs as [|x xs IH]; intros count progress;
    cbn [forCount].
  - apply emitsOnly_ret.
  - apply emitsOnly_bind; [apply Hbody | intros p; apply IH].
Qed.

Lemma emitsOnly_getDataFromApi (P : event → Prop) methodApi args isCheckCall :
  (∀ e, isFetchEvent e → P e) →
  emitsOnly P (_getDataFromApi methodApi args isCheckCall).
Proof.
  intros HP s.
  destruct (_getDataFromApi methodApi args isCheckCall s) as [[r s'] evs]
    eqn:Hrun.
  destruct (_getDataFromApi_events _ _ _ _ _ _ _ Hrun) as (Hf & _ & _).
  eapply Forall_impl; [exact Hf | exact HP].
Qed.

Lemma silent_fetch e : isFetchEvent e → silent e.
Proof. destruct e; cbn; tauto. Qed.

Lemma silent_belowHundred e : silent e → belowHundred e.
Proof. destruct e as [| | | | |[]|]; cbn; tauto. Qed.

Lemma emitsOnly_setProgress (P : event → Prop) this p :
  P (EvProgress p) → emitsOnly P (setProgress this p).
Proof.
  intros HP s. destruct (setProgress_run this p s) as (r & -> & _).
  cbn [snd]. by repeat constructor.
Qed.

Lemma emitsOnly_publish (P : event → Prop) this p :
  (∀ n, n < 100 → P (EvProgress (PNum n))) → emitsOnly P (publish this p).
Proof.
  intros HP. unfold publish. destruct p as [n|]; [|apply emitsOnly_ret].
  destruct (n <? 100) eqn:Hn; [|apply emitsOnly_ret].
  apply emitsOnly_setProgress, HP. by apply Z.ltb_lt.
Qed.

(** Breaks a monadic term into its parts. *)
Ltac emits_step :=
  match goal with
  | |- emitsOnly _ (bind _ _) => apply emitsOnly_bind; [|intros ?]
  | |- emitsOnly _ (ret _) => apply emitsOnly_ret
  | |- emitsOnly _ (throw _) => apply emitsOnly_throw
  | |- emitsOnly _ out_of_fuel => apply emitsOnly_out_of_fuel
  | |- emitsOnly _ get => apply emitsOnly_get
  | |- emitsOnly _ (put _) => apply emitsOnly_put
  | |- emitsOnly _ (emit _) => apply emitsOnly_emit; exact I
  | |- emitsOnly _ (forEach _ _) => apply emitsOnly_forEach; intros ?
  | |- emitsOnly _ (_getDataFromApi _ _ _) =>
      apply emitsOnly_getDataFromApi; exact silent_fetch
  | |- emitsOnly _ (match ?x with _ => _ end) => destruct x
  | |- emitsOnly _ (let '(_, _) := ?x in _) => destruct x
  end.

Ltac emits := repeat emits_step.

Lemma silent_readSchema l : emitsOnly silent (readSchema l).
Proof. unfold readSchema. emits. Qed.

Lemma silent_writeSchema l f : emitsOnly silent (writeSchema l f).
Proof. unfold writeSchema. emits. Qed.

Lemma silent_getMethodArgMap this method auth limit start end_ :
  emitsOnly silent (_getMethodArgMap this method auth limit start end_).
Proof. unfold _getMethodArgMap. emits; apply silent_readSchema. Qed.

Lemma silent_destructurePage v : emitsOnly silent (destructurePage v).
Proof. unfold destructurePage. emits. Qed.

Lemma silent_dao_insertElemsToDb collName auth rows :
  emitsOnly silent (dao_insertElemsToDb collName auth rows).
Proof. unfold dao_insertElemsToDb. emits. Qed.

Lemma silent_dao_removeElemsFromDbIfNotInLists collName lists :
  emitsOnly silent (dao_removeElemsFromDbIfNotInLists collName lists).
Proof. unfold dao_removeElemsFromDbIfNotInLists. emits. Qed.

Lemma silent_dao_insertElemsToDbIfNotExists collName rows :
  emitsOnly silent (dao_insertElemsToDbIfNotExists collName rows).
Proof. unfold dao_insertElemsToDbIfNotExists. emits. Qed.

Lemma silent_start_push schema entry :
  emitsOnly silent (start_push schema entry).
Proof.
  unfold start_push. emits;
    first [apply silent_readSchema | apply silent_writeSchema].
Qed.

Create HintDb emits.

#[local] Hint Resolve silent_readSchema silent_writeSchema
  silent_getMethodArgMap silent_destructurePage silent_dao_insertElemsToDb
  silent_dao_removeElemsFromDbIfNotInLists
  silent_dao_insertElemsToDbIfNotExists silent_start_push : emits.

Lemma silent_insertApiDataArrObjTypeToDb_loop
      methodApi collName dateFieldName model isPublic _args :
  ∀ fuel curr count serial,
    emitsOnly silent
      (_insertApiDataArrObjTypeToDb_loop fuel methodApi collName
         dateFieldName model isPublic _args curr count serial).
Proof.
  induction fuel as [|fuel IH]; intros curr count serial;
    cbn [_insertApiDataArrObjTypeToDb_loop]; emits;
    auto with emits.
Qed.

Lemma silent_insertApiDataArrObjTypeToDb fuel args methodApi schema isPublic :
  emitsOnly silent
    (_insertApiDataArrObjTypeToDb fuel args methodApi schema isPublic).
Proof.
  unfold _insertApiDataArrObjTypeToDb. emits;
    auto using silent_insertApiDataArrObjTypeToDb_loop with emits.
Qed.

Lemma silent_checkItemNewDataArrObjType this method schema auth :
  emitsOnly silent (_checkItemNewDataArrObjType this method schema auth).
Proof. unfold _checkItemNewDataArrObjType. emits; auto with emits. Qed.

Lemma silent_checkNewDataArrObjType this auth methodCollMap :
  emitsOnly silent (_checkNewDataArrObjType this auth methodCollMap).
Proof.
  unfold _checkNewDataArrObjType. emits;
    auto using silent_checkItemNewDataArrObjType with emits.
Qed.

Lemma silent_checkNewConfigurablePublicData_symbol this method schema sc e :
  emitsOnly silent
    (_checkNewConfigurablePublicData_symbol this method schema sc e).
Proof.
  unfold _checkNewConfigurablePublicData_symbol. emits; auto with emits.
Qed.

Lemma silent_checkNewConfigurablePublicData this method schema :
  emitsOnly silent (_checkNewConfigurablePublicData this method schema).
Proof.
  unfold _checkNewConfigurablePublicData. emits;
    auto using silent_checkNewConfigurablePublicData_symbol with emits.
Qed.

Lemma silent_checkNewDataPublicArrObjType this methodCollMap :
  emitsOnly silent (_checkNewDataPublicArrObjType this methodCollMap).
Proof.
  unfold _checkNewDataPublicArrObjType. emits;
    auto using silent_checkNewConfigurablePublicData,
      silent_checkItemNewDataArrObjType with emits.
Qed.

Lemma silent_filterMethodCollMap methodCollMap isPublic :
  emitsOnly silent (filterMethodCollMap methodCollMap isPublic).
Proof. unfold filterMethodCollMap. emits. Qed.

Lemma silent_checkNewData this auth : emitsOnly silent (checkNewData this auth).
Proof.
  unfold checkNewData. emits;
    auto using silent_checkNewDataArrObjType, silent_filterMethodCollMap.
Qed.

Lemma silent_checkNewPublicData this : emitsOnly silent (checkNewPublicData this).
Proof.
  unfold checkNewPublicData. emits;
    auto using silent_checkNewDataPublicArrObjType,
      silent_filterMethodCollMap.
Qed.

Lemma silent_insertConfigurablePublicApiData
      this fuel methodApi schema symbol dates :
  emitsOnly silent
    (_insertConfigurablePublicApiData this fuel methodApi schema symbol dates).
Proof.
  unfold _insertConfigurablePublicApiData. emits;
    auto using silent_insertApiDataArrObjTypeToDb with emits.
Qed.

Lemma silent_insertApiDataPublicArrObjTypeToDb this fuel methodApi schema :
  emitsOnly silent
    (_insertApiDataPublicArrObjTypeToDb this fuel methodApi schema).
Proof.
  unfold _insertApiDataPublicArrObjTypeToDb. emits;
    auto using silent_insertConfigurablePublicApiData with emits.
Qed.

Lemma silent_updateApiDataArrTypeToDb this methodApi schema :
  emitsOnly silent (_updateApiDataArrTypeToDb this methodApi schema).
Proof. unfold _updateApiDataArrTypeToDb. emits; auto with emits. Qed.

Lemma silent_updateApiDataArrObjTypeToDb this methodApi schema :
  emitsOnly silent (_updateApiDataArrObjTypeToDb this methodApi schema).
Proof. unfold _updateApiDataArrObjTypeToDb. emits; auto with emits. Qed.

Lemma silent_hookCalled i : emitsOnly silent (hookCalled i).
Proof. unfold hookCalled. emits. Qed.

Lemma silent_startHooks hooks : ∀ i, emitsOnly silent (startHooks i hooks).
Proof.
  induction hooks as [|h hooks IH]; intros i; cbn [startHooks]; emits;
    auto using silent_hookCalled.
Qed.

Lemma silent_afterAllInserts this : emitsOnly silent (_afterAllInserts this).
Proof. unfold _afterAllInserts. emits; auto using silent_startHooks. Qed.

Lemma numericProgressOf_app l1 l2 :
  numericProgressOf (l1 ++ l2)
  = numericProgressOf l1 ++ numericProgressOf l2.
Proof. unfold numericProgressOf. apply omap_app. Qed.

Lemma progressOf_app l1 l2 :
  progressOf (l1 ++ l2) = progressOf l1 ++ progressOf l2.
Proof. unfold progressOf. apply omap_app. Qed.

Lemma silent_numericProgressOf evs :
  Forall silent evs → numericProgressOf evs = [].
Proof.
  induction 1 as [|e evs He _ IH]; [reflexivity|].
  destruct e; cbn in *; try contradiction; exact IH.
Qed.

Lemma silent_progressOf evs : Forall silent evs → progressOf evs = [].
Proof.
  induction 1 as [|e evs He _ IH]; [reflexivity|].
  destruct e; cbn in *; try contradiction; exact IH.
Qed.

(** *** Arithmetic on doubles *)

Lemma toDouble_100 : toDouble (inject_Z 100) = Some (inject_Z 100).
Proof. by vm_compute. Qed.

Lemma toDouble_1 : toDouble 1 = Some 1%Q.
Proof. by vm_compute. Qed.

Lemma js_binop_Some op x y z :
  js_binop op x y = Some z
  ↔ ∃ a b, x = Some a ∧ y = Some b ∧ toDouble (op a b) = Some z.
Proof.
  unfold js_binop. destruct x as [a|], y as [b|]; cbn; split;
    try discriminate; try (intros (? & ? & ? & ? & _); discriminate).
  - intros Hz. by exists a, b.
  - by intros (? & ? & [= <-] & [= <-] & Hz).
Qed.

Lemma js_div_Some c size x :
  js_div c size = Some x
  ↔ size ≠ 0 ∧ toDouble (inject_Z c / inject_Z size) = Some x.
Proof.
  unfold js_div. destruct (size =? 0) eqn:Hz.
  - apply Z.eqb_eq in Hz. split; [discriminate | by intros [? _]].
  - apply Z.eqb_neq in Hz. split; [done | by intros [_ ?]].
Qed.

Lemma js_div100_Some x w :
  js_div100 x = Some w ↔ ∃ a, x = Some a ∧ toDouble (a / inject_Z 100) = Some w.
Proof.
  unfold js_div100. destruct x as [a|]; cbn; split; try discriminate.
  - intros Hw. by exists a.
  - by intros (? & [= <-] & Hw).
  - by intros (? & ? & _).
Qed.

Lemma js_num_100 : js_num 100 = Some (inject_Z 100).
Proof. exact toDouble_100. Qed.

Lemma Math_round_Some x v :
  Math_round x = Some v ↔ ∃ z, x = Some z ∧ v = roundHalfUp z.
Proof.
  unfold Math_round. destruct x as [z|]; cbn; split; try discriminate.
  - intros [= <-]. by exists z.
  - by intros (? & [= <-] & ->).
  - by intros (? & ? & _).
Qed.

Lemma roundHalfUp_le x y : (x <= y)%Q → roundHalfUp x ≤ roundHalfUp y.
Proof.
  intros Hxy. unfold roundHalfUp. apply Qfloor_resp_le. by apply Qplus_le_l.
Qed.

Lemma ratio_le c c' size :
  0 < size → c ≤ c' →
  (inject_Z c / inject_Z size <= inject_Z c' / inject_Z size)%Q.
Proof.
  intros Hsize Hc. unfold Qdiv.
  apply Qmult_le_compat_r; [by rewrite <- Zle_Qle|].
  apply Qinv_le_0_compat. replace 0%Q with (inject_Z 0) by reflexivity.
  rewrite <- Zle_Qle. lia.
Qed.

Lemma ratio_bounds c size :
  0 ≤ c ≤ size → 0 < size →
  (0 <= inject_Z c / inject_Z size)%Q ∧ (inject_Z c / inject_Z size <= 1)%Q.
Proof.
  intros Hc Hs.
  assert (Hpos : (0 < inject_Z size)%Q).
  { replace 0%Q with (inject_Z 0) by reflexivity. rewrite <- Zlt_Qlt. lia. }
  split.
  - apply Qle_shift_div_l; [exact Hpos|]. rewrite Qmult_0_l.
    replace 0%Q with (inject_Z 0) by reflexivity. rewrite <- Zle_Qle. lia.
  - apply Qle_shift_div_r; [exact Hpos|]. rewrite Qmult_1_l.
    rewrite <- Zle_Qle. lia.
Qed.

Lemma js_div_le c c' size x x' :
  0 ≤ size → c ≤ c' →
  js_div c size = Some x → js_div c' size = Some x' → (x <= x')%Q.
Proof.
  intros Hsize Hc [Hz Hx]%js_div_Some [_ Hx']%js_div_Some.
  eapply toDouble_le; [|exact Hx|exact Hx']. apply ratio_le; lia.
Qed.

(** The weight of an account, [count / size], lies between 0 and 1. *)
Lemma js_div_bounds c size x :
  0 ≤ c ≤ size → js_div c size = Some x → (0 <= x)%Q ∧ (x <= 1)%Q.
Proof.
  intros Hc [Hz Hx]%js_div_Some.
  destruct (ratio_bounds c size Hc ltac:(lia)) as [H0 H1]. split.
  - by apply (toDouble_sign _ _ Hx).
  - eapply toDouble_le; [exact H1 | exact Hx | exact toDouble_1].
Qed.

(** [(count / size) * 100] grows with the counter, from 0. *)
Lemma percent_le c c' size y y' :
  0 ≤ size → c ≤ c' →
  js_mul (js_div c size) (js_num 100) = Some y →
  js_mul (js_div c' size) (js_num 100) = Some y' →
  (y <= y')%Q.
Proof.
  intros Hsize Hc (x & h & Hx & Hh & Hy)%js_binop_Some
    (x' & h' & Hx' & Hh' & Hy')%js_binop_Some.
  rewrite js_num_100 in Hh, Hh'. injection Hh as <-. injection Hh' as <-.
  pose proof (js_div_le _ _ _ _ _ Hsize Hc Hx Hx') as Hle.
  eapply toDouble_le; [|exact Hy|exact Hy'].
  apply Qmult_le_compat_r; [exact Hle | done].
Qed.

Lemma percent_bounds c size y :
  0 ≤ c ≤ size →
  js_mul (js_div c size) (js_num 100) = Some y →
  (0 <= y)%Q ∧ (y <= inject_Z 100)%Q.
Proof.
  intros Hc (x & h & Hx & Hh & Hy)%js_binop_Some.
  rewrite js_num_100 in Hh. injection Hh as <-.
  destruct (js_div_bounds _ _ _ Hc Hx) as [H0 H1]. split.
  - apply (toDouble_sign _ _ Hy). apply Qmult_le_0_compat; [exact H0 | done].
  - eapply toDouble_le; [|exact Hy|exact toDouble_100].
    rewrite <- (Qmult_1_l (inject_Z 100)) at 2.
    apply Qmult_le_compat_r; [exact H1 | done].
Qed.

(** The value of an account pass grows with the counter. *)
Lemma userProgressValue_monotone size uo :
  0 ≤ size → (∀ u, uo = Some u → (0 <= u)%Q) →
  monotone (λ count, userProgressValue count size uo).
Proof.
  intros Hsize Hu c c' v v' Hc. unfold userProgressValue.
  intros (z & (y & u & Hy & -> & Hz)%js_binop_Some & ->)%Math_round_Some
    (z' & (y' & u' & Hy' & [= <-] & Hz')%js_binop_Some & ->)%Math_round_Some.
  apply roundHalfUp_le.
  eapply toDouble_le; [|exact Hz|exact Hz'].
  apply Qmult_le_compat_r; [|by apply Hu].
  by eapply percent_le.
Qed.

(** An account that is [c] of [size] collections into its pass, with
    a weight of at most [1], is at 100 at most. *)
Lemma userProgressValue_le_100 c size uo v :
  0 ≤ c ≤ size → (∀ u, uo = Some u → (0 <= u)%Q ∧ (u <= 1)%Q) →
  userProgressValue c size uo = Some v → v ≤ 100.
Proof.
  intros Hc Hu. unfold userProgressValue.
  intros (z & (y & u & Hy & -> & Hz)%js_binop_Some & ->)%Math_round_Some.
  destruct (Hu u eq_refl) as [Hu0 Hu1].
  destruct (percent_bounds _ _ _ Hc Hy) as [Hy0 Hy1].
  change 100 with (roundHalfUp (inject_Z 100)).
  apply roundHalfUp_le.
  eapply toDouble_le; [|exact Hz|exact toDouble_100].
  apply Qle_trans with (y * 1)%Q.
  - rewrite !(Qmult_comm y). by apply Qmult_le_compat_r.
  - by rewrite Qmult_1_r.
Qed.

(** So does the value of the public pass, which fills what is left
    above [prevProgress]. *)
Lemma publicProgressValue_monotone size prev :
  0 ≤ size → (∀ p, prev = Some p → p ≤ 100) →
  monotone (λ count, publicProgressValue count size prev).
Proof.
  intros Hsize Hp c c' v v' Hc. unfold publicProgressValue.
  intros (z & (a & t & Ha & Ht & Hz)%js_binop_Some & ->)%Math_round_Some
    (z' & (a' & t' & Ha' & Ht' & Hz')%js_binop_Some & ->)%Math_round_Some.
  rewrite Ha in Ha'. injection Ha' as <-.
  apply js_binop_Some in Ht as (y & w & Hy & Hw & Ht).
  apply js_binop_Some in Ht' as (y' & w' & Hy' & Hw' & Ht').
  rewrite Hw in Hw'. injection Hw' as <-.
  apply js_div100_Some in Hw as (d & Hd & Hw).
  apply js_binop_Some in Hd as (h & a' & Hh & Ha' & Hd).
  rewrite js_num_100 in Hh. injection Hh as <-.
  rewrite Ha in Ha'. injection Ha' as <-.
  assert (Ha100 : (a <= inject_Z 100)%Q).
  { destruct prev as [p|]; [|discriminate]. cbn in Ha.
    eapply toDouble_le; [|exact Ha|exact toDouble_100].
    rewrite <- Zle_Qle. by apply Hp. }
  assert (Hd0 : (0 <= d)%Q).
  { apply (toDouble_sign _ _ Hd). lra. }
  assert (Hw0 : (0 <= w)%Q).
  { apply (toDouble_sign _ _ Hw). apply Qle_shift_div_l; [done|].
    by rewrite Qmult_0_l. }
  apply roundHalfUp_le.
  eapply toDouble_le; [|exact Hz|exact Hz'].
  apply Qplus_le_r.
  eapply toDouble_le; [|exact Ht|exact Ht'].
  apply Qmult_le_compat_r; [|exact Hw0].
  exact (percent_le _ _ _ _ _ Hsize Hc Hy Hy').
Qed.

(** *** What the methods return *)

Lemma returns_True {A} (m : M A) : returns m (λ _, True).
Proof. intros s a _. exact I. Qed.

Lemma returns_ret {A} (R : A → Prop) a : R a → returns (ret a) R.
Proof. intros Ha s a' [= <-]. exact Ha. Qed.

Lemma returns_throw {A} (R : A → Prop) e : returns (throw e) R.
Proof. intros s a. discriminate. Qed.

Lemma returns_bind {A B} (m : M A) (f : A → M B) R1 (R2 : B → Prop) :
  returns m R1 → (∀ a, R1 a → returns (f a) R2) → returns (bind m f) R2.
Proof.
  intros Hm Hf s b. rewrite bind_run.
  specialize (Hm s).
  destruct (m s) as [[[a|e|] s1] l1]; cbn [fst] in *; try discriminate.
  rewrite fst_after. apply Hf. by apply Hm.
Qed.

Lemma returns_impl {A} (m : M A) (R R' : A → Prop) :
  (∀ a, R a → R' a) → returns m R → returns m R'.
Proof. intros HR Hm s a Ha. apply HR. by eapply Hm. Qed.

Lemma returns_getMethodArgMap this method auth l start end_ :
  returns (_getMethodArgMap this method auth (Some l) start end_)
    (λ args, params_limit (args_params args) = Some l).
Proof. intros s a. rewrite _getMethodArgMap_limit. intros [= <-]. reflexivity. Qed.

Lemma filter_len {A} (f : A → bool) (l : list A) : len (List.filter f l) ≤ len l.
Proof.
  unfold len. pose proof (List.filter_length_le f l). lia.
Qed.

Lemma returns_filterMethodCollMap methodCollMap isPublic :
  returns (filterMethodCollMap methodCollMap isPublic)
    (λ kept, len kept ≤ len methodCollMap).
Proof. intros s a [= <-]. apply filter_len. Qed.

Lemma returns_checkNewData this auth :
  returns (checkNewData this auth)
    (λ kept, len kept ≤ len (_methodCollMap this)).
Proof.
  unfold checkNewData. eapply returns_bind; [apply returns_True|].
  intros _ _. apply returns_filterMethodCollMap.
Qed.

(** *** Termination *)

Lemma terminates_ret {A} (a : A) : terminates (ret a).
Proof. intros s. discriminate. Qed.

Lemma terminates_throw {A} e : terminates (@throw _ A e).
Proof. intros s. discriminate. Qed.

Lemma terminates_get : terminates get.
Proof. intros s. discriminate. Qed.

Lemma terminates_put s' : terminates (put s').
Proof. intros s. discriminate. Qed.

Lemma terminates_emit e : terminates (emit e).
Proof. intros s. discriminate. Qed.

Lemma terminates_bind_with {A B} R (m : M A) (f : A → M B) :
  terminates m → returns m R → (∀ a, R a → terminates (f a)) →
  terminates (bind m f).
Proof.
  intros Hm Hr Hf s. rewrite bind_run. specialize (Hm s). specialize (Hr s).
  destruct (m s) as [[[a|e|] s1] l1]; cbn [fst] in *;
    [|discriminate|contradiction].
  rewrite fst_after. apply Hf. by apply Hr.
Qed.

Lemma terminates_bind {A B} (m : M A) (f : A → M B) :
  terminates m → (∀ a, terminates (f a)) → terminates (bind m f).
Proof.
  intros Hm Hf. apply (terminates_bind_with (λ _, True));
    [exact Hm | apply returns_True | intros a _; apply Hf].
Qed.

Lemma terminates_forEach {A} (xs : list A) (body : A → M unit) :
  (∀ x, terminates (body x)) → terminates (forEach xs body).
Proof.
  intros Hbody. induction xs as [|x xs IH]; cbn [forEach].
  - apply terminates_ret.
  - apply terminates_bind; [apply Hbody | intros _; exact IH].
Qed.

Lemma terminates_forCount {A} (xs : list A) body :
  (∀ x count, terminates (body x count)) →
  ∀ count progress, terminates (forCount xs count progress body).
Proof.
  intros Hbody. induction xs as [|x xs IH]; intros count progress;
    cbn [forCount].
  - apply terminates_ret.
  - apply terminates_bind; [apply Hbody | intros p; apply IH].
Qed.

Lemma terminates_getDataFromApi methodApi args isCheckCall :
  terminates (_getDataFromApi methodApi args isCheckCall).
Proof. intros s. apply _getDataFromApi_total. Qed.

Ltac terms_step :=
  match goal with
  | |- terminates (bind _ _) => apply terminates_bind; [|intros ?]
  | |- terminates (ret _) => apply terminates_ret
  | |- terminates (throw _) => apply terminates_throw
  | |- terminates get => apply terminates_get
  | |- terminates (put _) => apply terminates_put
  | |- terminates (emit _) => apply terminates_emit
  | |- terminates (forEach _ _) => apply terminates_forEach; intros ?
  | |- terminates (_getDataFromApi _ _ _) => apply terminates_getDataFromApi
  | |- terminates (match ?x with _ => _ end) => destruct x
  | |- terminates (let '(_, _) := ?x in _) => destruct x
  end.

Ltac terms := repeat terms_step.

Lemma terminates_readSchema l : terminates (readSchema l).
Proof. unfold readSchema. terms. Qed.

Lemma terminates_writeSchema l f : terminates (writeSchema l f).
Proof. unfold writeSchema. terms. Qed.

Lemma terminates_getMethodArgMap this method auth limit start end_ :
  terminates (_getMethodArgMap this method auth limit start end_).
Proof. unfold _getMethodArgMap. terms; apply terminates_readSchema. Qed.

Lemma terminates_destructurePage v : terminates (destructurePage v).
Proof. unfold destructurePage. terms. Qed.

Lemma terminates_dao_removeElemsFromDbIfNotInLists collName lists :
  terminates (dao_removeElemsFromDbIfNotInLists collName lists).
Proof. unfold dao_removeElemsFromDbIfNotInLists. terms. Qed.

Lemma terminates_dao_insertElemsToDbIfNotExists collName rows :
  terminates (dao_insertElemsToDbIfNotExists collName rows).
Proof. unfold dao_insertElemsToDbIfNotExists. terms. Qed.

Lemma terminates_start_push schema entry :
  terminates (start_push schema entry).
Proof.
  unfold start_push. terms;
    first [apply terminates_readSchema | apply terminates_writeSchema].
Qed.

#[local] Hint Resolve terminates_readSchema terminates_writeSchema
  terminates_getMethodArgMap terminates_destructurePage
  terminates_dao_removeElemsFromDbIfNotInLists
  terminates_dao_insertElemsToDbIfNotExists terminates_start_push : emits.

(** A pass started with the limit [10000000] ends with enough fuel. *)
Lemma terminates_insertApiDataArrObjTypeToDb
      fuel args methodApi schema isPublic :
  enoughFuel fuel →
  params_limit (args_params args) = Some 10000000 →
  terminates (_insertApiDataArrObjTypeToDb fuel args methodApi schema isPublic).
Proof.
  intros Hfuel HL s.
  eapply _insertApiDataArrObjTypeToDb_total; [exact HL | lia | exact Hfuel].
Qed.

Lemma terminates_checkItemNewDataArrObjType this method schema auth :
  terminates (_checkItemNewDataArrObjType this method schema auth).
Proof. unfold _checkItemNewDataArrObjType. terms; auto with emits. Qed.

Lemma terminates_checkNewDataArrObjType this auth methodCollMap :
  terminates (_checkNewDataArrObjType this auth methodCollMap).
Proof.
  unfold _checkNewDataArrObjType. terms;
    auto using terminates_checkItemNewDataArrObjType with emits.
Qed.

Lemma terminates_checkNewConfigurablePublicData_symbol
      this method schema sc e :
  terminates (_checkNewConfigurablePublicData_symbol this method schema sc e).
Proof.
  unfold _checkNewConfigurablePublicData_symbol. terms; auto with emits.
Qed.

Lemma terminates_checkNewConfigurablePublicData this method schema :
  terminates (_checkNewConfigurablePublicData this method schema).
Proof.
  unfold _checkNewConfigurablePublicData. terms;
    auto using terminates_checkNewConfigurablePublicData_symbol with emits.
Qed.

Lemma terminates_checkNewDataPublicArrObjType this methodCollMap :
  terminates (_checkNewDataPublicArrObjType this methodCollMap).
Proof.
  unfold _checkNewDataPublicArrObjType. terms;
    auto using terminates_checkNewConfigurablePublicData,
      terminates_checkItemNewDataArrObjType with emits.
Qed.

Lemma terminates_filterMethodCollMap methodCollMap isPublic :
  terminates (filterMethodCollMap methodCollMap isPublic).
Proof. unfold filterMethodCollMap. terms. Qed.

Lemma terminates_checkNewData this auth : terminates (checkNewData this auth).
Proof.
  unfold checkNewData. terms;
    auto using terminates_checkNewDataArrObjType,
      terminates_filterMethodCollMap.
Qed.

Lemma terminates_checkNewPublicData this : terminates (checkNewPublicData this).
Proof.
  unfold checkNewPublicData. terms;
    auto using terminates_checkNewDataPublicArrObjType,
      terminates_filterMethodCollMap.
Qed.

Lemma terminates_updateApiDataArrTypeToDb this methodApi schema :
  terminates (_updateApiDataArrTypeToDb this methodApi schema).
Proof. unfold _updateApiDataArrTypeToDb. terms; auto with emits. Qed.

Lemma terminates_updateApiDataArrObjTypeToDb this methodApi schema :
  terminates (_updateApiDataArrObjTypeToDb this methodApi schema).
Proof. unfold _updateApiDataArrObjTypeToDb. terms; auto with emits. Qed.

Lemma terminates_hookCalled i : terminates (hookCalled i).
Proof. unfold hookCalled. terms. Qed.

Lemma terminates_startHooks hooks : ∀ i, terminates (startHooks i hooks).
Proof.
  induction hooks as [|h hooks IH]; intros i; cbn [startHooks]; terms;
    auto using terminates_hookCalled.
Qed.

Lemma terminates_afterAllInserts this : terminates (_afterAllInserts this).
Proof. unfold _afterAllInserts. terms; auto using terminates_startHooks. Qed.

Lemma terminates_insertConfigurablePublicApiData
      this fuel methodApi schema symbol dates :
  enoughFuel fuel →
  terminates
    (_insertConfigurablePublicApiData this fuel methodApi schema symbol dates).
Proof.
  intros Hfuel. unfold _insertConfigurablePublicApiData.
  apply terminates_bind; [|intros _].
  - destruct (baseStartFrom dates), (baseStartTo dates);
      try apply terminates_ret.
    eapply terminates_bind_with;
      [apply terminates_getMethodArgMap | apply returns_getMethodArgMap|].
    intros args Hargs. by apply terminates_insertApiDataArrObjTypeToDb.
  - destruct (currStart dates); [|apply terminates_ret].
    eapply terminates_bind_with;
      [apply terminates_getMethodArgMap | apply returns_getMethodArgMap|].
    intros args Hargs. by apply terminates_insertApiDataArrObjTypeToDb.
Qed.

Lemma terminates_insertApiDataPublicArrObjTypeToDb
      this fuel methodApi schema :
  enoughFuel fuel →
  terminates (_insertApiDataPublicArrObjTypeToDb this fuel methodApi schema).
Proof.
  intros Hfuel. unfold _insertApiDataPublicArrObjTypeToDb. terms;
    auto using terminates_insertConfigurablePublicApiData with emits.
Qed.

Lemma terminates_setProgress this p : terminates (setProgress this p).
Proof.
  intros s. destruct (setProgress_run this p s) as (r & -> & Hok & Hthrow).
  cbn [fst]. destruct (accepts this (st_published s) p).
  - by rewrite Hok.
  - by destruct Hthrow as [-> | [i ->]].
Qed.

Lemma terminates_publish this p : terminates (publish this p).
Proof.
  unfold publish. destruct p as [n|]; [|apply terminates_ret].
  destruct (n <? 100); [apply terminates_setProgress | apply terminates_ret].
Qed.

Lemma terminates_insertNewDataToDb this fuel auth userProgress :
  enoughFuel fuel →
  terminates (insertNewDataToDb this fuel auth userProgress).
Proof.
  intros Hfuel. unfold insertNewDataToDb.
  destruct auth as [a|]; [|apply terminates_throw].
  destruct (apiKey a), (apiSecret a);
    try (apply terminates_bind;
         [apply terminates_setProgress | intros _; apply terminates_ret]).
  apply terminates_bind; [apply terminates_checkNewData|].
  intros methodCollMap. apply terminates_forCount.
  intros [method item] count.
  apply terminates_bind; [apply terminates_readSchema|]. intros sc.
  eapply terminates_bind_with;
    [apply terminates_getMethodArgMap | apply returns_getMethodArgMap|].
  intros args Hargs.
  apply terminates_bind;
    [by apply terminates_insertApiDataArrObjTypeToDb|].
  intros _. apply terminates_bind; [apply terminates_publish|].
  intros _. apply terminates_ret.
Qed.

Lemma terminates_insertNewPublicDataToDb this fuel prevProgress :
  enoughFuel fuel →
  terminates (insertNewPublicDataToDb this fuel prevProgress).
Proof.
  intros Hfuel. unfold insertNewPublicDataToDb.
  apply terminates_bind; [apply terminates_checkNewPublicData|].
  intros methodCollMap.
  apply terminates_bind; [|intros _; apply terminates_ret].
  apply terminates_forCount. intros [method item] count.
  terms;
    auto using terminates_updateApiDataArrObjTypeToDb,
      terminates_updateApiDataArrTypeToDb,
      terminates_insertApiDataPublicArrObjTypeToDb, terminates_publish.
Qed.

Lemma terminates_insertNewDataToDbMultiUser_loop this fuel size items :
  enoughFuel fuel →
  ∀ count progress,
    terminates
      (insertNewDataToDbMultiUser_loop this fuel size items count progress).
Proof.
  intros Hfuel. induction items as [|authItem items IH];
    intros count progress; cbn [insertNewDataToDbMultiUser_loop].
  - apply terminates_ret.
  - destruct (snd authItem); [| |apply IH];
      (apply terminates_bind;
       [by apply terminates_insertNewDataToDb | intros p; apply IH]).
Qed.

Lemma terminates_insertNewDataToDbMultiUser this fuel :
  enoughFuel fuel → terminates (insertNewDataToDbMultiUser this fuel).
Proof.
  intros Hfuel. unfold insertNewDataToDbMultiUser.
  apply terminates_bind; [apply terminates_get|]. intros s.
  destruct (getAuthFromDb (st_db s)) as [| |[|item items]];
    try apply terminates_setProgress.
  terms;
    auto using terminates_insertNewDataToDbMultiUser_loop,
      terminates_insertNewPublicDataToDb, terminates_afterAllInserts,
      terminates_setProgress.
Qed.

(** *** The values of one pass *)

Lemma bind_Ok {A B} (m : M A) (f : A → M B) s b s' evs :
  bind m f s = (Ok b, s', evs) →
  ∃ a s1 l1 l2,
    m s = (Ok a, s1, l1) ∧ f a s1 = (Ok b, s', l2) ∧ evs = l1 ++ l2.
Proof.
  rewrite bind_run. destruct (m s) as [[[a|e|] s1] l1]; try discriminate.
  destruct (f a s1) as [[r s2] l2] eqn:Hf. cbn. intros [= -> -> <-].
  by exists a, s1, l1, l2.
Qed.

Lemma passes_ret {A} (a : A) (R : A → list progress → Prop) :
  R a [] → passes (ret a) R.
Proof. intros HR s a' s' evs [= <- <- <-]. exact HR. Qed.

Lemma passes_bind_silent {A B} (m : M A) (f : A → M B) R :
  emitsOnly silent m → (∀ a, passes (f a) R) → passes (bind m f) R.
Proof.
  intros Hm Hf s b s' evs (a & s1 & l1 & l2 & Hma & Hfa & ->)%bind_Ok.
  specialize (Hm s). rewrite Hma in Hm. cbn [snd] in Hm.
  rewrite progressOf_app, (silent_progressOf _ Hm). by eapply Hf.
Qed.

Lemma passes_setProgress this p :
  passes (setProgress this p) (λ _ l, l = [p]).
Proof.
  intros s a s' evs Hrun.
  destruct (setProgress_run this p s) as (r & Hr & _).
  rewrite Hr in Hrun. by injection Hrun as _ _ <-.
Qed.

Lemma passes_publish this p :
  passes (publish this p) (λ _ l, l = PNum <$> below100 p).
Proof.
  unfold publish, below100. destruct p as [n|]; [|by apply passes_ret].
  destruct (n <? 100); [apply passes_setProgress | by apply passes_ret].
Qed.

Lemma passes_publish_ret this p :
  passes (let* _ := publish this p in ret p)
    (λ p' l, p' = p ∧ l = PNum <$> below100 p).
Proof.
  intros s p' s' evs (a & s1 & l1 & l2 & Hp & Hr & ->)%bind_Ok.
  apply passes_publish in Hp. injection Hr as <- _ <-.
  by rewrite progressOf_app, Hp, app_nil_r.
Qed.

Lemma flat_map_seq_shift {A} (f : nat → list A) K :
  ∀ a, flat_map f (seq (S a) K) = flat_map (λ k, f (S k)) (seq a K).
Proof. induction K as [|K IH]; intros a; cbn; [done|]. by rewrite IH. Qed.

Lemma published_ext g g' K :
  (∀ k, g k = g' k) → published g K = published g' K.
Proof.
  intros Hg. unfold published. apply flat_map_ext. intros k. by rewrite Hg.
Qed.

Lemma published_S g K :
  published g (S K) = below100 (g 1) ++ published (λ k, g (1 + k)) K.
Proof.
  unfold published. cbn [seq flat_map]. f_equal.
  rewrite flat_map_seq_shift. apply flat_map_ext. intros k.
  do 2 f_equal. lia.
Qed.

(** A counting loop passes the values of its iterations, in order,
    and returns the last of them. *)
Lemma passes_forCount {A} (g : Z → option Z) (body : A → Z → M (option Z)) :
  (∀ x count,
     passes (body x count)
       (λ p l, p = g count ∧ l = PNum <$> below100 (g count))) →
  ∀ xs count progress,
    passes (forCount xs count progress body)
      (λ p l,
         l = PNum <$> published (λ k, g (count + k)) (length xs)
         ∧ p = match xs with
               | [] => progress
               | _ => g (count + len xs)
               end).
Proof.
  intros Hbody. induction xs as [|x xs IH]; intros count progress;
    cbn [forCount].
  - by apply passes_ret.
  - intros s p s' evs (p1 & s1 & l1 & l2 & Hb & Hrest & ->)%bind_Ok.
    apply Hbody in Hb as [-> Hl1]. apply IH in Hrest as [Hl2 Hp].
    rewrite progressOf_app, Hl1, Hl2. split.
    + cbn [length]. rewrite published_S, fmap_app. f_equal. f_equal.
      apply published_ext. intros k. f_equal. lia.
    + rewrite Hp. unfold len. cbn [length]. destruct xs as [|x' xs].
      * f_equal.
      * f_equal. cbn [length]. lia.
Qed.

(** The pass of an account with keys: [K] collections have new data,
    and the values of the pass are those of [userProgressValue] at 1,
    ..., [K]. *)
Lemma passes_insertNewDataToDb this fuel a key secret uo :
  apiKey a = Some key → apiSecret a = Some secret →
  passes (insertNewDataToDb this fuel (Some a) uo)
    (λ p l,
       ∃ K, (K ≤ length (_methodCollMap this))%nat
            ∧ l = PNum <$>
                    published
                      (λ k, userProgressValue k (len (_methodCollMap this)) uo)
                      K
            ∧ p = lastValue
                    (λ k, userProgressValue k (len (_methodCollMap this)) uo)
                    K).
Proof.
  intros Hkey Hsecret. unfold insertNewDataToDb. rewrite Hkey, Hsecret.
  intros s p s' evs (kept & s1 & l1 & l2 & Hc & Hf & ->)%bind_Ok.
  pose proof (returns_checkNewData this (Some a) s kept) as Hlen.
  pose proof (silent_checkNewData this (Some a) s) as Hsilent.
  rewrite Hc in Hlen, Hsilent. cbn [fst snd] in Hlen, Hsilent.
  specialize (Hlen eq_refl). cbn beta in Hlen.
  rewrite progressOf_app, (silent_progressOf _ Hsilent). cbn [app].
  eapply (passes_forCount
            (λ k, userProgressValue k (len (_methodCollMap this)) uo))
    in Hf as [Hl Hp].
  - exists (length kept). split; [unfold len in Hlen; lia|]. split.
    + rewrite Hl. f_equal.
    + rewrite Hp. destruct kept; [reflexivity|]. cbn [lastValue].
      f_equal.
  - intros [method item] count.
    apply passes_bind_silent; [apply silent_readSchema|]. intros sc.
    apply passes_bind_silent; [apply silent_getMethodArgMap|]. intros args.
    apply passes_bind_silent;
      [apply silent_insertApiDataArrObjTypeToDb|]. intros _.
    apply passes_publish_ret.
Qed.

(** The public pass over [P] collections. *)
Lemma passes_insertNewPublicDataToDb this fuel prevProgress :
  passes (insertNewPublicDataToDb this fuel prevProgress)
    (λ _ l, ∃ P, l = PNum <$> publicValues prevProgress P).
Proof.
  unfold insertNewPublicDataToDb.
  intros s [] s' evs (kept & s1 & l1 & l2 & Hc & Hf & ->)%bind_Ok.
  pose proof (silent_checkNewPublicData this s) as Hsilent.
  rewrite Hc in Hsilent. cbn [snd] in Hsilent.
  rewrite progressOf_app, (silent_progressOf _ Hsilent). cbn [app].
  apply bind_Ok in Hf as (p & s2 & l3 & l4 & Hf & Hr & ->).
  injection Hr as _ <-. rewrite app_nil_r.
  eapply (passes_forCount
            (λ k, publicProgressValue k (len kept) prevProgress))
    in Hf as [Hl _].
  - exists (length kept). rewrite Hl. f_equal.
  - intros [method item] count.
    apply passes_bind_silent;
      [apply silent_updateApiDataArrObjTypeToDb|]. intros _.
    apply passes_bind_silent; [apply silent_updateApiDataArrTypeToDb|].
    intros _.
    apply passes_bind_silent;
      [apply silent_insertApiDataPublicArrObjTypeToDb|]. intros _.
    apply passes_publish_ret.
Qed.

(** *** The values of a full run *)

(** The accounts are served one after the other, each with its own
    weight. *)
Lemma passes_insertNewDataToDbMultiUser_loop this fuel size items :
  Forall (λ e, wellFormed (snd e)) items →
  ∀ count progress,
    passes
      (insertNewDataToDbMultiUser_loop this fuel size items count progress)
      (λ p l,
         ∃ Ks,
           length Ks = length items
           ∧ Forall (λ K, (K ≤ length (_methodCollMap this))%nat) Ks
           ∧ l = PNum <$>
                   concat
                     (imap (λ j K,
                              published
                                (λ k, userProgressValue k
                                        (len (_methodCollMap this))
                                        (js_div (count + Z.of_nat j + 1)
                                           size))
                                K)
                        Ks)
           ∧ p = match last Ks with
                 | Some K =>
                     lastValue
                       (λ k, userProgressValue k
                               (len (_methodCollMap this))
                               (js_div (count + len items) size))
                       K
                 | None => progress
                 end).
Proof.
  induction 1 as [|authItem items (a & key & secret & Ha & Hkey & Hsecret) _ IH];
    intros count progress; cbn [insertNewDataToDbMultiUser_loop].
  - apply passes_ret. exists []. by repeat split.
  - rewrite Ha.
    intros s p s' evs (p1 & s1 & l1 & l2 & Hone & Hrest & ->)%bind_Ok.
    apply (passes_insertNewDataToDb _ _ _ _ _ _ Hkey Hsecret) in Hone
      as (K & HK & Hl1 & Hp1).
    apply IH in Hrest as (Ks & Hlen & HKs & Hl2 & Hp).
    exists (K :: Ks). split; [cbn; by rewrite Hlen|].
    split; [by constructor|]. split.
    + rewrite progressOf_app, Hl1, Hl2, imap_cons. cbn [concat].
      rewrite fmap_app. do 2 f_equal.
      * apply published_ext. intros k. do 2 f_equal. lia.
      * f_equal. apply imap_ext. intros j K' _. cbn.
        apply published_ext. intros k. do 2 f_equal. lia.
    + rewrite Hp. unfold len. cbn [length].
      destruct Ks as [|K' Ks'].
      * destruct items; [|discriminate]. cbn. rewrite Hp1.
        destruct K; cbn; do 2 f_equal; lia.
      * rewrite last_cons_cons. destruct (last (K' :: Ks')) as [K''|] eqn:El.
        -- destruct K''; cbn; do 2 f_equal; lia.
        -- by apply last_None in El.
Qed.

Lemma published_elem g K v :
  v ∈ published g K →
  v < 100 ∧ ∃ k, (1 ≤ k ≤ K)%nat ∧ g (Z.of_nat k) = Some v.
Proof.
  unfold published. rewrite list_elem_of_In, in_flat_map.
  intros (k & Hk%in_seq & Hv%list_elem_of_In). unfold below100 in Hv.
  destruct (g (Z.of_nat k)) as [n|] eqn:Hg; [|by apply elem_of_nil in Hv].
  destruct (n <? 100) eqn:Hn; [|by apply elem_of_nil in Hv].
  apply list_elem_of_singleton in Hv as ->. apply Z.ltb_lt in Hn.
  split; [exact Hn|]. exists k. split; [lia | exact Hg].
Qed.

Lemma published_below g K : Forall (λ v, v < 100) (published g K).
Proof.
  apply Forall_forall. intros v Hv. by apply published_elem in Hv as [? _].
Qed.

(** The values of a counting loop do not decrease when [g] is
    monotone. *)
Lemma published_sorted g K :
  monotone g → StronglySorted Z.le (published g K).
Proof.
  intros Hmono. induction K as [|K IH]; [constructor|].
  unfold published. rewrite seq_S, flat_map_app. cbn [flat_map].
  rewrite app_nil_r. apply StronglySorted_app_2; [|exact IH|].
  - intros x y (_ & k & Hk & Hx)%published_elem Hy.
    unfold below100 in Hy.
    destruct (g (Z.of_nat (1 + K))) as [n|] eqn:Hg;
      [|by apply elem_of_nil in Hy].
    destruct (n <? 100); [|by apply elem_of_nil in Hy].
    apply list_elem_of_singleton in Hy as ->.
    apply (Hmono (Z.of_nat k) (Z.of_nat (1 + K))); [lia | exact Hx | exact Hg].
  - unfold below100. destruct (g _) as [n|]; [|constructor].
    destruct (n <? 100); repeat constructor.
Qed.

Lemma StronglySorted_snoc_100 l :
  StronglySorted Z.le l → Forall (λ v, v < 100) l →
  StronglySorted Z.le (l ++ [100]).
Proof.
  intros Hs Hall. apply StronglySorted_app_2; [|exact Hs|repeat constructor].
  intros x y Hx Hy. apply list_elem_of_singleton in Hy as ->.
  rewrite Forall_forall in Hall. specialize (Hall x Hx). cbn in Hall. lia.
Qed.

(** Within the pass of an account the values do not decrease. *)
Lemma accountValues_sorted this n j K :
  0 < n → StronglySorted Z.le (accountValues this n j K).
Proof.
  intros Hn. apply published_sorted.
  apply userProgressValue_monotone; [apply len_nonneg|].
  intros u [_ Hu]%js_div_Some. apply (toDouble_sign _ _ Hu).
  apply Qle_shift_div_l.
  - replace 0%Q with (inject_Z 0) by reflexivity. rewrite <- Zlt_Qlt. lia.
  - rewrite Qmult_0_l. replace 0%Q with (inject_Z 0) by reflexivity.
    rewrite <- Zle_Qle. lia.
Qed.

(** What the last account hands over to the public pass is 100 at
    most. *)
Lemma handedOver_le_100 this n K p :
  0 < n → (K ≤ length (_methodCollMap this))%nat →
  handedOver this n K = Some p → p ≤ 100.
Proof.
  intros Hn HK. unfold handedOver, lastValue. destruct K as [|K].
  - intros [= <-]. lia.
  - apply userProgressValue_le_100; [unfold len; lia|].
    intros u Hu. apply (js_div_bounds n n); [lia | exact Hu].
Qed.

(** The values of the public pass do not decrease on the way to the
    closing 100. *)
Lemma publicValues_sorted prevProgress P :
  (∀ p, prevProgress = Some p → p ≤ 100) →
  StronglySorted Z.le (publicValues prevProgress P ++ [100]).
Proof.
  intros Hp. apply StronglySorted_snoc_100; [|apply published_below].
  apply published_sorted. apply publicProgressValue_monotone; [lia | exact Hp].
Qed.


End Facts.

(** ** Reconciliation over the reference DAO *)

Lemma rowsOf_setRows db collName rows :
  rowsOf (setRows db collName rows) collName = rows.
Proof. unfold rowsOf, setRows. cbn. by rewrite lookup_insert_eq. Qed.

Lemma sameIdentity_refl ids o : sameIdentity ids o o = true.
Proof.
  destruct ids as [fs|]; cbn.
  - apply forallb_forall. intros f _. by apply bool_decide_eq_true.
  - by apply bool_decide_eq_true.
Qed.

Lemma sameIdentity_field fs a b f :
  sameIdentity (Some fs) a b = true → f ∈ fs → a !! f = b !! f.
Proof.
  cbn. intros Hall Hf. rewrite forallb_forall in Hall.
  apply list_elem_of_In in Hf. specialize (Hall f Hf).
  by apply bool_decide_eq_true in Hall.
Qed.

(** Insert-if-absent never touches the rows already there: it appends
    public rows taken from the listing, and afterwards every record of
    the listing has a row of the same identity. *)
Lemma fold_insertIfAbsent ids items :
  ∀ rows,
    ∃ added,
      fold_left (insertIfAbsent ids) items rows = rows ++ added
      ∧ Forall (λ r, fst r = None ∧ snd r ∈ items) added
      ∧ Forall (λ o, ∃ r, r ∈ rows ++ added
                          ∧ sameIdentity ids (snd r) o = true) items.
Proof.
  induction items as [|o items IH]; intros rows; cbn [fold_left].
  - exists []. rewrite app_nil_r. repeat split; constructor.
  - destruct (IH (insertIfAbsent ids rows o)) as (added & Heq & Hadded & Hall).
    unfold insertIfAbsent in *.
    destruct (existsb (λ r, sameIdentity ids (snd r) o) rows) eqn:Hex.
    + exists added. split; [exact Heq|]. split.
      * eapply Forall_impl; [exact Hadded|]. intros r [? ?].
        split; [done | by right].
      * constructor; [|exact Hall].
        apply existsb_exists in Hex as (r & Hr & Hsame).
        exists r. split; [|exact Hsame].
        apply elem_of_app. left. by apply list_elem_of_In.
    + exists ((None, o) :: added). rewrite <- app_assoc in Heq, Hall.
      split; [exact Heq|]. split.
      * constructor; [split; [done | by left]|].
        eapply Forall_impl; [exact Hadded|]. intros r [? ?].
        split; [done | by right].
      * constructor; [|exact Hall].
        exists (None, o). split; [|apply sameIdentity_refl].
        apply elem_of_app. right. by left.
Qed.

Lemma inLists_lookup lists o f allowed :
  inLists lists o = true → (f, allowed) ∈ lists → o !! f ∈ allowed.
Proof.
  unfold inLists. intros Hall Hin. rewrite forallb_forall in Hall.
  apply list_elem_of_In in Hin. specialize (Hall _ Hin).
  by apply bool_decide_eq_true in Hall.
Qed.

Section Reconciliation.
Variables (hasMethod_ : string → bool)
          (request_ : nat → string → Args → bool → ApiResult GatewayError)
          (modelTransform_ : list string → obj → obj).

Local Abbreviation env := (specEnv hasMethod_ request_ modelTransform_).

(** The rows of a collection after a reconciliation against [rows]
    with the allowed values [lists]: the old rows that pass the lists,
    untouched and in place, followed by public rows of the listing. *)
Lemma reconciled_rows collName lists rows (s : @state env) :
  ∃ added,
    rowsOf (st_db (@reconciled env collName lists rows s)) collName
    = List.filter (λ r, inLists lists (snd r)) (rowsOf (st_db s) collName)
      ++ added
    ∧ Forall (λ r, fst r = None ∧ snd r ∈ rows) added
    ∧ Forall (λ o, ∃ r,
                r ∈ rowsOf (st_db (@reconciled env collName lists rows s))
                      collName
                ∧ sameIdentity (db_identity (st_db s) !! collName)
                    (snd r) o = true) rows.
Proof.
  cbn. unfold spec_insertElemsToDbIfNotExists,
    spec_removeElemsFromDbIfNotInLists.
  rewrite !rowsOf_setRows. cbn [db_identity setRows].
  destruct (fold_insertIfAbsent (db_identity (st_db s) !! collName) rows
              (List.filter (λ r, inLists lists (snd r))
                 (rowsOf (st_db s) collName)))
    as (added & Heq & Hadded & Hall).
  exists added. rewrite Heq. auto.
Qed.


End Reconciliation.

(** ** The theorems at work on the scenarios *)

Import Scenario.

Lemma C2_retry_bound_witness :
  (∃ s' evs,
     @_getDataFromApi (envOf (alwaysRejects RateLimited)) "getTrades"
       (window 10 0 100) false (start0 _)
     = (Throw (@ApiError (envOf (alwaysRejects RateLimited)) RateLimited),
        s', evs)
     ∧ length (requestsOf evs) = 3%nat)
  ∧ (∃ s' evs,
       @_getDataFromApi (envOf (alwaysRejects NonceTooOld)) "getTrades"
         (window 10 0 100) false (start0 _)
       = (Throw (@ApiError (envOf (alwaysRejects NonceTooOld)) NonceTooOld),
          s', evs)
       ∧ length (requestsOf evs) = 21%nat)
  ∧ @_getDataFromApi (envOf (alwaysRejects Fatal)) "getTrades"
      (window 10 0 100) false (start0 _)
    = (Throw (@ApiError (envOf (alwaysRejects Fatal)) Fatal),
       bump (start0 _),
       [EvRequest "getTrades" (window 10 0 100) false]).
Proof.
  split; [|split].
  - destruct (proj1 (@C2_retry_bound (envOf (alwaysRejects RateLimited))
                       "getTrades" (window 10 0 100) false (start0 _)
                       eq_refl))
      as (e & s' & evs & Hrun & Hlast & _ & Hn & _).
    { intros n. exists RateLimited. split; reflexivity. }
    inversion Hlast; subst e. exists s', evs. split; assumption.
  - destruct (proj1 (proj2
                (@C2_retry_bound (envOf (alwaysRejects NonceTooOld))
                   "getTrades" (window 10 0 100) false (start0 _)
                   eq_refl)))
      as (e & s' & evs & Hrun & Hlast & _ & Hn & _).
    { intros n. exists NonceTooOld. repeat split; reflexivity. }
    inversion Hlast; subst e. exists s', evs. split; assumption.
  - apply (proj2 (proj2
             (@C2_retry_bound (envOf (alwaysRejects Fatal))
                "getTrades" (window 10 0 100) false (start0 _) eq_refl)));
      reflexivity.
Defined.

Lemma C8_unauthorized_witness :
  snd (@insertNewDataToDbMultiUser (envOf (alwaysRejects Fatal)) inserter 5
         (start0 _))
  = [EvProgress MESS_ERR_UNAUTH]
  ∧ snd (fst (@insertNewDataToDbMultiUser (envOf (alwaysRejects Fatal))
                inserter 5 (start0 _)))
    = progressed (start0 _)
  ∧ (accepts inserter 0 MESS_ERR_UNAUTH = true →
     fst (fst (@insertNewDataToDbMultiUser (envOf (alwaysRejects Fatal))
                 inserter 5 (start0 _)))
     = Ok tt)
  ∧ (accepts inserter 0 MESS_ERR_UNAUTH = false →
     isObserverError
       (fst (fst (@insertNewDataToDbMultiUser (envOf (alwaysRejects Fatal))
                    inserter 5 (start0 _))))).
Proof.
  apply (@C8_unauthorized (envOf (alwaysRejects Fatal)) inserter 5
           (start0 _)).
  left. reflexivity.
Defined.

(** C8 as the specification words it does not hold: with a progress
    handler that throws, the run on a missing credential set passes
    'ERR_AUTH_UNAUTHORIZED' to [setProgress] and then throws what the
    handler throws, instead of returning. *)
Lemma C8_failing_handler_makes_the_run_throw :
  getAuthFromDb (st_db (start0 (alwaysRejects Fatal))) = AuthMissing
  ∧ @insertNewDataToDbMultiUser (envOf (alwaysRejects Fatal))
      watchedInserter 5 (start0 _)
    = (Throw HandlerError, progressed (start0 _),
       [EvProgress MESS_ERR_UNAUTH]).
Proof. split; reflexivity. Qed.

Lemma C4_empty_page_retry_witness :
  @_insertApiDataArrObjTypeToDb_loop (envOf (alwaysEmptyWithCursor 5)) 2
    "getTrades" "trades" "mts" ["mts"] false
    (window 100 0 10) (window 100 0 10) 0 0 (start0 _)
  = (Ok tt, bump (bump (start0 _)),
     [EvRequest "getTrades" (window 100 0 10) false;
      EvRequest "getTrades" (window 100 0 5) false]).
Proof.
  destruct (@C4_empty_page_retry (envOf (alwaysEmptyWithCursor 5)) 1
              "getTrades" "trades" "mts" ["mts"] false
              (window 100 0 10) (window 100 0 10) 0 (start0 _)
              (bump (start0 _))
              [EvRequest "getTrades" (window 100 0 10) false]
              (DObjs []) 5 eq_refl ltac:(discriminate) eq_refl)
    as (_ & _ & Hsecond).
  destruct (Hsecond 0%nat (bump (bump (start0 _)))
              [EvRequest "getTrades" (window 100 0 5) false]
              (DObjs []) 5 eq_refl ltac:(discriminate) eq_refl)
    as [Hrun _].
  exact Hrun.
Defined.

(** C4 as the specification words it does not hold: the request that
    follows an empty page with a cursor is not the same window again,
    its [end] has moved from [10] to the cursor [5]. *)
Lemma C4_retry_is_not_the_same_window :
  requestsOf
    (snd (@_insertApiDataArrObjTypeToDb_loop
            (envOf (alwaysEmptyWithCursor 5)) 2
            "getTrades" "trades" "mts" ["mts"] false
            (window 100 0 10) (window 100 0 10) 0 0 (start0 _)))
  = [EvRequest "getTrades" (window 100 0 10) false;
     EvRequest "getTrades" (window 100 0 5) false]
  ∧ window 100 0 10 ≠ window 100 0 5.
Proof. split; [reflexivity | discriminate]. Qed.



Lemma sixRecords_served :
  @Serves (envOf (paging sixRecords 2)) "getTrades"
    (set_notThrowError (window 3 5 100)) "mts" 100 (rec <$> sixRecords).
Proof.
  apply (@Serves_more (envOf (paging sixRecords 2)) _ _ _ 100
           [rec 9; rec 8] [rec 7; rec 6; rec 5; rec 4] 7);
    [intros n; reflexivity | done | done | done
    | repeat constructor | repeat constructor; by vm_compute |].
  apply (@Serves_more (envOf (paging sixRecords 2)) _ _ _ 7
           [rec 7; rec 6] [rec 5; rec 4] 5);
    [intros n; reflexivity | done | done | done
    | repeat constructor | repeat constructor; by vm_compute |].
  apply (@Serves_last (envOf (paging sixRecords 2)) _ _ _ 5
           [rec 5; rec 4] None).
  intros n. reflexivity.
Qed.


Lemma C5_delta_detector_witness :
  ∃ sc' s',
    @_checkItemNewDataArrObjType (envOf (alwaysPage [rec 5] None)) inserter
      "getTrades" 1%positive (Some user1)
      (stateOf _ (dbWithTrade 3) {[ 1%positive := trades ]})
    = (Ok tt, s',
       [EvRequest "getTrades"
          (@probeArgs (envOf (alwaysPage [rec 5] None)) (Some user1)) true])
    ∧ st_heap s' !! 1%positive = Some sc'
    ∧ hasNewData sc' = true ∧ start sc' = StartNum 4.
Proof.
  destruct (@C5_delta_detector (envOf (alwaysPage [rec 5] None)) inserter
              "getTrades" 1%positive (Some user1)
              (stateOf _ (dbWithTrade 3) {[ 1%positive := trades ]})
              trades (DObjs [rec 5]) None)
    as (sc' & s' & Hrun & Hs' & _ & _ & Hnewer & _);
    [reflexivity | reflexivity | reflexivity |].
  exists sc', s'. split; [exact Hrun|]. split.
  - rewrite Hs'. cbn. apply lookup_insert_eq.
  - apply (Hnewer 3 5); [reflexivity | reflexivity | reflexivity
                        | reflexivity | lia | lia].
Defined.

(** C5 as the specification words it does not hold when the newest
    stored date is [0]: the storage is not empty, the probe is
    strictly newer ([5 > 0]), and the detector leaves
    [hasNewData = false]. *)
Lemma C5_stored_date_zero_is_not_resumed :
  let env := envOf (alwaysPage [rec 5] None) in
  let s := stateOf _ (dbWithTrade 0) {[ 1%positive := trades ]} in
  let lastElemFromDb :=
    @getLastElemFromDb env (st_db s) "trades" user1 [("mts", -1)] in
  isEmptyElem lastElemFromDb = false
  ∧ dateIn "mts" lastElemFromDb = Some 0
  ∧ dateIn "mts" (newestRecord (DObjs [rec 5])) = Some 5
  ∧ hasNewData
      <$> (st_heap
             (snd (fst (@_checkItemNewDataArrObjType env inserter "getTrades"
                          1%positive (Some user1) s)))
           !! 1%positive)
    = Some false.
Proof. cbv zeta. repeat split; by vm_compute. Qed.



(** C7, at the failing input.  Two public passes in a row on the same
    DataInserter: the entry that the first pass pushed onto
    [schema.start] is still there when the second pass runs, so the
    second pass fetches from the old cursor again and persists the
    trade a second time; on fresh copies of the schema objects the
    second pass would have persisted nothing more. *)
Theorem C7_cursor_state_leaks_into_next_run :
  start <$> (st_heap afterFirstRun !! 1%positive)
  = Some (StartArr
            [("tBTCUSD", {| baseStartFrom := None; baseStartTo := None;
                            currStart := Some 100 |})])
  ∧ start <$> (st_heap afterSecondRun !! 1%positive)
    = Some (StartArr
              [("tBTCUSD", {| baseStartFrom := None; baseStartTo := None;
                              currStart := Some 100 |});
               ("tBTCUSD", {| baseStartFrom := Some 100;
                              baseStartTo := Some 499;
                              currStart := None |})])
  ∧ start <$> (st_heap afterSecondRunOnFreshSchemas !! 1%positive)
    = Some (StartArr
              [("tBTCUSD", {| baseStartFrom := Some 100;
                              baseStartTo := Some 499;
                              currStart := None |})])
  ∧ snd <$> rowsOf (st_db afterFirstRun) "publicTrades" = [trade 500]
  ∧ snd <$> rowsOf (st_db afterSecondRun) "publicTrades"
    = [trade 500; trade 500]
  ∧ snd <$> rowsOf (st_db afterSecondRunOnFreshSchemas) "publicTrades"
    = [trade 500].
Proof. repeat split; by vm_compute. Qed.



(** The values are those of doubles: [(1 / 3) * 100 * (3 / 8)] is
    12.499999999999998 and is rounded to 12, where the exact product
    12.5 would be rounded to 13. *)
Lemma userProgressValue_is_rounded_twice :
  userProgressValue 1 3 (js_div 3 8) = Some 12
  ∧ roundHalfUp ((1 # 3) * inject_Z 100 * (3 # 8))%Q = 13.
Proof. split; by vm_compute. Qed.

(** ** The JSON-RPC responder *)

Section ResponderFacts.
Import Responder.

(** Whatever the classifiers of [../helpers] say about it, the
    metadata of an upstream error whose body is an HTML page without
    title cannot be computed: reading the title throws. *)
Lemma _getErrorMetadata_untitled h args :
  _getErrorMetadata h args (upstreamError pageWithoutTitle)
  = Failure typeError.
Proof.
  unfold _getErrorMetadata, _getErrorWithMetadataForNonBaseError,
    upstreamError.
  cbn [instanceofBaseError message].
  repeat match goal with
         | |- context [if ?b then _ else _] =>
             lazymatch b with
             | context [if _ then _ else _] => fail
             | _ => destruct b
             end
         end; reflexivity.
Qed.

(** A handler result that is not an [Error] is answered once, in a
    result envelope that carries [args.id], or [null] when there is
    none. *)
Lemma responder_result_envelope h ws name args v :
  instanceofErrorValue v = false →
  responder h ws (Returns v) name args true
  = {| returned := ReturnsUndefined; thrown := None;
       calls := [(VNull,
                  ResultEnvelope "2.0" v (default VNull (args ≫= id)))];
       logged := []; unhandledRejection := None |}
  ∧ responder h ws (Resolves v) name args true
    = {| returned := ReturnsUndefined; thrown := None;
         calls := [(VNull,
                    ResultEnvelope "2.0" v (default VNull (args ≫= id)))];
         logged := []; unhandledRejection := None |}.
Proof.
  intros Hv. unfold responder, _makeJsonRpcResponse. cbn [negb].
  by rewrite Hv.
Qed.


(** A thrown or rejected value that is not an [Error], here a
    string, is logged as an error and then answered in a result
    envelope: [_makeJsonRpcResponse] tells the two envelopes apart by
    [instanceof Error] alone. *)
Lemma responder_thrown_string h ws name args str :
  calls (responder h ws (Throws (VStr str)) name args true)
  = [(VNull, ResultEnvelope "2.0" (VStr str) (default VNull (args ≫= id)))]
  ∧ calls (responder h ws (Rejects (VStr str)) name args true)
    = [(VNull,
        ResultEnvelope "2.0" (VStr str) (default VNull (args ≫= id)))].
Proof. by split. Qed.

(** C10 does not hold of the code.  The handler fails with the error
    of an upstream answer "502 Bad Gateway" whose body is an HTML page
    without a title element, and a callback is supplied.  Whatever the
    classifiers, the event emitter, the method name and the arguments
    are: when the handler throws the error, the responder itself
    throws a [TypeError], and when the handler returns a promise
    rejected with it, the rejection handler throws and leaves an
    unhandled rejection; in both cases the callback is never invoked
    and nothing is logged.  With the same error and a page that has a
    title, the callback is invoked once with the error envelope. *)
Theorem C10_untitled_html_error_is_never_answered h ws name args :
  responder h ws (Throws (upstreamError pageWithoutTitle)) name args true
  = {| returned := ReturnsUndefined; thrown := Some typeError;
       calls := []; logged := []; unhandledRejection := None |}
  ∧ responder h ws (Rejects (upstreamError pageWithoutTitle)) name args
      true
    = {| returned := ReturnsUndefined; thrown := None;
         calls := []; logged := []; unhandledRejection := Some typeError |}
  ∧ calls (responder noHelpers ws (Throws (upstreamError pageWithTitle))
             name request1 true)
    = [(VNull,
        ErrorEnvelope "2.0" 500 "Internal Server Error"
          (DataExtended
             {| bfxApiStatus := 502; bfxApiStatusText := "Bad Gateway";
                bfxApiRawBodyCode := "Code is not abailable";
                isBfxApiRawBodyResponseHtml := "Yes";
                bfxApiRawBodyResponse := "502 Bad Gateway" |}
             DataNull)
          (VNum 1))].
Proof.
  split; [|split].
  - unfold responder, answerError, _logError. cbn [negb].
    by rewrite _getErrorMetadata_untitled.
  - unfold responder, answerError, _logError. cbn [negb].
    by rewrite _getErrorMetadata_untitled.
  - by destruct ws; vm_compute.
Qed.

End ResponderFacts.

(* ================================================================= *)
(** * More of the DataInserter *)

Section RetryAndPagination.
Context `{Env}.

Lemma _getDataFromApi_loop_bounded methodApi args isCheckCall :
  ∀ fuel cr cn s,
    0 ≤ cr ≤ 2 → 0 ≤ cn ≤ 20 →
    let out := _getDataFromApi_loop fuel methodApi args isCheckCall cr cn s in
    Z.of_nat (length (requestsOf (snd out))) ≤ (3 - cr) + (20 - cn)
    ∧ requestsOf (snd out)
      = replicate (length (requestsOf (snd out)))
          (EvRequest methodApi args isCheckCall)
    ∧ waited (snd out) ≤ 80000 * (2 - cr) + 1000 * (20 - cn)
    ∧ st_reqs (snd (fst out))
      = (st_reqs s + length (requestsOf (snd out)))%nat.
Proof.
  induction fuel as [|fuel IH]; intros cr cn s Hcr Hcn; cbn zeta.
  - cbn. split; [lia|]. split; [done|]. split; [unfold waited; cbn; lia|lia].
  - destruct (request (st_reqs s) methodApi args isCheckCall) as [v|e] eqn:Hr.
    + rewrite (_getDataFromApi_loop_resolve _ _ _ _ _ _ _ v Hr).
      cbn. split; [lia|]. split; [done|]. split; [unfold waited; cbn; lia|lia].
    + destruct (isRateLimitError e) eqn:He;
        [|destruct (isNonceSmallError e) eqn:Hn].
      * rewrite (_getDataFromApi_loop_rateLimit _ _ _ _ _ _ _ e Hr He).
        destruct (2 <? cr + 1) eqn:Hlt; [cbn; split; [lia|]; split; [done|]; split; [unfold waited; cbn; lia|lia]|].
        apply Z.ltb_ge in Hlt.
        specialize (IH (cr + 1) cn (bump s) ltac:(lia) ltac:(lia)).
        cbn zeta in IH.
        destruct (_getDataFromApi_loop fuel _ _ _ _ _ _) as [[r s'] l].
        cbn [fst snd] in *. destruct IH as (Hn & Hrep & Hw & Hreqs).
        unfold waited, requestsOf, delaysOf in *. cbn in *.
        split; [lia|]. split; [by f_equal|]. split; [lia|].
        rewrite Hreqs. lia.
      * rewrite (_getDataFromApi_loop_nonceSmall _ _ _ _ _ _ _ e Hr He Hn).
        destruct (20 <? cn + 1) eqn:Hlt; [cbn; split; [lia|]; split; [done|]; split; [unfold waited; cbn; lia|lia]|].
        apply Z.ltb_ge in Hlt.
        specialize (IH cr (cn + 1) (bump s) ltac:(lia) ltac:(lia)).
        cbn zeta in IH.
        destruct (_getDataFromApi_loop fuel _ _ _ _ _ _) as [[r s'] l].
        cbn [fst snd] in *. destruct IH as (Hn' & Hrep & Hw & Hreqs).
        unfold waited, requestsOf, delaysOf in *. cbn in *.
        split; [lia|]. split; [by f_equal|]. split; [lia|].
        rewrite Hreqs. lia.
      * rewrite (_getDataFromApi_loop_other _ _ _ _ _ _ _ e Hr He Hn).
        cbn. split; [lia|]. split; [done|]. split; [unfold waited; cbn; lia|lia].
Qed.

(** X1.  Whatever the gateway answers, one call of [_getDataFromApi]
    ends: it issues at most 23 requests (two rate-limit retries,
    twenty nonce retries and one last attempt), all of them the very
    request it was asked for, waits at most 180 seconds in all, and
    changes neither the storage nor the schemas; for a method that the
    gateway does not have it throws [FindMethodError] without any
    request. *)
Theorem getDataFromApi_bounded methodApi args isCheckCall s :
  let out := _getDataFromApi methodApi args isCheckCall s in
  fst (fst out) ≠ OutOfFuel
  ∧ (length (requestsOf (snd out)) ≤ 23)%nat
  ∧ requestsOf (snd out)
    = replicate (length (requestsOf (snd out)))
        (EvRequest methodApi args isCheckCall)
  ∧ waited (snd out) ≤ 180000
  ∧ st_reqs (snd (fst out))
    = (st_reqs s + length (requestsOf (snd out)))%nat
  ∧ st_db (snd (fst out)) = st_db s
  ∧ st_heap (snd (fst out)) = st_heap s
  ∧ (hasMethod methodApi = false →
     fst (fst out) = Throw FindMethodError ∧ snd out = []).
Proof.
  cbn zeta. split; [apply _getDataFromApi_total|].
  destruct (_getDataFromApi methodApi args isCheckCall s) as [[r s'] evs]
    eqn:Hrun.
  destruct (_getDataFromApi_events _ _ _ _ _ _ _ Hrun) as (_ & Hdb & Hheap).
  cbn [fst snd]. revert Hrun. unfold _getDataFromApi.
  destruct (hasMethod methodApi); cbn [negb].
  - intros Hrun.
    pose proof (_getDataFromApi_loop_bounded methodApi args isCheckCall
                  retryFuel 0 0 s ltac:(lia) ltac:(lia)) as Hb.
    cbn zeta in Hb. rewrite Hrun in Hb. cbn [fst snd] in Hb.
    destruct Hb as (Hn & Hrep & Hw & Hreqs).
    repeat split; auto; try lia; discriminate.
  - intros [= <- <- <-]. cbn. repeat split; auto; lia.
Qed.

Lemma _getDataFromApi_requests methodApi args isCheckCall s :
  Z.of_nat
    (length (requestsOf (snd (_getDataFromApi methodApi args isCheckCall s))))
  ≤ 23.
Proof.
  unfold _getDataFromApi. destruct (negb (hasMethod methodApi)).
  - cbn. lia.
  - pose proof (_getDataFromApi_loop_bounded methodApi args isCheckCall
                  retryFuel 0 0 s ltac:(lia) ltac:(lia)) as Hb.
    cbn zeta in Hb. lia.
Qed.

Lemma _insertApiDataArrObjTypeToDb_loop_requests
      methodApi collName dateFieldName model isPublic _args L :
  params_limit (args_params _args) = Some L →
  ∀ fuel curr count serial s,
    count ≤ L → 0 ≤ serial →
    Z.of_nat
      (length
         (requestsOf
            (snd (_insertApiDataArrObjTypeToDb_loop fuel methodApi collName
                    dateFieldName model isPublic _args curr count serial s))))
    ≤ 23 * (2 * (L - count) + (if serial <? 1 then 1 else 0) + 1).
Proof.
  intros HL. induction fuel as [|fuel IH]; intros curr count serial s Hc Hs.
  - cbn. destruct (serial <? 1); lia.
  - rewrite _insertApiDataArrObjTypeToDb_loop_unfold.
    pose proof (_getDataFromApi_requests methodApi curr false s) as Hreq.
    destruct (_getDataFromApi methodApi curr false s) as [[r s1] l1] eqn:Hg.
    cbn [snd] in Hreq.
    assert (Hbase : Z.of_nat (length (requestsOf l1))
                    ≤ 23 * (2 * (L - count)
                            + (if serial <? 1 then 1 else 0) + 1))
      by (destruct (serial <? 1); lia).
    destruct r as [v|e|]; cbn [snd]; try exact Hbase.
    destruct v as [res nextPage|d]; [|destruct d; exact Hbase].
    destruct (isEmptyArray res && isCursor nextPage && (serial <? 1)) eqn:Hretry.
    { rewrite snd_after, requestsOf_app, length_app.
      apply andb_true_iff in Hretry as [_ Hlt]. rewrite Hlt.
      apply Z.ltb_lt in Hlt.
      specialize (IH (set_end nextPage curr) count (serial + 1) s1
                    Hc ltac:(lia)).
      replace (serial + 1 <? 1) with false in IH
        by (symmetry; apply Z.ltb_ge; lia).
      lia. }
    destruct res as [|o|items|vals]; try exact Hbase.
    destruct (last items) as [lastItem|] eqn:Hlast; [|exact Hbase].
    destruct (truthyInteger _) as [currTime|]; [|exact Hbase].
    cbn zeta.
    assert (Hbase' : ∀ ev, isRequest ev = false →
              Z.of_nat (length (requestsOf (l1 ++ [ev])))
              ≤ 23 * (2 * (L - count)
                      + (if serial <? 1 then 1 else 0) + 1)).
    { intros ev Hev. rewrite requestsOf_app, length_app.
      unfold requestsOf at 2. cbn. rewrite Hev. cbn.
      destruct (serial <? 1); lia. }
    destruct (snd (clipPage dateFieldName _args count items currTime))
      eqn:Hall; [by apply Hbase'|].
    destruct (needElemsLe0 _ _) eqn:Hneed; [by apply Hbase'|].
    destruct (negb (isCursor nextPage)); [by apply Hbase'|].
    cbn [orb snd]. rewrite snd_after, !requestsOf_app, !length_app.
    unfold needElemsLe0 in Hneed. rewrite HL in Hneed.
    apply Z.leb_gt in Hneed.
    assert (Hwhole : fst (clipPage dateFieldName _args count items currTime)
                     = items).
    { revert Hall. unfold clipPage.
      destruct (startGeTime _ _); destruct (limitLt _ _); cbn; congruence. }
    rewrite Hwhole in *.
    assert (1 ≤ len items).
    { unfold len. destruct items; [discriminate | cbn; lia]. }
    match goal with
    | |- context [_insertApiDataArrObjTypeToDb_loop fuel _ _ _ _ _ _ ?c ?n 0 ?st] =>
        specialize (IH c n 0 st ltac:(lia) ltac:(lia))
    end.
    cbn in IH |- *. destruct (serial <? 1); lia.
Qed.

(** X2.  A pass of [_insertApiDataArrObjTypeToDb] with a record limit
    [L] ends whatever the gateway returns: [2 * L + 2] iterations of
    its loop are always enough, and the pass issues at most
    [23 * (2 * L + 2)] requests. *)
Theorem pagination_bounded fuel args methodApi schema isPublic s L :
  params_limit (args_params args) = Some L →
  0 ≤ L →
  let out :=
    _insertApiDataArrObjTypeToDb fuel args methodApi schema isPublic s in
  (2 * L + 2 ≤ Z.of_nat fuel → fst (fst out) ≠ OutOfFuel)
  ∧ Z.of_nat (length (requestsOf (snd out))) ≤ 23 * (2 * L + 2).
Proof.
  intros HL HL0. cbn zeta. split.
  - intros Hfuel. by eapply _insertApiDataArrObjTypeToDb_total.
  - rewrite _insertApiDataArrObjTypeToDb_run.
    destruct (st_heap s !! schema) as [sc|]; [|cbn; lia].
    destruct (negb _); [cbn; lia|].
    pose proof (_insertApiDataArrObjTypeToDb_loop_requests methodApi (name sc)
                  (dateFieldName sc) (model sc) isPublic
                  (set_notThrowError args) L) as Hb.
    destruct args as [a [l e st sy nt nc]]. cbn in HL. subst l.
    match goal with
    | |- context [_insertApiDataArrObjTypeToDb_loop fuel _ _ _ _ _ _ ?c 0 0 s] =>
        specialize (Hb eq_refl fuel c 0 0 s ltac:(lia) ltac:(lia))
    end.
    cbn in Hb |- *. lia.
Qed.

End RetryAndPagination.

(** ** Whose credentials a pass uses *)

Section Quiet.
Context `{Env}.

Lemma emitsOnly_bind_returns {A B} P (m : M A) (f : A → M B) (R : A → Prop) :
  emitsOnly P m → returns m R → (∀ a, R a → emitsOnly P (f a)) →
  emitsOnly P (bind m f).
Proof.
  intros Hm HR Hf s. rewrite bind_run. specialize (Hm s). specialize (HR s).
  destruct (m s) as [[[a|e|] s1] l1]; cbn [fst snd] in *; try exact Hm.
  rewrite snd_after. apply Forall_app. split; [exact Hm|].
  apply Hf. by apply HR.
Qed.

Lemma quiet_emitsOnly {A} P (m : M A) : quiet m → emitsOnly P m.
Proof. intros Hq s. rewrite Hq. constructor. Qed.

Lemma quiet_bind {A B} (m : M A) (f : A → M B) :
  quiet m → (∀ a, quiet (f a)) → quiet (bind m f).
Proof.
  intros Hm Hf s. rewrite bind_run. specialize (Hm s).
  destruct (m s) as [[[a|e|] s1] l1]; cbn [snd] in *; try exact Hm.
  rewrite snd_after, Hm. apply Hf.
Qed.

Ltac quiet_steps :=
  repeat match goal with
         | |- quiet (bind _ _) => apply quiet_bind; [|intros ?]
         | |- quiet (match ?x with _ => _ end) => destruct x
         | |- quiet _ => by intros ?
         end.

Lemma quiet_readSchema l : quiet (readSchema l).
Proof. unfold readSchema. quiet_steps. Qed.

Lemma quiet_writeSchema l f : quiet (writeSchema l f).
Proof. unfold writeSchema. quiet_steps. Qed.

Lemma quiet_getMethodArgMap this method auth limit start end_ :
  quiet (_getMethodArgMap this method auth limit start end_).
Proof.
  unfold _getMethodArgMap. quiet_steps. apply quiet_readSchema.
Qed.

Lemma quiet_destructurePage v : quiet (destructurePage v).
Proof. intros s. by destruct v as [|[]]. Qed.

Lemma quiet_start_push schema entry : quiet (start_push schema entry).
Proof.
  unfold start_push. apply quiet_bind; [apply quiet_readSchema|]. intros sc.
  destruct (start sc); first [apply quiet_writeSchema | by intros ?].
Qed.

Lemma quiet_filterMethodCollMap methodCollMap isPublic :
  quiet (filterMethodCollMap methodCollMap isPublic).
Proof. intros s. reflexivity. Qed.

Lemma returns_getMethodArgMap_auth this method auth limit start end_ :
  returns (_getMethodArgMap this method auth limit start end_)
    (λ args, args_auth args = authOf auth).
Proof.
  unfold _getMethodArgMap.
  eapply returns_bind; [apply returns_True|].
  intros l _. apply returns_ret. by destruct auth.
Qed.

End Quiet.

(** Breaks a monadic term into its parts, [tac] settling the actions. *)
Ltac scoped_step tac :=
  match goal with
  | |- emitsOnly _ (bind (_getMethodArgMap _ _ _ _ _ _) _) =>
      eapply emitsOnly_bind_returns;
        [apply quiet_emitsOnly, quiet_getMethodArgMap
        |apply returns_getMethodArgMap_auth
        |intros ? ?]
  | |- emitsOnly _ (bind _ _) => apply emitsOnly_bind; [|intros ?]
  | |- emitsOnly _ (ret _) => apply emitsOnly_ret
  | |- emitsOnly _ (throw _) => apply emitsOnly_throw
  | |- emitsOnly _ out_of_fuel => apply emitsOnly_out_of_fuel
  | |- emitsOnly _ get => apply emitsOnly_get
  | |- emitsOnly _ (put _) => apply emitsOnly_put
  | |- emitsOnly _ (emit _) => apply emitsOnly_emit; tac
  | |- emitsOnly _ (setProgress _ _) => apply emitsOnly_setProgress; tac
  | |- emitsOnly _ (forEach _ _) => apply emitsOnly_forEach; intros ?
  | |- emitsOnly _ (readSchema _) => apply quiet_emitsOnly, quiet_readSchema
  | |- emitsOnly _ (writeSchema _ _) => apply quiet_emitsOnly, quiet_writeSchema
  | |- emitsOnly _ (destructurePage _) =>
      apply quiet_emitsOnly, quiet_destructurePage
  | |- emitsOnly _ (start_push _ _) => apply quiet_emitsOnly, quiet_start_push
  | |- emitsOnly _ (filterMethodCollMap _ _) =>
      apply quiet_emitsOnly, quiet_filterMethodCollMap
  | |- emitsOnly _ (match ?x with _ => _ end) => destruct x
  | |- emitsOnly _ (let '(_, _) := ?x in _) => destruct x
  end.

Ltac scoped_steps tac := repeat scoped_step tac.

Section Confinement.
Context `{Env}.

Lemma scoped_getDataFromApi (P : event → Prop) methodApi args isCheckCall :
  P (EvRequest methodApi args isCheckCall) → (∀ ms, P (EvDelay ms)) →
  emitsOnly P (_getDataFromApi methodApi args isCheckCall).
Proof.
  intros Hreq Hdelay. unfold _getDataFromApi.
  destruct (negb _); [apply emitsOnly_throw|].
  assert (Hloop : ∀ fuel cr cn,
            emitsOnly P
              (_getDataFromApi_loop fuel methodApi args isCheckCall cr cn));
    [|apply Hloop].
  induction fuel as [|fuel IH]; intros cr cn;
    cbn [_getDataFromApi_loop]; [apply emitsOnly_out_of_fuel|].
  unfold apiMiddleware_request, delay.
  scoped_steps ltac:(first [exact Hreq | apply Hdelay]); apply IH.
Qed.

Lemma scoped_insertApiDataArrObjTypeToDb_loop allowed rec
      methodApi collName dateFieldName model (isPublic : bool) _args :
  ∀ fuel curr count serial,
    allowed (args_auth curr) →
    emitsOnly
      (scoped allowed (if isPublic then None else Some (args_auth _args)) rec)
      (_insertApiDataArrObjTypeToDb_loop fuel methodApi collName
         dateFieldName model isPublic _args curr count serial).
Proof.
  induction fuel as [|fuel IH]; intros curr count serial Hcurr;
    cbn [_insertApiDataArrObjTypeToDb_loop]; [apply emitsOnly_out_of_fuel|].
  apply emitsOnly_bind; [by apply scoped_getDataFromApi|]. intros v.
  unfold dao_insertElemsToDb.
  scoped_steps ltac:(reflexivity); apply IH; cbn;
    repeat match goal with
           | |- context [match ?x with _ => _ end] => destruct x
           end;
    exact Hcurr.
Qed.

Lemma scoped_insertApiDataArrObjTypeToDb
      allowed rec fuel args methodApi schema (isPublic : bool) :
  allowed (args_auth args) →
  emitsOnly
    (scoped allowed (if isPublic then None else Some (args_auth args)) rec)
    (_insertApiDataArrObjTypeToDb fuel args methodApi schema isPublic).
Proof.
  intros Hargs. unfold _insertApiDataArrObjTypeToDb.
  scoped_steps idtac.
  by apply (scoped_insertApiDataArrObjTypeToDb_loop allowed rec methodApi _ _ _
              isPublic (set_notThrowError args)).
Qed.

Lemma scoped_checkItemNewDataArrObjType allowed owner rec this method schema auth :
  allowed (authOf auth) →
  emitsOnly (scoped allowed owner rec)
    (_checkItemNewDataArrObjType this method schema auth).
Proof.
  intros Hauth. unfold _checkItemNewDataArrObjType.
  scoped_steps idtac.
  all: cbn beta in *.
  all: try (apply scoped_getDataFromApi; [|done]; cbn;
            match goal with Ha : args_auth _ = _ |- _ => by rewrite Ha end).
Qed.

Lemma scoped_checkNewDataArrObjType allowed owner rec this auth methodCollMap :
  allowed (authOf auth) →
  emitsOnly (scoped allowed owner rec)
    (_checkNewDataArrObjType this auth methodCollMap).
Proof.
  intros Hauth. unfold _checkNewDataArrObjType.
  scoped_steps idtac. by apply scoped_checkItemNewDataArrObjType.
Qed.

Lemma scoped_checkNewConfigurablePublicData_symbol
      allowed owner rec this method schema sc e :
  allowed emptyAuth →
  emitsOnly (scoped allowed owner rec)
    (_checkNewConfigurablePublicData_symbol this method schema sc e).
Proof.
  intros Hauth. unfold _checkNewConfigurablePublicData_symbol.
  scoped_steps idtac.
  all: cbn beta in *.
  all: try (apply scoped_getDataFromApi; [|done]; cbn;
            match goal with Ha : args_auth _ = _ |- _ => by rewrite Ha end).
Qed.

Lemma scoped_checkNewDataPublicArrObjType this methodCollMap :
  emitsOnly anonymous (_checkNewDataPublicArrObjType this methodCollMap).
Proof.
  unfold _checkNewDataPublicArrObjType, _checkNewConfigurablePublicData.
  scoped_steps idtac.
  - apply scoped_checkNewConfigurablePublicData_symbol. by left.
  - apply scoped_checkItemNewDataArrObjType. by right.
Qed.

Lemma scoped_insertApiDataPublicArrObjTypeToDb this fuel methodApi schema :
  emitsOnly anonymous
    (_insertApiDataPublicArrObjTypeToDb this fuel methodApi schema).
Proof.
  unfold _insertApiDataPublicArrObjTypeToDb, _insertConfigurablePublicApiData.
  scoped_steps idtac.
  all: cbn beta in *.
  all: apply (scoped_insertApiDataArrObjTypeToDb _ _ _ _ _ _ true); cbn;
    match goal with Ha : args_auth _ = _ |- _ => rewrite Ha; by right end.
Qed.

Lemma scoped_updateApiDataArrTypeToDb this methodApi schema :
  emitsOnly anonymous (_updateApiDataArrTypeToDb this methodApi schema).
Proof.
  unfold _updateApiDataArrTypeToDb, dao_removeElemsFromDbIfNotInLists,
    dao_insertElemsToDbIfNotExists.
  scoped_steps ltac:(exact I).
  all: cbn beta in *.
  all: apply scoped_getDataFromApi; [|done]; cbn;
    match goal with Ha : args_auth _ = _ |- _ => rewrite Ha; by left end.
Qed.

Lemma scoped_updateApiDataArrObjTypeToDb this methodApi schema :
  emitsOnly anonymous (_updateApiDataArrObjTypeToDb this methodApi schema).
Proof.
  unfold _updateApiDataArrObjTypeToDb, dao_removeElemsFromDbIfNotInLists,
    dao_insertElemsToDbIfNotExists.
  scoped_steps ltac:(exact I).
  all: cbn beta in *.
  all: apply scoped_getDataFromApi; [|done]; cbn;
    match goal with Ha : args_auth _ = _ |- _ => rewrite Ha; by left end.
Qed.

Lemma scoped_publish P this p :
  (∀ v, P (EvProgress v)) → emitsOnly P (publish this p).
Proof. intros HP. apply emitsOnly_publish. intros n _. apply HP. Qed.

(** X4.  The public pass involves no account: every request of
    [insertNewPublicDataToDb] goes out with the empty credentials [{}]
    or with blank ones, every row it inserts is stored as public
    data, and no hook is started. *)
Theorem public_pass_is_anonymous this fuel prevProgress :
  emitsOnly anonymous (insertNewPublicDataToDb this fuel prevProgress).
Proof.
  unfold insertNewPublicDataToDb, checkNewPublicData.
  scoped_steps idtac.
  - apply scoped_checkNewDataPublicArrObjType.
  - apply emitsOnly_forCount. intros [method item] count.
    scoped_steps idtac.
    + apply scoped_updateApiDataArrObjTypeToDb.
    + apply scoped_updateApiDataArrTypeToDb.
    + apply scoped_insertApiDataPublicArrObjTypeToDb.
    + by apply scoped_publish.
Qed.

(** X3.  The pass of an account works with the credentials of that
    account only: every request of [insertNewDataToDb] carries them,
    every row inserted is stored for that account, and the pass makes
    no reconciliation write and starts no hook. *)
Theorem account_pass_is_confined this fuel a userProgress :
  emitsOnly (forAccount a) (insertNewDataToDb this fuel (Some a) userProgress).
Proof.
  unfold insertNewDataToDb, checkNewData.
  scoped_steps ltac:(exact I).
  - by apply scoped_checkNewDataArrObjType.
  - apply emitsOnly_forCount. intros [method item] count.
    scoped_steps idtac.
    + cbn beta in *.
      match goal with
      | Ha : args_auth ?x = _ |- _ =>
          pose proof (scoped_insertApiDataArrObjTypeToDb (λ y, y = a) False
                        fuel x method item false Ha) as Hs;
          cbn in Hs; by rewrite Ha in Hs
      end.
    + by apply scoped_publish.
Qed.

Lemma scoped_notHook allowed owner rec e :
  scoped allowed owner rec e → notHook e.
Proof. by destruct e. Qed.

Lemma notHook_publish this p : emitsOnly notHook (publish this p).
Proof. by apply scoped_publish. Qed.

Lemma notHook_insertNewDataToDb this fuel auth userProgress :
  emitsOnly notHook (insertNewDataToDb this fuel auth userProgress).
Proof.
  unfold insertNewDataToDb, checkNewData.
  destruct auth as [a|]; [|apply emitsOnly_throw].
  scoped_steps ltac:(exact I).
  - eapply emitsOnly_impl; [apply scoped_notHook|].
    by apply (scoped_checkNewDataArrObjType (λ _, True) (Some a) True).
  - apply emitsOnly_forCount. intros [method item] count.
    scoped_steps idtac.
    + eapply emitsOnly_impl; [apply scoped_notHook|].
      by apply (scoped_insertApiDataArrObjTypeToDb (λ _, True) True
                  fuel _ method item false).
    + apply notHook_publish.
Qed.

Lemma notHook_insertNewPublicDataToDb this fuel prevProgress :
  emitsOnly notHook (insertNewPublicDataToDb this fuel prevProgress).
Proof.
  unfold insertNewPublicDataToDb, checkNewPublicData.
  scoped_steps idtac.
  - eapply emitsOnly_impl; [apply scoped_notHook|].
    apply scoped_checkNewDataPublicArrObjType.
  - apply emitsOnly_forCount. intros [method item] count.
    scoped_steps idtac.
    + eapply emitsOnly_impl; [apply scoped_notHook|].
      apply scoped_updateApiDataArrObjTypeToDb.
    + eapply emitsOnly_impl; [apply scoped_notHook|].
      apply scoped_updateApiDataArrTypeToDb.
    + eapply emitsOnly_impl; [apply scoped_notHook|].
      apply scoped_insertApiDataPublicArrObjTypeToDb.
    + apply notHook_publish.
Qed.

Lemma notHook_insertNewDataToDbMultiUser_loop this fuel size items :
  ∀ count progress,
    emitsOnly notHook
      (insertNewDataToDbMultiUser_loop this fuel size items count progress).
Proof.
  induction items as [|[k item] items IH]; intros count progress;
    cbn [insertNewDataToDbMultiUser_loop]; [apply emitsOnly_ret|].
  cbn [snd]. destruct item; try apply IH;
    (apply emitsOnly_bind; [apply notHook_insertNewDataToDb|]);
    intros p; apply IH.
Qed.

End Confinement.

(** ** The end of a run *)

Section EndOfRun.
Context `{Env}.

Lemma unlessOk_bind {A B} P (m : M A) (f : A → M B) :
  emitsOnly P m → (∀ a, unlessOk P (f a)) → unlessOk P (bind m f).
Proof.
  intros Hm Hf s. rewrite bind_run. specialize (Hm s).
  destruct (m s) as [[[a|e|] s1] l1]; cbn [fst snd] in *; try (intros _; exact Hm).
  rewrite snd_after. intros Hno. apply Forall_app. split; [exact Hm|].
  apply Hf. intros b Hb. apply (Hno b). by rewrite fst_after.
Qed.

Lemma belowHundred_publish this p :
  emitsOnly belowHundred (publish this p).
Proof. apply emitsOnly_publish. intros n Hn. exact Hn. Qed.

Lemma belowHundred_silent {A} (m : M A) :
  emitsOnly silent m → emitsOnly belowHundred m.
Proof. apply emitsOnly_impl, silent_belowHundred. Qed.

Lemma belowHundred_insertNewDataToDb this fuel auth userProgress :
  emitsOnly belowHundred (insertNewDataToDb this fuel auth userProgress).
Proof.
  unfold insertNewDataToDb.
  destruct auth as [a|]; [|apply emitsOnly_throw].
  destruct (apiKey a), (apiSecret a);
    try (apply emitsOnly_bind;
         [by apply emitsOnly_setProgress | intros _; apply emitsOnly_ret]).
  apply emitsOnly_bind; [apply belowHundred_silent, silent_checkNewData|].
  intros m. apply emitsOnly_forCount. intros [method item] count.
  apply emitsOnly_bind; [apply belowHundred_silent, silent_readSchema|].
  intros sc.
  apply emitsOnly_bind; [apply belowHundred_silent, silent_getMethodArgMap|].
  intros args.
  apply emitsOnly_bind;
    [apply belowHundred_silent, silent_insertApiDataArrObjTypeToDb|].
  intros _.
  apply emitsOnly_bind; [apply belowHundred_publish|].
  intros _. apply emitsOnly_ret.
Qed.

Lemma belowHundred_insertNewPublicDataToDb this fuel prevProgress :
  emitsOnly belowHundred (insertNewPublicDataToDb this fuel prevProgress).
Proof.
  unfold insertNewPublicDataToDb.
  apply emitsOnly_bind; [apply belowHundred_silent, silent_checkNewPublicData|].
  intros m.
  apply emitsOnly_bind; [|intros _; apply emitsOnly_ret].
  apply emitsOnly_forCount. intros [method item] count.
  apply emitsOnly_bind;
    [apply belowHundred_silent, silent_updateApiDataArrObjTypeToDb|].
  intros _.
  apply emitsOnly_bind;
    [apply belowHundred_silent, silent_updateApiDataArrTypeToDb|].
  intros _.
  apply emitsOnly_bind;
    [apply belowHundred_silent, silent_insertApiDataPublicArrObjTypeToDb|].
  intros _.
  apply emitsOnly_bind; [apply belowHundred_publish|].
  intros _. apply emitsOnly_ret.
Qed.

Lemma belowHundred_insertNewDataToDbMultiUser_loop this fuel size items :
  ∀ count progress,
    emitsOnly belowHundred
      (insertNewDataToDbMultiUser_loop this fuel size items count progress).
Proof.
  induction items as [|[k item] items IH]; intros count progress;
    cbn [insertNewDataToDbMultiUser_loop]; [apply emitsOnly_ret|].
  cbn [snd]. destruct item; try apply IH;
    (apply emitsOnly_bind; [apply belowHundred_insertNewDataToDb|]);
    intros p; apply IH.
Qed.

Lemma belowHundred_progressOf evs :
  Forall belowHundred evs → Forall (λ p, p ≠ PNum 100) (progressOf evs).
Proof.
  induction 1 as [|e evs He _ IH]; [constructor|].
  destruct e as [| | | | |[n|]|]; cbn; try exact IH; constructor;
    try exact IH.
  - cbn in He. intros [= ->]. lia.
  - discriminate.
Qed.

(** What a run has done when it comes to its last statement,
    [setProgress(100)], if it comes to it. *)
Lemma insertNewDataToDbMultiUser_run this fuel s :
  ∃ evs,
    Forall belowHundred evs
    ∧ (snd (insertNewDataToDbMultiUser this fuel s) = evs
       ∨ ∃ s',
           insertNewDataToDbMultiUser this fuel s
           = after evs (setProgress this (PNum 100) s')).
Proof.
  unfold insertNewDataToDbMultiUser. rewrite bind_run. cbn [get after].
  rewrite after_nil.
  assert (Hmark : ∃ evs,
            Forall belowHundred evs
            ∧ (snd (setProgress this MESS_ERR_UNAUTH s) = evs
               ∨ ∃ s',
                   setProgress this MESS_ERR_UNAUTH s
                   = after evs (setProgress this (PNum 100) s'))).
  { eexists. split; [|by left].
    by apply (emitsOnly_setProgress belowHundred). }
  destruct (getAuthFromDb (st_db s)) as [| |[|item items]]; try exact Hmark.
  clear Hmark. rewrite bind_run.
  pose proof (belowHundred_insertNewDataToDbMultiUser_loop this fuel
                (len (item :: items)) (item :: items) 0 (Some 0) s) as H1.
  destruct (insertNewDataToDbMultiUser_loop _ _ _ _ _ _ s)
    as [[[p|e|] s1] l1]; cbn [snd] in H1;
    try (exists l1; split; [exact H1 | by left]).
  rewrite bind_run.
  pose proof (belowHundred_insertNewPublicDataToDb this fuel p s1) as H2.
  destruct (insertNewPublicDataToDb this fuel p s1) as [[[[]|e|] s2] l2];
    cbn [snd] in H2;
    try (exists (l1 ++ l2); split; [by apply Forall_app | by left]).
  rewrite bind_run.
  pose proof (belowHundred_silent _ (silent_afterAllInserts this) s2) as H3.
  destruct (_afterAllInserts this s2) as [[[[]|e|] s3] l3]; cbn [snd] in H3;
    try (exists (l1 ++ l2 ++ l3); split;
         [by repeat apply Forall_app_2 | by left]).
  exists (l1 ++ l2 ++ l3). split; [by repeat apply Forall_app_2|].
  right. exists s3.
  destruct (setProgress this (PNum 100) s3) as [[r s4] l4]. cbn.
  by rewrite !app_assoc.
Qed.

(** X5.  The value 100 comes last and stands for a run that went
    through: every action of a run of [insertNewDataToDbMultiUser]
    before its last one passes no 100 to [setProgress]; and when 100
    is passed, the accounts, the public pass and the hooks are done,
    and the run returns, or throws what an observer of the value 100
    throws.  So a run that ends otherwise, with a gateway error or
    with the error of a hook, has passed no 100. *)
Theorem hundred_only_on_success this fuel s :
  let out := insertNewDataToDbMultiUser this fuel s in
  (∃ evs,
     Forall belowHundred evs
     ∧ (snd out = evs
        ∨ snd out = evs ++ [EvProgress (PNum 100)]
          ∧ (fst (fst out) = Ok tt ∨ isObserverError (fst (fst out)))))
  ∧ (fst (fst out) ≠ Ok tt → ¬ isObserverError (fst (fst out)) →
     Forall (λ p, p ≠ PNum 100) (progressOf (snd out))).
Proof.
  cbn zeta.
  destruct (insertNewDataToDbMultiUser_run this fuel s)
    as (evs & Hevs & [Hrun | [s' Hrun]]).
  - split; [exists evs; auto|]. intros _ _. rewrite Hrun.
    by apply belowHundred_progressOf.
  - rewrite Hrun.
    destruct (setProgress_run this (PNum 100) s') as (r & -> & Hok & Hthrow).
    cbn [after fst snd].
    assert (Hr : r = Ok tt ∨ isObserverError r).
    { destruct (accepts this (st_published s') (PNum 100)); auto. }
    split; [exists evs; auto|].
    intros Hno Hobs. by destruct Hr.
Qed.

(** *** Hooks *)

Lemma hookCalled_run i s :
  hookCalled i s = (Ok tt, afterHooks [i] s, [EvHook i]).
Proof.
  unfold hookCalled, afterHooks. cbn [foldl]. rewrite bind_run.
  cbn [get after]. rewrite bind_run. cbn [emit after].
  by destruct (callHook i (st_db s) (st_heap s)).
Qed.

Lemma afterHooks_cons i l s :
  afterHooks (i :: l) s = afterHooks l (afterHooks [i] s).
Proof. reflexivity. Qed.

(** [hooks.map(hook => hook(this))] when no hook throws: every hook
    is called. *)
Lemma startHooks_all hooks :
  Forall (λ h, h ≠ HookFn HookThrows) hooks →
  ∀ i s,
    startHooks i hooks s
    = (Ok tt, afterHooks (seq i (length hooks)) s,
       EvHook <$> seq i (length hooks)).
Proof.
  induction 1 as [|h hooks Hh _ IH]; intros i s; [reflexivity|].
  cbn [startHooks]. rewrite bind_run, hookCalled_run. cbn [after].
  destruct h as [[| |]|]; try done; rewrite IH; reflexivity.
Qed.

(** ... and when the hook at position [k] is the first that throws:
    the hooks after it are not called. *)
Lemma startHooks_thrown hooks :
  ∀ k i s,
    hooks !! k = Some (HookFn HookThrows) →
    (∀ j, (j < k)%nat → hooks !! j ≠ Some (HookFn HookThrows)) →
    startHooks i hooks s
    = (Throw (HookError (i + k)), afterHooks (seq i (S k)) s,
       EvHook <$> seq i (S k)).
Proof.
  induction hooks as [|h hooks IH]; intros k i s Hk Hfirst; [done|].
  cbn [startHooks]. rewrite bind_run, hookCalled_run. cbn [after].
  destruct k as [|k].
  - injection Hk as ->. by rewrite Nat.add_0_r.
  - assert (Hh : h ≠ HookFn HookThrows).
    { intros ->. by apply (Hfirst 0%nat); [lia|]. }
    assert (Hrest :
      startHooks (S i) hooks (afterHooks [i] s)
      = (Throw (HookError (S i + k)),
         afterHooks (seq (S i) (S k)) (afterHooks [i] s),
         EvHook <$> seq (S i) (S k))).
    { apply IH; [exact Hk|]. intros j Hj. apply (Hfirst (S j)). lia. }
    replace (i + S k)%nat with (S i + k)%nat by lia.
    destruct h as [[| |]|]; try done; rewrite Hrest; reflexivity.
Qed.

Lemma firstRejected_spec hooks :
  match firstRejected hooks with
  | Some i =>
      hooks !! i = Some (HookFn HookRejects)
      ∧ ∀ j, (j < i)%nat → hooks !! j ≠ Some (HookFn HookRejects)
  | None => Forall (λ h, h ≠ HookFn HookRejects) hooks
  end.
Proof.
  unfold firstRejected.
  assert (Hgen : ∀ k,
    match fst <$> List.find (λ e : nat * Hook,
                               match snd e with
                               | HookFn HookRejects => true
                               | _ => false
                               end)
                    (imap (λ i h, (k + i, h)%nat) hooks) with
    | Some i =>
        ∃ j, i = (k + j)%nat ∧ hooks !! j = Some (HookFn HookRejects)
             ∧ ∀ j', (j' < j)%nat → hooks !! j' ≠ Some (HookFn HookRejects)
    | None => Forall (λ h, h ≠ HookFn HookRejects) hooks
    end).
  { induction hooks as [|h hooks IH]; intros k; [constructor|].
    cbn [imap List.find snd].
    assert (Hskip :
      h ≠ HookFn HookRejects →
      match fst <$> List.find (λ e : nat * Hook,
                                 match snd e with
                                 | HookFn HookRejects => true
                                 | _ => false
                                 end)
                      (imap ((λ i h, (k + i, h)%nat) ∘ S) hooks) with
      | Some i =>
          ∃ j, i = (k + j)%nat
               ∧ (h :: hooks) !! j = Some (HookFn HookRejects)
               ∧ ∀ j', (j' < j)%nat →
                       (h :: hooks) !! j' ≠ Some (HookFn HookRejects)
      | None => Forall (λ h, h ≠ HookFn HookRejects) (h :: hooks)
      end).
    { intros Hh. specialize (IH (S k)). unfold compose.
      erewrite imap_ext; [|intros i x _; by rewrite Nat.add_succ_r].
      destruct (fst <$> List.find _ _) as [i|].
      - destruct IH as (j & -> & Hj & Hmin). exists (S j).
        split; [lia|]. split; [done|]. intros [|j'] Hj'.
        + cbn. congruence.
        + cbn. apply Hmin. lia.
      - by constructor. }
    destruct h as [[| |]|]; try (by apply Hskip).
    cbn. exists 0%nat. split; [lia|]. split; [done|]. intros j' Hj'. lia. }
  specialize (Hgen 0%nat). cbn in Hgen.
  destruct (fst <$> List.find _ _) as [i|]; [|exact Hgen].
  by destruct Hgen as (j & -> & Hj).
Qed.

Lemma existsb_not_isFn hooks :
  existsb (λ h, match h with HookNotFn => true | _ => false end) hooks
  = negb (forallb isFn hooks).
Proof. induction hooks as [|[b|] l IH]; cbn; auto. Qed.

Lemma firstThrown_spec hooks :
  match firstThrown hooks with
  | Some k =>
      hooks !! k = Some (HookFn HookThrows)
      ∧ ∀ j, (j < k)%nat → hooks !! j ≠ Some (HookFn HookThrows)
  | None => Forall (λ h, h ≠ HookFn HookThrows) hooks
  end.
Proof.
  induction hooks as [|h hooks IH]; [constructor|].
  assert (Hskip :
    h ≠ HookFn HookThrows →
    match S <$> firstThrown hooks with
    | Some k =>
        (h :: hooks) !! k = Some (HookFn HookThrows)
        ∧ ∀ j, (j < k)%nat → (h :: hooks) !! j ≠ Some (HookFn HookThrows)
    | None => Forall (λ h, h ≠ HookFn HookThrows) (h :: hooks)
    end).
  { intros Hh. destruct (firstThrown hooks) as [k|]; cbn.
    - destruct IH as [Hk Hmin]. split; [done|]. intros [|j] Hj; cbn.
      + congruence.
      + apply Hmin. lia.
    - by constructor. }
  destruct h as [[| |]|]; try (by apply Hskip).
  cbn. split; [done|]. intros j Hj. lia.
Qed.

Lemma _afterAllInserts_skip this s :
  forallb isFn (_afterAllInsertsHooks this) = false →
  _afterAllInserts this s = (Ok tt, s, []).
Proof.
  intros Hall. unfold _afterAllInserts.
  by rewrite existsb_not_isFn, Hall, orb_true_r.
Qed.

Lemma _afterAllInserts_all this s :
  forallb isFn (_afterAllInsertsHooks this) = true →
  Forall (λ h, h ≠ HookFn HookThrows) (_afterAllInsertsHooks this) →
  _afterAllInserts this s
  = (match firstRejected (_afterAllInsertsHooks this) with
     | Some i => Throw (HookError i)
     | None => Ok tt
     end,
     afterHooks (seq 0 (length (_afterAllInsertsHooks this))) s,
     EvHook <$> seq 0 (length (_afterAllInsertsHooks this))).
Proof.
  intros Hall Hno. unfold _afterAllInserts.
  rewrite existsb_not_isFn, Hall, orb_false_r.
  case_bool_decide as Hnil; [by rewrite Hnil|].
  rewrite bind_run, (startHooks_all _ Hno). cbn [after].
  destruct (firstRejected _); cbn; by rewrite app_nil_r.
Qed.

Lemma _afterAllInserts_thrown this s k :
  forallb isFn (_afterAllInsertsHooks this) = true →
  _afterAllInsertsHooks this !! k = Some (HookFn HookThrows) →
  (∀ j, (j < k)%nat →
        _afterAllInsertsHooks this !! j ≠ Some (HookFn HookThrows)) →
  _afterAllInserts this s
  = (Throw (HookError k), afterHooks (seq 0 (S k)) s,
     EvHook <$> seq 0 (S k)).
Proof.
  intros Hall Hk Hmin. unfold _afterAllInserts.
  rewrite existsb_not_isFn, Hall, orb_false_r.
  case_bool_decide as Hnil; [by rewrite Hnil in Hk|].
  by rewrite bind_run, (startHooks_thrown _ k 0%nat s Hk Hmin).
Qed.


Lemma addAll_snoc this hooks h :
  addAll this (hooks ++ [h])
  = addAll this hooks ≫= λ this, addAfterAllInsertsHooks this h.
Proof. unfold addAll. by rewrite foldl_app. Qed.

Lemma addAll_spec this hooks :
  addAll this hooks
  = if forallb isFn hooks
    then Some {| _methodCollMap := _methodCollMap this;
                 _afterAllInsertsHooks := _afterAllInsertsHooks this ++ hooks;
                 _asyncProgressHandler := _asyncProgressHandler this;
                 _progressListeners := _progressListeners this |}
    else None.
Proof.
  induction hooks as [|h hooks IH] using rev_ind.
  - cbn. rewrite app_nil_r. by destruct this.
  - rewrite addAll_snoc, IH, forallb_app. cbn [forallb].
    destruct (forallb isFn hooks); cbn; [|done].
    destruct h; cbn; [|done]. by rewrite app_assoc.
Qed.

(** The hooks that [_afterAllInserts] calls. *)
Lemma _afterAllInserts_started this s :
  ∃ n, (n ≤ length (_afterAllInsertsHooks this))%nat
       ∧ snd (_afterAllInserts this s) = EvHook <$> seq 0 n
       ∧ (fst (fst (_afterAllInserts this s)) = Ok tt →
          forallb isFn (_afterAllInsertsHooks this) = true →
          n = length (_afterAllInsertsHooks this))
       ∧ (_afterAllInsertsHooks this ≠ [] →
          forallb isFn (_afterAllInsertsHooks this) = true →
          (0 < n)%nat).
Proof.
  destruct (forallb isFn (_afterAllInsertsHooks this)) eqn:Hall.
  - pose proof (firstThrown_spec (_afterAllInsertsHooks this)) as Hfirst.
    destruct (firstThrown (_afterAllInsertsHooks this)) as [k|].
    + destruct Hfirst as [Hk Hmin].
      rewrite (_afterAllInserts_thrown this s k Hall Hk Hmin).
      exists (S k). apply lookup_lt_Some in Hk.
      split; [lia|]. split; [done|]. split; [done|]. intros _ _. lia.
    + rewrite (_afterAllInserts_all this s Hall Hfirst).
      exists (length (_afterAllInsertsHooks this)).
      split; [lia|]. split; [done|]. split; [done|].
      intros Hne _. destruct (_afterAllInsertsHooks this); [done | cbn; lia].
  - rewrite (_afterAllInserts_skip this s Hall). exists 0%nat. cbn.
    split; [lia|]. split; [done|]. split; [|done]. discriminate.
Qed.

(** X7.  Hooks can only be registered as functions:
    [addAfterAllInsertsHooks] throws for anything else.  So on a
    DataInserter whose hooks were all registered this way, from none,
    [_afterAllInserts] never skips the hooks: they are kept in the
    order of registration and called in that order, the first of them
    always, and all of them unless one throws, which stops the calls
    at that hook. *)
Theorem registered_hooks_all_run this hooks s :
  _afterAllInsertsHooks this = [] →
  match addAll this hooks with
  | None => forallb isFn hooks = false
  | Some this' =>
      forallb isFn hooks = true
      ∧ _methodCollMap this' = _methodCollMap this
      ∧ _afterAllInsertsHooks this' = hooks
      ∧ ∃ n, snd (_afterAllInserts this' s) = EvHook <$> seq 0 n
             ∧ (n ≤ length hooks)%nat
             ∧ (hooks ≠ [] → (0 < n)%nat)
             ∧ (Forall (λ h, h ≠ HookFn HookThrows) hooks →
                n = length hooks)
             ∧ ∀ k, hooks !! k = Some (HookFn HookThrows) →
                    (∀ j, (j < k)%nat →
                          hooks !! j ≠ Some (HookFn HookThrows)) →
                    n = S k
  end.
Proof.
  intros Hfresh. rewrite addAll_spec, Hfresh. cbn [app].
  destruct (forallb isFn hooks) eqn:Hall; [|done].
  split; [done|]. split; [done|]. split; [done|].
  set (this' := {| _methodCollMap := _methodCollMap this;
                   _afterAllInsertsHooks := hooks;
                   _asyncProgressHandler := _asyncProgressHandler this;
                   _progressListeners := _progressListeners this |}).
  pose proof (firstThrown_spec hooks) as Hfirst.
  destruct (firstThrown hooks) as [k|].
  - destruct Hfirst as [Hk Hmin]. exists (S k).
    rewrite (_afterAllInserts_thrown this' s k Hall Hk Hmin).
    pose proof (lookup_lt_Some _ _ _ Hk).
    split; [done|]. split; [lia|]. split; [lia|]. split.
    + intros Hall'. rewrite Forall_forall in Hall'.
      apply list_elem_of_lookup_2 in Hk. by specialize (Hall' _ Hk).
    + intros k' Hk' Hmin'.
      destruct (Nat.lt_trichotomy k k') as [Hlt | [-> | Hlt]]; [|done|].
      * by destruct (Hmin' k Hlt).
      * by destruct (Hmin k' Hlt).
  - rewrite (_afterAllInserts_all this' s Hall Hfirst).
    exists (length hooks).
    split; [done|]. split; [lia|]. split.
    + intros Hne. destruct hooks; [done | cbn; lia].
    + split; [done|]. intros k Hk _. rewrite Forall_forall in Hfirst.
      apply list_elem_of_lookup_2 in Hk. by specialize (Hfirst _ Hk).
Qed.

End EndOfRun.

(* ================================================================= *)
(** * More of the JSON-RPC responder *)

Section MoreResponderFacts.
Import Responder.

Lemma _logError_logs h ws args name isInternalRequest err :
  match _getErrorMetadata h args err with
  | Success m =>
      ∃ logs,
        _logError h ws args name isInternalRequest err
        = Success (afterMetadata err m, logs)
        ∧ MoreResponder.logsOnce ws name m logs
  | Failure t =>
      _logError h ws args name isInternalRequest err = Failure t
  end.
Proof.
  unfold _logError, MoreResponder.logsOnce.
  destruct (_getErrorMetadata h args err) as [m|t]; [|done].
  eexists. split; [reflexivity|]. eexists _, _. split; [reflexivity|].
  split.
  - destruct ws; cbn [andb]; [|by left].
    destruct (_ && _); [by right | by left].
  - destruct (meta_code m =? 500) eqn:Hcode; cbn [negb orb]; [|by left].
    apply Z.eqb_eq in Hcode.
    destruct (_ && _); [by left | by right].
Qed.



End MoreResponderFacts.

(* ================================================================= *)
(** * The record filter *)

Section FilterFacts.
Import Filter.
Context {rt : Runtime}.

Lemma every_app (l1 l2 : list (attempt bool)) :
  every id (l1 ++ l2)
  = match every id l1 with
    | Success true => every id l2
    | r => r
    end.
Proof.
  induction l1 as [|[[|]|e] l1 IH]; cbn; auto.
Qed.

Lemma every_true (l : list (attempt bool)) :
  every id l = Success true ↔ Forall (λ r, r = Success true) l.
Proof.
  induction l as [|[[|]|e] l IH]; cbn.
  - split; [constructor | done].
  - rewrite IH. split; [by constructor | by inversion 1].
  - split; [done | by inversion 1].
  - split; [done | by inversion 1].
Qed.

Lemma filterBy_total {A} (p : A → bool) (l : list A) :
  filterBy (λ x, Success (p x)) l = Success (List.filter p l).
Proof.
  induction l as [|x l IH]; cbn; [done|]. rewrite IH. by destruct (p x).
Qed.

Lemma filterBy_ext {A} (f g : A → attempt bool) (l : list A) :
  Forall (λ x, f x = g x) l → filterBy f l = filterBy g l.
Proof.
  induction 1 as [|x l Hx _ IH]; cbn; [done|]. by rewrite Hx, IH.
Qed.

Lemma filterBy_kept {A} (f : A → attempt bool) (l kept : list A) :
  filterBy f l = Success kept →
  kept `sublist_of` l ∧ Forall (λ x, f x = Success true) kept.
Proof.
  revert kept. induction l as [|x l IH]; cbn; intros kept.
  - intros [= <-]. split; [done | constructor].
  - destruct (f x) as [b|e] eqn:Hx; [|done].
    destruct (filterBy f l) as [k|e]; [|done].
    destruct (IH k eq_refl) as [Hs Hall].
    intros [= <-]. destruct b.
    + split; [by constructor | by constructor].
    + split; [by constructor | done].
Qed.

(** The two guards of the exported function. *)
Lemma filterData_records items ref entries isNotIgnoreCase :
  entries ≠ [] →
  Forall (λ item, isRecord item = true) items →
  filterData (JArr items) (JObj ref entries) isNotIgnoreCase
  = let filter := JObj ref entries in
    andThen
      (filterBy
         (keeps (_isOrOp filter)
            (if _isOrOp filter then spread (getProp filter OR) else entries)
            (truthy isNotIgnoreCase))
         items)
      (λ res, Success (JArr res)).
Proof.
  intros Hne Hrec. unfold filterData. cbn [truthy typeofObject negb orb spread].
  rewrite bool_decide_eq_false_2 by done.
  destruct items as [|x l]; [reflexivity|].
  replace (existsb _ (x :: l)) with false; [reflexivity|].
  symmetry. apply not_true_is_false. intros Hex.
  apply existsb_exists in Hex as (item & Hin & Hbad).
  rewrite Forall_forall in Hrec.
  specialize (Hrec item ltac:(by apply list_elem_of_In)).
  unfold isRecord in Hrec. apply andb_true_iff in Hrec as [H1 H2].
  by rewrite H1, H2 in Hbad.
Qed.


Lemma isFieldName_eqb f :
  isFieldName f = true →
  String.eqb f GT = false ∧ String.eqb f GTE = false
  ∧ String.eqb f LT = false ∧ String.eqb f LTE = false
  ∧ String.eqb f NOT = false ∧ String.eqb f LIKE = false
  ∧ String.eqb f EQ = false ∧ String.eqb f NE = false
  ∧ String.eqb f IN = false ∧ String.eqb f NIN = false
  ∧ String.eqb f IS_NULL = false ∧ String.eqb f IS_NOT_NULL = false.
Proof.
  unfold isFieldName. intros Hf. apply negb_true_iff in Hf.
  cbn [existsb] in Hf.
  repeat (apply orb_false_iff in Hf as [? Hf]). repeat split; assumption.
Qed.

Lemma comparatorsOf_field isNotIgnoreCase item f v :
  isFieldName f = true →
  comparatorsOf isNotIgnoreCase item (f, v)
  = [_getComparator f v isNotIgnoreCase (getProp item f)].
Proof.
  intros Hf.
  destruct (isFieldName_eqb f Hf)
    as (H1 & H2 & H3 & H4 & H5 & H6 & H7 & H8 & H9 & H10 & H11 & H12).
  unfold comparatorsOf, _getIsNullComparator. rewrite H11, H12. cbn [negb andb orb].
  unfold _isCondition, conditions. cbn [existsb].
  rewrite !(String.eqb_sym _ f), H1, H2, H3, H4, H5, H6, H7, H8, H9, H10.
  reflexivity.
Qed.

Lemma getComparator_field f v isNotIgnoreCase item :
  isFieldName f = true →
  _getComparator f v isNotIgnoreCase item
  = let value := _toLowerCaseStr v isNotIgnoreCase in
    match value with
    | JArr elements =>
        some (λ subItem,
                Success (negb (_isNull item)
                         && strictEq (_toLowerCaseStr item isNotIgnoreCase)
                              subItem))
          elements
    | _ =>
        Success (negb (_isNull item)
                 && strictEq (_toLowerCaseStr item isNotIgnoreCase) value)
    end.
Proof.
  intros Hf.
  destruct (isFieldName_eqb f Hf)
    as (H1 & H2 & H3 & H4 & H5 & H6 & H7 & H8 & H9 & H10 & H11 & H12).
  unfold _getComparator. rewrite H1, H2, H3, H4, H5, H6, H7, H8, H9, H10.
  cbn zeta. by destruct (_toLowerCaseStr v isNotIgnoreCase).
Qed.

Lemma some_false {A} (l : list A) :
  some (λ _, Success false) l = Success false.
Proof. induction l; cbn; auto. Qed.

(** A condition on a field is never met by a row that lacks the
    field. *)
Lemma getComparator_field_null f v isNotIgnoreCase item :
  isFieldName f = true → _isNull item = true →
  _getComparator f v isNotIgnoreCase item = Success false.
Proof.
  intros Hf Hnull. rewrite getComparator_field by done. cbn zeta.
  rewrite Hnull. cbn [negb andb].
  destruct (_toLowerCaseStr v isNotIgnoreCase); try reflexivity.
  apply some_false.
Qed.


Lemma filterData_no_filter data filter isNotIgnoreCase :
  isFilter filter = false →
  filterData data filter isNotIgnoreCase
  = Success match data with JUndefined => JArr [] | _ => data end.
Proof.
  unfold isFilter, filterData. intros Hf.
  assert (Hfilter : filter = JUndefined
                    ∨ match filter with JUndefined => JObj 1 [] | _ => filter end
                      = filter) by (destruct filter; auto).
  destruct Hfilter as [->|Hfilter]; [reflexivity|].
  rewrite Hfilter.
  replace (negb (truthy filter) || negb (typeofObject filter)
           || bool_decide (spread filter = []))
    with true; [reflexivity|].
  destruct (truthy filter), (typeofObject filter),
    (bool_decide (spread filter = [])); done.
Qed.

Lemma filterData_filter data filter isNotIgnoreCase :
  isFilter filter = true →
  filterData data filter isNotIgnoreCase
  = if forallb isRecord (itemsOf data) then
      andThen
        (filterBy
           (keeps (_isOrOp filter)
              (if _isOrOp filter then spread (getProp filter OR)
               else spread filter)
              (truthy isNotIgnoreCase))
           (itemsOf data))
        (λ res, Success (JArr res))
    else Success (JArr []).
Proof.
  unfold isFilter, filterData. intros Hf.
  apply andb_true_iff in Hf as [Hf Hkeys].
  apply andb_true_iff in Hf as [Ht Ho].
  apply negb_true_iff, bool_decide_eq_false in Hkeys.
  assert (Hfilter : match filter with JUndefined => JObj 1 [] | _ => filter end
                    = filter) by by destruct filter.
  rewrite Hfilter, Ht, Ho. cbn [negb orb].
  rewrite bool_decide_eq_false_2 by done.
  destruct data as [| | | | |[|x l]| |]; try reflexivity.
  cbn [itemsOf].
  replace (existsb (λ item, negb (truthy item) || negb (typeofObject item))
             (x :: l))
    with (negb (forallb isRecord (x :: l))).
  - by destruct (forallb isRecord (x :: l)).
  - generalize (x :: l). intros items.
    induction items as [|y items IH]; [done|]. cbn [forallb existsb].
    rewrite negb_andb, IH. unfold isRecord. by rewrite negb_andb.
Qed.

(** X13.  What the exported function returns is the data as it was given,
    when no filter applies, and otherwise a selection of the rows of
    the data, in their order; the selection is empty when the data is
    not an array of records. *)
Theorem filterData_selects data filter isNotIgnoreCase :
  (isFilter filter = false →
   filterData data filter isNotIgnoreCase
   = Success match data with JUndefined => JArr [] | _ => data end)
  ∧ (isFilter filter = true →
     ∀ res, filterData data filter isNotIgnoreCase = Success res →
            ∃ kept, res = JArr kept
                    ∧ kept `sublist_of` itemsOf data
                    ∧ (forallb isRecord (itemsOf data) = false → kept = [])).
Proof.
  split; [apply filterData_no_filter|].
  intros Hf res. rewrite filterData_filter by done.
  destruct (forallb isRecord (itemsOf data)).
  - destruct (filterBy _ _) as [kept|e] eqn:Hkept; [|done].
    intros [= <-]. exists kept. split; [done|].
    split; [by apply filterBy_kept in Hkept as [? _] | done].
  - intros [= <-]. exists []. split; [done|]. split; [|done].
    apply sublist_nil_l.
Qed.

Lemma keeps_and_app e1 e2 isNotIgnoreCase item :
  keeps false (e1 ++ e2) isNotIgnoreCase item
  = match keeps false e1 isNotIgnoreCase item with
    | Success true => keeps false e2 isNotIgnoreCase item
    | r => r
    end.
Proof. unfold keeps. by rewrite map_app, concat_app, every_app. Qed.

Lemma filterBy_and_app e1 e2 isNotIgnoreCase items res :
  filterBy (keeps false (e1 ++ e2) isNotIgnoreCase) items = Success res
  ↔ ∃ kept,
      filterBy (keeps false e1 isNotIgnoreCase) items = Success kept
      ∧ filterBy (keeps false e2 isNotIgnoreCase) kept = Success res.
Proof.
  revert res. induction items as [|x items IH]; intros res; cbn [filterBy].
  - split.
    + intros [= <-]. by exists [].
    + by intros (kept & [= <-] & Hres).
  - rewrite keeps_and_app.
    destruct (keeps false e1 isNotIgnoreCase x) as [[|]|e] eqn:H1.
    + destruct (keeps false e2 isNotIgnoreCase x) as [b|e] eqn:H2.
      * destruct (filterBy (keeps false (e1 ++ e2) isNotIgnoreCase) items)
          as [k|e] eqn:Hk.
        -- destruct (proj1 (IH k) eq_refl) as (kept & Hk1 & Hk2).
           rewrite Hk1. split.
           ++ intros [= <-]. exists (x :: kept). split; [done|].
              cbn [filterBy]. by rewrite H2, Hk2.
           ++ intros (kept' & [= <-] & Hres). cbn [filterBy] in Hres.
              by rewrite H2, Hk2 in Hres.
        -- split; [done|]. intros (kept' & Hk1 & Hres).
           destruct (filterBy (keeps false e1 isNotIgnoreCase) items)
             as [k1|e1'] eqn:Hk1'; [|done].
           injection Hk1 as <-. cbn [filterBy] in Hres. rewrite H2 in Hres.
           destruct (filterBy (keeps false e2 isNotIgnoreCase) k1)
             as [k2|e2'] eqn:Hk2; [|done].
           assert (Hex : ∃ kept,
                     Success k1 = Success kept
                     ∧ filterBy (keeps false e2 isNotIgnoreCase) kept
                       = Success k2) by eauto.
           apply IH in Hex. done.
      * split; [done|]. intros (kept' & Hk1 & Hres).
        destruct (filterBy (keeps false e1 isNotIgnoreCase) items)
          as [k1|e1'] eqn:Hk1'; [|done].
        injection Hk1 as <-. cbn [filterBy] in Hres. by rewrite H2 in Hres.
    + destruct (filterBy (keeps false (e1 ++ e2) isNotIgnoreCase) items)
        as [k|e] eqn:Hk.
      * destruct (proj1 (IH k) eq_refl) as (kept & Hk1 & Hk2).
        rewrite Hk1. split.
        -- intros [= <-]. by exists kept.
        -- intros (kept' & [= <-] & Hres). congruence.
      * split; [done|]. intros (kept' & Hk1 & Hres).
        destruct (filterBy (keeps false e1 isNotIgnoreCase) items)
          as [k1|e1'] eqn:Hk1'; [|done].
        injection Hk1 as <-.
        assert (Hex : ∃ kept,
                  Success k1 = Success kept
                  ∧ filterBy (keeps false e2 isNotIgnoreCase) kept
                    = Success res) by eauto.
        apply IH in Hex. done.
    + split; [done|]. by intros (kept' & Hk1 & Hres).
Qed.


Lemma isFilter_JObj ref entries :
  isFilter (JObj ref entries) = negb (bool_decide (entries = [])).
Proof. reflexivity. Qed.

Lemma forallb_isRecord_sublist (l k : list jsval) :
  k `sublist_of` l → forallb isRecord l = true → forallb isRecord k = true.
Proof.
  intros Hs Hl. rewrite forallb_forall in *. intros x Hx. apply Hl.
  apply list_elem_of_In. apply list_elem_of_In in Hx.
  by eapply elem_of_sublist.
Qed.

Lemma filterData_default data filter isNotIgnoreCase :
  filterData match data with JUndefined => JArr [] | _ => data end
    filter isNotIgnoreCase
  = filterData data filter isNotIgnoreCase.
Proof. by destruct data. Qed.

Lemma filterData_and data ref entries isNotIgnoreCase :
  entries ≠ [] →
  _isOrOp (JObj ref entries) = false →
  filterData data (JObj ref entries) isNotIgnoreCase
  = if forallb isRecord (itemsOf data) then
      andThen
        (filterBy (keeps false entries (truthy isNotIgnoreCase))
           (itemsOf data))
        (λ res, Success (JArr res))
    else Success (JArr []).
Proof.
  intros Hne Hor. rewrite filterData_filter.
  - by rewrite Hor.
  - rewrite isFilter_JObj. by rewrite bool_decide_eq_false_2.
Qed.

(** X14.  Conditions add up: a filter whose keys are those of two filters,
    one after the other, returns what the second filter returns on
    what the first one returns. *)
Theorem and_filters_compose
    data ref ref1 ref2 e1 e2 isNotIgnoreCase res :
  _isOrOp (JObj ref (e1 ++ e2)) = false →
  _isOrOp (JObj ref1 e1) = false →
  _isOrOp (JObj ref2 e2) = false →
  filterData data (JObj ref (e1 ++ e2)) isNotIgnoreCase = Success res
  ↔ ∃ selected,
      filterData data (JObj ref1 e1) isNotIgnoreCase = Success selected
      ∧ filterData selected (JObj ref2 e2) isNotIgnoreCase = Success res.
Proof.
  intros Hor Hor1 Hor2.
  destruct e1 as [|x1 e1].
  { cbn [app]. rewrite (filterData_no_filter data (JObj ref1 [])) by done.
    destruct e2 as [|x2 e2].
    - rewrite !filterData_no_filter by done. split.
      + intros [= <-]. eexists. split; [done|]. by destruct data.
      + intros (sel & [= <-] & [= <-]). by destruct data.
    - rewrite (filterData_and data ref) by done.
      split.
      + intros Hres. eexists. split; [done|].
        rewrite filterData_default, filterData_and by done. exact Hres.
      + intros (sel & [= <-] & Hres).
        by rewrite filterData_default, filterData_and in Hres. }
  destruct e2 as [|x2 e2].
  { rewrite app_nil_r in *. rewrite !(filterData_and data _ (x1 :: e1)) by done.
    destruct (forallb isRecord (itemsOf data)).
    - destruct (filterBy _ _) as [kept|e]; cbn [andThen].
      + split.
        * intros [= <-]. eexists. split; [done|].
          by rewrite filterData_no_filter.
        * intros (sel & [= <-] & Hres).
          by rewrite filterData_no_filter in Hres.
      + split; [done|]. by intros (sel & ? & _).
    - split.
      + intros [= <-]. eexists. split; [done|].
        by rewrite filterData_no_filter.
      + intros (sel & [= <-] & Hres).
        by rewrite filterData_no_filter in Hres. }
  rewrite (filterData_and data ref), (filterData_and data ref1) by done.
  destruct (forallb isRecord (itemsOf data)) eqn:Hrec.
  - change ((x1 :: e1) ++ x2 :: e2) with ((x1 :: e1) ++ (x2 :: e2)).
    split.
    + destruct (filterBy (keeps false ((x1 :: e1) ++ x2 :: e2) _) _)
        as [kept|e] eqn:Hk; [|done].
      intros [= <-].
      apply filterBy_and_app in Hk as (k1 & Hk1 & Hk2).
      rewrite Hk1. exists (JArr k1). split; [done|].
      rewrite filterData_and by done. cbn [itemsOf].
      rewrite (forallb_isRecord_sublist (itemsOf data) k1), Hk2; try done.
      by apply filterBy_kept in Hk1 as [? _].
    + intros (sel & Hsel & Hres).
      destruct (filterBy (keeps false (x1 :: e1) _) _) as [k1|e] eqn:Hk1;
        [|done].
      injection Hsel as <-.
      rewrite filterData_and in Hres by done. cbn [itemsOf] in Hres.
      rewrite (forallb_isRecord_sublist (itemsOf data) k1) in Hres;
        [|by apply filterBy_kept in Hk1 as [? _]|done].
      destruct (filterBy (keeps false (x2 :: e2) _) k1) as [k2|e] eqn:Hk2;
        [|done].
      injection Hres as <-.
      assert (Hex : ∃ kept,
                filterBy (keeps false (x1 :: e1) (truthy isNotIgnoreCase))
                  (itemsOf data) = Success kept
                ∧ filterBy (keeps false (x2 :: e2) (truthy isNotIgnoreCase))
                    kept = Success k2) by eauto.
      apply filterBy_and_app in Hex. by rewrite Hex.
  - split.
    + intros [= <-]. exists (JArr []). split; [done|].
      by rewrite filterData_and.
    + intros (sel & [= <-] & Hres).
      by rewrite filterData_and in Hres.
Qed.

Lemma lookup_Some_ne key entries o :
  lookup key entries = Some o → entries ≠ [].
Proof. by destruct entries. Qed.

(** X15.  When the filter has an [OR] key that holds an object, the other
    keys of the filter are ignored. *)
Theorem or_filter_ignores_other_keys data filter o ref isNotIgnoreCase :
  lookup OR (spread filter) = Some o →
  truthy o && typeofObject o = true →
  filterData data filter isNotIgnoreCase
  = filterData data (JObj ref [(OR, o)]) isNotIgnoreCase.
Proof.
  intros Hlookup Ho.
  assert (Hprop : getProp filter OR = o) by (unfold getProp; by rewrite Hlookup).
  assert (Hprop' : getProp (JObj ref [(OR, o)]) OR = o).
  { unfold getProp, lookup. cbn. by rewrite String.eqb_refl. }
  assert (Hfilter : isFilter filter = true).
  { apply lookup_Some_ne in Hlookup. unfold isFilter.
    rewrite bool_decide_eq_false_2 by done.
    by destruct filter as [| | | | |[]| |]. }
  assert (Hor : _isOrOp filter = true).
  { unfold _isOrOp. rewrite Hprop.
    apply andb_true_iff in Hfilter as [-> _].
    by apply andb_true_iff in Ho as [-> ->]. }
  assert (Hor' : _isOrOp (JObj ref [(OR, o)]) = true).
  { unfold _isOrOp. rewrite Hprop'. cbn.
    by apply andb_true_iff in Ho as [-> ->]. }
  rewrite !filterData_filter by done.
  by rewrite Hor, Hor', Hprop, Hprop'.
Qed.


Lemma distinct_at (l : list string) i j x y :
  NoDup l → l !! i = Some x → l !! j = Some y → i ≠ j →
  String.eqb x y = false.
Proof.
  intros Hl Hi Hj Hij. apply String.eqb_neq. intros ->.
  by apply Hij, (NoDup_lookup l i j y).
Qed.

Ltac distinct Hd i j :=
  apply (distinct_at _ i j _ _ Hd eq_refl eq_refl); lia.

Lemma keeps_single (c : attempt bool) : every id [c] = c.
Proof. by destruct c as [[|]|]. Qed.

(** The comparators of an operator key whose value is a record. *)
Lemma comparatorsOf_operator isNotIgnoreCase item c r cond :
  _isCondition conditions c = true →
  String.eqb c IS_NULL = false → String.eqb c IS_NOT_NULL = false →
  comparatorsOf isNotIgnoreCase item (c, JObj r cond)
  = map (λ '(curr, v),
           _getComparator c v isNotIgnoreCase (getProp item curr))
      cond.
Proof.
  intros Hc H1 H2. unfold comparatorsOf, _getIsNullComparator.
  rewrite H1, H2, Hc. reflexivity.
Qed.

Lemma getComparator_NE v isNotIgnoreCase item :
  distinctConditions →
  _getComparator NE v isNotIgnoreCase item
  = Success (negb (_isNull item)
             && negb (strictEq (_toLowerCaseStr item isNotIgnoreCase)
                        (_toLowerCaseStr v isNotIgnoreCase))).
Proof.
  intros Hd. unfold _getComparator.
  replace (String.eqb NE GT) with false by (symmetry; distinct Hd 7%nat 0%nat).
  replace (String.eqb NE GTE) with false by (symmetry; distinct Hd 7%nat 1%nat).
  replace (String.eqb NE LT) with false by (symmetry; distinct Hd 7%nat 2%nat).
  replace (String.eqb NE LTE) with false by (symmetry; distinct Hd 7%nat 3%nat).
  replace (String.eqb NE LIKE) with false by (symmetry; distinct Hd 7%nat 5%nat).
  by rewrite String.eqb_refl.
Qed.

Lemma isCondition_NE : _isCondition conditions NE = true.
Proof.
  unfold _isCondition, conditions. cbn [existsb].
  rewrite (String.eqb_refl NE). by rewrite !orb_true_r.
Qed.

(** X16.  A row that lacks a field is never selected by a condition
    on the value of that field, be it the bare condition [f: v] or
    the operator [NE]: what the filter returns holds no row whose
    field [f] is [null] or [undefined]. *)
Theorem missing_field_is_not_selected
    items ref entries isNotIgnoreCase kept f v :
  _isOrOp (JObj ref entries) = false →
  filterData (JArr items) (JObj ref entries) isNotIgnoreCase
  = Success (JArr kept) →
  ((f, v) ∈ entries ∧ isFieldName f = true)
  ∨ (distinctConditions
     ∧ ∃ r cond, (NE, JObj r cond) ∈ entries ∧ (f, v) ∈ cond) →
  Forall (λ item, _isNull (getProp item f) = false) kept.
Proof.
  intros Hor Hres Hcond.
  assert (Hne : entries ≠ []).
  { destruct Hcond as [[Hin _]|(_ & r & cond & Hin & _)];
      intros ->; by apply elem_of_nil in Hin. }
  rewrite filterData_and in Hres by done. cbn [itemsOf] in Hres.
  destruct (forallb isRecord items); [|injection Hres as <-; constructor].
  destruct (filterBy _ _) as [k|e] eqn:Hk; [|done].
  injection Hres as <-.
  apply filterBy_kept in Hk as [_ Hall].
  eapply Forall_impl; [exact Hall|]. intros item Hitem. cbn beta in Hitem.
  unfold keeps in Hitem. apply every_true in Hitem.
  rewrite Forall_concat, Forall_map in Hitem.
  rewrite Forall_forall in Hitem.
  destruct Hcond as [[Hin Hf]|(Hd & r & cond & Hin & Hincond)].
  - specialize (Hitem _ Hin). cbn beta in Hitem.
    rewrite comparatorsOf_field in Hitem by done.
    rewrite Forall_singleton in Hitem.
    destruct (_isNull (getProp item f)) eqn:Hnull; [|done].
    by rewrite getComparator_field_null in Hitem.
  - specialize (Hitem _ Hin). cbn beta in Hitem.
    rewrite comparatorsOf_operator in Hitem;
      [|apply isCondition_NE|distinct Hd 7%nat 10%nat
       |distinct Hd 7%nat 11%nat].
    rewrite Forall_map, Forall_forall in Hitem.
    specialize (Hitem _ Hincond). cbv beta iota in Hitem.
    rewrite getComparator_NE in Hitem by done.
    injection Hitem as Hitem. by apply andb_true_iff in Hitem as [?%negb_true_iff _].
Qed.

(** X17.  [IS_NULL] and [IS_NOT_NULL] on one field split the rows in two:
    the rows that lack the field, and the other ones. *)
Theorem null_operators_split_the_rows items ref f isNotIgnoreCase :
  IS_NULL ≠ IS_NOT_NULL →
  forallb isRecord items = true →
  _isOrOp (JObj ref [(IS_NULL, JStr f)]) = false →
  _isOrOp (JObj ref [(IS_NOT_NULL, JStr f)]) = false →
  filterData (JArr items) (JObj ref [(IS_NULL, JStr f)]) isNotIgnoreCase
  = Success (JArr (List.filter (λ item, _isNull (getProp item f)) items))
  ∧ filterData (JArr items) (JObj ref [(IS_NOT_NULL, JStr f)]) isNotIgnoreCase
    = Success
        (JArr (List.filter (λ item, negb (_isNull (getProp item f))) items)).
Proof.
  intros Hd Hrec Hor1 Hor2.
  rewrite !filterData_and by done. cbn [itemsOf]. rewrite Hrec.
  split.
  - erewrite filterBy_ext; [by rewrite filterBy_total|].
    apply Forall_forall. intros item _.
    unfold keeps, comparatorsOf, _getIsNullComparator, getPropBy.
    cbn [map concat]. rewrite String.eqb_refl.
    cbn [negb andb orb forallb]. by rewrite app_nil_r, keeps_single, andb_true_r.
  - erewrite filterBy_ext; [by rewrite filterBy_total|].
    apply Forall_forall. intros item _.
    unfold keeps, comparatorsOf, _getIsNullComparator, getPropBy.
    cbn [map concat]. rewrite String.eqb_refl.
    replace (String.eqb IS_NOT_NULL IS_NULL) with false
      by (symmetry; by apply String.eqb_neq).
    cbn [negb andb orb forallb]. by rewrite app_nil_r, keeps_single, andb_true_r.
Qed.

Lemma toLowerCase_empty s : String.eqb s EmptyString = true → toLowerCase s = s.
Proof. by destruct s. Qed.

Lemma lowerItem_JStr isNotIgnoreCase s :
  lowerItem (truthy isNotIgnoreCase) (JStr s) = JStr (folded isNotIgnoreCase s).
Proof.
  unfold lowerItem, folded. cbn [truthy].
  destruct (truthy isNotIgnoreCase); cbn [orb]; [done|].
  destruct (String.eqb s EmptyString) eqn:Hs; cbn [negb]; [|done].
  by rewrite toLowerCase_empty.
Qed.

(** X18.  A condition [f: v] on a string selects the rows whose field [f]
    is a string equal to [v], letter case being ignored unless
    [isNotIgnoreCase] is set. *)
Theorem string_condition_ignores_case items ref f v isNotIgnoreCase :
  isFieldName f = true →
  forallb isRecord items = true →
  _isOrOp (JObj ref [(f, JStr v)]) = false →
  filterData (JArr items) (JObj ref [(f, JStr v)]) isNotIgnoreCase
  = Success
      (JArr
         (List.filter
            (λ item,
               match getProp item f with
               | JStr s =>
                   String.eqb (folded isNotIgnoreCase s)
                     (folded isNotIgnoreCase v)
               | _ => false
               end)
            items)).
Proof.
  intros Hf Hrec Hor.
  rewrite filterData_and by done. cbn [itemsOf]. rewrite Hrec.
  erewrite filterBy_ext; [by rewrite filterBy_total|].
  apply Forall_forall. intros item _.
  unfold keeps. cbn [map concat]. rewrite app_nil_r.
  rewrite comparatorsOf_field, keeps_single, getComparator_field by done.
  cbn zeta. cbn [_toLowerCaseStr]. rewrite lowerItem_JStr.
  destruct (getProp item f) as [| | | |s|l| |]; try reflexivity.
  cbn [_isNull negb andb _toLowerCaseStr]. by rewrite lowerItem_JStr.
Qed.


Lemma isCondition_at c i :
  conditions !! i = Some c → _isCondition conditions c = true.
Proof.
  intros Hi. unfold _isCondition. apply existsb_exists. exists c.
  split; [|apply String.eqb_refl].
  apply list_elem_of_In. by eapply list_elem_of_lookup_2.
Qed.

Lemma getComparator_GTE v isNotIgnoreCase item :
  distinctConditions →
  _getComparator GTE v isNotIgnoreCase item
  = Success (negb (_isNull item)
             && gte item (_toLowerCaseStr v isNotIgnoreCase)).
Proof.
  intros Hd. unfold _getComparator.
  replace (String.eqb GTE GT) with false by (symmetry; distinct Hd 1%nat 0%nat).
  by rewrite String.eqb_refl.
Qed.

Lemma getComparator_LTE v isNotIgnoreCase item :
  distinctConditions →
  _getComparator LTE v isNotIgnoreCase item
  = Success (negb (_isNull item)
             && lte item (_toLowerCaseStr v isNotIgnoreCase)).
Proof.
  intros Hd. unfold _getComparator.
  replace (String.eqb LTE GT) with false by (symmetry; distinct Hd 3%nat 0%nat).
  replace (String.eqb LTE GTE) with false by (symmetry; distinct Hd 3%nat 1%nat).
  replace (String.eqb LTE LT) with false by (symmetry; distinct Hd 3%nat 2%nat).
  by rewrite String.eqb_refl.
Qed.

(** X19.  A range on a numeric field: [GTE] and [LTE] together select the
    rows whose field lies between the two bounds, bounds included;
    rows that lack the field are left out. *)
Theorem numeric_range_is_inclusive
    items ref r1 r2 f a b isNotIgnoreCase :
  distinctConditions →
  forallb isRecord items = true →
  Forall (λ item, match getProp item f with
                  | JNum _ | JNull | JUndefined => True
                  | _ => False
                  end) items →
  let filter :=
    JObj ref [(GTE, JObj r1 [(f, JNum a)]); (LTE, JObj r2 [(f, JNum b)])] in
  _isOrOp filter = false →
  filterData (JArr items) filter isNotIgnoreCase
  = Success
      (JArr
         (List.filter
            (λ item,
               match getProp item f with
               | JNum n => (a <=? n) && (n <=? b)
               | _ => false
               end)
            items)).
Proof.
  intros Hd Hrec Hnum filter Hor. unfold filter in *.
  rewrite filterData_and by done. cbn [itemsOf]. rewrite Hrec.
  erewrite filterBy_ext; [by rewrite filterBy_total|].
  eapply Forall_impl; [exact Hnum|]. intros item Hitem. cbn beta in Hitem.
  unfold keeps. cbn [map concat]. rewrite app_nil_r.
  rewrite !comparatorsOf_operator;
    [|by apply (isCondition_at _ 3%nat)|distinct Hd 3%nat 10%nat
     |distinct Hd 3%nat 11%nat
     |by apply (isCondition_at _ 1%nat)|distinct Hd 1%nat 10%nat
     |distinct Hd 1%nat 11%nat].
  cbn [map app]. rewrite getComparator_GTE, getComparator_LTE by done.
  destruct (getProp item f) as [| | |n| | | |]; try done.
  cbn [_isNull negb andb _toLowerCaseStr lowerItem every id].
  unfold gte, lte, isLessThan.
  destruct (n <? a) eqn:H1.
  - apply Z.ltb_lt in H1.
    replace (a <=? n) with false by (symmetry; apply Z.leb_gt; lia). done.
  - apply Z.ltb_ge in H1.
    replace (a <=? n) with true by (symmetry; apply Z.leb_le; lia).
    cbn [andb]. destruct (b <? n) eqn:H2.
    + apply Z.ltb_lt in H2.
      replace (n <=? b) with false by (symmetry; apply Z.leb_gt; lia). done.
    + apply Z.ltb_ge in H2.
      replace (n <=? b) with true by (symmetry; apply Z.leb_le; lia). done.
Qed.

Lemma getComparator_EQ v isNotIgnoreCase item :
  distinctConditions →
  _getComparator EQ v isNotIgnoreCase item
  = Success (negb (_isNull item)
             && strictEq (_toLowerCaseStr item isNotIgnoreCase)
                  (_toLowerCaseStr v isNotIgnoreCase)).
Proof.
  intros Hd. unfold _getComparator.
  replace (String.eqb EQ GT) with false by (symmetry; distinct Hd 6%nat 0%nat).
  replace (String.eqb EQ GTE) with false by (symmetry; distinct Hd 6%nat 1%nat).
  replace (String.eqb EQ LT) with false by (symmetry; distinct Hd 6%nat 2%nat).
  replace (String.eqb EQ LTE) with false by (symmetry; distinct Hd 6%nat 3%nat).
  replace (String.eqb EQ LIKE) with false by (symmetry; distinct Hd 6%nat 5%nat).
  replace (String.eqb EQ NE) with false by (symmetry; distinct Hd 6%nat 7%nat).
  by rewrite String.eqb_refl.
Qed.

Lemma getComparator_IN l isNotIgnoreCase item :
  distinctConditions →
  _getComparator IN (JArr l) isNotIgnoreCase item
  = some (λ subItem,
            Success (negb (_isNull item)
                     && strictEq (_toLowerCaseStr item isNotIgnoreCase)
                          subItem))
      (map (lowerItem isNotIgnoreCase) l).
Proof.
  intros Hd. unfold _getComparator.
  replace (String.eqb IN GT) with false by (symmetry; distinct Hd 8%nat 0%nat).
  replace (String.eqb IN GTE) with false by (symmetry; distinct Hd 8%nat 1%nat).
  replace (String.eqb IN LT) with false by (symmetry; distinct Hd 8%nat 2%nat).
  replace (String.eqb IN LTE) with false by (symmetry; distinct Hd 8%nat 3%nat).
  replace (String.eqb IN LIKE) with false by (symmetry; distinct Hd 8%nat 5%nat).
  replace (String.eqb IN NE) with false by (symmetry; distinct Hd 8%nat 7%nat).
  replace (String.eqb IN EQ) with false by (symmetry; distinct Hd 8%nat 6%nat).
  by rewrite String.eqb_refl.
Qed.

(** X20.  The operators [EQ] and [IN] say nothing more than the bare
    condition: [EQ: {f: v}] selects what [f: v] selects when [v] is
    not an array, and [IN: {f: list}] what [f: list] selects. *)
Theorem EQ_and_IN_are_the_bare_condition
    data ref ref' r f v isNotIgnoreCase :
  distinctConditions →
  isFieldName f = true →
  (isArray v = false →
   _isOrOp (JObj ref [(EQ, JObj r [(f, v)])]) = false →
   _isOrOp (JObj ref' [(f, v)]) = false →
   filterData data (JObj ref [(EQ, JObj r [(f, v)])]) isNotIgnoreCase
   = filterData data (JObj ref' [(f, v)]) isNotIgnoreCase)
  ∧ (isArray v = true →
     _isOrOp (JObj ref [(IN, JObj r [(f, v)])]) = false →
     _isOrOp (JObj ref' [(f, v)]) = false →
     filterData data (JObj ref [(IN, JObj r [(f, v)])]) isNotIgnoreCase
     = filterData data (JObj ref' [(f, v)]) isNotIgnoreCase).
Proof.
  intros Hd Hf. split.
  - intros Hv Hor Hor'. rewrite !filterData_and by done.
    destruct (forallb isRecord (itemsOf data)); [|done]. f_equal.
    apply filterBy_ext, Forall_forall. intros item _.
    unfold keeps. cbn [map concat]. rewrite !app_nil_r.
    rewrite comparatorsOf_operator;
      [|by apply (isCondition_at _ 6%nat)|distinct Hd 6%nat 10%nat
       |distinct Hd 6%nat 11%nat].
    rewrite comparatorsOf_field by done. cbn [map].
    rewrite getComparator_EQ, getComparator_field by done. cbn zeta.
    destruct v; try done. cbn [_toLowerCaseStr]. by rewrite lowerItem_JStr.
  - intros Hv Hor Hor'. rewrite !filterData_and by done.
    destruct (forallb isRecord (itemsOf data)); [|done]. f_equal.
    apply filterBy_ext, Forall_forall. intros item _.
    unfold keeps. cbn [map concat]. rewrite !app_nil_r.
    rewrite comparatorsOf_operator;
      [|by apply (isCondition_at _ 8%nat)|distinct Hd 8%nat 10%nat
       |distinct Hd 8%nat 11%nat].
    rewrite comparatorsOf_field by done. cbn [map].
    destruct v; try done.
    by rewrite getComparator_IN, getComparator_field by done.
Qed.

Lemma getComparator_LIKE v isNotIgnoreCase item :
  distinctConditions →
  match _toLowerCaseStr v isNotIgnoreCase with JStr _ => False | _ => True end →
  _getComparator LIKE v isNotIgnoreCase item = Failure TypeError.
Proof.
  intros Hd Hv. unfold _getComparator.
  replace (String.eqb LIKE GT) with false by (symmetry; distinct Hd 5%nat 0%nat).
  replace (String.eqb LIKE GTE) with false by (symmetry; distinct Hd 5%nat 1%nat).
  replace (String.eqb LIKE LT) with false by (symmetry; distinct Hd 5%nat 2%nat).
  replace (String.eqb LIKE LTE) with false by (symmetry; distinct Hd 5%nat 3%nat).
  rewrite String.eqb_refl.
  by destruct (_toLowerCaseStr v isNotIgnoreCase).
Qed.


Lemma getComparator_LIKE_string v isNotIgnoreCase item :
  distinctConditions →
  _getComparator LIKE (JStr v) (truthy isNotIgnoreCase) item
  = let source := likeSource (folded isNotIgnoreCase v) in
    if isPattern source then
      Success match item with
              | JStr s => regExpTest source (folded isNotIgnoreCase s)
              | _ => false
              end
    else Failure SyntaxError.
Proof.
  intros Hd. unfold _getComparator.
  replace (String.eqb LIKE GT) with false by (symmetry; distinct Hd 5%nat 0%nat).
  replace (String.eqb LIKE GTE) with false by (symmetry; distinct Hd 5%nat 1%nat).
  replace (String.eqb LIKE LT) with false by (symmetry; distinct Hd 5%nat 2%nat).
  replace (String.eqb LIKE LTE) with false by (symmetry; distinct Hd 5%nat 3%nat).
  rewrite String.eqb_refl. cbn [_toLowerCaseStr]. rewrite lowerItem_JStr.
  cbn zeta. destruct (isPattern _); [|done].
  destruct item; try done. cbn [_toLowerCaseStr]. by rewrite lowerItem_JStr.
Qed.

(** X21.  [LIKE] needs a string: with any other value the filter throws a
    TypeError at the first row; with a string it selects the rows
    whose field is a string that the pattern built from the value
    matches, both in lower case unless [isNotIgnoreCase] is set, and
    it throws a SyntaxError when what is built is not a pattern. *)
Theorem LIKE_needs_a_string x l ref r f v isNotIgnoreCase :
  distinctConditions →
  forallb isRecord (x :: l) = true →
  _isOrOp (JObj ref [(LIKE, JObj r [(f, v)])]) = false →
  filterData (JArr (x :: l)) (JObj ref [(LIKE, JObj r [(f, v)])])
    isNotIgnoreCase
  = match v with
    | JStr pattern =>
        let source := likeSource (folded isNotIgnoreCase pattern) in
        if isPattern source then
          Success
            (JArr
               (List.filter
                  (λ item,
                     match getProp item f with
                     | JStr s => regExpTest source (folded isNotIgnoreCase s)
                     | _ => false
                     end)
                  (x :: l)))
        else Failure SyntaxError
    | _ => Failure TypeError
    end.
Proof.
  intros Hd Hrec Hor. rewrite filterData_and by done.
  cbn [itemsOf]. rewrite Hrec.
  assert (Hkeeps : ∀ item,
            keeps false [(LIKE, JObj r [(f, v)])] (truthy isNotIgnoreCase) item
            = _getComparator LIKE v (truthy isNotIgnoreCase) (getProp item f)).
  { intros item. unfold keeps. cbn [map concat]. rewrite app_nil_r.
    rewrite comparatorsOf_operator;
      [|by apply (isCondition_at _ 5%nat)|distinct Hd 5%nat 10%nat
       |distinct Hd 5%nat 11%nat].
    cbn [map]. apply keeps_single. }
  assert (Hv : (∃ pattern, v = JStr pattern)
               ∨ match v with JStr _ => False | _ => True end)
    by (destruct v; eauto).
  destruct Hv as [[pattern ->]|Hv].
  - cbn zeta.
    destruct (isPattern (likeSource (folded isNotIgnoreCase pattern)))
      eqn:Hp.
    + erewrite filterBy_ext; [by rewrite filterBy_total|].
      apply Forall_forall. intros item _. rewrite Hkeeps.
      rewrite getComparator_LIKE_string by done. cbn zeta. by rewrite Hp.
    + cbn [filterBy]. rewrite Hkeeps, getComparator_LIKE_string by done.
      cbn zeta. by rewrite Hp.
  - cbn [filterBy]. rewrite Hkeeps, getComparator_LIKE; [|done|].
    + by destruct v.
    + by destruct v.
Qed.

End FilterFacts.

(* ================================================================= *)
(** * The order of a run *)

Section OrderOfARun.
Context `{Env}.

(** X22.  The hooks come last.  The actions of the DataInserter in
    a run of [insertNewDataToDbMultiUser] are, in this order: the
    work of the passes (requests, delays, DAO writes, progress
    values), during which no hook is called; the calls of the hooks
    at the positions 0, 1, ... of the list, each one once, as far as
    [_afterAllInserts] goes; and the value 100, passed to
    [setProgress] only when the call of the hooks has returned, so
    after all of them when they are functions.  The DataInserter
    makes no request and no DAO write once a hook has been called,
    and the run that passes 100 returns or throws what an observer
    of that value throws. *)
Theorem hooks_come_last this fuel s :
  let out := insertNewDataToDbMultiUser this fuel s in
  ∃ work n final,
    snd out = work ++ (EvHook <$> seq 0 n) ++ final
    ∧ Forall notHook work
    ∧ (n ≤ length (_afterAllInsertsHooks this))%nat
    ∧ (final = []
       ∨ final = [EvProgress (PNum 100)]
         ∧ (forallb isFn (_afterAllInsertsHooks this) = true →
            n = length (_afterAllInsertsHooks this))
         ∧ (fst (fst out) = Ok tt ∨ isObserverError (fst (fst out)))).
Proof.
  cbn zeta. unfold insertNewDataToDbMultiUser. rewrite bind_run.
  cbn [get after]. rewrite after_nil.
  assert (Hnone : ∃ work n final,
            snd (setProgress this MESS_ERR_UNAUTH s)
            = work ++ (EvHook <$> seq 0 n) ++ final
            ∧ Forall notHook work
            ∧ (n ≤ length (_afterAllInsertsHooks this))%nat
            ∧ (final = []
               ∨ final = [EvProgress (PNum 100)]
                 ∧ (forallb isFn (_afterAllInsertsHooks this) = true →
                    n = length (_afterAllInsertsHooks this))
                 ∧ (fst (fst (setProgress this MESS_ERR_UNAUTH s)) = Ok tt
                    ∨ isObserverError
                        (fst (fst (setProgress this MESS_ERR_UNAUTH s)))))).
  { destruct (setProgress_run this MESS_ERR_UNAUTH s) as (r & -> & _).
    exists [EvProgress MESS_ERR_UNAUTH], 0%nat, [].
    split; [done|]. split; [by repeat constructor|]. split; [lia | auto]. }
  destruct (getAuthFromDb (st_db s)) as [| |[|item items]]; try exact Hnone.
  clear Hnone. rewrite bind_run.
  pose proof (notHook_insertNewDataToDbMultiUser_loop this fuel
                (len (item :: items)) (item :: items) 0 (Some 0) s) as H1.
  destruct (insertNewDataToDbMultiUser_loop _ _ _ _ _ _ s)
    as [[[p|e|] s1] l1]; cbn [snd fst] in *;
    try by (exists l1, 0%nat, []; rewrite !app_nil_r;
            split; [done|]; split; [done|]; split; [lia | auto]).
  rewrite bind_run.
  pose proof (notHook_insertNewPublicDataToDb this fuel p s1) as H2.
  destruct (insertNewPublicDataToDb this fuel p s1)
    as [[[[]|e|] s2] l2]; cbn [snd fst after] in *;
    try by (exists (l1 ++ l2), 0%nat, []; rewrite !app_nil_r;
            split; [done|]; split; [by apply Forall_app|];
            split; [lia | auto]).
  rewrite bind_run.
  destruct (_afterAllInserts_started this s2) as (n & Hn & H3 & Hall & _).
  destruct (_afterAllInserts this s2) as [[[[]|e|] s3] l3];
    cbn [snd fst after] in *; subst l3.
  - destruct (setProgress_run this (PNum 100) s3) as (r & -> & Hok & Hthrow).
    cbn [after fst snd].
    exists (l1 ++ l2), n, [EvProgress (PNum 100)].
    split; [by rewrite <- !app_assoc|].
    split; [by apply Forall_app|]. split; [exact Hn|]. right.
    split; [done|]. split; [by apply Hall|].
    destruct (accepts this (st_published s3) (PNum 100)); auto.
  - exists (l1 ++ l2), n, [].
    split; [by rewrite app_nil_r, <- !app_assoc|].
    split; [by apply Forall_app|]. split; [exact Hn | auto].
  - exists (l1 ++ l2), n, [].
    split; [by rewrite app_nil_r, <- !app_assoc|].
    split; [by apply Forall_app|]. split; [exact Hn | auto].
Qed.

Lemma publicProgressValue_undefined count size :
  publicProgressValue count size None = None.
Proof. reflexivity. Qed.

Lemma silent_insertNewPublicDataToDb_undefined this fuel :
  emitsOnly silent (insertNewPublicDataToDb this fuel None).
Proof.
  unfold insertNewPublicDataToDb.
  apply emitsOnly_bind; [apply silent_checkNewPublicData|]. intros m.
  apply emitsOnly_bind; [|intros _; apply emitsOnly_ret].
  apply emitsOnly_forCount. intros [method item] count.
  apply emitsOnly_bind; [apply silent_updateApiDataArrObjTypeToDb|].
  intros _.
  apply emitsOnly_bind; [apply silent_updateApiDataArrTypeToDb|].
  intros _.
  apply emitsOnly_bind; [apply silent_insertApiDataPublicArrObjTypeToDb|].
  intros _. rewrite publicProgressValue_undefined.
  apply emitsOnly_bind; intros; apply emitsOnly_ret.
Qed.

(** The pass of an account without keys: the marker, and nothing
    else. *)
Lemma keyless_pass this fuel a u s :
  keyless a →
  ∃ r, insertNewDataToDb this fuel (Some a) u s
       = (r, progressed s, [EvProgress MESS_ERR_UNAUTH])
       ∧ (accepts this (st_published s) MESS_ERR_UNAUTH = true → r = Ok None)
       ∧ (accepts this (st_published s) MESS_ERR_UNAUTH = false →
          isObserverError r).
Proof.
  intros Hkeys.
  assert (Hpass : insertNewDataToDb this fuel (Some a) u s
                  = (let* _ := setProgress this MESS_ERR_UNAUTH in ret None) s).
  { unfold insertNewDataToDb.
    destruct Hkeys as [Hk|Hk]; rewrite Hk; [done|]. by destruct (apiKey a). }
  rewrite Hpass, bind_run.
  destruct (setProgress_run this MESS_ERR_UNAUTH s) as (r & -> & Hok & Hthrow).
  destruct (accepts this (st_published s) MESS_ERR_UNAUTH).
  - rewrite (Hok eq_refl). exists (Ok None). by repeat split.
  - destruct (Hthrow eq_refl) as [-> | [i ->]].
    + exists (Throw HandlerError). repeat split; [done|]. intros _. by left.
    + exists (Throw (ListenerError i)). repeat split; [done|].
      intros _. right. by exists i.
Qed.

Lemma keyless_loop this fuel size items :
  Forall (λ item, ∃ a, snd item = ItemObj a ∧ keyless a) items →
  ∀ count progress s,
    ∃ k r,
      insertNewDataToDbMultiUser_loop this fuel size items count progress s
      = (r, Nat.iter k progressed s,
         replicate k (EvProgress MESS_ERR_UNAUTH))
      ∧ (r = Ok (if items is [] then progress else None)
         ∧ k = length items
         ∨ isObserverError r
           ∧ (0 < k ≤ length items)%nat
           ∧ ¬ ∀ n, accepts this n MESS_ERR_UNAUTH = true).
Proof.
  induction 1 as [|[key item] items (a & Ha & Hkeys) _ IH];
    intros count progress s.
  { exists 0%nat, (Ok progress). split; [reflexivity | by left]. }
  cbn [insertNewDataToDbMultiUser_loop]. cbn [snd] in *. subst item.
  rewrite bind_run.
  destruct (keyless_pass this fuel a (js_div (count + 1) size) s Hkeys)
    as (r & -> & Hok & Hthrow).
  destruct (accepts this (st_published s) MESS_ERR_UNAUTH) eqn:Hacc.
  - rewrite (Hok eq_refl). cbn [after].
    destruct (IH (count + 1) None (progressed s)) as (k & r' & -> & Hr).
    exists (S k), r'. split.
    + cbn [after replicate]. by rewrite Nat.iter_succ_r.
    + destruct Hr as [[-> ->] | (Herr & Hk & Hnot)].
      * left. split; [|done]. by destruct items.
      * right. split; [exact Herr|]. split; [cbn [length]; lia | exact Hnot].
  - exists 1%nat, r. split.
    + by destruct (Hthrow eq_refl) as [-> | [i ->]].
    + right. split; [by apply Hthrow|]. split; [cbn [length]; lia|].
      intros Hall. by rewrite Hall in Hacc.
Qed.

Lemma requestsOf_replicate_progress n p :
  requestsOf (replicate n (EvProgress p)) = [].
Proof. induction n as [|n IH]; [done|exact IH]. Qed.

Lemma requestsOf_hooks l : requestsOf (EvHook <$> l) = [].
Proof. induction l as [|i l IH]; [done|exact IH]. Qed.

Lemma progressOf_replicate n p :
  progressOf (replicate n (EvProgress p)) = replicate n p.
Proof. induction n as [|n IH]; cbn; [done|]. by f_equal. Qed.

(** X23.  Accounts without keys.  When every stored account lacks an
    API key or an API secret, a run passes ERR_AUTH_UNAUTHORIZED to
    [setProgress] once for each of them, as long as no observer
    throws, and makes no request for them.  When an observer throws
    at one of these calls the run stops there, with that error and
    without any request.  Otherwise the requests of the run are those
    of the public pass, started with an undefined progress, during
    which no value is passed; the only number of the run is the
    closing 100, which is passed when the run returns. *)
Theorem keyless_accounts_publish_no_number this fuel s items :
  getAuthFromDb (st_db s) = AuthMap items →
  items ≠ [] →
  Forall (λ item, ∃ a, snd item = ItemObj a ∧ keyless a) items →
  let out := insertNewDataToDbMultiUser this fuel s in
  ∃ k final,
    (0 < k ≤ length items)%nat
    ∧ progressOf (snd out) = replicate k MESS_ERR_UNAUTH ++ final
    ∧ (final = [] ∨ final = [PNum 100] ∧ k = length items)
    ∧ (fst (fst out) = Ok tt → k = length items ∧ final = [PNum 100])
    ∧ (requestsOf (snd out) = [] ∧ isObserverError (fst (fst out))
       ∨ k = length items
         ∧ requestsOf (snd out)
           = requestsOf
               (snd (insertNewPublicDataToDb this fuel None
                       (Nat.iter (length items) progressed s))))
    ∧ ((∀ n, accepts this n MESS_ERR_UNAUTH = true) →
       k = length items
       ∧ requestsOf (snd out)
         = requestsOf
             (snd (insertNewPublicDataToDb this fuel None
                     (Nat.iter (length items) progressed s)))).
Proof.
  intros Hauth Hne Hkeys. cbn zeta.
  unfold insertNewDataToDbMultiUser. rewrite bind_run.
  cbn [get after]. rewrite after_nil, Hauth.
  destruct items as [|item items]; [done|].
  rewrite bind_run.
  destruct (keyless_loop this fuel (len (item :: items)) _ Hkeys 0 (Some 0) s)
    as (k & r & -> & [[-> ->] | (Herr & Hk & Hnot)]).
  2:{ exists k, [].
      assert (Hobs : isObserverError (@Throw _ unit HandlerError)
                     ∧ ∀ i, isObserverError (@Throw _ unit (ListenerError i))).
      { split; [by left|]. intros i. right. by exists i. }
      destruct Hobs as [Hhandler Hlistener].
      destruct Herr as [-> | [i ->]]; cbn [fst snd];
        rewrite app_nil_r, progressOf_replicate,
          requestsOf_replicate_progress;
        (split; [exact Hk|]; split; [done|]; split; [by left|];
         split; [done|]; split; [left; split; [done | auto]|];
         intros Hall; by destruct Hnot). }
  cbn [after]. set (n := length (item :: items)).
  set (s1 := Nat.iter n progressed s).
  exists n. rewrite bind_run.
  pose proof (silent_insertNewPublicDataToDb_undefined this fuel s1) as H2.
  assert (Hn : (0 < n ≤ n)%nat) by (unfold n; cbn [length]; lia).
  destruct (insertNewPublicDataToDb this fuel None s1)
    as [[[[]|e|] s2] l2]; cbn [snd fst after] in *;
    try by (exists []; rewrite progressOf_app, requestsOf_app,
              progressOf_replicate, requestsOf_replicate_progress,
              (silent_progressOf _ H2), !app_nil_r;
            split; [exact Hn|]; split; [done|]; split; [by left|];
            split; [done|]; split; [by right | done]).
  rewrite bind_run.
  pose proof (silent_afterAllInserts this s2) as H3.
  destruct (_afterAllInserts_started this s2) as (m & _ & Hstarted & _).
  assert (Hreq : requestsOf (snd (_afterAllInserts this s2)) = []).
  { rewrite Hstarted. apply requestsOf_hooks. }
  clear Hstarted.
  destruct (_afterAllInserts this s2) as [[[[]|e|] s3] l3];
    cbn [snd fst after] in *;
    try by (exists []; rewrite !progressOf_app, !requestsOf_app,
              progressOf_replicate, requestsOf_replicate_progress,
              (silent_progressOf _ H2), (silent_progressOf _ H3), Hreq,
              !app_nil_r;
            split; [exact Hn|]; split; [done|]; split; [by left|];
            split; [done|]; split; [by right | done]).
  destruct (setProgress_run this (PNum 100) s3) as (r & -> & _).
  cbn [after fst snd]. exists [PNum 100].
  rewrite !progressOf_app, !requestsOf_app, progressOf_replicate,
    requestsOf_replicate_progress, (silent_progressOf _ H2),
    (silent_progressOf _ H3), Hreq. cbn. rewrite !app_nil_r.
  split; [exact Hn|]. split; [done|]. split; [by right|].
  split; [done|]. split; [by right | done].
Qed.

End OrderOfARun.
Section Detector.
Context `{Env}.

Lemma state_after {A} l (x : result A * state * list event) :
  snd (fst (after l x)) = snd (fst x).
Proof. by destruct x as [[r s] l']. Qed.

Lemma start_push_run schema entry s sc l :
  st_heap s !! schema = Some sc → start sc = StartArr l →
  start_push schema entry s
  = (Ok tt,
     setHeap (<[schema := set_start (StartArr (l ++ [entry])) sc]>
                (st_heap s)) s,
     []).
Proof.
  intros Hsc Hl. unfold start_push.
  rewrite bind_run, (readSchema_run _ _ _ Hsc). cbn [after].
  rewrite Hl, after_nil. by apply writeSchema_run.
Qed.

Lemma flag_and_push_run schema entry s sc l :
  st_heap s !! schema = Some sc → start sc = StartArr l →
  (run writeSchema schema (set_hasNewData true) in
   start_push schema entry) s
  = (Ok tt,
     setHeap (<[schema := set_start (StartArr (l ++ [entry]))
                            (set_hasNewData true sc)]> (st_heap s)) s,
     []).
Proof.
  intros Hsc Hl.
  rewrite bind_run, (writeSchema_run _ _ _ _ Hsc). cbn [after].
  rewrite after_nil.
  erewrite start_push_run;
    [|cbn; apply lookup_insert_eq|cbn; exact Hl].
  cbn. unfold setHeap. cbn. by rewrite insert_insert_eq.
Qed.

Lemma set_hasNewData_same sc : set_hasNewData (hasNewData sc) sc = sc.
Proof. by destruct sc. Qed.

Lemma _checkNewConfigurablePublicData_symbol_run
      this method schema sc e s cur l :
  st_heap s !! schema = Some cur → start cur = StartArr l →
  let s' :=
    snd (fst (_checkNewConfigurablePublicData_symbol this method schema
                sc e s)) in
  st_db s' = st_db s
  ∧ (st_heap s' = st_heap s
     ∨ ∃ dates b,
         st_heap s'
         = <[schema := set_start (StartArr (l ++ [(conf_symbol e, dates)]))
                         (set_hasNewData b cur)]> (st_heap s)).
Proof.
  intros Hcur Hl. cbn zeta.
  unfold _checkNewConfigurablePublicData_symbol.
  rewrite bind_run, _getMethodArgMap_limit. cbn [after].
  rewrite after_nil, bind_run. cbn [get after]. rewrite after_nil, bind_run.
  destruct (_getDataFromApi _ _ _ s) as [[r s1] l1] eqn:Hrun.
  apply _getDataFromApi_events in Hrun as (_ & Hdb & Hheap).
  assert (Hcur1 : st_heap s1 !! schema = Some cur) by by rewrite Hheap.
  destruct r as [v|x|]; cbn [fst snd]; [|by auto..].
  rewrite state_after, bind_run.
  destruct v as [res nextPage|[]]; cbn [destructurePage ret throw after fst snd];
    try by auto.
  rewrite after_nil.
  destruct (_ || _); [cbn; by auto|].
  destruct (isEmptyElem _).
  { rewrite (flag_and_push_run _ _ _ _ _ Hcur1 Hl). cbn.
    split; [done|]. right. rewrite Hheap. eauto. }
  rewrite bind_run.
  destruct (truthy (compareElemsDbAndApi _ _ res)) as [d|].
  - rewrite (writeSchema_run _ _ _ _ Hcur1). cbn [after].
    rewrite after_nil, bind_run. cbn [get after]. rewrite after_nil.
    cbn [st_db setHeap].
    destruct (if isEmptyElem _ then None else _) as [c|].
    + erewrite flag_and_push_run;
        [|cbn; apply lookup_insert_eq|cbn; exact Hl].
      cbn. split; [done|]. right. rewrite Hheap, insert_insert_eq. eauto.
    + erewrite start_push_run;
        [|cbn; apply lookup_insert_eq|cbn; exact Hl].
      cbn. split; [done|]. right. rewrite Hheap, insert_insert_eq. eauto.
  - cbn [ret after]. rewrite after_nil, bind_run. cbn [get after].
    rewrite after_nil.
    destruct (if isEmptyElem _ then None else _) as [c|].
    + rewrite (flag_and_push_run _ _ _ _ _ Hcur1 Hl). cbn.
      split; [done|]. right. rewrite Hheap. eauto.
    + rewrite (start_push_run _ _ _ _ _ Hcur1 Hl). cbn.
      split; [done|]. right. rewrite Hheap.
      eexists _, (hasNewData cur). by rewrite set_hasNewData_same.
Qed.

Lemma detector_loop this method schema sc confs :
  ∀ s cur l,
    st_heap s !! schema = Some cur → start cur = StartArr l →
    let s' :=
      snd (fst (forEach confs
                  (_checkNewConfigurablePublicData_symbol this method
                     schema sc) s)) in
    st_db s' = st_db s
    ∧ ∃ added b,
        st_heap s'
        = <[schema := set_start (StartArr (l ++ added))
                        (set_hasNewData b cur)]> (st_heap s)
        ∧ added.*1 `sublist_of` (conf_symbol <$> confs)
        ∧ (added = [] → b = hasNewData cur).
Proof.
  induction confs as [|e confs IH]; intros s cur l Hcur Hl; cbn zeta.
  - cbn. split; [done|]. exists [], (hasNewData cur).
    rewrite app_nil_r, <- Hl, set_hasNewData_same.
    split; [|done].
    replace (set_start (start cur) cur) with cur by by destruct cur.
    by rewrite insert_id.
  - cbn [forEach]. rewrite bind_run.
    pose proof (_checkNewConfigurablePublicData_symbol_run
                  this method schema sc e s cur l Hcur Hl) as Hstep.
    cbn zeta in Hstep.
    destruct (_checkNewConfigurablePublicData_symbol _ _ _ _ _ s)
      as [[r s1] l1]. cbn [fst snd] in Hstep.
    destruct Hstep as (Hdb & [Hheap|(dates & b & Hheap)]).
    + assert (Hcur1 : st_heap s1 !! schema = Some cur) by by rewrite Hheap.
      specialize (IH s1 cur l Hcur1 Hl). cbn zeta in IH.
      destruct r as [[]|x|]; cbn [fst snd].
      * rewrite state_after.
        destruct IH as (Hdb' & added & b & Hh & Hsub & Hb).
        split; [congruence|]. exists added, b.
        rewrite Hh, Hheap. split; [done|]. split; [|done].
        by apply sublist_cons.
      * split; [done|]. exists [], (hasNewData cur).
        rewrite app_nil_r, <- Hl, set_hasNewData_same, Hheap.
        replace (set_start (start cur) cur) with cur by by destruct cur.
        rewrite insert_id by done.
        split; [done|]. split; [apply sublist_nil_l|done].
      * split; [done|]. exists [], (hasNewData cur).
        rewrite app_nil_r, <- Hl, set_hasNewData_same, Hheap.
        replace (set_start (start cur) cur) with cur by by destruct cur.
        rewrite insert_id by done.
        split; [done|]. split; [apply sublist_nil_l|done].
    + set (entry := (conf_symbol e, dates)) in *.
      set (cur1 := set_start (StartArr (l ++ [entry])) (set_hasNewData b cur))
        in *.
      assert (Hcur1 : st_heap s1 !! schema = Some cur1)
        by (rewrite Hheap; apply lookup_insert_eq).
      specialize (IH s1 cur1 (l ++ [entry]) Hcur1 eq_refl). cbn zeta in IH.
      destruct r as [[]|x|]; cbn [fst snd].
      * rewrite state_after.
        destruct IH as (Hdb' & added & b' & Hh & Hsub & _).
        split; [congruence|]. exists (entry :: added), b'.
        rewrite Hh, Hheap, insert_insert_eq, <- app_assoc.
        split; [done|]. split; [|done].
        cbn. by apply sublist_skip.
      * split; [done|]. exists [entry], b.
        split; [exact Hheap|]. split; [|done].
        cbn. apply sublist_skip, sublist_nil_l.
      * split; [done|]. exists [entry], b.
        split; [exact Hheap|]. split; [|done].
        cbn. apply sublist_skip, sublist_nil_l.
Qed.

(** X24.  The detector of the configurable public collections only
    appends.  Whatever the gateway answers and however the call ends,
    [_checkNewConfigurablePublicData] leaves the storage alone and
    changes the schema object it is run on, and no other, in two
    properties only: [start], onto which it pushes at most one entry
    for each configured symbol, in the order of the configuration and
    after the entries that were there, none of which is removed or
    rewritten; and [hasNewData], which it leaves true only when it
    has pushed an entry. *)
Theorem detector_only_appends this method schema s sc l :
  st_heap s !! schema = Some sc →
  start sc = StartArr l →
  let s' :=
    snd (fst (_checkNewConfigurablePublicData this method schema s)) in
  st_db s' = st_db s
  ∧ ∃ added newData,
      st_heap s'
      = <[schema := set_start (StartArr (l ++ added))
                      (set_hasNewData newData sc)]> (st_heap s)
      ∧ added.*1 `sublist_of`
          (conf_symbol
             <$> getElemsInCollBy (st_db s) "publicCollsConf" (confName sc))
      ∧ (newData = true → added ≠ []).
Proof.
  intros Hsc Hl. cbn zeta. unfold _checkNewConfigurablePublicData.
  rewrite bind_run, (writeSchema_run _ _ _ _ Hsc). cbn [after].
  rewrite after_nil, bind_run.
  erewrite readSchema_run by (cbn; apply lookup_insert_eq).
  cbn [after]. rewrite after_nil, bind_run. cbn [get after].
  rewrite after_nil. cbn [st_db setHeap confName set_hasNewData].
  match goal with
  | |- context [forEach ?confs ?body ?s0] =>
      pose proof (detector_loop this method schema
                    (set_hasNewData false sc) confs s0
                    (set_hasNewData false sc) l) as Hloop
  end.
  cbn zeta in Hloop.
  destruct Hloop as (Hdb & added & b & Hh & Hsub & Hb);
    [cbn; apply lookup_insert_eq|exact Hl|].
  split; [exact Hdb|]. exists added, b.
  split; [|split; [exact Hsub|]].
  - rewrite Hh. cbn. by rewrite insert_insert_eq.
  - intros -> ->. by specialize (Hb eq_refl).
Qed.

End Detector.

(* ================================================================= *)
(** * The window of a fetch pass *)

Section Windows.
Context `{Env}.

Lemma Forall_requestsOf (P Q : event → Prop) evs :
  (∀ e, isRequest e = true → P e → Q e) →
  Forall P evs → Forall Q (requestsOf evs).
Proof.
  intros HPQ. unfold requestsOf.
  induction 1 as [|e evs He _ IH]; cbn; [constructor|].
  destruct (isRequest e) eqn:Hreq; [|exact IH].
  constructor; [by apply HPQ|exact IH].
Qed.

Lemma set_end_set_end e1 e2 a : set_end e1 (set_end e2 a) = set_end e1 a.
Proof. reflexivity. Qed.

Lemma pages_insertApiDataArrObjTypeToDb_loop
      methodApi collName dateFieldName model isPublic _args base :
  ∀ fuel curr count serial,
    (∃ end_, curr = set_end end_ base) →
    emitsOnly (λ e, isRequest e = true → pagesThrough methodApi base e)
      (_insertApiDataArrObjTypeToDb_loop fuel methodApi collName
         dateFieldName model isPublic _args curr count serial).
Proof.
  induction fuel as [|fuel IH]; intros curr count serial [e0 ->];
    cbn [_insertApiDataArrObjTypeToDb_loop]; [apply emitsOnly_out_of_fuel|].
  apply emitsOnly_bind;
    [apply scoped_getDataFromApi; [by exists e0|done]|].
  intros v. unfold dao_insertElemsToDb.
  scoped_steps ltac:(done); apply IH; rewrite ?set_end_set_end;
    repeat match goal with
           | |- context [match ?x with _ => _ end] => destruct x
           end;
    eauto.
Qed.

Lemma pages_insertApiDataArrObjTypeToDb fuel args methodApi schema isPublic :
  emitsOnly
    (λ e, isRequest e = true
          → pagesThrough methodApi (set_notThrowError args) e)
    (_insertApiDataArrObjTypeToDb fuel args methodApi schema isPublic).
Proof.
  unfold _insertApiDataArrObjTypeToDb.
  scoped_steps ltac:(done).
  apply pages_insertApiDataArrObjTypeToDb_loop.
  exists (params_end (args_params args)). by destruct args as [? []].
Qed.

(** X26.  Only the end of the window moves.  Every request of a pass
    of [_insertApiDataArrObjTypeToDb] is made for the method of the
    pass, with the credentials, the start, the record limit and the
    symbol it was given, and with errors suppressed
    ([notThrowError]): from one request to the next the pass changes
    nothing but [end]. *)
Theorem only_the_end_moves fuel args methodApi schema isPublic s :
  Forall (pagesThrough methodApi (set_notThrowError args))
    (requestsOf
       (snd (_insertApiDataArrObjTypeToDb fuel args methodApi schema
               isPublic s))).
Proof.
  apply (Forall_requestsOf
           (λ e, isRequest e = true
                 → pagesThrough methodApi (set_notThrowError args) e));
    [auto|].
  apply pages_insertApiDataArrObjTypeToDb.
Qed.

(** X27.  A fetch of a configurable public collection keeps to its
    symbol.  Every request of [_insertConfigurablePublicApiData]
    asks for the symbol of the entry, with blank credentials, for
    ten million records at most, from the start of one of the two
    ranges of the entry on: [currStart], or [baseStartFrom] when the entry
    has [baseStartTo] as well.  An entry with neither range makes no
    request. *)
Theorem configurable_fetch_keeps_to_its_symbol
        this fuel methodApi schema symbol dates s :
  Forall
    (λ e, ∃ start,
        pagesThrough methodApi (symbolWindow symbol start) e
        ∧ (currStart dates = Some start
           ∨ baseStartFrom dates = Some start
             ∧ is_Some (baseStartTo dates)))
    (requestsOf
       (snd (_insertConfigurablePublicApiData this fuel methodApi schema
               symbol dates s))).
Proof.
  apply (Forall_requestsOf
           (λ e, isRequest e = true →
                 ∃ start,
                   pagesThrough methodApi (symbolWindow symbol start) e
                   ∧ (currStart dates = Some start
                      ∨ baseStartFrom dates = Some start
                        ∧ is_Some (baseStartTo dates))));
    [auto|].
  revert s.
  match goal with
  | |- ∀ s, Forall ?P (snd (?m s)) => change (emitsOnly P m)
  end.
  unfold _insertConfigurablePublicApiData.
  destruct dates as [from to curr]. cbn [baseStartFrom baseStartTo currStart].
  assert (Hpass : ∀ st (end_ : option (option Z)),
            (curr = Some st ∨ from = Some st ∧ is_Some to) →
            emitsOnly
              (λ e, isRequest e = true →
                    ∃ start,
                      pagesThrough methodApi (symbolWindow symbol start) e
                      ∧ (curr = Some start
                         ∨ from = Some start ∧ is_Some to))
              (let* args :=
                 _getMethodArgMap this methodApi None (Some 10000000)
                   (Some (StartNum st)) end_ in
               let args := set_symbol (Some symbol) args in
               _insertApiDataArrObjTypeToDb fuel args methodApi schema true)).
  { intros st end_ Hst. intros s0. rewrite bind_run, _getMethodArgMap_limit.
    cbn [after]. rewrite after_nil.
    eapply Forall_impl; [apply pages_insertApiDataArrObjTypeToDb|].
    intros e He Hreq. exists st. split; [|exact Hst].
    destruct (He Hreq) as [e0 ->]. by exists e0. }
  apply emitsOnly_bind.
  - destruct from as [f|]; [|apply emitsOnly_ret].
    destruct to as [t|]; [|apply emitsOnly_ret].
    apply Hpass. right. eauto.
  - intros _. destruct curr as [c|]; [|apply emitsOnly_ret].
    apply Hpass. by left.
Qed.

End Windows.
(* ================================================================= *)
(** * The title of an HTML answer, and values that are not errors *)

Section TitleFacts.
Import Responder MoreResponder.

Lemma literal_split p : ∀ s r,
  literal p s = Some r → ∃ u, s = (u ++ r)%string ∧ spells p u.
Proof.
  unfold spells.
  induction p as [|a p IH]; intros s r Hs; cbn in Hs.
  - exists EmptyString. by inversion Hs.
  - destruct s as [|b s]; [done|].
    destruct (Ascii.eqb a (lower b)) eqn:Hab; [|done].
    destruct (IH _ _ Hs) as (u & -> & Hu).
    exists (String b u). split; [done|]. cbn. by rewrite Hab.
Qed.

Lemma literal_gt s r : literal ">" s = Some r → s = (">" ++ r)%string.
Proof.
  destruct s as [|b s]; [done|].
  destruct b as [[] [] [] [] [] [] [] []]; cbn; intros Hs;
    first [discriminate | by injection Hs as ->].
Qed.

Lemma dotStar_split {A} (k : string → option A) : ∀ s m a,
  dotStar k s = Some (m, a) →
  ∃ rest, s = (m ++ rest)%string ∧ oneLine m = true ∧ k rest = Some a.
Proof.
  assert (Hstop : ∀ s m a,
            (λ a, (EmptyString, a)) <$> k s = Some (m, a) →
            ∃ rest, s = (m ++ rest)%string ∧ oneLine m = true
                    ∧ k rest = Some a).
  { intros s m a Hk. destruct (k s) as [a'|] eqn:Hks; [|done].
    inversion Hk; subst. by exists s. }
  induction s as [|c s IH]; intros m a Hs; cbn in Hs; [by apply Hstop|].
  destruct (isLineTerminator c) eqn:Hc; [by apply Hstop|].
  destruct (dotStar k s) as [[m' a']|]; [|by apply Hstop].
  inversion Hs; subst.
  destruct (IH _ _ eq_refl) as (rest & -> & Hm & Hk).
  exists rest. split; [done|]. split; [|done]. cbn. by rewrite Hc.
Qed.

Lemma anywhere_split {A} (k : string → option A) : ∀ s a,
  anywhere k s = Some a →
  ∃ before rest, s = (before ++ rest)%string ∧ k rest = Some a.
Proof.
  induction s as [|c s IH]; intros a Hs; cbn in Hs.
  - destruct (k EmptyString) eqn:Hk; [|done].
    exists EmptyString, EmptyString. split; [done|]. congruence.
  - destruct (k (String c s)) eqn:Hk.
    + exists EmptyString, (String c s). split; [done|]. congruence.
    + destruct (IH _ Hs) as (before & rest & -> & Hr).
      by exists (String c before), rest.
Qed.

(** X25.  The title that [_findHtmlTitle] returns is cut out of the
    answer: the answer holds, in this order, the text [<title] in any
    letter case, further characters, [>], the title, the text
    [</title] in any letter case, further characters and [>], and
    neither the title nor the further characters hold a line
    terminator.  The details of the upstream answer that go to the
    log and to the client thus carry one line of the page. *)
Theorem title_is_cut_from_the_page res title :
  _findHtmlTitle res = Success title →
  ∃ before opening attrs closing more rest,
    res = (before ++ opening ++ attrs ++ ">" ++ title
           ++ closing ++ more ++ ">" ++ rest)%string
    ∧ spells "<title" opening ∧ spells "</title" closing
    ∧ oneLine attrs = true ∧ oneLine title = true ∧ oneLine more = true.
Proof.
  unfold _findHtmlTitle.
  destruct (matchHtmlTitle res) as [body|] eqn:Hm; [|done].
  intros [= ->]. unfold matchHtmlTitle in Hm.
  apply anywhere_split in Hm as (before & s & -> & Hs).
  destruct (literal "<title" s) as [s0|] eqn:H0; [|done].
  apply literal_split in H0 as (opening & -> & Hopening).
  cbn [mbind option_bind] in Hs.
  destruct (dotStar _ s0) as [[attrs [body more_rest]]|] eqn:H1; [|done].
  cbn in Hs. injection Hs as ->.
  apply dotStar_split in H1 as (s1 & -> & Hattrs & H1).
  destruct (literal ">" s1) as [s2|] eqn:H2; [|done].
  apply literal_gt in H2 as ->. cbn [mbind option_bind] in H1.
  apply dotStar_split in H1 as (s3 & -> & Htitle & H3).
  destruct (literal "</title" s3) as [s4|] eqn:H4; [|done].
  apply literal_split in H4 as (closing & -> & Hclosing).
  cbn [mbind option_bind] in H3.
  destruct more_rest as [more rest'].
  apply dotStar_split in H3 as (s5 & -> & Hmore & H5).
  apply literal_gt in H5 as ->.
  exists before, opening, attrs, closing, more, rest'.
  repeat split; try done.
Qed.


End TitleFacts.

(** ** What an error envelope tells *)

Section EnvelopeFacts.
Import Responder MoreResponder.

Lemma _getErrorMetadata_status h args o m :
  _getErrorMetadata h args (VObj o) = Success m →
  (statusMessage o = Some (meta_message m)
   ∨ meta_message m ∈ assignedMessages args)
  ∧ (statusCode o = Some (meta_code m) ∨ meta_code m ∈ assignedCodes)
  ∧ statusMessage (meta_error m) = Some (meta_message m)
  ∧ statusCode (meta_error m) = Some (meta_code m)
  ∧ instanceofError (meta_error m) = instanceofError o.
Proof.
  unfold _getErrorMetadata.
  destruct (_getErrorWithMetadataForNonBaseError h args (VObj o))
    as [o'|] eqn:Ho'; [|done].
  destruct (_getBfxApiErrorMetadata (VObj o)); [|done].
  intros [= <-]. cbn [meta_message meta_code meta_error withData withStatus
                      statusMessage statusCode instanceofError].
  assert (Hfacts :
    (statusMessage o' = statusMessage o
     ∨ ∃ msg, statusMessage o' = Some msg ∧ msg ∈ assignedMessages args)
    ∧ (statusCode o' = statusCode o
       ∨ ∃ c, statusCode o' = Some c ∧ c ∈ assignedCodes)
    ∧ instanceofError o' = instanceofError o).
  { cbn in Ho'.
    repeat match type of Ho' with
           | context [if ?b then _ else _] => destruct b
           | context [match ?x with _ => _ end] => destruct x
           end;
      try discriminate; injection Ho' as <-; cbn;
      (split; [|split; [|done]]);
      first [by left
            | right; eexists; split; [done|];
              unfold assignedMessages, assignedCodes;
              apply list_elem_of_In; cbn; auto 10]. }
  assert (Hdefault : "Internal Server Error" ∈ assignedMessages args)
    by (unfold assignedMessages; apply list_elem_of_In; cbn; auto 10).
  assert (H500 : 500 ∈ assignedCodes)
    by (unfold assignedCodes; apply list_elem_of_In; cbn; auto 10).
  destruct Hfacts as (Hmsg & Hcode & Hi).
  split; [|split; [|done]].
  - destruct Hmsg as [->|(msg & -> & Hin)]; [|by right].
    destruct (statusMessage o); [by left|by right].
  - destruct Hcode as [->|(c & -> & Hin)]; [|by right].
    destruct (statusCode o); [by left|by right].
Qed.

(** X28.  The message of an error envelope is a status message, not
    the text of the error.  When the handler throws, or rejects with,
    an instance of [Error] and the callback is called, it is called
    with an error envelope whose [message] is the [statusMessage] that
    the error came with or one of the six messages that the responder
    assigns, and whose [code] is the [statusCode] that the error came
    with or 401, 409 or 500; the [message] property of the error is
    never put there. *)
Theorem envelope_message_is_a_status_message h ws name args o handler env :
  instanceofError o = true →
  handler = Throws (VObj o) ∨ handler = Rejects (VObj o) →
  calls (responder h ws handler name args true) = [(VNull, env)] →
  ∃ code_ message_ data_ id_,
    env = ErrorEnvelope "2.0" code_ message_ data_ id_
    ∧ (statusMessage o = Some message_
       ∨ message_ ∈ assignedMessages args)
    ∧ (statusCode o = Some code_ ∨ code_ ∈ assignedCodes).
Proof.
  intros He Hhandler.
  assert (Hanswer : ∀ raise,
    (∀ t logs, calls (raise t logs) = []) →
    calls (answerError h ws args name (VObj o) raise) = [(VNull, env)] →
    ∃ code_ message_ data_ id_,
      env = ErrorEnvelope "2.0" code_ message_ data_ id_
      ∧ (statusMessage o = Some message_
         ∨ message_ ∈ assignedMessages args)
      ∧ (statusCode o = Some code_ ∨ code_ ∈ assignedCodes)).
  { intros raise Hraise. unfold answerError, _logError.
    destruct (_getErrorMetadata h args (VObj o)) as [m|t] eqn:Hm;
      [|by rewrite Hraise].
    apply _getErrorMetadata_status in Hm
      as (Hmsg & Hcode & Hsm & Hsc & Hie).
    cbn [afterMetadata]. unfold _makeJsonRpcResponse.
    cbn [instanceofErrorValue]. rewrite Hie, He.
    destruct (_getErrorMetadata h args (VObj (meta_error m)))
      as [m2|t] eqn:Hm2; [|by rewrite Hraise].
    apply _getErrorMetadata_status in Hm2
      as (Hmsg2 & Hcode2 & _).
    cbn. intros [= <-]. eexists _, _, _, _. split; [done|].
    rewrite Hsm in Hmsg2. rewrite Hsc in Hcode2.
    split.
    - destruct Hmsg2 as [[= <-]|?]; [exact Hmsg|by right].
    - destruct Hcode2 as [[= <-]|?]; [exact Hcode|by right]. }
  destruct Hhandler as [-> | ->]; unfold responder; cbn [negb];
    by apply Hanswer.
Qed.

End EnvelopeFacts.

(* ================================================================= *)
(** * The further theorems at work *)

Import MoreScenarios.

Lemma pagination_bounded_witness :
  let out :=
    @_insertApiDataArrObjTypeToDb (envOf (paging sixRecords 2)) 6
      (window 2 0 10) "getTrades" 1%positive false
      (start0 (paging sixRecords 2)) in
  (2 * 2 + 2 ≤ Z.of_nat 6 → fst (fst out) ≠ OutOfFuel)
  ∧ Z.of_nat (length (requestsOf (snd out))) ≤ 23 * (2 * 2 + 2).
Proof.
  apply (@pagination_bounded (envOf (paging sixRecords 2)) 6
           (window 2 0 10) "getTrades" 1%positive false
           (start0 (paging sixRecords 2)) 2);
    [reflexivity | lia].
Defined.

(** A run whose second hook returns a promise that is rejected: the
    run throws the error of that hook, after the values of the two
    accounts, and passes no 100. *)
Lemma hookedRun_throws :
  fst (fst hookedRun) = Throw (HookError 1)
  ∧ progressOf (snd hookedRun)
    = [PNum 17; PNum 33; PNum 50; PNum 33; PNum 67].
Proof. split; [reflexivity | by vm_compute]. Qed.

Lemma registered_hooks_all_run_witness :
  match addAll inserter
          [HookFn HookResolves; HookFn HookThrows; HookFn HookRejects] with
  | None =>
      forallb isFn
        [HookFn HookResolves; HookFn HookThrows; HookFn HookRejects]
      = false
  | Some this' =>
      forallb isFn
        [HookFn HookResolves; HookFn HookThrows; HookFn HookRejects]
      = true
      ∧ _methodCollMap this' = _methodCollMap inserter
      ∧ _afterAllInsertsHooks this'
        = [HookFn HookResolves; HookFn HookThrows; HookFn HookRejects]
      ∧ ∃ n, snd (@_afterAllInserts (envOf probeOnly) this'
                    (start0 probeOnly))
             = EvHook <$> seq 0 n
             ∧ (n ≤ 3)%nat
             ∧ ([HookFn HookResolves; HookFn HookThrows; HookFn HookRejects]
                ≠ [] → (0 < n)%nat)
             ∧ (Forall (λ h, h ≠ HookFn HookThrows)
                  [HookFn HookResolves; HookFn HookThrows;
                   HookFn HookRejects] →
                n = 3%nat)
             ∧ ∀ k,
                 [HookFn HookResolves; HookFn HookThrows; HookFn HookRejects]
                   !! k
                 = Some (HookFn HookThrows) →
                 (∀ j, (j < k)%nat →
                       [HookFn HookResolves; HookFn HookThrows;
                        HookFn HookRejects] !! j
                       ≠ Some (HookFn HookThrows)) →
                 n = S k
  end.
Proof.
  apply (@registered_hooks_all_run (envOf probeOnly) inserter
           [HookFn HookResolves; HookFn HookThrows; HookFn HookRejects]
           (start0 probeOnly)).
  reflexivity.
Defined.

Lemma keyless_accounts_publish_no_number_witness :
  let s := stateOf probeOnly keylessDb threeColls in
  let out :=
    @insertNewDataToDbMultiUser (envOf probeOnly) threeInserter 5 s in
  ∃ k final,
    (0 < k ≤ 2)%nat
    ∧ progressOf (snd out) = replicate k MESS_ERR_UNAUTH ++ final
    ∧ (final = [] ∨ final = [PNum 100] ∧ k = 2%nat)
    ∧ (fst (fst out) = Ok tt → k = 2%nat ∧ final = [PNum 100])
    ∧ (requestsOf (snd out) = [] ∧ isObserverError (fst (fst out))
       ∨ k = 2%nat
         ∧ requestsOf (snd out)
           = requestsOf
               (snd (@insertNewPublicDataToDb (envOf probeOnly)
                       threeInserter 5 None (Nat.iter 2 progressed s))))
    ∧ ((∀ n, accepts threeInserter n MESS_ERR_UNAUTH = true) →
       k = 2%nat
       ∧ requestsOf (snd out)
         = requestsOf
             (snd (@insertNewPublicDataToDb (envOf probeOnly)
                     threeInserter 5 None (Nat.iter 2 progressed s)))).
Proof.
  apply (@keyless_accounts_publish_no_number (envOf probeOnly)
           threeInserter 5 (stateOf probeOnly keylessDb threeColls)
           [("u1", ItemObj {| apiKey := Some "key1"; apiSecret := None |});
            ("u2", ItemObj {| apiKey := None; apiSecret := Some "secret2" |})]).
  - reflexivity.
  - discriminate.
  - repeat constructor.
    + eexists. split; [reflexivity|]. by right.
    + eexists. split; [reflexivity|]. by left.
Defined.

Lemma detector_only_appends_witness :
  let s := stateOf publicGateway confDb publicRegistry in
  let s' :=
    snd (fst (@_checkNewConfigurablePublicData (envOf publicGateway)
                publicInserter "getPublicTrades" 1%positive s)) in
  st_db s' = st_db s
  ∧ ∃ added newData,
      st_heap s'
      = <[1%positive := set_start (StartArr ([] ++ added))
                          (set_hasNewData newData publicTrades)]> (st_heap s)
      ∧ added.*1 `sublist_of`
          (conf_symbol
             <$> @getElemsInCollBy (envOf publicGateway) (st_db s)
                   "publicCollsConf" (confName publicTrades))
      ∧ (newData = true → added ≠ []).
Proof.
  apply (@detector_only_appends (envOf publicGateway) publicInserter
           "getPublicTrades" 1%positive
           (stateOf publicGateway confDb publicRegistry) publicTrades []);
    reflexivity.
Defined.

Section ResponderWitnesses.
Import Responder MoreResponder.

Lemma title_is_cut_from_the_page_witness :
  ∃ before opening attrs closing more rest,
    pageWithTitle
    = (before ++ opening ++ attrs ++ ">" ++ "502 Bad Gateway"
       ++ closing ++ more ++ ">" ++ rest)%string
    ∧ spells "<title" opening ∧ spells "</title" closing
    ∧ oneLine attrs = true ∧ oneLine "502 Bad Gateway" = true
    ∧ oneLine more = true.
Proof.
  apply (title_is_cut_from_the_page pageWithTitle "502 Bad Gateway").
  reflexivity.
Defined.


Lemma envelope_message_is_a_status_message_witness :
  ∃ code_ message_ data_ id_,
    ErrorEnvelope "2.0" 404 "Not Found" DataNull (VNum 1)
    = ErrorEnvelope "2.0" code_ message_ data_ id_
    ∧ (statusMessage notFound = Some message_
       ∨ message_ ∈ assignedMessages request1)
    ∧ (statusCode notFound = Some code_ ∨ code_ ∈ assignedCodes).
Proof.
  apply (envelope_message_is_a_status_message noHelpers false "getTrades"
           request1 notFound (Throws (VObj notFound))
           (ErrorEnvelope "2.0" 404 "Not Found" DataNull (VNum 1)));
    [reflexivity|by left|reflexivity].
Defined.

Lemma responder_result_envelope_witness :
  responder noHelpers false (Returns (VStr "pong")) "ping" request1 true
  = {| returned := ReturnsUndefined; thrown := None;
       calls := [(VNull,
                  ResultEnvelope "2.0" (VStr "pong")
                    (default VNull (request1 ≫= id)))];
       logged := []; unhandledRejection := None |}
  ∧ responder noHelpers false (Resolves (VStr "pong")) "ping" request1 true
    = {| returned := ReturnsUndefined; thrown := None;
         calls := [(VNull,
                    ResultEnvelope "2.0" (VStr "pong")
                      (default VNull (request1 ≫= id)))];
         logged := []; unhandledRejection := None |}.
Proof.
  apply (responder_result_envelope noHelpers false "ping" request1
           (VStr "pong")).
  reflexivity.
Defined.



End ResponderWitnesses.

Section FilterWitnesses.
Import Filter.
#[local] Existing Instance plainRuntime.

Lemma plainRuntime_distinct : distinctConditions.
Proof.
  unfold distinctConditions. cbn.
  refine (bool_decide_unpack (NoDup _) _). by vm_compute.
Qed.

Lemma and_filters_compose_witness :
  filterData (JArr ledger)
    (JObj 9 ([("currency", JStr "USD")]
             ++ [(GTE, JObj 8 [("amount", JNum 10)])]))
    JUndefined
  = Success (JArr [row 2 (JStr "usd") (JNum 70)])
  ↔ ∃ selected,
      filterData (JArr ledger) (JObj 7 [("currency", JStr "USD")]) JUndefined
      = Success selected
      ∧ filterData selected (JObj 6 [(GTE, JObj 8 [("amount", JNum 10)])])
          JUndefined
        = Success (JArr [row 2 (JStr "usd") (JNum 70)]).
Proof.
  apply (and_filters_compose (JArr ledger) 9 7 6
           [("currency", JStr "USD")]
           [(GTE, JObj 8 [("amount", JNum 10)])]); reflexivity.
Defined.

Lemma or_filter_ignores_other_keys_witness :
  filterData (JArr ledger)
    (JObj 9 [("amount", JNum 1000);
             (OR, JObj 8 [("amount", JNum 9); ("currency", JStr "USD")])])
    JUndefined
  = filterData (JArr ledger)
      (JObj 7 [(OR, JObj 8 [("amount", JNum 9); ("currency", JStr "USD")])])
      JUndefined.
Proof.
  apply (or_filter_ignores_other_keys (JArr ledger)
           (JObj 9 [("amount", JNum 1000);
                    (OR, JObj 8 [("amount", JNum 9);
                                    ("currency", JStr "USD")])])
           (JObj 8 [("amount", JNum 9); ("currency", JStr "USD")]) 7
           JUndefined);
    reflexivity.
Defined.

Lemma missing_field_is_not_selected_witness :
  Forall (λ item, _isNull (getProp item "currency") = false)
    [row 2 (JStr "usd") (JNum 70)].
Proof.
  apply (missing_field_is_not_selected ledger 9
           [(NE, JObj 8 [("currency", JStr "btc")])] JUndefined
           [row 2 (JStr "usd") (JNum 70)] "currency" (JStr "btc"));
    [reflexivity | reflexivity |].
  right. split; [exact plainRuntime_distinct|].
  exists 8%positive, [("currency", JStr "btc")].
  split; apply list_elem_of_here.
Defined.

Lemma null_operators_split_the_rows_witness :
  filterData (JArr ledger) (JObj 9 [(IS_NULL, JStr "currency")]) JUndefined
  = Success
      (JArr (List.filter (λ item, _isNull (getProp item "currency")) ledger))
  ∧ filterData (JArr ledger) (JObj 9 [(IS_NOT_NULL, JStr "currency")])
      JUndefined
    = Success
        (JArr
           (List.filter (λ item, negb (_isNull (getProp item "currency")))
              ledger)).
Proof.
  apply (null_operators_split_the_rows ledger 9 "currency" JUndefined);
    [discriminate | reflexivity | reflexivity | reflexivity].
Defined.

Lemma string_condition_ignores_case_witness :
  filterData (JArr ledger) (JObj 9 [("currency", JStr "btc")]) JUndefined
  = Success
      (JArr
         (List.filter
            (λ item,
               match getProp item "currency" with
               | JStr s =>
                   String.eqb (folded JUndefined s) (folded JUndefined "btc")
               | _ => false
               end)
            ledger)).
Proof.
  apply (string_condition_ignores_case ledger 9 "currency" "btc" JUndefined);
    reflexivity.
Defined.

Lemma numeric_range_is_inclusive_witness :
  filterData (JArr ledger)
    (JObj 9 [(GTE, JObj 8 [("amount", JNum 9)]);
             (LTE, JObj 7 [("amount", JNum 70)])])
    JUndefined
  = Success
      (JArr
         (List.filter
            (λ item,
               match getProp item "amount" with
               | JNum n => (9 <=? n) && (n <=? 70)
               | _ => false
               end)
            ledger)).
Proof.
  apply (numeric_range_is_inclusive ledger 9 8 7 "amount" 9 70 JUndefined);
    [exact plainRuntime_distinct | reflexivity | | reflexivity].
  repeat constructor.
Defined.

Lemma EQ_and_IN_are_the_bare_condition_witness :
  (isArray (JStr "usd") = false →
   _isOrOp (JObj 9 [(EQ, JObj 8 [("currency", JStr "usd")])]) = false →
   _isOrOp (JObj 7 [("currency", JStr "usd")]) = false →
   filterData (JArr ledger)
     (JObj 9 [(EQ, JObj 8 [("currency", JStr "usd")])]) JUndefined
   = filterData (JArr ledger) (JObj 7 [("currency", JStr "usd")]) JUndefined)
  ∧ (isArray (JStr "usd") = true →
     _isOrOp (JObj 9 [(IN, JObj 8 [("currency", JStr "usd")])]) = false →
     _isOrOp (JObj 7 [("currency", JStr "usd")]) = false →
     filterData (JArr ledger)
       (JObj 9 [(IN, JObj 8 [("currency", JStr "usd")])]) JUndefined
     = filterData (JArr ledger) (JObj 7 [("currency", JStr "usd")])
         JUndefined).
Proof.
  apply (EQ_and_IN_are_the_bare_condition (JArr ledger) 9 7 8 "currency"
           (JStr "usd") JUndefined);
    [exact plainRuntime_distinct | reflexivity].
Defined.

Lemma LIKE_needs_a_string_witness :
  filterData (JArr ledger)
    (JObj 9 [(LIKE, JObj 8 [("currency", JNum 5)])]) JUndefined
  = Failure TypeError.
Proof.
  apply (LIKE_needs_a_string (row 1 (JStr "BTC") (JNum 5))
           [row 2 (JStr "usd") (JNum 70); row 3 JNull (JNum 9)]
           9 8 "currency" (JNum 5) JUndefined);
    [exact plainRuntime_distinct | reflexivity | reflexivity].
Defined.

End FilterWitnesses.
